(** * NIR constant-expression evaluator: a shallow embedding

    This development embeds the constant-folding evaluator of the NIR
    intermediate representation (the generated C file
    [nir_constant_expressions.c]) and proves properties of a number of its
    per-opcode evaluators and of the opcode dispatcher.  The evaluators
    the statements below are about are embedded expression by expression;
    of every other evaluator the embedding keeps the shape all of them
    share (the switch on the bit size, the loop over the lanes, the store
    into the destination) and leaves the computed result open.

    Host model.  The evaluator is C code; integers are modelled as [Z]
    with the wrap-around of each C type written out:
    - a value of a [w]-bit unsigned type is a [Z] in [0, 2^w);
      a value of a [w]-bit signed type is a [Z] in [-2^(w-1), 2^(w-1)),
      two's complement;
    - operands narrower than [int] are promoted to the 32-bit [int] before
      any arithmetic, as C does; a conversion to a narrower type keeps the
      low bits;
    - the evaluators are embedded in the wrap-around reading: a signed
      addition, subtraction or multiplication at [int] or [int64_t] wraps,
      a shift is the mathematical shift reduced to the width of its type,
      and the quotient is the truncated quotient reduced to its type.
    C gives no behaviour to a signed operation that overflows, to a shift
    by a negative count or by the width or more, to a division by zero
    and to the division of the most negative value by -1.  Where the
    result of an evaluator depends on such an operation (a test made on
    an overflowed sum, a shift by a count taken from a source, a
    division) the wrap-around reading says nothing about the compiled
    evaluator; these evaluators are embedded a second time over checked
    operations (module [Strict]), and their properties are stated about
    that embedding.
    A [nir_const_value] (a C union of one scalar of every supported type)
    is modelled by its 64 bits on a little-endian host; each union member
    is a typed view of the low bits. *)

From Stdlib Require Import String ZArith List Bool Lia SpecFloat QArith Qabs Lqa.
From Stdlib Require Import Zbitwise.
Import ListNotations.
Local Open Scope Z_scope.

(** ** Fixed-width integers *)

Definition zext (w v : Z) : Z := v mod 2 ^ w.

Definition sext (w v : Z) : Z := (v + 2 ^ (w - 1)) mod 2 ^ w - 2 ^ (w - 1).

Inductive ctype : Type :=
| int8_t | int16_t | int32_t | int64_t
| uint8_t | uint16_t | uint32_t | uint64_t.

Definition sizeof (t : ctype) : Z :=
  match t with
  | int8_t | uint8_t => 1
  | int16_t | uint16_t => 2
  | int32_t | uint32_t => 4
  | int64_t | uint64_t => 8
  end.

Definition is_signed (t : ctype) : bool :=
  match t with
  | int8_t | int16_t | int32_t | int64_t => true
  | _ => false
  end.

(** Conversion of an integer value to type [t]. *)
Definition cast (t : ctype) (v : Z) : Z :=
  if is_signed t then sext (sizeof t * 8) v else zext (sizeof t * 8) v.

(** The type in which a binary operator computes when both operands have
    type [t]: the integer promotions take every type narrower than [int]
    to [int]. *)
Definition promote (t : ctype) : ctype :=
  match t with
  | int8_t | int16_t | uint8_t | uint16_t | int32_t => int32_t
  | uint32_t => uint32_t
  | int64_t => int64_t
  | uint64_t => uint64_t
  end.

(** [a + b], [a / b] and [a % b] in the wrap-around reading.  The reading
    is total: it gives 0 for a quotient by 0 and the wrapped quotient for
    the most negative value divided by -1, where C defines nothing and
    the division instruction of the usual targets faults. *)
Definition c_add (t : ctype) (a b : Z) : Z := cast (promote t) (a + b).
Definition c_div (t : ctype) (a b : Z) : Z := cast (promote t) (Z.quot a b).
Definition c_rem (t : ctype) (a b : Z) : Z := cast (promote t) (Z.rem a b).

(** [bool] to [int] and back. *)
Definition b2i (x : bool) : Z := if x then 1 else 0.
Definition i2b (z : Z) : bool := negb (z =? 0).

(** [#define MAX_UINT_FOR_SIZE(bits) (UINT64_MAX >> (64 - (bits)))] *)
Definition UINT64_MAX : Z := 2 ^ 64 - 1.
Definition MAX_UINT_FOR_SIZE (bits : Z) : Z := Z.shiftr UINT64_MAX (64 - bits).

(** [1ull << n] and [(1ull << n) - 1], in [unsigned long long]. *)
Definition shl_1ull (n : Z) : Z := cast uint64_t (Z.shiftl 1 n).
Definition sub_ull (a b : Z) : Z := cast uint64_t (a - b).

(** ** Constant values and vectors *)

(** Modelled from the spec: the declaration of [nir_const_value] (nir.h)
    is not part of the sources at hand.  It is a fixed-size union holding
    one scalar of any supported representation; the members are the ones
    the evaluators name ([b], [i8] .. [u64], [f32], [f64]), all at offset
    0 of the 64 bits. *)
Definition nir_const_value : Type := Z.

Definition get_field (t : ctype) (v : nir_const_value) : Z := cast t v.

Definition set_field (t : ctype) (x : Z) (v : nir_const_value)
  : nir_const_value :=
  v - zext (sizeof t * 8) v + zext (sizeof t * 8) x.

Definition i8 := get_field int8_t.
Definition u8 := get_field uint8_t.
Definition i16 := get_field int16_t.
Definition u16 := get_field uint16_t.
Definition i32 := get_field int32_t.
Definition u32 := get_field uint32_t.
Definition i64 := get_field int64_t.
Definition u64 := get_field uint64_t.

(** The member [b] has C type [bool], one byte wide.  A [bool] object
    holds 0 or 1; the view reads every non-zero byte as [true]. *)
Definition b (v : nir_const_value) : bool := i2b (u8 v).
Definition set_b (x : bool) : nir_const_value -> nir_const_value :=
  set_field uint8_t (b2i x).

(** A [nir_const_value *] points to an array of lanes. *)
Definition vec : Type := list nir_const_value.

Definition lane (v : vec) (i : nat) : nir_const_value := nth i v 0.

Fixpoint upd (v : vec) (i : nat) (f : nir_const_value -> nir_const_value)
  : vec :=
  match v, i with
  | [], _ => []
  | x :: r, O => f x :: r
  | x :: r, S j => x :: upd r j f
  end.

(** [_src[k][i]] *)
Definition src_lane (_src : list vec) (k i : nat) : nir_const_value :=
  lane (nth k _src []) i.

(** [for (unsigned _i = 0; _i < n; _i++) body] over a state [S]. *)
Definition for_loop {S : Type} (n : nat) (body : nat -> S -> S) (s : S) : S :=
  fold_left (fun acc _i => body _i acc) (seq 0 n) s.

(** What the code of an evaluator does: it returns after writing the
    destination, or it reaches [unreachable(msg)].  An evaluation that
    leaves the behaviour C defines is a value of neither form; see
    [checked] below.

    Modelled from the spec: the macro [unreachable] is defined outside the
    sources at hand; reaching it is a fatal, immediate abort, so nothing
    is returned and the message is all that is left. *)
Inductive outcome (A : Type) : Type :=
| Done (a : A)
| Unreachable (msg : string).
Arguments Done {A} a.
Arguments Unreachable {A} msg.

(** ** Typed lanes

    The evaluators read and write lanes through the typedefs
    [int1_t = int8_t], [uint1_t = uint8_t] and the fixed-width types.
    A 1-bit signed lane is read as [-(int1_t)_src[k][i].b] (the 0/-1
    convention), a 1-bit unsigned lane as [_src[k][i].b]; a 1-bit integer
    result is stored as [_dst_val[i].b = dst & 1]. *)
Inductive lane_type : Type :=
| int1 | int8 | int16 | int32 | int64
| uint1 | uint8 | uint16 | uint32 | uint64.

Definition ctype_of (t : lane_type) : ctype :=
  match t with
  | int1 | int8 => int8_t
  | int16 => int16_t
  | int32 => int32_t
  | int64 => int64_t
  | uint1 | uint8 => uint8_t
  | uint16 => uint16_t
  | uint32 => uint32_t
  | uint64 => uint64_t
  end.

Definition rd (t : lane_type) (v : nir_const_value) : Z :=
  match t with
  | int1 => cast int8_t (- cast int8_t (b2i (b v)))
  | uint1 => cast uint8_t (b2i (b v))
  | _ => get_field (ctype_of t) v
  end.

Definition wr (t : lane_type) (dst : Z) : nir_const_value -> nir_const_value :=
  match t with
  | int1 | uint1 => set_b (i2b (Z.land dst 1))
  | _ => set_field (ctype_of t) dst
  end.

(** The loop [for (unsigned _i = 0; _i < num_components; _i++)] of a
    lane-wise evaluator; [body _i] is the store into [_dst_val[_i]]. *)
Definition per_lane (num_components : nat)
    (body : nat -> nir_const_value -> nir_const_value) (_dst_val : vec) : vec :=
  for_loop num_components (fun _i d => upd d _i (body _i)) _dst_val.

(** A two-source evaluator whose sources and destination have lane type
    [t]: [const T src0 = ...; const T src1 = ...; T dst = expr; store]. *)
Definition lanewise2 (t : lane_type) (expr : Z -> Z -> Z)
    (_dst_val : vec) (num_components : nat) (_src : list vec) : vec :=
  per_lane num_components (fun _i =>
    let src0 := rd t (src_lane _src 0 _i) in
    let src1 := rd t (src_lane _src 1 _i) in
    let dst := cast (ctype_of t) (expr src0 src1) in
    wr t dst) _dst_val.

(** ** Integer addition *)

(** [dst = src0 + src1] *)
Definition iadd_expr (t : lane_type) (src0 src1 : Z) : Z :=
  c_add (ctype_of t) src0 src1.

Definition evaluate_iadd (_dst_val : vec) (num_components : nat)
    (bit_size : Z) (_src : list vec) : outcome vec :=
  match bit_size with
  | 1 => Done (lanewise2 int1 (iadd_expr int1) _dst_val num_components _src)
  | 8 => Done (lanewise2 int8 (iadd_expr int8) _dst_val num_components _src)
  | 16 => Done (lanewise2 int16 (iadd_expr int16) _dst_val num_components _src)
  | 32 => Done (lanewise2 int32 (iadd_expr int32) _dst_val num_components _src)
  | 64 => Done (lanewise2 int64 (iadd_expr int64) _dst_val num_components _src)
  | _ => Unreachable "unknown bit width"
  end.

(** [dst = src1 > 0 ?
        (src0 + src1 < src0 ? (1ull << (bit_size - 1)) - 1 : src0 + src1) :
        (src0 < src0 + src1 ? (1ull << (bit_size - 1))     : src0 + src1)]
    Both arms of each conditional are brought to [unsigned long long], the
    type of the bound, before the result is converted to the lane type.
    At 32 and 64 bits the tests are made on a sum that can have
    overflowed; the wrap-around reading takes the wrapped sum. *)
Definition iadd_sat_expr (t : lane_type) (bit_size : Z) (src0 src1 : Z) : Z :=
  let sum := c_add (ctype_of t) src0 src1 in
  if src1 >? 0 then
    (if sum <? src0 then sub_ull (shl_1ull (bit_size - 1)) 1
     else cast uint64_t sum)
  else
    (if src0 <? sum then shl_1ull (bit_size - 1)
     else cast uint64_t sum).

Definition evaluate_iadd_sat (_dst_val : vec) (num_components : nat)
    (bit_size : Z) (_src : list vec) : outcome vec :=
  match bit_size with
  | 1 => Done (lanewise2 int1 (iadd_sat_expr int1 bit_size) _dst_val num_components _src)
  | 8 => Done (lanewise2 int8 (iadd_sat_expr int8 bit_size) _dst_val num_components _src)
  | 16 => Done (lanewise2 int16 (iadd_sat_expr int16 bit_size) _dst_val num_components _src)
  | 32 => Done (lanewise2 int32 (iadd_sat_expr int32 bit_size) _dst_val num_components _src)
  | 64 => Done (lanewise2 int64 (iadd_sat_expr int64 bit_size) _dst_val num_components _src)
  | _ => Unreachable "unknown bit width"
  end.

(** [dst = (src0 + src1) < src0 ? MAX_UINT_FOR_SIZE(sizeof(src0) * 8)
                                : (src0 + src1)] *)
Definition uadd_sat_expr (t : lane_type) (src0 src1 : Z) : Z :=
  let sum := c_add (ctype_of t) src0 src1 in
  if sum <? src0 then MAX_UINT_FOR_SIZE (sizeof (ctype_of t) * 8)
  else cast uint64_t sum.

Definition evaluate_uadd_sat (_dst_val : vec) (num_components : nat)
    (bit_size : Z) (_src : list vec) : outcome vec :=
  match bit_size with
  | 1 => Done (lanewise2 uint1 (uadd_sat_expr uint1) _dst_val num_components _src)
  | 8 => Done (lanewise2 uint8 (uadd_sat_expr uint8) _dst_val num_components _src)
  | 16 => Done (lanewise2 uint16 (uadd_sat_expr uint16) _dst_val num_components _src)
  | 32 => Done (lanewise2 uint32 (uadd_sat_expr uint32) _dst_val num_components _src)
  | 64 => Done (lanewise2 uint64 (uadd_sat_expr uint64) _dst_val num_components _src)
  | _ => Unreachable "unknown bit width"
  end.

(** ** Integer division and modulo

    The expressions in the wrap-around reading; module [Strict] has the
    checked ones, which are undefined where the division overflows. *)

(** [dst = src1 == 0 ? 0 : (src0 / src1)] *)
Definition idiv_expr (t : lane_type) (src0 src1 : Z) : Z :=
  if src1 =? 0 then 0 else c_div (ctype_of t) src0 src1.

Definition evaluate_idiv (_dst_val : vec) (num_components : nat)
    (bit_size : Z) (_src : list vec) : outcome vec :=
  match bit_size with
  | 1 => Done (lanewise2 int1 (idiv_expr int1) _dst_val num_components _src)
  | 8 => Done (lanewise2 int8 (idiv_expr int8) _dst_val num_components _src)
  | 16 => Done (lanewise2 int16 (idiv_expr int16) _dst_val num_components _src)
  | 32 => Done (lanewise2 int32 (idiv_expr int32) _dst_val num_components _src)
  | 64 => Done (lanewise2 int64 (idiv_expr int64) _dst_val num_components _src)
  | _ => Unreachable "unknown bit width"
  end.

Definition evaluate_udiv (_dst_val : vec) (num_components : nat)
    (bit_size : Z) (_src : list vec) : outcome vec :=
  match bit_size with
  | 1 => Done (lanewise2 uint1 (idiv_expr uint1) _dst_val num_components _src)
  | 8 => Done (lanewise2 uint8 (idiv_expr uint8) _dst_val num_components _src)
  | 16 => Done (lanewise2 uint16 (idiv_expr uint16) _dst_val num_components _src)
  | 32 => Done (lanewise2 uint32 (idiv_expr uint32) _dst_val num_components _src)
  | 64 => Done (lanewise2 uint64 (idiv_expr uint64) _dst_val num_components _src)
  | _ => Unreachable "unknown bit width"
  end.

(** [dst = src1 == 0 ? 0 :
       ((src0 % src1 == 0 || (src0 >= 0) == (src1 >= 0)) ?
          src0 % src1 : src0 % src1 + src1)] *)
Definition imod_expr (t : lane_type) (src0 src1 : Z) : Z :=
  if src1 =? 0 then 0
  else if (c_rem (ctype_of t) src0 src1 =? 0)
          || Bool.eqb (src0 >=? 0) (src1 >=? 0)
       then c_rem (ctype_of t) src0 src1
       else cast (promote (ctype_of t)) (c_rem (ctype_of t) src0 src1 + src1).

Definition evaluate_imod (_dst_val : vec) (num_components : nat)
    (bit_size : Z) (_src : list vec) : outcome vec :=
  match bit_size with
  | 1 => Done (lanewise2 int1 (imod_expr int1) _dst_val num_components _src)
  | 8 => Done (lanewise2 int8 (imod_expr int8) _dst_val num_components _src)
  | 16 => Done (lanewise2 int16 (imod_expr int16) _dst_val num_components _src)
  | 32 => Done (lanewise2 int32 (imod_expr int32) _dst_val num_components _src)
  | 64 => Done (lanewise2 int64 (imod_expr int64) _dst_val num_components _src)
  | _ => Unreachable "unknown bit width"
  end.

(** [dst = src1 == 0 ? 0 : src0 % src1] *)
Definition irem_expr (t : lane_type) (src0 src1 : Z) : Z :=
  if src1 =? 0 then 0 else c_rem (ctype_of t) src0 src1.

Definition evaluate_irem (_dst_val : vec) (num_components : nat)
    (bit_size : Z) (_src : list vec) : outcome vec :=
  match bit_size with
  | 1 => Done (lanewise2 int1 (irem_expr int1) _dst_val num_components _src)
  | 8 => Done (lanewise2 int8 (irem_expr int8) _dst_val num_components _src)
  | 16 => Done (lanewise2 int16 (irem_expr int16) _dst_val num_components _src)
  | 32 => Done (lanewise2 int32 (irem_expr int32) _dst_val num_components _src)
  | 64 => Done (lanewise2 int64 (irem_expr int64) _dst_val num_components _src)
  | _ => Unreachable "unknown bit width"
  end.

Definition evaluate_umod (_dst_val : vec) (num_components : nat)
    (bit_size : Z) (_src : list vec) : outcome vec :=
  match bit_size with
  | 1 => Done (lanewise2 uint1 (irem_expr uint1) _dst_val num_components _src)
  | 8 => Done (lanewise2 uint8 (irem_expr uint8) _dst_val num_components _src)
  | 16 => Done (lanewise2 uint16 (irem_expr uint16) _dst_val num_components _src)
  | 32 => Done (lanewise2 uint32 (irem_expr uint32) _dst_val num_components _src)
  | 64 => Done (lanewise2 uint64 (irem_expr uint64) _dst_val num_components _src)
  | _ => Unreachable "unknown bit width"
  end.

(** ** Bitfield extraction

    Both evaluators ignore [bit_size]: the sources are read as [u32],
    [i32], [i32] and the destination is written as [u32].  The sum
    [offset + bits] is formed in [int] and [ubfe] shifts by [offset]
    unguarded; where the sum exceeds [INT_MAX] or the count is 32 or more
    the bodies below are the wrap-around reading only, and the checked
    bodies of module [Strict] are undefined. *)

(** [unsigned << int], [unsigned >> int] at 32 bits, in the wrap-around
    reading: the mathematical shift.  For a count of 32 or more, where C
    defines nothing, it gives 0, which need not be what a compiled shift
    gives. *)
Definition shl_u32 (a n : Z) : Z := cast uint32_t (Z.shiftl a n).
Definition shr_u32 (a n : Z) : Z := cast uint32_t (Z.shiftr a n).

(** [int - int] *)
Definition c_sub (t : ctype) (x y : Z) : Z := cast (promote t) (x - y).

(** The loop shared by the three-source evaluators over
    [(uint32_t, int32_t, int32_t) -> uint32_t]. *)
Definition bitfield_lanes (body : Z -> Z -> Z -> Z)
    (_dst_val : vec) (num_components : nat) (_src : list vec) : vec :=
  per_lane num_components (fun _i =>
    let src0 := u32 (src_lane _src 0 _i) in
    let src1 := i32 (src_lane _src 1 _i) in
    let src2 := i32 (src_lane _src 2 _i) in
    let dst := cast uint32_t (body src0 src1 src2) in
    set_field uint32_t dst) _dst_val.

(** [unsigned base = src0; int offset = src1, bits = src2;
     if (bits == 0) dst = 0;
     else if (bits < 0 || offset < 0) dst = 0;
     else if (offset + bits < 32)
        dst = (base << (32 - bits - offset)) >> (32 - bits);
     else dst = base >> offset;] *)
Definition ubfe_body (src0 src1 src2 : Z) : Z :=
  let base := cast uint32_t src0 in
  let offset := cast int32_t src1 in
  let bits := cast int32_t src2 in
  if bits =? 0 then 0
  else if (bits <? 0) || (offset <? 0) then 0
  else if c_add int32_t offset bits <? 32 then
    shr_u32 (shl_u32 base (c_sub int32_t (c_sub int32_t 32 bits) offset))
            (c_sub int32_t 32 bits)
  else shr_u32 base offset.

Definition evaluate_ubfe (_dst_val : vec) (num_components : nat)
    (bit_size : Z) (_src : list vec) : outcome vec :=
  Done (bitfield_lanes ubfe_body _dst_val num_components _src).

(** [unsigned base = src0; int offset = src1, bits = src2;
     if (bits == 0) dst = 0;
     else if (bits < 0 || offset < 0 || offset + bits > 32) dst = 0;
     else dst = (base >> offset) & ((1ull << bits) - 1);] *)
Definition ubitfield_extract_body (src0 src1 src2 : Z) : Z :=
  let base := cast uint32_t src0 in
  let offset := cast int32_t src1 in
  let bits := cast int32_t src2 in
  if bits =? 0 then 0
  else if (bits <? 0) || (offset <? 0) || (c_add int32_t offset bits >? 32)
  then 0
  else Z.land (cast uint64_t (shr_u32 base offset))
              (sub_ull (shl_1ull bits) 1).

Definition evaluate_ubitfield_extract (_dst_val : vec) (num_components : nat)
    (bit_size : Z) (_src : list vec) : outcome vec :=
  Done (bitfield_lanes ubitfield_extract_body _dst_val num_components _src).

(** ** Floating point

    A C [float] is an IEEE binary32 value and a [double] a binary64 value,
    both represented by [spec_float]; the operations are the ones of
    [SpecFloat] at precision 24 (resp. 53), round to nearest even. *)

(** The value of the [1 + ebits + mbits]-bit IEEE interchange encoding [x]. *)
Definition decode_ieee (mbits ebits : Z) (x : Z) : spec_float :=
  let m := x mod 2 ^ mbits in
  let e := (x / 2 ^ mbits) mod 2 ^ ebits in
  let s := Z.odd (x / 2 ^ (mbits + ebits)) in
  let bias := 2 ^ (ebits - 1) - 1 in
  if e =? 0 then
    match m with
    | Zpos p => S754_finite s p (1 - bias - mbits)
    | _ => S754_zero s
    end
  else if e =? 2 ^ ebits - 1 then
    (if m =? 0 then S754_infinity s else S754_nan)
  else
    match m + 2 ^ mbits with
    | Zpos p => S754_finite s p (e - bias - mbits)
    | _ => S754_nan
    end.

(** The encoding of a value of the format; NaN is the default quiet NaN. *)
Definition encode_ieee (mbits ebits : Z) (f : spec_float) : Z :=
  let bias := 2 ^ (ebits - 1) - 1 in
  let sign (s : bool) := if s then 2 ^ (mbits + ebits) else 0 in
  match f with
  | S754_zero s => sign s
  | S754_infinity s => sign s + (2 ^ ebits - 1) * 2 ^ mbits
  | S754_nan => (2 ^ ebits - 1) * 2 ^ mbits + 2 ^ (mbits - 1)
  | S754_finite s m e =>
      if Zpos m <? 2 ^ mbits then sign s + Zpos m
      else sign s + (e + bias + mbits) * 2 ^ mbits + (Zpos m - 2 ^ mbits)
  end.

(** The union members [f32] and [f64]. *)
Definition f32 (v : nir_const_value) : spec_float :=
  decode_ieee 23 8 (u32 v).
Definition f64 (v : nir_const_value) : spec_float :=
  decode_ieee 52 11 (u64 v).
Definition set_f32 (f : spec_float) : nir_const_value -> nir_const_value :=
  set_field uint32_t (encode_ieee 23 8 f).

(** Modelled from the spec: [_mesa_half_to_float] (util/half_float.c) is not
    part of the sources at hand.  A float16 lane is stored as its raw
    16-bit encoding and is decoded to float32 for computation; every
    binary16 value is a binary32 value, so the decoding is exact. *)
Definition _mesa_half_to_float (h : Z) : spec_float :=
  match decode_ieee 10 5 h with
  | S754_finite s m e =>
      binary_normalize 24 128 (if s then Zneg m else Zpos m) e s
  | f => f
  end.

(** [float] arithmetic and comparisons. *)
Definition mul_f32 : spec_float -> spec_float -> spec_float := SFmul 24 128.
Definition div_f32 : spec_float -> spec_float -> spec_float := SFdiv 24 128.
Definition flt (x y : spec_float) : bool := SFltb x y.
Definition fgt (x y : spec_float) : bool := SFltb y x.
Definition fge (x y : spec_float) : bool := SFleb y x.
Definition feq (x y : spec_float) : bool := SFeqb x y.
Definition fne (x y : spec_float) : bool := negb (SFeqb x y).

(** Conversion of an [int] to [float]. *)
Definition int_to_f32 (n : Z) : spec_float := binary_normalize 24 128 n 0 false.

(** Conversion of a floating value to the integer type [t]: the value is
    truncated toward zero.  C leaves the conversion undefined when the
    truncated value does not fit [int] (and for infinities and NaN); there
    the model returns what the x86 [cvttss2si] instruction does, the most
    negative [int]. *)
Definition truncate (f : spec_float) : option Z :=
  match f with
  | S754_zero _ => Some 0
  | S754_finite s m e =>
      let a := match e with
               | Zneg p => Zpos m / 2 ^ Zpos p
               | _ => Zpos m * 2 ^ e
               end in
      Some (if s then - a else a)
  | _ => None
  end.

Definition float_to_int (t : ctype) (f : spec_float) : Z :=
  match truncate f with
  | Some n => if (- 2 ^ 31 <=? n) && (n <? 2 ^ 31) then cast t n
              else cast t (- 2 ^ 31)
  | None => cast t (- 2 ^ 31)
  end.

(** Modelled from the spec: the macro [CLAMP] is defined outside the
    sources at hand; [CLAMP(X, MIN, MAX)] clamps [X] to [[MIN, MAX]]:
    [( (X)>(MIN) ? ((X)>(MAX) ? (MAX) : (X)) : (MIN) )]. *)
Definition CLAMP (X MIN MAX : spec_float) : spec_float :=
  if fgt X MIN then (if fgt X MAX then MAX else X) else MIN.

(** Modelled from the spec: [_mesa_roundevenf] (util/rounding.h) is not part
    of the sources at hand; it rounds to the nearest integer, a tie going
    to the even one, and keeps the sign. *)
Definition _mesa_roundevenf (f : spec_float) : spec_float :=
  match f with
  | S754_finite s m (Zneg p) =>
      let q := Zpos m / 2 ^ Zpos p in
      let r := Zpos m mod 2 ^ Zpos p in
      let n := match 2 * r ?= 2 ^ Zpos p with
               | Lt => q
               | Gt => q + 1
               | Eq => if Z.even q then q else q + 1
               end in
      binary_normalize 24 128 (if s then - n else n) 0 s
  | _ => f
  end.

Definition f32_one : spec_float := Eval cbv in int_to_f32 1.
Definition f32_minus_one : spec_float := Eval cbv in SFopp f32_one.
Definition f32_127 : spec_float := Eval cbv in int_to_f32 127.

(** ** Packing and unpacking of signed normalized bytes *)

(** [return (uint8_t) (int)
        _mesa_roundevenf(CLAMP(x, -1.0f, +1.0f) * 127.0f);] *)
Definition pack_snorm_1x8 (x : spec_float) : Z :=
  cast uint8_t (float_to_int int32_t
    (_mesa_roundevenf (mul_f32 (CLAMP x f32_minus_one f32_one) f32_127))).

(** [return CLAMP((int8_t) u / 127.0f, -1.0f, +1.0f);] *)
Definition unpack_snorm_1x8 (u : Z) : spec_float :=
  CLAMP (div_f32 (int_to_f32 (cast int8_t u)) f32_127) f32_minus_one f32_one.

(** The typed vector structures [struct T_vec { T x; T y; T z; T w; }]. *)
Module vec4.
Record t (A : Type) : Type := mk { x : A; y : A; z : A; w : A }.
Arguments mk {A} x y z w.
Arguments x {A} _.
Arguments y {A} _.
Arguments z {A} _.
Arguments w {A} _.
End vec4.

(** [dst.x = (uint32_t) pack_snorm_1x8(src0.x);
     dst.x |= ((uint32_t) pack_snorm_1x8(src0.y)) << 8;
     dst.x |= ((uint32_t) pack_snorm_1x8(src0.z)) << 16;
     dst.x |= ((uint32_t) pack_snorm_1x8(src0.w)) << 24;
     _dst_val[0].u32 = dst.x;] *)
Definition evaluate_pack_snorm_4x8 (_dst_val : vec) (num_components : nat)
    (bit_size : Z) (_src : list vec) : outcome vec :=
  let src0 := vec4.mk (f32 (src_lane _src 0 0)) (f32 (src_lane _src 0 1))
                      (f32 (src_lane _src 0 2)) (f32 (src_lane _src 0 3)) in
  let dst_x := cast uint32_t (pack_snorm_1x8 (vec4.x src0)) in
  let dst_x :=
    Z.lor dst_x (shl_u32 (cast uint32_t (pack_snorm_1x8 (vec4.y src0))) 8) in
  let dst_x :=
    Z.lor dst_x (shl_u32 (cast uint32_t (pack_snorm_1x8 (vec4.z src0))) 16) in
  let dst_x :=
    Z.lor dst_x (shl_u32 (cast uint32_t (pack_snorm_1x8 (vec4.w src0))) 24) in
  Done (upd _dst_val 0 (set_field uint32_t dst_x)).

(** [dst.x = unpack_snorm_1x8((uint8_t)(src0.x & 0xff));
     dst.y = unpack_snorm_1x8((uint8_t)((src0.x >> 8) & 0xff));
     dst.z = unpack_snorm_1x8((uint8_t)((src0.x >> 16) & 0xff));
     dst.w = unpack_snorm_1x8((uint8_t)(src0.x >> 24));
     _dst_val[0].f32 = dst.x; ... _dst_val[3].f32 = dst.w;] *)
Definition evaluate_unpack_snorm_4x8 (_dst_val : vec) (num_components : nat)
    (bit_size : Z) (_src : list vec) : outcome vec :=
  let src0 := vec4.mk (u32 (src_lane _src 0 0)) 0 0 0 in
  let dst :=
    vec4.mk
      (unpack_snorm_1x8 (cast uint8_t (Z.land (vec4.x src0) 255)))
      (unpack_snorm_1x8
         (cast uint8_t (Z.land (shr_u32 (vec4.x src0) 8) 255)))
      (unpack_snorm_1x8
         (cast uint8_t (Z.land (shr_u32 (vec4.x src0) 16) 255)))
      (unpack_snorm_1x8 (cast uint8_t (shr_u32 (vec4.x src0) 24))) in
  let d := upd _dst_val 0 (set_f32 (vec4.x dst)) in
  let d := upd d 1 (set_f32 (vec4.y dst)) in
  let d := upd d 2 (set_f32 (vec4.z dst)) in
  let d := upd d 3 (set_f32 (vec4.w dst)) in
  Done d.

(** ** Comparisons

    Every comparison evaluator has the shape
    [const T src0 = ...; const T src1 = ...;
     boolN_t dst = src0 OP src1; _dst_val[_i].F = -(int)dst;]
    with [F = b] for the opcodes with a 1-bit destination and [F = i32] for
    the opcodes whose name ends in [32]. *)

(** [_dst_val[_i].b = -(int)dst;]: the [int] is converted to [bool]. *)
Definition store_bool1 (dst : bool) : nir_const_value -> nir_const_value :=
  set_b (i2b (- b2i dst)).

(** [_dst_val[_i].i32 = -(int)dst;] *)
Definition store_bool32 (dst : bool) : nir_const_value -> nir_const_value :=
  set_field int32_t (- b2i dst).

Definition cmp_lanes {A : Type} (read : nir_const_value -> A)
    (op : A -> A -> bool)
    (store : bool -> nir_const_value -> nir_const_value)
    (_dst_val : vec) (num_components : nat) (_src : list vec) : vec :=
  per_lane num_components (fun _i =>
    let src0 := read (src_lane _src 0 _i) in
    let src1 := read (src_lane _src 1 _i) in
    let dst := op src0 src1 in
    store dst) _dst_val.

(** Float comparisons: the switch has the cases 16, 32 and 64. *)
Definition evaluate_fcmp (op : spec_float -> spec_float -> bool)
    (store : bool -> nir_const_value -> nir_const_value)
    (_dst_val : vec) (num_components : nat) (bit_size : Z)
    (_src : list vec) : outcome vec :=
  match bit_size with
  | 16 => Done (cmp_lanes (fun v => _mesa_half_to_float (u16 v)) op store
                  _dst_val num_components _src)
  | 32 => Done (cmp_lanes f32 op store _dst_val num_components _src)
  | 64 => Done (cmp_lanes f64 op store _dst_val num_components _src)
  | _ => Unreachable "unknown bit width"
  end.

Definition evaluate_feq := evaluate_fcmp feq store_bool1.
Definition evaluate_feq32 := evaluate_fcmp feq store_bool32.
Definition evaluate_fge := evaluate_fcmp fge store_bool1.
Definition evaluate_fge32 := evaluate_fcmp fge store_bool32.
Definition evaluate_flt := evaluate_fcmp flt store_bool1.
Definition evaluate_flt32 := evaluate_fcmp flt store_bool32.
Definition evaluate_fne := evaluate_fcmp fne store_bool1.
Definition evaluate_fne32 := evaluate_fcmp fne store_bool32.

(** Integer comparisons: the switch has the cases 1, 8, 16, 32 and 64;
    [sgn] tells whether the sources are read through the signed types. *)
Definition evaluate_icmp (sgn : bool) (op : Z -> Z -> bool)
    (store : bool -> nir_const_value -> nir_const_value)
    (_dst_val : vec) (num_components : nat) (bit_size : Z)
    (_src : list vec) : outcome vec :=
  let at_type t := Done (cmp_lanes (rd t) op store _dst_val num_components _src) in
  match bit_size with
  | 1 => at_type (if sgn then int1 else uint1)
  | 8 => at_type (if sgn then int8 else uint8)
  | 16 => at_type (if sgn then int16 else uint16)
  | 32 => at_type (if sgn then int32 else uint32)
  | 64 => at_type (if sgn then int64 else uint64)
  | _ => Unreachable "unknown bit width"
  end.

Definition ine_op (x y : Z) : bool := negb (x =? y).

Definition evaluate_ieq := evaluate_icmp true Z.eqb store_bool1.
Definition evaluate_ieq32 := evaluate_icmp true Z.eqb store_bool32.
Definition evaluate_ige := evaluate_icmp true Z.geb store_bool1.
Definition evaluate_ige32 := evaluate_icmp true Z.geb store_bool32.
Definition evaluate_ilt := evaluate_icmp true Z.ltb store_bool1.
Definition evaluate_ilt32 := evaluate_icmp true Z.ltb store_bool32.
Definition evaluate_ine := evaluate_icmp true ine_op store_bool1.
Definition evaluate_ine32 := evaluate_icmp true ine_op store_bool32.
Definition evaluate_uge := evaluate_icmp false Z.geb store_bool1.
Definition evaluate_uge32 := evaluate_icmp false Z.geb store_bool32.
Definition evaluate_ult := evaluate_icmp false Z.ltb store_bool1.
Definition evaluate_ult32 := evaluate_icmp false Z.ltb store_bool32.

(** ** Boolean reduction

    [const struct T_vec src0 = { _src[0][0].F, ..., _src[0][3].F };
     const struct T_vec src1 = { _src[1][0].F, ..., _src[1][3].F };
     struct bool1_vec dst;
     dst.x = dst.y = dst.z = dst.w =
       ((src0.x == src1.x) && (src0.y == src1.y) &&
        (src0.z == src1.z) && (src0.w == src1.w));
     _dst_val[0].b = -(int)dst.x;] *)
Definition read_vec4 (t : lane_type) (_src : list vec) (k : nat) : vec4.t Z :=
  vec4.mk (rd t (src_lane _src k 0)) (rd t (src_lane _src k 1))
          (rd t (src_lane _src k 2)) (rd t (src_lane _src k 3)).

Definition ball_iequal4_at (t : lane_type) (_dst_val : vec) (_src : list vec)
  : vec :=
  let src0 := read_vec4 t _src 0 in
  let src1 := read_vec4 t _src 1 in
  let dst_x := (vec4.x src0 =? vec4.x src1) && (vec4.y src0 =? vec4.y src1)
               && (vec4.z src0 =? vec4.z src1) && (vec4.w src0 =? vec4.w src1) in
  upd _dst_val 0 (store_bool1 dst_x).

Definition evaluate_ball_iequal4 (_dst_val : vec) (num_components : nat)
    (bit_size : Z) (_src : list vec) : outcome vec :=
  match bit_size with
  | 1 => Done (ball_iequal4_at int1 _dst_val _src)
  | 8 => Done (ball_iequal4_at int8 _dst_val _src)
  | 16 => Done (ball_iequal4_at int16 _dst_val _src)
  | 32 => Done (ball_iequal4_at int32 _dst_val _src)
  | 64 => Done (ball_iequal4_at int64 _dst_val _src)
  | _ => Unreachable "unknown bit width"
  end.

(** [evaluate_b32all_iequal4] is the same reduction with a 32-bit boolean
    destination: [struct bool32_vec dst; ...;
    _dst_val[0].i32 = -(int)dst.x;] *)
Definition b32all_iequal4_at (t : lane_type) (_dst_val : vec)
    (_src : list vec) : vec :=
  let src0 := read_vec4 t _src 0 in
  let src1 := read_vec4 t _src 1 in
  let dst_x := (vec4.x src0 =? vec4.x src1) && (vec4.y src0 =? vec4.y src1)
               && (vec4.z src0 =? vec4.z src1) && (vec4.w src0 =? vec4.w src1) in
  upd _dst_val 0 (store_bool32 dst_x).

Definition evaluate_b32all_iequal4 (_dst_val : vec) (num_components : nat)
    (bit_size : Z) (_src : list vec) : outcome vec :=
  match bit_size with
  | 1 => Done (b32all_iequal4_at int1 _dst_val _src)
  | 8 => Done (b32all_iequal4_at int8 _dst_val _src)
  | 16 => Done (b32all_iequal4_at int16 _dst_val _src)
  | 32 => Done (b32all_iequal4_at int32 _dst_val _src)
  | 64 => Done (b32all_iequal4_at int64 _dst_val _src)
  | _ => Unreachable "unknown bit width"
  end.

(** ** Float to 1-bit integer

    [const T src0 = ...; int1_t dst = src0; _dst_val[_i].b = dst & 1;] *)
Definition f2i1_lanes (read : nir_const_value -> spec_float)
    (_dst_val : vec) (num_components : nat) (_src : list vec) : vec :=
  per_lane num_components (fun _i =>
    let src0 := read (src_lane _src 0 _i) in
    let dst := float_to_int int8_t src0 in
    wr int1 dst) _dst_val.

Definition evaluate_f2i1 (_dst_val : vec) (num_components : nat)
    (bit_size : Z) (_src : list vec) : outcome vec :=
  match bit_size with
  | 16 => Done (f2i1_lanes (fun v => _mesa_half_to_float (u16 v))
                  _dst_val num_components _src)
  | 32 => Done (f2i1_lanes f32 _dst_val num_components _src)
  | 64 => Done (f2i1_lanes f64 _dst_val num_components _src)
  | _ => Unreachable "unknown bit width"
  end.

(** ** The opcode dispatcher

    The case labels of the switch in [nir_eval_const_opcode], in the order
    of the source. *)
Inductive nir_op : Type :=
| nir_op_b2f16 | nir_op_b2f32 | nir_op_b2f64 | nir_op_b2i1 | nir_op_b2i16
| nir_op_b2i32 | nir_op_b2i64 | nir_op_b2i8 | nir_op_b32all_fequal2
| nir_op_b32all_fequal3 | nir_op_b32all_fequal4 | nir_op_b32all_iequal2
| nir_op_b32all_iequal3 | nir_op_b32all_iequal4 | nir_op_b32any_fnequal2
| nir_op_b32any_fnequal3 | nir_op_b32any_fnequal4 | nir_op_b32any_inequal2
| nir_op_b32any_inequal3 | nir_op_b32any_inequal4 | nir_op_b32csel
| nir_op_ball_fequal2 | nir_op_ball_fequal3 | nir_op_ball_fequal4
| nir_op_ball_iequal2 | nir_op_ball_iequal3 | nir_op_ball_iequal4
| nir_op_bany_fnequal2 | nir_op_bany_fnequal3 | nir_op_bany_fnequal4
| nir_op_bany_inequal2 | nir_op_bany_inequal3 | nir_op_bany_inequal4
| nir_op_bcsel | nir_op_bfi | nir_op_bfm | nir_op_bit_count
| nir_op_bitfield_insert | nir_op_bitfield_reverse | nir_op_cube_face_coord
| nir_op_cube_face_index | nir_op_extract_i16 | nir_op_extract_i8
| nir_op_extract_u16 | nir_op_extract_u8 | nir_op_f2b1 | nir_op_f2b32
| nir_op_f2f16 | nir_op_f2f16_rtne | nir_op_f2f16_rtz | nir_op_f2f32
| nir_op_f2f64 | nir_op_f2i1 | nir_op_f2i16 | nir_op_f2i32 | nir_op_f2i64
| nir_op_f2i8 | nir_op_f2u1 | nir_op_f2u16 | nir_op_f2u32 | nir_op_f2u64
| nir_op_f2u8 | nir_op_fabs | nir_op_fadd | nir_op_fall_equal2
| nir_op_fall_equal3 | nir_op_fall_equal4 | nir_op_fand
| nir_op_fany_nequal2 | nir_op_fany_nequal3 | nir_op_fany_nequal4
| nir_op_fceil | nir_op_fcos | nir_op_fcsel | nir_op_fddx
| nir_op_fddx_coarse | nir_op_fddx_fine | nir_op_fddy | nir_op_fddy_coarse
| nir_op_fddy_fine | nir_op_fdiv | nir_op_fdot2 | nir_op_fdot3
| nir_op_fdot4 | nir_op_fdot_replicated2 | nir_op_fdot_replicated3
| nir_op_fdot_replicated4 | nir_op_fdph | nir_op_fdph_replicated
| nir_op_feq | nir_op_feq32 | nir_op_fexp2 | nir_op_ffloor | nir_op_ffma
| nir_op_ffract | nir_op_fge | nir_op_fge32 | nir_op_find_lsb | nir_op_flog2
| nir_op_flrp | nir_op_flt | nir_op_flt32 | nir_op_fmax | nir_op_fmax3
| nir_op_fmed3 | nir_op_fmin | nir_op_fmin3 | nir_op_fmod | nir_op_fmov
| nir_op_fmul | nir_op_fne | nir_op_fne32 | nir_op_fneg | nir_op_fnoise1_1
| nir_op_fnoise1_2 | nir_op_fnoise1_3 | nir_op_fnoise1_4 | nir_op_fnoise2_1
| nir_op_fnoise2_2 | nir_op_fnoise2_3 | nir_op_fnoise2_4 | nir_op_fnoise3_1
| nir_op_fnoise3_2 | nir_op_fnoise3_3 | nir_op_fnoise3_4 | nir_op_fnoise4_1
| nir_op_fnoise4_2 | nir_op_fnoise4_3 | nir_op_fnoise4_4 | nir_op_fnot
| nir_op_for | nir_op_fpow | nir_op_fquantize2f16 | nir_op_frcp
| nir_op_frem | nir_op_frexp_exp | nir_op_frexp_sig | nir_op_fround_even
| nir_op_frsq | nir_op_fsat | nir_op_fsign | nir_op_fsin | nir_op_fsqrt
| nir_op_fsub | nir_op_ftrunc | nir_op_fxor | nir_op_i2b1 | nir_op_i2b32
| nir_op_i2f16 | nir_op_i2f32 | nir_op_i2f64 | nir_op_i2i1 | nir_op_i2i16
| nir_op_i2i32 | nir_op_i2i64 | nir_op_i2i8 | nir_op_iabs | nir_op_iadd
| nir_op_iadd_sat | nir_op_iand | nir_op_ibfe | nir_op_ibitfield_extract
| nir_op_idiv | nir_op_ieq | nir_op_ieq32 | nir_op_ifind_msb | nir_op_ige
| nir_op_ige32 | nir_op_ihadd | nir_op_ilt | nir_op_ilt32 | nir_op_imax
| nir_op_imax3 | nir_op_imed3 | nir_op_imin | nir_op_imin3 | nir_op_imod
| nir_op_imov | nir_op_imul | nir_op_imul_2x32_64 | nir_op_imul_high
| nir_op_ine | nir_op_ine32 | nir_op_ineg | nir_op_inot | nir_op_ior
| nir_op_irem | nir_op_irhadd | nir_op_ishl | nir_op_ishr | nir_op_isign
| nir_op_isub | nir_op_isub_sat | nir_op_ixor | nir_op_ldexp
| nir_op_pack_32_2x16 | nir_op_pack_32_2x16_split | nir_op_pack_64_2x32
| nir_op_pack_64_2x32_split | nir_op_pack_64_4x16 | nir_op_pack_half_2x16
| nir_op_pack_half_2x16_split | nir_op_pack_snorm_2x16
| nir_op_pack_snorm_4x8 | nir_op_pack_unorm_2x16 | nir_op_pack_unorm_4x8
| nir_op_pack_uvec2_to_uint | nir_op_pack_uvec4_to_uint | nir_op_seq
| nir_op_sge | nir_op_slt | nir_op_sne | nir_op_u2f16 | nir_op_u2f32
| nir_op_u2f64 | nir_op_u2u1 | nir_op_u2u16 | nir_op_u2u32 | nir_op_u2u64
| nir_op_u2u8 | nir_op_uadd_carry | nir_op_uadd_sat | nir_op_ubfe
| nir_op_ubitfield_extract | nir_op_udiv | nir_op_ufind_msb | nir_op_uge
| nir_op_uge32 | nir_op_uhadd | nir_op_ult | nir_op_ult32 | nir_op_umax
| nir_op_umax3 | nir_op_umax_4x8 | nir_op_umed3 | nir_op_umin | nir_op_umin3
| nir_op_umin_4x8 | nir_op_umod | nir_op_umul_2x32_64 | nir_op_umul_high
| nir_op_umul_unorm_4x8 | nir_op_unpack_32_2x16
| nir_op_unpack_32_2x16_split_x | nir_op_unpack_32_2x16_split_y
| nir_op_unpack_64_2x32 | nir_op_unpack_64_2x32_split_x
| nir_op_unpack_64_2x32_split_y | nir_op_unpack_64_4x16
| nir_op_unpack_half_2x16 | nir_op_unpack_half_2x16_split_x
| nir_op_unpack_half_2x16_split_y | nir_op_unpack_snorm_2x16
| nir_op_unpack_snorm_4x8 | nir_op_unpack_unorm_2x16
| nir_op_unpack_unorm_4x8 | nir_op_urhadd | nir_op_usadd_4x8 | nir_op_ushr
| nir_op_ussub_4x8 | nir_op_usub_borrow | nir_op_usub_sat | nir_op_vec2
| nir_op_vec3 | nir_op_vec4.

(** A value of the C type [nir_op]: one of the case labels above, or any
    other value of the enumeration type (the enumeration is declared
    outside the sources at hand). *)
Inductive nir_op_value : Type :=
| op_case (op : nir_op)
| op_other (code : Z).

Definition widths_1_32 : list Z := [1; 32].
Definition widths_float : list Z := [16; 32; 64].
Definition widths_int : list Z := [1; 8; 16; 32; 64].

(** The case labels of the [switch (bit_size)] of [evaluate_<op>], and
    [None] for the evaluators that ignore [bit_size] and have no switch. *)
Definition bit_size_cases (op : nir_op) : option (list Z) :=
  match op with
  | nir_op_bfi | nir_op_bfm | nir_op_bitfield_insert
  | nir_op_bitfield_reverse | nir_op_cube_face_coord
  | nir_op_cube_face_index | nir_op_fall_equal2 | nir_op_fall_equal3
  | nir_op_fall_equal4 | nir_op_fand | nir_op_fany_nequal2
  | nir_op_fany_nequal3 | nir_op_fany_nequal4 | nir_op_fcsel | nir_op_for
  | nir_op_fxor | nir_op_ibfe | nir_op_ibitfield_extract | nir_op_ifind_msb
  | nir_op_imul_2x32_64 | nir_op_pack_32_2x16 | nir_op_pack_32_2x16_split
  | nir_op_pack_64_2x32 | nir_op_pack_64_2x32_split | nir_op_pack_64_4x16
  | nir_op_pack_half_2x16 | nir_op_pack_half_2x16_split
  | nir_op_pack_snorm_2x16 | nir_op_pack_snorm_4x8 | nir_op_pack_unorm_2x16
  | nir_op_pack_unorm_4x8 | nir_op_pack_uvec2_to_uint
  | nir_op_pack_uvec4_to_uint | nir_op_seq | nir_op_slt | nir_op_sne
  | nir_op_ubfe | nir_op_ubitfield_extract | nir_op_umax_4x8
  | nir_op_umin_4x8 | nir_op_umul_2x32_64 | nir_op_umul_unorm_4x8
  | nir_op_unpack_32_2x16 | nir_op_unpack_32_2x16_split_x
  | nir_op_unpack_32_2x16_split_y | nir_op_unpack_64_2x32
  | nir_op_unpack_64_2x32_split_x | nir_op_unpack_64_2x32_split_y
  | nir_op_unpack_64_4x16 | nir_op_unpack_half_2x16
  | nir_op_unpack_half_2x16_split_x | nir_op_unpack_half_2x16_split_y
  | nir_op_unpack_snorm_2x16 | nir_op_unpack_snorm_4x8
  | nir_op_unpack_unorm_2x16 | nir_op_unpack_unorm_4x8 | nir_op_usadd_4x8
  | nir_op_ussub_4x8 =>
      None
  | nir_op_b2f16 | nir_op_b2f32 | nir_op_b2f64 | nir_op_b2i1 | nir_op_b2i16
  | nir_op_b2i32 | nir_op_b2i64 | nir_op_b2i8 =>
      Some widths_1_32
  | nir_op_b32all_fequal2 | nir_op_b32all_fequal3 | nir_op_b32all_fequal4
  | nir_op_b32any_fnequal2 | nir_op_b32any_fnequal3 | nir_op_b32any_fnequal4
  | nir_op_ball_fequal2 | nir_op_ball_fequal3 | nir_op_ball_fequal4
  | nir_op_bany_fnequal2 | nir_op_bany_fnequal3 | nir_op_bany_fnequal4
  | nir_op_f2b1 | nir_op_f2b32 | nir_op_f2f16 | nir_op_f2f16_rtne
  | nir_op_f2f16_rtz | nir_op_f2f32 | nir_op_f2f64 | nir_op_f2i1
  | nir_op_f2i16 | nir_op_f2i32 | nir_op_f2i64 | nir_op_f2i8 | nir_op_f2u1
  | nir_op_f2u16 | nir_op_f2u32 | nir_op_f2u64 | nir_op_f2u8 | nir_op_fabs
  | nir_op_fadd | nir_op_fceil | nir_op_fcos | nir_op_fddx
  | nir_op_fddx_coarse | nir_op_fddx_fine | nir_op_fddy | nir_op_fddy_coarse
  | nir_op_fddy_fine | nir_op_fdiv | nir_op_fdot2 | nir_op_fdot3
  | nir_op_fdot4 | nir_op_fdot_replicated2 | nir_op_fdot_replicated3
  | nir_op_fdot_replicated4 | nir_op_fdph | nir_op_fdph_replicated
  | nir_op_feq | nir_op_feq32 | nir_op_fexp2 | nir_op_ffloor | nir_op_ffma
  | nir_op_ffract | nir_op_fge | nir_op_fge32 | nir_op_flog2 | nir_op_flrp
  | nir_op_flt | nir_op_flt32 | nir_op_fmax | nir_op_fmax3 | nir_op_fmed3
  | nir_op_fmin | nir_op_fmin3 | nir_op_fmod | nir_op_fmov | nir_op_fmul
  | nir_op_fne | nir_op_fne32 | nir_op_fneg | nir_op_fnoise1_1
  | nir_op_fnoise1_2 | nir_op_fnoise1_3 | nir_op_fnoise1_4
  | nir_op_fnoise2_1 | nir_op_fnoise2_2 | nir_op_fnoise2_3
  | nir_op_fnoise2_4 | nir_op_fnoise3_1 | nir_op_fnoise3_2
  | nir_op_fnoise3_3 | nir_op_fnoise3_4 | nir_op_fnoise4_1
  | nir_op_fnoise4_2 | nir_op_fnoise4_3 | nir_op_fnoise4_4 | nir_op_fnot
  | nir_op_fpow | nir_op_fquantize2f16 | nir_op_frcp | nir_op_frem
  | nir_op_frexp_exp | nir_op_frexp_sig | nir_op_fround_even | nir_op_frsq
  | nir_op_fsat | nir_op_fsign | nir_op_fsin | nir_op_fsqrt | nir_op_fsub
  | nir_op_ftrunc | nir_op_ldexp | nir_op_sge =>
      Some widths_float
  | nir_op_b32all_iequal2 | nir_op_b32all_iequal3 | nir_op_b32all_iequal4
  | nir_op_b32any_inequal2 | nir_op_b32any_inequal3 | nir_op_b32any_inequal4
  | nir_op_b32csel | nir_op_ball_iequal2 | nir_op_ball_iequal3
  | nir_op_ball_iequal4 | nir_op_bany_inequal2 | nir_op_bany_inequal3
  | nir_op_bany_inequal4 | nir_op_bcsel | nir_op_bit_count
  | nir_op_extract_i16 | nir_op_extract_i8 | nir_op_extract_u16
  | nir_op_extract_u8 | nir_op_find_lsb | nir_op_i2b1 | nir_op_i2b32
  | nir_op_i2f16 | nir_op_i2f32 | nir_op_i2f64 | nir_op_i2i1 | nir_op_i2i16
  | nir_op_i2i32 | nir_op_i2i64 | nir_op_i2i8 | nir_op_iabs | nir_op_iadd
  | nir_op_iadd_sat | nir_op_iand | nir_op_idiv | nir_op_ieq | nir_op_ieq32
  | nir_op_ige | nir_op_ige32 | nir_op_ihadd | nir_op_ilt | nir_op_ilt32
  | nir_op_imax | nir_op_imax3 | nir_op_imed3 | nir_op_imin | nir_op_imin3
  | nir_op_imod | nir_op_imov | nir_op_imul | nir_op_imul_high | nir_op_ine
  | nir_op_ine32 | nir_op_ineg | nir_op_inot | nir_op_ior | nir_op_irem
  | nir_op_irhadd | nir_op_ishl | nir_op_ishr | nir_op_isign | nir_op_isub
  | nir_op_isub_sat | nir_op_ixor | nir_op_u2f16 | nir_op_u2f32
  | nir_op_u2f64 | nir_op_u2u1 | nir_op_u2u16 | nir_op_u2u32 | nir_op_u2u64
  | nir_op_u2u8 | nir_op_uadd_carry | nir_op_uadd_sat | nir_op_udiv
  | nir_op_ufind_msb | nir_op_uge | nir_op_uge32 | nir_op_uhadd | nir_op_ult
  | nir_op_ult32 | nir_op_umax | nir_op_umax3 | nir_op_umed3 | nir_op_umin
  | nir_op_umin3 | nir_op_umod | nir_op_umul_high | nir_op_urhadd
  | nir_op_ushr | nir_op_usub_borrow | nir_op_usub_sat | nir_op_vec2
  | nir_op_vec3 | nir_op_vec4 =>
      Some widths_int
  end.

(** The statement by which an evaluator stores a result [dst] into a
    destination lane. *)
Inductive store_stmt : Type :=
| store_b_mask            (* _dst_val[i].b = dst & 1; *)
| store_b_neg             (* _dst_val[i].b = -(int)dst; *)
| store_i32_neg           (* _dst_val[i].i32 = -(int)dst; *)
| store_int (t : ctype)   (* _dst_val[i].i8 = dst;  ...  .u64 = dst; *)
| store_half              (* _dst_val[i].u16 = _mesa_float_to_half(dst); *)
| store_f32               (* _dst_val[i].f32 = dst; *)
| store_f64.              (* _dst_val[i].f64 = dst; *)

(** The stores of the evaluators whose destination has the bit size of the
    invocation. *)
Definition store_sized_int (bit_size : Z) : store_stmt :=
  match bit_size with
  | 1 => store_b_mask
  | 8 => store_int int8_t
  | 16 => store_int int16_t
  | 32 => store_int int32_t
  | _ => store_int int64_t
  end.

Definition store_sized_uint (bit_size : Z) : store_stmt :=
  match bit_size with
  | 1 => store_b_mask
  | 8 => store_int uint8_t
  | 16 => store_int uint16_t
  | 32 => store_int uint32_t
  | _ => store_int uint64_t
  end.

Definition store_sized_float (bit_size : Z) : store_stmt :=
  match bit_size with
  | 16 => store_half
  | 32 => store_f32
  | _ => store_f64
  end.

(** The store statement of [evaluate_<op>] in the case [bit_size] of its
    switch, read off the source for each evaluator. *)
Definition dest_store (op : nir_op) (bit_size : Z) : store_stmt :=
  match op with
  | nir_op_extract_i16 | nir_op_extract_i8 | nir_op_iabs | nir_op_iadd
  | nir_op_iadd_sat | nir_op_idiv | nir_op_ihadd | nir_op_imax
  | nir_op_imax3 | nir_op_imed3 | nir_op_imin | nir_op_imin3 | nir_op_imod
  | nir_op_imov | nir_op_imul | nir_op_imul_high | nir_op_ineg | nir_op_inot
  | nir_op_irem | nir_op_irhadd | nir_op_ishl | nir_op_ishr | nir_op_isign
  | nir_op_isub | nir_op_isub_sat =>
      store_sized_int bit_size
  | nir_op_b32csel | nir_op_bcsel | nir_op_extract_u16 | nir_op_extract_u8
  | nir_op_iand | nir_op_ior | nir_op_ixor | nir_op_uadd_carry
  | nir_op_uadd_sat | nir_op_udiv | nir_op_uhadd | nir_op_umax
  | nir_op_umax3 | nir_op_umed3 | nir_op_umin | nir_op_umin3 | nir_op_umod
  | nir_op_umul_high | nir_op_urhadd | nir_op_ushr | nir_op_usub_borrow
  | nir_op_usub_sat | nir_op_vec2 | nir_op_vec3 | nir_op_vec4 =>
      store_sized_uint bit_size
  | nir_op_fabs | nir_op_fadd | nir_op_fceil | nir_op_fcos | nir_op_fddx
  | nir_op_fddx_coarse | nir_op_fddx_fine | nir_op_fddy | nir_op_fddy_coarse
  | nir_op_fddy_fine | nir_op_fdiv | nir_op_fdot2 | nir_op_fdot3
  | nir_op_fdot4 | nir_op_fdot_replicated2 | nir_op_fdot_replicated3
  | nir_op_fdot_replicated4 | nir_op_fdph | nir_op_fdph_replicated
  | nir_op_fexp2 | nir_op_ffloor | nir_op_ffma | nir_op_ffract
  | nir_op_flog2 | nir_op_flrp | nir_op_fmax | nir_op_fmax3 | nir_op_fmed3
  | nir_op_fmin | nir_op_fmin3 | nir_op_fmod | nir_op_fmov | nir_op_fmul
  | nir_op_fneg | nir_op_fnoise1_1 | nir_op_fnoise1_2 | nir_op_fnoise1_3
  | nir_op_fnoise1_4 | nir_op_fnoise2_1 | nir_op_fnoise2_2
  | nir_op_fnoise2_3 | nir_op_fnoise2_4 | nir_op_fnoise3_1
  | nir_op_fnoise3_2 | nir_op_fnoise3_3 | nir_op_fnoise3_4
  | nir_op_fnoise4_1 | nir_op_fnoise4_2 | nir_op_fnoise4_3
  | nir_op_fnoise4_4 | nir_op_fnot | nir_op_fpow | nir_op_fquantize2f16
  | nir_op_frcp | nir_op_frem | nir_op_frexp_sig | nir_op_fround_even
  | nir_op_frsq | nir_op_fsat | nir_op_fsign | nir_op_fsin | nir_op_fsqrt
  | nir_op_fsub | nir_op_ftrunc | nir_op_ldexp | nir_op_sge =>
      store_sized_float bit_size
  | nir_op_b2i1 | nir_op_f2i1 | nir_op_f2u1 | nir_op_i2i1 | nir_op_u2u1 =>
      store_b_mask
  | nir_op_ball_fequal2 | nir_op_ball_fequal3 | nir_op_ball_fequal4
  | nir_op_ball_iequal2 | nir_op_ball_iequal3 | nir_op_ball_iequal4
  | nir_op_bany_fnequal2 | nir_op_bany_fnequal3 | nir_op_bany_fnequal4
  | nir_op_bany_inequal2 | nir_op_bany_inequal3 | nir_op_bany_inequal4
  | nir_op_f2b1 | nir_op_feq | nir_op_fge | nir_op_flt | nir_op_fne
  | nir_op_i2b1 | nir_op_ieq | nir_op_ige | nir_op_ilt | nir_op_ine
  | nir_op_uge | nir_op_ult =>
      store_b_neg
  | nir_op_b32all_fequal2 | nir_op_b32all_fequal3 | nir_op_b32all_fequal4
  | nir_op_b32all_iequal2 | nir_op_b32all_iequal3 | nir_op_b32all_iequal4
  | nir_op_b32any_fnequal2 | nir_op_b32any_fnequal3 | nir_op_b32any_fnequal4
  | nir_op_b32any_inequal2 | nir_op_b32any_inequal3 | nir_op_b32any_inequal4
  | nir_op_f2b32 | nir_op_feq32 | nir_op_fge32 | nir_op_flt32 | nir_op_fne32
  | nir_op_i2b32 | nir_op_ieq32 | nir_op_ige32 | nir_op_ilt32 | nir_op_ine32
  | nir_op_uge32 | nir_op_ult32 =>
      store_i32_neg
  | nir_op_b2f32 | nir_op_cube_face_coord | nir_op_cube_face_index
  | nir_op_f2f32 | nir_op_fall_equal2 | nir_op_fall_equal3
  | nir_op_fall_equal4 | nir_op_fand | nir_op_fany_nequal2
  | nir_op_fany_nequal3 | nir_op_fany_nequal4 | nir_op_fcsel | nir_op_for
  | nir_op_fxor | nir_op_i2f32 | nir_op_seq | nir_op_slt | nir_op_sne
  | nir_op_u2f32 | nir_op_unpack_half_2x16 | nir_op_unpack_half_2x16_split_x
  | nir_op_unpack_half_2x16_split_y | nir_op_unpack_snorm_2x16
  | nir_op_unpack_snorm_4x8 | nir_op_unpack_unorm_2x16
  | nir_op_unpack_unorm_4x8 =>
      store_f32
  | nir_op_b2f64 | nir_op_f2f64 | nir_op_i2f64 | nir_op_u2f64 =>
      store_f64
  | nir_op_b2f16 | nir_op_f2f16 | nir_op_f2f16_rtne | nir_op_f2f16_rtz
  | nir_op_i2f16 | nir_op_u2f16 =>
      store_half
  | nir_op_b2i16 | nir_op_f2i16 | nir_op_i2i16 =>
      store_int int16_t
  | nir_op_b2i32 | nir_op_f2i32 | nir_op_find_lsb | nir_op_frexp_exp
  | nir_op_i2i32 | nir_op_ibfe | nir_op_ibitfield_extract | nir_op_ifind_msb
  | nir_op_ufind_msb | nir_op_umax_4x8 | nir_op_umin_4x8
  | nir_op_umul_unorm_4x8 | nir_op_usadd_4x8 | nir_op_ussub_4x8 =>
      store_int int32_t
  | nir_op_b2i64 | nir_op_f2i64 | nir_op_i2i64 | nir_op_imul_2x32_64 =>
      store_int int64_t
  | nir_op_b2i8 | nir_op_f2i8 | nir_op_i2i8 =>
      store_int int8_t
  | nir_op_f2u16 | nir_op_u2u16 | nir_op_unpack_32_2x16
  | nir_op_unpack_32_2x16_split_x | nir_op_unpack_32_2x16_split_y
  | nir_op_unpack_64_4x16 =>
      store_int uint16_t
  | nir_op_bfi | nir_op_bfm | nir_op_bit_count | nir_op_bitfield_insert
  | nir_op_bitfield_reverse | nir_op_f2u32 | nir_op_pack_32_2x16
  | nir_op_pack_32_2x16_split | nir_op_pack_half_2x16
  | nir_op_pack_half_2x16_split | nir_op_pack_snorm_2x16
  | nir_op_pack_snorm_4x8 | nir_op_pack_unorm_2x16 | nir_op_pack_unorm_4x8
  | nir_op_pack_uvec2_to_uint | nir_op_pack_uvec4_to_uint | nir_op_u2u32
  | nir_op_ubfe | nir_op_ubitfield_extract | nir_op_unpack_64_2x32
  | nir_op_unpack_64_2x32_split_x | nir_op_unpack_64_2x32_split_y =>
      store_int uint32_t
  | nir_op_f2u64 | nir_op_pack_64_2x32 | nir_op_pack_64_2x32_split
  | nir_op_pack_64_4x16 | nir_op_u2u64 | nir_op_umul_2x32_64 =>
      store_int uint64_t
  | nir_op_f2u8 | nir_op_u2u8 =>
      store_int uint8_t
  end.

(** The destination lanes an evaluator writes: [None] for the loop over
    the first [num_components] lanes, [Some k] for the evaluators that
    write the lanes [0 .. k-1] whatever [num_components] is. *)
Definition lanes_written (op : nir_op) : option nat :=
  match op with
  | nir_op_b32all_fequal2 | nir_op_b32all_fequal3 | nir_op_b32all_fequal4
  | nir_op_b32all_iequal2 | nir_op_b32all_iequal3 | nir_op_b32all_iequal4
  | nir_op_b32any_fnequal2 | nir_op_b32any_fnequal3 | nir_op_b32any_fnequal4
  | nir_op_b32any_inequal2 | nir_op_b32any_inequal3 | nir_op_b32any_inequal4
  | nir_op_ball_fequal2 | nir_op_ball_fequal3 | nir_op_ball_fequal4
  | nir_op_ball_iequal2 | nir_op_ball_iequal3 | nir_op_ball_iequal4
  | nir_op_bany_fnequal2 | nir_op_bany_fnequal3 | nir_op_bany_fnequal4
  | nir_op_bany_inequal2 | nir_op_bany_inequal3 | nir_op_bany_inequal4
  | nir_op_cube_face_index | nir_op_fall_equal2 | nir_op_fall_equal3
  | nir_op_fall_equal4 | nir_op_fany_nequal2 | nir_op_fany_nequal3
  | nir_op_fany_nequal4 | nir_op_fdot2 | nir_op_fdot3 | nir_op_fdot4
  | nir_op_fdph | nir_op_fnoise1_1 | nir_op_fnoise1_2 | nir_op_fnoise1_3
  | nir_op_fnoise1_4 | nir_op_pack_32_2x16 | nir_op_pack_64_2x32
  | nir_op_pack_64_4x16 | nir_op_pack_half_2x16
  | nir_op_pack_half_2x16_split | nir_op_pack_snorm_2x16
  | nir_op_pack_snorm_4x8 | nir_op_pack_unorm_2x16 | nir_op_pack_unorm_4x8
  | nir_op_pack_uvec2_to_uint | nir_op_pack_uvec4_to_uint =>
      Some 1%nat
  | nir_op_cube_face_coord | nir_op_fnoise2_1 | nir_op_fnoise2_2
  | nir_op_fnoise2_3 | nir_op_fnoise2_4 | nir_op_unpack_32_2x16
  | nir_op_unpack_64_2x32 | nir_op_unpack_half_2x16
  | nir_op_unpack_snorm_2x16 | nir_op_unpack_unorm_2x16 | nir_op_vec2 =>
      Some 2%nat
  | nir_op_fnoise3_1 | nir_op_fnoise3_2 | nir_op_fnoise3_3
  | nir_op_fnoise3_4 | nir_op_vec3 =>
      Some 3%nat
  | nir_op_fdot_replicated2 | nir_op_fdot_replicated3
  | nir_op_fdot_replicated4 | nir_op_fdph_replicated | nir_op_fnoise4_1
  | nir_op_fnoise4_2 | nir_op_fnoise4_3 | nir_op_fnoise4_4
  | nir_op_unpack_64_4x16 | nir_op_unpack_snorm_4x8
  | nir_op_unpack_unorm_4x8 | nir_op_vec4 =>
      Some 4%nat
  | _ => None
  end.

Definition lane_count (op : nir_op) (num_components : nat) : nat :=
  match lanes_written op with
  | Some k => k
  | None => num_components
  end.

(** The effect of a store statement on a lane, for a result [dst] given
    as an integer: the value of an integer result, 0 or 1 for a boolean
    result, the encoding for a floating-point result. *)
Definition exec_store (s : store_stmt) (dst : Z)
  : nir_const_value -> nir_const_value :=
  match s with
  | store_b_mask => set_b (i2b (Z.land dst 1))
  | store_b_neg => store_bool1 (i2b dst)
  | store_i32_neg => store_bool32 (i2b dst)
  | store_int t => set_field t dst
  | store_half => set_field uint16_t dst
  | store_f32 => set_field uint32_t dst
  | store_f64 => set_field uint64_t dst
  end.

Definition has_case (bit_size : Z) (cases : list Z) : bool :=
  existsb (Z.eqb bit_size) cases.

(** The shape every evaluator has: the switch on [bit_size], when there is
    one, selects a case or reaches [unreachable("unknown bit width")]; in
    a case, each lane of the write set receives the store of a computed
    result, [value bit_size num_components _src i] for lane [i]. *)
Definition evaluate_skeleton (op : nir_op)
    (value : Z -> nat -> list vec -> nat -> Z)
    (_dst_val : vec) (num_components : nat) (bit_size : Z) (_src : list vec)
  : outcome vec :=
  let body :=
    per_lane (lane_count op num_components)
      (fun i => exec_store (dest_store op bit_size)
                  (value bit_size num_components _src i)) _dst_val in
  match bit_size_cases op with
  | None => Done body
  | Some cases =>
      if has_case bit_size cases then Done body
      else Unreachable "unknown bit width"
  end.

Section Dispatcher.

(** The results computed, lane by lane, by the evaluators whose
    expressions are not embedded above; every statement below holds
    whatever they are. *)
Variable other_value : nir_op -> Z -> nat -> list vec -> nat -> Z.

Definition evaluate_other (op : nir_op) (_dst_val : vec)
    (num_components : nat) (bit_size : Z) (_src : list vec) : outcome vec :=
  evaluate_skeleton op (other_value op) _dst_val num_components bit_size _src.

Definition nir_eval_const_opcode (op : nir_op_value) (dest : vec)
    (num_components : nat) (bit_width : Z) (src : list vec) : outcome vec :=
  match op with
  | op_case nir_op_ball_iequal4 =>
      evaluate_ball_iequal4 dest num_components bit_width src
  | op_case nir_op_f2i1 =>
      evaluate_f2i1 dest num_components bit_width src
  | op_case nir_op_feq =>
      evaluate_feq dest num_components bit_width src
  | op_case nir_op_feq32 =>
      evaluate_feq32 dest num_components bit_width src
  | op_case nir_op_fge =>
      evaluate_fge dest num_components bit_width src
  | op_case nir_op_fge32 =>
      evaluate_fge32 dest num_components bit_width src
  | op_case nir_op_flt =>
      evaluate_flt dest num_components bit_width src
  | op_case nir_op_flt32 =>
      evaluate_flt32 dest num_components bit_width src
  | op_case nir_op_fne =>
      evaluate_fne dest num_components bit_width src
  | op_case nir_op_fne32 =>
      evaluate_fne32 dest num_components bit_width src
  | op_case nir_op_iadd =>
      evaluate_iadd dest num_components bit_width src
  | op_case nir_op_iadd_sat =>
      evaluate_iadd_sat dest num_components bit_width src
  | op_case nir_op_idiv =>
      evaluate_idiv dest num_components bit_width src
  | op_case nir_op_ieq =>
      evaluate_ieq dest num_components bit_width src
  | op_case nir_op_ieq32 =>
      evaluate_ieq32 dest num_components bit_width src
  | op_case nir_op_ige =>
      evaluate_ige dest num_components bit_width src
  | op_case nir_op_ige32 =>
      evaluate_ige32 dest num_components bit_width src
  | op_case nir_op_ilt =>
      evaluate_ilt dest num_components bit_width src
  | op_case nir_op_ilt32 =>
      evaluate_ilt32 dest num_components bit_width src
  | op_case nir_op_imod =>
      evaluate_imod dest num_components bit_width src
  | op_case nir_op_ine =>
      evaluate_ine dest num_components bit_width src
  | op_case nir_op_ine32 =>
      evaluate_ine32 dest num_components bit_width src
  | op_case nir_op_irem =>
      evaluate_irem dest num_components bit_width src
  | op_case nir_op_pack_snorm_4x8 =>
      evaluate_pack_snorm_4x8 dest num_components bit_width src
  | op_case nir_op_uadd_sat =>
      evaluate_uadd_sat dest num_components bit_width src
  | op_case nir_op_ubfe =>
      evaluate_ubfe dest num_components bit_width src
  | op_case nir_op_ubitfield_extract =>
      evaluate_ubitfield_extract dest num_components bit_width src
  | op_case nir_op_udiv =>
      evaluate_udiv dest num_components bit_width src
  | op_case nir_op_uge =>
      evaluate_uge dest num_components bit_width src
  | op_case nir_op_uge32 =>
      evaluate_uge32 dest num_components bit_width src
  | op_case nir_op_ult =>
      evaluate_ult dest num_components bit_width src
  | op_case nir_op_ult32 =>
      evaluate_ult32 dest num_components bit_width src
  | op_case nir_op_umod =>
      evaluate_umod dest num_components bit_width src
  | op_case nir_op_unpack_snorm_4x8 =>
      evaluate_unpack_snorm_4x8 dest num_components bit_width src
  | op_case op => evaluate_other op dest num_components bit_width src
  | op_other _ => Unreachable "shouldn't get here"
  end.

End Dispatcher.

(** ** Vocabulary of the statements *)

(** Width and signedness of a lane type, and the value a lane of that
    type holds after a store of [x]. *)
Definition width (t : lane_type) : Z :=
  match t with
  | int1 | uint1 => 1
  | int8 | uint8 => 8
  | int16 | uint16 => 16
  | int32 | uint32 => 32
  | int64 | uint64 => 64
  end.

Definition lane_signed (t : lane_type) : bool :=
  match t with
  | int1 | int8 | int16 | int32 | int64 => true
  | _ => false
  end.

Definition wrap (t : lane_type) (x : Z) : Z :=
  if lane_signed t then sext (width t) x else zext (width t) x.

(** The lane types an integer evaluator uses at bit size [W]. *)
Definition sint_lane (W : Z) : lane_type :=
  match W with
  | 1 => int1 | 8 => int8 | 16 => int16 | 32 => int32 | _ => int64
  end.

Definition uint_lane (W : Z) : lane_type :=
  match W with
  | 1 => uint1 | 8 => uint8 | 16 => uint16 | 32 => uint32 | _ => uint64
  end.

(** Bounds of the [W]-bit integers. *)
Definition umax (W : Z) : Z := 2 ^ W - 1.
Definition smin (W : Z) : Z := - 2 ^ (W - 1).
Definition smax (W : Z) : Z := 2 ^ (W - 1) - 1.

(** Saturation of an exact result to the [W]-bit range. *)
Definition usat (W s : Z) : Z := Z.min s (umax W).
Definition ssat (W s : Z) : Z := Z.max (smin W) (Z.min s (smax W)).

(** [x] is a value of lane type [t]. *)
Definition in_range (t : lane_type) (x : Z) : Prop :=
  if lane_signed t then smin (width t) <= x <= smax (width t)
  else 0 <= x <= umax (width t).

(** The five division and modulo opcodes, their evaluators, the lane type
    they use at bit size [W], and the exact integer result: the quotient
    truncated toward zero for [idiv], the remainder with the sign of the
    dividend for [irem], the remainder with the sign of the divisor for
    [imod], and the floor quotient and remainder for the unsigned opcodes. *)
Definition division_ops : list nir_op :=
  [nir_op_idiv; nir_op_udiv; nir_op_imod; nir_op_irem; nir_op_umod].

Definition evaluate_division (op : nir_op)
  : vec -> nat -> Z -> list vec -> outcome vec :=
  match op with
  | nir_op_idiv => evaluate_idiv
  | nir_op_udiv => evaluate_udiv
  | nir_op_imod => evaluate_imod
  | nir_op_irem => evaluate_irem
  | _ => evaluate_umod
  end.

Definition division_signed (op : nir_op) : bool :=
  match op with
  | nir_op_idiv | nir_op_imod | nir_op_irem => true
  | _ => false
  end.

Definition division_lane (op : nir_op) (W : Z) : lane_type :=
  if division_signed op then sint_lane W else uint_lane W.

Definition exact_division (op : nir_op) (a c : Z) : Z :=
  match op with
  | nir_op_idiv => Z.quot a c
  | nir_op_udiv => a / c
  | nir_op_irem => Z.rem a c
  | _ => a mod c
  end.

(** The signed division of the most negative value by -1: its quotient
    [2^(W-1)] is not a [W]-bit value, so [idiv] cannot store it; at the
    widths 32 and 64, where C computes in the lane type itself, the
    expressions [src0 / src1] and [src0 % src1] are undefined. *)
Definition quotient_overflows (op : nir_op) (W a c : Z) : Prop :=
  division_signed op = true /\ a = smin W /\ c = -1 /\
  (op = nir_op_idiv \/ W = 32 \/ W = 64).

(** The scenario of the specification for [ball_iequal4], word for word:
    on equal sources the evaluator writes -1, all bits set, to destination
    lane 0 (read as the 32-bit member, the bit width of the scenario). *)
Definition ball_iequal4_as_stated : Prop :=
  forall (d0 : nir_const_value) (rest : vec) (nc : nat),
  exists r,
    evaluate_ball_iequal4 (d0 :: rest) nc 32 [[1; 2; 3; 4]; [1; 2; 3; 4]]
    = Done (r :: rest) /\
    i32 r = -1.

(** The twenty comparison opcodes, their evaluators, and the width of
    their destination. *)
Definition comparison_ops : list nir_op :=
  [nir_op_feq; nir_op_feq32; nir_op_fge; nir_op_fge32; nir_op_flt;
   nir_op_flt32; nir_op_fne; nir_op_fne32; nir_op_ieq; nir_op_ieq32;
   nir_op_ige; nir_op_ige32; nir_op_ilt; nir_op_ilt32; nir_op_ine;
   nir_op_ine32; nir_op_uge; nir_op_uge32; nir_op_ult; nir_op_ult32].

Definition evaluate_comparison (op : nir_op)
  : vec -> nat -> Z -> list vec -> outcome vec :=
  match op with
  | nir_op_feq => evaluate_feq
  | nir_op_feq32 => evaluate_feq32
  | nir_op_fge => evaluate_fge
  | nir_op_fge32 => evaluate_fge32
  | nir_op_flt => evaluate_flt
  | nir_op_flt32 => evaluate_flt32
  | nir_op_fne => evaluate_fne
  | nir_op_fne32 => evaluate_fne32
  | nir_op_ieq => evaluate_ieq
  | nir_op_ieq32 => evaluate_ieq32
  | nir_op_ige => evaluate_ige
  | nir_op_ige32 => evaluate_ige32
  | nir_op_ilt => evaluate_ilt
  | nir_op_ilt32 => evaluate_ilt32
  | nir_op_ine => evaluate_ine
  | nir_op_ine32 => evaluate_ine32
  | nir_op_uge => evaluate_uge
  | nir_op_uge32 => evaluate_uge32
  | nir_op_ult => evaluate_ult
  | _ => evaluate_ult32
  end.

Definition comparison_dest32 (op : nir_op) : bool :=
  match op with
  | nir_op_feq32 | nir_op_fge32 | nir_op_flt32 | nir_op_fne32
  | nir_op_ieq32 | nir_op_ige32 | nir_op_ilt32 | nir_op_ine32
  | nir_op_uge32 | nir_op_ult32 => true
  | _ => false
  end.

(** The bit sizes an opcode's evaluator accepts. *)
Definition legal_bit_size (op : nir_op) (bit_size : Z) : Prop :=
  match bit_size_cases op with
  | None => True
  | Some cases => In bit_size cases
  end.

(** The destination of an opcode at bit size [W] is a 1-bit lane: [W] is
    a case of its switch and the store goes to the member [b]. *)
Definition dest_1bit (op : nir_op) (W : Z) : bool :=
  match bit_size_cases op with
  | None => true
  | Some cases => has_case W cases
  end
  && match dest_store op W with
     | store_b_mask | store_b_neg => true
     | _ => false
     end.

(** Lane [i] is one of the destination lanes the evaluator writes. *)
Definition writes_lane (op : nir_op) (num_components i : nat) : bool :=
  (i <? lane_count op num_components)%nat.

(** ** Vocabulary of the round-trip statement *)

(** The rational value of a finite floating-point number. *)
Definition SF2Q (f : spec_float) : Q :=
  match f with
  | S754_finite s m e =>
      let z := if s then Zneg m else Zpos m in
      match e with
      | Zneg p => z # (2 ^ p)
      | _ => inject_Z (z * 2 ^ e)
      end
  | _ => 0%Q
  end.

(** [-1.0f <= x && x <= 1.0f] *)
Definition in_unit_range (x : spec_float) : bool :=
  SFleb f32_minus_one x && SFleb x f32_one.

(** Structural equality of floating-point numbers. *)
Definition sf_eqb (f g : spec_float) : bool :=
  match f, g with
  | S754_zero s, S754_zero s' => Bool.eqb s s'
  | S754_infinity s, S754_infinity s' => Bool.eqb s s'
  | S754_nan, S754_nan => true
  | S754_finite s m e, S754_finite s' m' e' =>
      Bool.eqb s s' && Pos.eqb m m' && Z.eqb e e'
  | _, _ => false
  end.

(** For the integer [k = +-n] that [pack_snorm_1x8] obtains by rounding:
    the byte it stores is [k] modulo 256, the value [unpack_snorm_1x8]
    returns for that byte survives the store into and the load from the
    [f32] member, and it is within 2^-25 of [k / 127]. *)
Definition snorm_byte_ok (s : bool) (n : Z) : bool :=
  let k := if s then - n else n in
  let byte :=
    cast uint8_t (float_to_int int32_t (binary_normalize 24 128 k 0 s)) in
  let u := unpack_snorm_1x8 byte in
  (byte =? zext 8 k)
  && sf_eqb (decode_ieee 23 8 (zext 32 (encode_ieee 23 8 u))) u
  && Qle_bool (Qabs (SF2Q u - (k # 127))) (1 # 33554432).

Definition snorm_bytes_ok : bool :=
  forallb (fun n => snorm_byte_ok false (Z.of_nat n)
                    && snorm_byte_ok true (Z.of_nat n)) (seq 0 128).

(** The invariant of the right-shift loop of [SpecFloat]: the record [r]
    after [j] shifts of the mantissa [M], with its round and sticky bits. *)
Definition shr_inv (M : Z) (j : Z) (r : shr_record) : Prop :=
  0 <= shr_m r /\
  exists rem, M = shr_m r * 2 ^ j + rem /\ 0 <= rem < 2 ^ j /\
    (shr_r r = true <-> 2 ^ j <= 2 * rem) /\
    (shr_s r = true <-> rem <> 0 /\ 2 * rem <> 2 ^ j).

(** [a] is within [q] of [b]. *)
Definition within (q : Q) (a b : spec_float) : Prop :=
  (Qabs (SF2Q a - SF2Q b) <= q)%Q.

(** The encodings of 1.0, -1.0, 0.0 and 0.5. *)
Definition snorm_scenario_input : vec :=
  [1065353216; 3212836864; 0; 1056964608].

(** Byte [i] of a 32-bit word. *)
Definition byte_of (word : Z) (i : Z) : Z := Z.land (Z.shiftr word (8 * i)) 255.

(** The scenario of the specification, word for word: the input
    (1.0, -1.0, 0.0, 0.5) packs to the bytes (127, 0x80, 0, about 64). *)
Definition snorm_scenario_as_stated : Prop :=
  exists p,
    evaluate_pack_snorm_4x8 [0] 1 32 [snorm_scenario_input] = Done [p] /\
    byte_of (u32 p) 0 = 127 /\ byte_of (u32 p) 1 = 128 /\
    byte_of (u32 p) 2 = 0 /\ Z.abs (byte_of (u32 p) 3 - 64) <= 1.

(** The floating-point view of a source lane at bit size [W]. *)
Definition float_lane (W : Z) (v : nir_const_value) : spec_float :=
  match W with
  | 16 => _mesa_half_to_float (u16 v)
  | 32 => f32 v
  | _ => f64 v
  end.

(** * Further evaluators *)

(** ** Integer arithmetic at the type of the lane

    The operators of C on operands of type [t], after the integer
    promotions: the result has the promoted type. *)
Definition c_neg (t : ctype) (x : Z) : Z := cast (promote t) (- x).
Definition c_mul (t : ctype) (x y : Z) : Z := cast (promote t) (x * y).
Definition c_not (t : ctype) (x : Z) : Z := cast (promote t) (Z.lnot x).
Definition c_and (t : ctype) (x y : Z) : Z := cast (promote t) (Z.land x y).
Definition c_or (t : ctype) (x y : Z) : Z := cast (promote t) (Z.lor x y).
Definition c_xor (t : ctype) (x y : Z) : Z := cast (promote t) (Z.lxor x y).
Definition c_shl (t : ctype) (x n : Z) : Z := cast (promote t) (Z.shiftl x n).
Definition c_shr (t : ctype) (x n : Z) : Z := cast (promote t) (Z.shiftr x n).

(** [switch (bit_size) { case 1: ... case 8: ... case 16: ... case 32: ...
    case 64: ... default: unreachable("unknown bit width"); }] of an
    evaluator whose cases differ by the lane type only; [ty] gives the lane
    type of each case. *)
Definition int_switch (ty : Z -> lane_type) (body : lane_type -> vec)
    (bit_size : Z) : outcome vec :=
  match bit_size with
  | 1 => Done (body (ty 1))
  | 8 => Done (body (ty 8))
  | 16 => Done (body (ty 16))
  | 32 => Done (body (ty 32))
  | 64 => Done (body (ty 64))
  | _ => Unreachable "unknown bit width"
  end.

(** A one-source evaluator whose source and destination have lane type
    [t]: [const T src0 = ...; T dst = expr; store]. *)
Definition lanewise1 (t : lane_type) (expr : Z -> Z)
    (_dst_val : vec) (num_components : nat) (_src : list vec) : vec :=
  per_lane num_components (fun _i =>
    let src0 := rd t (src_lane _src 0 _i) in
    let dst := cast (ctype_of t) (expr src0) in
    wr t dst) _dst_val.

(** [dst = src0 - src1] *)
Definition isub_expr (t : lane_type) (src0 src1 : Z) : Z :=
  c_sub (ctype_of t) src0 src1.

Definition evaluate_isub (_dst_val : vec) (num_components : nat)
    (bit_size : Z) (_src : list vec) : outcome vec :=
  int_switch sint_lane (fun t =>
    lanewise2 t (isub_expr t) _dst_val num_components _src) bit_size.

(** [dst = -src0] *)
Definition ineg_expr (t : lane_type) (src0 : Z) : Z :=
  c_neg (ctype_of t) src0.

Definition evaluate_ineg (_dst_val : vec) (num_components : nat)
    (bit_size : Z) (_src : list vec) : outcome vec :=
  int_switch sint_lane (fun t =>
    lanewise1 t (ineg_expr t) _dst_val num_components _src) bit_size.

(** [dst = (src0 < 0) ? -src0 : src0] *)
Definition iabs_expr (t : lane_type) (src0 : Z) : Z :=
  if src0 <? 0 then c_neg (ctype_of t) src0 else src0.

Definition evaluate_iabs (_dst_val : vec) (num_components : nat)
    (bit_size : Z) (_src : list vec) : outcome vec :=
  int_switch sint_lane (fun t =>
    lanewise1 t (iabs_expr t) _dst_val num_components _src) bit_size.

(** [dst = src0 * src1] *)
Definition imul_expr (t : lane_type) (src0 src1 : Z) : Z :=
  c_mul (ctype_of t) src0 src1.

Definition evaluate_imul (_dst_val : vec) (num_components : nat)
    (bit_size : Z) (_src : list vec) : outcome vec :=
  int_switch sint_lane (fun t =>
    lanewise2 t (imul_expr t) _dst_val num_components _src) bit_size.

(** [dst = (src0 == 0) ? 0 : ((src0 > 0) ? 1 : -1)] *)
Definition isign_expr (src0 : Z) : Z :=
  if src0 =? 0 then 0 else if src0 >? 0 then 1 else -1.

Definition evaluate_isign (_dst_val : vec) (num_components : nat)
    (bit_size : Z) (_src : list vec) : outcome vec :=
  int_switch sint_lane (fun t =>
    lanewise1 t isign_expr _dst_val num_components _src) bit_size.

(** [dst = ~src0] *)
Definition inot_expr (t : lane_type) (src0 : Z) : Z :=
  c_not (ctype_of t) src0.

Definition evaluate_inot (_dst_val : vec) (num_components : nat)
    (bit_size : Z) (_src : list vec) : outcome vec :=
  int_switch sint_lane (fun t =>
    lanewise1 t (inot_expr t) _dst_val num_components _src) bit_size.

(** [dst = src1 > src0 ? src0 : src1] and [dst = src1 > src0 ? src1 : src0] *)
Definition min_expr (src0 src1 : Z) : Z := if src1 >? src0 then src0 else src1.
Definition max_expr (src0 src1 : Z) : Z := if src1 >? src0 then src1 else src0.

Definition evaluate_imin (_dst_val : vec) (num_components : nat)
    (bit_size : Z) (_src : list vec) : outcome vec :=
  int_switch sint_lane (fun t =>
    lanewise2 t min_expr _dst_val num_components _src) bit_size.

Definition evaluate_imax (_dst_val : vec) (num_components : nat)
    (bit_size : Z) (_src : list vec) : outcome vec :=
  int_switch sint_lane (fun t =>
    lanewise2 t max_expr _dst_val num_components _src) bit_size.

Definition evaluate_umin (_dst_val : vec) (num_components : nat)
    (bit_size : Z) (_src : list vec) : outcome vec :=
  int_switch uint_lane (fun t =>
    lanewise2 t min_expr _dst_val num_components _src) bit_size.

Definition evaluate_umax (_dst_val : vec) (num_components : nat)
    (bit_size : Z) (_src : list vec) : outcome vec :=
  int_switch uint_lane (fun t =>
    lanewise2 t max_expr _dst_val num_components _src) bit_size.

(** [dst = (src0 & src1) + ((src0 ^ src1) >> 1)] *)
Definition hadd_expr (t : lane_type) (src0 src1 : Z) : Z :=
  let T := ctype_of t in
  c_add T (c_and T src0 src1) (c_shr T (c_xor T src0 src1) 1).

(** [dst = (src0 | src1) + ((src0 ^ src1) >> 1)] *)
Definition rhadd_expr (t : lane_type) (src0 src1 : Z) : Z :=
  let T := ctype_of t in
  c_add T (c_or T src0 src1) (c_shr T (c_xor T src0 src1) 1).

Definition evaluate_ihadd (_dst_val : vec) (num_components : nat)
    (bit_size : Z) (_src : list vec) : outcome vec :=
  int_switch sint_lane (fun t =>
    lanewise2 t (hadd_expr t) _dst_val num_components _src) bit_size.

Definition evaluate_uhadd (_dst_val : vec) (num_components : nat)
    (bit_size : Z) (_src : list vec) : outcome vec :=
  int_switch uint_lane (fun t =>
    lanewise2 t (hadd_expr t) _dst_val num_components _src) bit_size.

Definition evaluate_irhadd (_dst_val : vec) (num_components : nat)
    (bit_size : Z) (_src : list vec) : outcome vec :=
  int_switch sint_lane (fun t =>
    lanewise2 t (rhadd_expr t) _dst_val num_components _src) bit_size.

Definition evaluate_urhadd (_dst_val : vec) (num_components : nat)
    (bit_size : Z) (_src : list vec) : outcome vec :=
  int_switch uint_lane (fun t =>
    lanewise2 t (rhadd_expr t) _dst_val num_components _src) bit_size.

(** [dst = src0 < src1 ? 0 : src0 - src1] *)
Definition usub_sat_expr (t : lane_type) (src0 src1 : Z) : Z :=
  if src0 <? src1 then 0 else c_sub (ctype_of t) src0 src1.

Definition evaluate_usub_sat (_dst_val : vec) (num_components : nat)
    (bit_size : Z) (_src : list vec) : outcome vec :=
  int_switch uint_lane (fun t =>
    lanewise2 t (usub_sat_expr t) _dst_val num_components _src) bit_size.

(** [dst = src0 + src1 < src0] *)
Definition uadd_carry_expr (t : lane_type) (src0 src1 : Z) : Z :=
  b2i (c_add (ctype_of t) src0 src1 <? src0).

Definition evaluate_uadd_carry (_dst_val : vec) (num_components : nat)
    (bit_size : Z) (_src : list vec) : outcome vec :=
  int_switch uint_lane (fun t =>
    lanewise2 t (uadd_carry_expr t) _dst_val num_components _src) bit_size.

(** [dst = src0 < src1] *)
Definition usub_borrow_expr (src0 src1 : Z) : Z := b2i (src0 <? src1).

Definition evaluate_usub_borrow (_dst_val : vec) (num_components : nat)
    (bit_size : Z) (_src : list vec) : outcome vec :=
  int_switch uint_lane (fun t =>
    lanewise2 t usub_borrow_expr _dst_val num_components _src) bit_size.

(** ** Shifts

    [const T src0 = ...; const uint32_t src1 = _src[1][_i].u32;
     T dst = src0 OP (src1 & (sizeof(src0) * 8 - 1));]
    The count is a [uint32_t] at every bit size; the mask is computed from
    the size of the C type of the lane, which is one byte for the 1-bit
    types. *)
Definition shift_count (t : lane_type) (src1 : Z) : Z :=
  Z.land src1 (sizeof (ctype_of t) * 8 - 1).

Definition shift_lanes (t : lane_type) (expr : Z -> Z -> Z)
    (_dst_val : vec) (num_components : nat) (_src : list vec) : vec :=
  per_lane num_components (fun _i =>
    let src0 := rd t (src_lane _src 0 _i) in
    let src1 := u32 (src_lane _src 1 _i) in
    let dst := cast (ctype_of t) (expr src0 src1) in
    wr t dst) _dst_val.

Definition shl_expr (t : lane_type) (src0 src1 : Z) : Z :=
  c_shl (ctype_of t) src0 (shift_count t src1).

Definition shr_expr (t : lane_type) (src0 src1 : Z) : Z :=
  c_shr (ctype_of t) src0 (shift_count t src1).

Definition evaluate_ishl (_dst_val : vec) (num_components : nat)
    (bit_size : Z) (_src : list vec) : outcome vec :=
  int_switch sint_lane (fun t =>
    shift_lanes t (shl_expr t) _dst_val num_components _src) bit_size.

Definition evaluate_ishr (_dst_val : vec) (num_components : nat)
    (bit_size : Z) (_src : list vec) : outcome vec :=
  int_switch sint_lane (fun t =>
    shift_lanes t (shr_expr t) _dst_val num_components _src) bit_size.

Definition evaluate_ushr (_dst_val : vec) (num_components : nat)
    (bit_size : Z) (_src : list vec) : outcome vec :=
  int_switch uint_lane (fun t =>
    shift_lanes t (shr_expr t) _dst_val num_components _src) bit_size.

(** ** Selection

    [const bool1_t src0 = _src[0][_i].b;  (bcsel)
     const bool32_t src0 = _src[0][_i].i32;  (b32csel)
     const T src1 = ...; const T src2 = ...;
     T dst = src0 ? src1 : src2;] *)
Definition csel_lanes (cond : nir_const_value -> bool) (t : lane_type)
    (_dst_val : vec) (num_components : nat) (_src : list vec) : vec :=
  per_lane num_components (fun _i =>
    let src0 := cond (src_lane _src 0 _i) in
    let src1 := rd t (src_lane _src 1 _i) in
    let src2 := rd t (src_lane _src 2 _i) in
    let dst := cast (ctype_of t) (if src0 then src1 else src2) in
    wr t dst) _dst_val.

Definition evaluate_bcsel (_dst_val : vec) (num_components : nat)
    (bit_size : Z) (_src : list vec) : outcome vec :=
  int_switch uint_lane (fun t =>
    csel_lanes b t _dst_val num_components _src) bit_size.

Definition evaluate_b32csel (_dst_val : vec) (num_components : nat)
    (bit_size : Z) (_src : list vec) : outcome vec :=
  int_switch uint_lane (fun t =>
    csel_lanes (fun v => i2b (i32 v)) t _dst_val num_components _src) bit_size.

(** ** Evaluators whose sources and destination differ in type

    [const T0 src0 = ...; const T1 src1 = ...; TD dst = expr; store] *)
Definition lanes1 (t0 td : lane_type) (expr : Z -> Z)
    (_dst_val : vec) (num_components : nat) (_src : list vec) : vec :=
  per_lane num_components (fun _i =>
    let src0 := rd t0 (src_lane _src 0 _i) in
    let dst := cast (ctype_of td) (expr src0) in
    wr td dst) _dst_val.

Definition lanes2 (t0 t1 td : lane_type) (expr : Z -> Z -> Z)
    (_dst_val : vec) (num_components : nat) (_src : list vec) : vec :=
  per_lane num_components (fun _i =>
    let src0 := rd t0 (src_lane _src 0 _i) in
    let src1 := rd t1 (src_lane _src 1 _i) in
    let dst := cast (ctype_of td) (expr src0 src1) in
    wr td dst) _dst_val.

(** ** Integer conversions

    [const T src0 = ...; TD dst = src0;] with [T] the signed ([i2i]) or
    unsigned ([u2u]) type of the bit size and [TD] the type the opcode
    names. *)
Definition evaluate_i2i (td : lane_type) (_dst_val : vec)
    (num_components : nat) (bit_size : Z) (_src : list vec) : outcome vec :=
  int_switch sint_lane (fun t =>
    lanes1 t td (fun src0 => src0) _dst_val num_components _src) bit_size.

Definition evaluate_i2i1 := evaluate_i2i int1.
Definition evaluate_i2i8 := evaluate_i2i int8.
Definition evaluate_i2i16 := evaluate_i2i int16.
Definition evaluate_i2i32 := evaluate_i2i int32.
Definition evaluate_i2i64 := evaluate_i2i int64.

Definition evaluate_u2u (td : lane_type) (_dst_val : vec)
    (num_components : nat) (bit_size : Z) (_src : list vec) : outcome vec :=
  int_switch uint_lane (fun t =>
    lanes1 t td (fun src0 => src0) _dst_val num_components _src) bit_size.

Definition evaluate_u2u1 := evaluate_u2u uint1.
Definition evaluate_u2u8 := evaluate_u2u uint8.
Definition evaluate_u2u16 := evaluate_u2u uint16.
Definition evaluate_u2u32 := evaluate_u2u uint32.
Definition evaluate_u2u64 := evaluate_u2u uint64.

(** [const bool1_t src0 = _src[0][_i].b;  (case 1)
     const bool32_t src0 = _src[0][_i].i32;  (case 32)
     TD dst = src0;]  The switch has the cases 1 and 32. *)
Definition b2i_lanes (read : nir_const_value -> bool) (td : lane_type)
    (_dst_val : vec) (num_components : nat) (_src : list vec) : vec :=
  per_lane num_components (fun _i =>
    let src0 := read (src_lane _src 0 _i) in
    let dst := cast (ctype_of td) (b2i src0) in
    wr td dst) _dst_val.

Definition evaluate_b2i (td : lane_type) (_dst_val : vec)
    (num_components : nat) (bit_size : Z) (_src : list vec) : outcome vec :=
  match bit_size with
  | 1 => Done (b2i_lanes b td _dst_val num_components _src)
  | 32 => Done (b2i_lanes (fun v => i2b (i32 v)) td
                  _dst_val num_components _src)
  | _ => Unreachable "unknown bit width"
  end.

Definition evaluate_b2i1 := evaluate_b2i int1.
Definition evaluate_b2i8 := evaluate_b2i int8.
Definition evaluate_b2i16 := evaluate_b2i int16.
Definition evaluate_b2i32 := evaluate_b2i int32.
Definition evaluate_b2i64 := evaluate_b2i int64.

(** [const T src0 = ...; boolN_t dst = src0 != 0; store -(int)dst] *)
Definition i2b_lanes (t : lane_type)
    (store : bool -> nir_const_value -> nir_const_value)
    (_dst_val : vec) (num_components : nat) (_src : list vec) : vec :=
  per_lane num_components (fun _i =>
    let src0 := rd t (src_lane _src 0 _i) in
    let dst := negb (src0 =? 0) in
    store dst) _dst_val.

Definition evaluate_i2b1 (_dst_val : vec) (num_components : nat)
    (bit_size : Z) (_src : list vec) : outcome vec :=
  int_switch sint_lane (fun t =>
    i2b_lanes t store_bool1 _dst_val num_components _src) bit_size.

Definition evaluate_i2b32 (_dst_val : vec) (num_components : nat)
    (bit_size : Z) (_src : list vec) : outcome vec :=
  int_switch sint_lane (fun t =>
    i2b_lanes t store_bool32 _dst_val num_components _src) bit_size.

(** ** Multiplication

    [int64_t dst = (int64_t)src0 * (int64_t)src1;] on 32-bit sources, and
    the unsigned form. *)
Definition evaluate_imul_2x32_64 (_dst_val : vec) (num_components : nat)
    (bit_size : Z) (_src : list vec) : outcome vec :=
  Done (lanes2 int32 int32 int64
          (fun src0 src1 =>
             c_mul int64_t (cast int64_t src0) (cast int64_t src1))
          _dst_val num_components _src).

Definition evaluate_umul_2x32_64 (_dst_val : vec) (num_components : nat)
    (bit_size : Z) (_src : list vec) : outcome vec :=
  Done (lanes2 uint32 uint32 uint64
          (fun src0 src1 =>
             c_mul uint64_t (cast uint64_t src0) (cast uint64_t src1))
          _dst_val num_components _src).

(** ** Packing and unpacking of integers *)

(** [uint64_t dst = src0 | ((uint64_t)src1 << 32);] *)
Definition evaluate_pack_64_2x32_split (_dst_val : vec)
    (num_components : nat) (bit_size : Z) (_src : list vec) : outcome vec :=
  Done (lanes2 uint32 uint32 uint64
          (fun src0 src1 =>
             c_or uint64_t src0 (c_shl uint64_t (cast uint64_t src1) 32))
          _dst_val num_components _src).

(** [uint32_t dst = src0;] and [uint32_t dst = src0 >> 32;] *)
Definition evaluate_unpack_64_2x32_split_x (_dst_val : vec)
    (num_components : nat) (bit_size : Z) (_src : list vec) : outcome vec :=
  Done (lanes1 uint64 uint32 (fun src0 => src0)
          _dst_val num_components _src).

Definition evaluate_unpack_64_2x32_split_y (_dst_val : vec)
    (num_components : nat) (bit_size : Z) (_src : list vec) : outcome vec :=
  Done (lanes1 uint64 uint32 (fun src0 => c_shr uint64_t src0 32)
          _dst_val num_components _src).

(** [uint32_t dst = src0 | ((uint32_t)src1 << 16);] *)
Definition evaluate_pack_32_2x16_split (_dst_val : vec)
    (num_components : nat) (bit_size : Z) (_src : list vec) : outcome vec :=
  Done (lanes2 uint16 uint16 uint32
          (fun src0 src1 =>
             c_or uint32_t src0 (c_shl uint32_t (cast uint32_t src1) 16))
          _dst_val num_components _src).

(** [uint16_t dst = src0;] and [uint16_t dst = src0 >> 16;] *)
Definition evaluate_unpack_32_2x16_split_x (_dst_val : vec)
    (num_components : nat) (bit_size : Z) (_src : list vec) : outcome vec :=
  Done (lanes1 uint32 uint16 (fun src0 => src0)
          _dst_val num_components _src).

Definition evaluate_unpack_32_2x16_split_y (_dst_val : vec)
    (num_components : nat) (bit_size : Z) (_src : list vec) : outcome vec :=
  Done (lanes1 uint32 uint16 (fun src0 => c_shr uint32_t src0 16)
          _dst_val num_components _src).

(** [const struct uint32_vec src0 = { _src[0][0].u32, _src[0][1].u32, 0, 0 };
     struct uint64_vec dst;
     dst.x = src0.x | ((uint64_t)src0.y << 32);
     _dst_val[0].u64 = dst.x;] *)
Definition evaluate_pack_64_2x32 (_dst_val : vec) (num_components : nat)
    (bit_size : Z) (_src : list vec) : outcome vec :=
  let src0 := vec4.mk (u32 (src_lane _src 0 0)) (u32 (src_lane _src 0 1))
                      0 0 in
  let dst_x :=
    cast uint64_t
      (c_or uint64_t (vec4.x src0)
         (c_shl uint64_t (cast uint64_t (vec4.y src0)) 32)) in
  Done (upd _dst_val 0 (set_field uint64_t dst_x)).

(** [const struct uint64_vec src0 = { _src[0][0].u64, 0, 0, 0 };
     struct uint32_vec dst;
     dst.x = src0.x; dst.y = src0.x >> 32;
     _dst_val[0].u32 = dst.x; _dst_val[1].u32 = dst.y;] *)
Definition evaluate_unpack_64_2x32 (_dst_val : vec) (num_components : nat)
    (bit_size : Z) (_src : list vec) : outcome vec :=
  let src0 := vec4.mk (u64 (src_lane _src 0 0)) 0 0 0 in
  let dst_x := cast uint32_t (vec4.x src0) in
  let dst_y := cast uint32_t (c_shr uint64_t (vec4.x src0) 32) in
  let d := upd _dst_val 0 (set_field uint32_t dst_x) in
  let d := upd d 1 (set_field uint32_t dst_y) in
  Done d.

(** [const struct uint16_vec src0 = { _src[0][0].u16, _src[0][1].u16, 0, 0 };
     struct uint32_vec dst;
     dst.x = src0.x | ((uint32_t)src0.y << 16);
     _dst_val[0].u32 = dst.x;] *)
Definition evaluate_pack_32_2x16 (_dst_val : vec) (num_components : nat)
    (bit_size : Z) (_src : list vec) : outcome vec :=
  let src0 := vec4.mk (u16 (src_lane _src 0 0)) (u16 (src_lane _src 0 1))
                      0 0 in
  let dst_x :=
    cast uint32_t
      (c_or uint32_t (vec4.x src0)
         (c_shl uint32_t (cast uint32_t (vec4.y src0)) 16)) in
  Done (upd _dst_val 0 (set_field uint32_t dst_x)).

(** [const struct uint32_vec src0 = { _src[0][0].u32, 0, 0, 0 };
     struct uint16_vec dst;
     dst.x = src0.x; dst.y = src0.x >> 16;
     _dst_val[0].u16 = dst.x; _dst_val[1].u16 = dst.y;] *)
Definition evaluate_unpack_32_2x16 (_dst_val : vec) (num_components : nat)
    (bit_size : Z) (_src : list vec) : outcome vec :=
  let src0 := vec4.mk (u32 (src_lane _src 0 0)) 0 0 0 in
  let dst_x := cast uint16_t (vec4.x src0) in
  let dst_y := cast uint16_t (c_shr uint32_t (vec4.x src0) 16) in
  let d := upd _dst_val 0 (set_field uint16_t dst_x) in
  let d := upd d 1 (set_field uint16_t dst_y) in
  Done d.

(** [const struct uint16_vec src0 =
       { _src[0][0].u16, _src[0][1].u16, _src[0][2].u16, _src[0][3].u16 };
     struct uint64_vec dst;
     dst.x = src0.x | ((uint64_t)src0.y << 16) | ((uint64_t)src0.z << 32)
             | ((uint64_t)src0.w << 48);
     _dst_val[0].u64 = dst.x;] *)
Definition evaluate_pack_64_4x16 (_dst_val : vec) (num_components : nat)
    (bit_size : Z) (_src : list vec) : outcome vec :=
  let src0 := vec4.mk (u16 (src_lane _src 0 0)) (u16 (src_lane _src 0 1))
                      (u16 (src_lane _src 0 2)) (u16 (src_lane _src 0 3)) in
  let dst_x :=
    cast uint64_t
      (c_or uint64_t
         (c_or uint64_t
            (c_or uint64_t (vec4.x src0)
               (c_shl uint64_t (cast uint64_t (vec4.y src0)) 16))
            (c_shl uint64_t (cast uint64_t (vec4.z src0)) 32))
         (c_shl uint64_t (cast uint64_t (vec4.w src0)) 48)) in
  Done (upd _dst_val 0 (set_field uint64_t dst_x)).

(** [const struct uint64_vec src0 = { _src[0][0].u64, 0, 0, 0 };
     struct uint16_vec dst;
     dst.x = src0.x; dst.y = src0.x >> 16; dst.z = src0.x >> 32;
     dst.w = src0.w >> 48;
     _dst_val[0].u16 = dst.x; ... _dst_val[3].u16 = dst.w;]
    The last component is taken from [src0.w], which the initializer of
    [src0] sets to 0. *)
Definition evaluate_unpack_64_4x16 (_dst_val : vec) (num_components : nat)
    (bit_size : Z) (_src : list vec) : outcome vec :=
  let src0 := vec4.mk (u64 (src_lane _src 0 0)) 0 0 0 in
  let dst_x := cast uint16_t (vec4.x src0) in
  let dst_y := cast uint16_t (c_shr uint64_t (vec4.x src0) 16) in
  let dst_z := cast uint16_t (c_shr uint64_t (vec4.x src0) 32) in
  let dst_w := cast uint16_t (c_shr uint64_t (vec4.w src0) 48) in
  let d := upd _dst_val 0 (set_field uint16_t dst_x) in
  let d := upd d 1 (set_field uint16_t dst_y) in
  let d := upd d 2 (set_field uint16_t dst_z) in
  let d := upd d 3 (set_field uint16_t dst_w) in
  Done d.

(** ** Bit fields *)

(** [unsigned base = src0, insert = src1;
     int offset = src2, bits = src3;
     if (bits == 0) {
        dst = base;
     } else if (offset < 0 || bits < 0 || bits + offset > 32) {
        dst = 0;
     } else {
        unsigned mask = ((1ull << bits) - 1) << offset;
        dst = (base & ~mask) | ((insert << offset) & mask);
     }] *)
Definition bitfield_insert_body (src0 src1 src2 src3 : Z) : Z :=
  let base := cast uint32_t src0 in
  let insert := cast uint32_t src1 in
  let offset := cast int32_t src2 in
  let bits := cast int32_t src3 in
  if bits =? 0 then base
  else if (offset <? 0) || (bits <? 0) || (c_add int32_t bits offset >? 32)
  then 0
  else
    let mask :=
      cast uint32_t
        (cast uint64_t (Z.shiftl (sub_ull (shl_1ull bits) 1) offset)) in
    c_or uint32_t (c_and uint32_t base (c_not uint32_t mask))
                  (c_and uint32_t (shl_u32 insert offset) mask).

Definition evaluate_bitfield_insert (_dst_val : vec) (num_components : nat)
    (bit_size : Z) (_src : list vec) : outcome vec :=
  Done (per_lane num_components (fun _i =>
    let src0 := u32 (src_lane _src 0 _i) in
    let src1 := u32 (src_lane _src 1 _i) in
    let src2 := i32 (src_lane _src 2 _i) in
    let src3 := i32 (src_lane _src 3 _i) in
    let dst := cast uint32_t (bitfield_insert_body src0 src1 src2 src3) in
    set_field uint32_t dst) _dst_val).

(** [dst = 0;
     for (unsigned bit = 0; bit < 32; bit++)
        dst |= ((src0 >> bit) & 1) << (31 - bit);] *)
Definition bitfield_reverse_step (src0 : Z) (bit : nat) (dst : Z) : Z :=
  c_or uint32_t dst
    (shl_u32 (c_and uint32_t (shr_u32 src0 (Z.of_nat bit)) 1)
             (c_sub uint32_t 31 (Z.of_nat bit))).

Definition bitfield_reverse_body (src0 : Z) : Z :=
  for_loop 32 (bitfield_reverse_step src0) 0.

Definition evaluate_bitfield_reverse (_dst_val : vec) (num_components : nat)
    (bit_size : Z) (_src : list vec) : outcome vec :=
  Done (per_lane num_components (fun _i =>
    let src0 := u32 (src_lane _src 0 _i) in
    let dst := cast uint32_t (bitfield_reverse_body src0) in
    set_field uint32_t dst) _dst_val).

(** ** Counting and finding bits *)

(** [dst = 0;
     for (unsigned bit = 0; bit < bit_size; bit++) {
        if ((src0 >> bit) & 1)
           dst++;
     }] *)
Definition bit_count_body (t : lane_type) (bit_size : Z) (src0 : Z) : Z :=
  for_loop (Z.to_nat bit_size) (fun bit dst =>
    if c_and (ctype_of t) (c_shr (ctype_of t) src0 (Z.of_nat bit)) 1 =? 0
    then dst else c_add uint32_t dst 1) 0.

Definition evaluate_bit_count (_dst_val : vec) (num_components : nat)
    (bit_size : Z) (_src : list vec) : outcome vec :=
  int_switch uint_lane (fun t =>
    lanes1 t uint32 (bit_count_body t bit_size)
      _dst_val num_components _src) bit_size.

(** A loop that stops at the first index satisfying [test]:
    [dst = -1; for (bit in bits) if (test bit) { dst = bit; break; }] *)
Fixpoint first_bit (test : Z -> bool) (bits : list Z) : Z :=
  match bits with
  | [] => -1
  | bit :: rest => if test bit then bit else first_bit test rest
  end.

(** The indices [0 .. n-1] in the order of an ascending loop. *)
Definition upto (n : Z) : list Z := map Z.of_nat (seq 0 (Z.to_nat n)).

(** [dst = -1;
     for (unsigned bit = 0; bit < bit_size; bit++) {
        if ((src0 >> bit) & 1) { dst = bit; break; }
     }] *)
Definition find_lsb_body (t : lane_type) (bit_size : Z) (src0 : Z) : Z :=
  first_bit (fun bit =>
    negb (c_and (ctype_of t) (c_shr (ctype_of t) src0 bit) 1 =? 0))
    (upto bit_size).

Definition evaluate_find_lsb (_dst_val : vec) (num_components : nat)
    (bit_size : Z) (_src : list vec) : outcome vec :=
  int_switch sint_lane (fun t =>
    lanes1 t int32 (find_lsb_body t bit_size)
      _dst_val num_components _src) bit_size.

(** [dst = -1;
     for (int bit = bit_size - 1; bit >= 0; bit--) {
        if ((src0 >> bit) & 1) { dst = bit; break; }
     }] *)
Definition ufind_msb_body (t : lane_type) (bit_size : Z) (src0 : Z) : Z :=
  first_bit (fun bit =>
    negb (c_and (ctype_of t) (c_shr (ctype_of t) src0 bit) 1 =? 0))
    (rev (upto bit_size)).

Definition evaluate_ufind_msb (_dst_val : vec) (num_components : nat)
    (bit_size : Z) (_src : list vec) : outcome vec :=
  int_switch uint_lane (fun t =>
    lanes1 t int32 (ufind_msb_body t bit_size)
      _dst_val num_components _src) bit_size.

(** [dst = -1;
     for (int bit = 31; bit >= 0; bit--) {
        if ((((src0 >> bit) & 1) && (src0 >= 0)) ||
            (!((src0 >> bit) & 1) && (src0 < 0))) { dst = bit; break; }
     }] *)
Definition ifind_msb_body (src0 : Z) : Z :=
  first_bit (fun bit =>
    let set := negb (c_and int32_t (c_shr int32_t src0 bit) 1 =? 0) in
    (set && (src0 >=? 0)) || (negb set && (src0 <? 0)))
    (rev (upto 32)).

Definition evaluate_ifind_msb (_dst_val : vec) (num_components : nat)
    (bit_size : Z) (_src : list vec) : outcome vec :=
  Done (lanes1 int32 int32 ifind_msb_body _dst_val num_components _src).

(** ** Packing and unpacking of normalized values *)

Definition f32_zero : spec_float := Eval cbv in int_to_f32 0.
Definition f32_255 : spec_float := Eval cbv in int_to_f32 255.
Definition f32_32767 : spec_float := Eval cbv in int_to_f32 32767.
Definition f32_65535 : spec_float := Eval cbv in int_to_f32 65535.

(** [return (uint16_t) (int)
        _mesa_roundevenf(CLAMP(x, -1.0f, +1.0f) * 32767.0f);] *)
Definition pack_snorm_1x16 (x : spec_float) : Z :=
  cast uint16_t (float_to_int int32_t
    (_mesa_roundevenf (mul_f32 (CLAMP x f32_minus_one f32_one) f32_32767))).

(** [return CLAMP((int16_t) u / 32767.0f, -1.0f, +1.0f);] *)
Definition unpack_snorm_1x16 (u : Z) : spec_float :=
  CLAMP (div_f32 (int_to_f32 (cast int16_t u)) f32_32767)
        f32_minus_one f32_one.

(** [return (uint8_t) (int)
        _mesa_roundevenf(CLAMP(x, 0.0f, 1.0f) * 255.0f);] *)
Definition pack_unorm_1x8 (x : spec_float) : Z :=
  cast uint8_t (float_to_int int32_t
    (_mesa_roundevenf (mul_f32 (CLAMP x f32_zero f32_one) f32_255))).

(** [return (uint16_t) (int)
        _mesa_roundevenf(CLAMP(x, 0.0f, 1.0f) * 65535.0f);] *)
Definition pack_unorm_1x16 (x : spec_float) : Z :=
  cast uint16_t (float_to_int int32_t
    (_mesa_roundevenf (mul_f32 (CLAMP x f32_zero f32_one) f32_65535))).

(** [return (float) u / 255.0f;] *)
Definition unpack_unorm_1x8 (u : Z) : spec_float :=
  div_f32 (int_to_f32 (cast uint8_t u)) f32_255.

(** [return (float) u / 65535.0f;] *)
Definition unpack_unorm_1x16 (u : Z) : spec_float :=
  div_f32 (int_to_f32 (cast uint16_t u)) f32_65535.

(** [dst.x = (uint32_t) pack_unorm_1x8(src0.x);
     dst.x |= ((uint32_t) pack_unorm_1x8(src0.y)) << 8;
     dst.x |= ((uint32_t) pack_unorm_1x8(src0.z)) << 16;
     dst.x |= ((uint32_t) pack_unorm_1x8(src0.w)) << 24;
     _dst_val[0].u32 = dst.x;] *)
Definition evaluate_pack_unorm_4x8 (_dst_val : vec) (num_components : nat)
    (bit_size : Z) (_src : list vec) : outcome vec :=
  let src0 := vec4.mk (f32 (src_lane _src 0 0)) (f32 (src_lane _src 0 1))
                      (f32 (src_lane _src 0 2)) (f32 (src_lane _src 0 3)) in
  let dst_x := cast uint32_t (pack_unorm_1x8 (vec4.x src0)) in
  let dst_x :=
    Z.lor dst_x (shl_u32 (cast uint32_t (pack_unorm_1x8 (vec4.y src0))) 8) in
  let dst_x :=
    Z.lor dst_x (shl_u32 (cast uint32_t (pack_unorm_1x8 (vec4.z src0))) 16) in
  let dst_x :=
    Z.lor dst_x (shl_u32 (cast uint32_t (pack_unorm_1x8 (vec4.w src0))) 24) in
  Done (upd _dst_val 0 (set_field uint32_t dst_x)).

(** [dst.x = unpack_unorm_1x8((uint8_t)(src0.x & 0xff));
     dst.y = unpack_unorm_1x8((uint8_t)((src0.x >> 8) & 0xff));
     dst.z = unpack_unorm_1x8((uint8_t)((src0.x >> 16) & 0xff));
     dst.w = unpack_unorm_1x8((uint8_t)(src0.x >> 24));
     _dst_val[0].f32 = dst.x; ... _dst_val[3].f32 = dst.w;] *)
Definition evaluate_unpack_unorm_4x8 (_dst_val : vec) (num_components : nat)
    (bit_size : Z) (_src : list vec) : outcome vec :=
  let src0 := vec4.mk (u32 (src_lane _src 0 0)) 0 0 0 in
  let dst :=
    vec4.mk
      (unpack_unorm_1x8 (cast uint8_t (Z.land (vec4.x src0) 255)))
      (unpack_unorm_1x8
         (cast uint8_t (Z.land (shr_u32 (vec4.x src0) 8) 255)))
      (unpack_unorm_1x8
         (cast uint8_t (Z.land (shr_u32 (vec4.x src0) 16) 255)))
      (unpack_unorm_1x8 (cast uint8_t (shr_u32 (vec4.x src0) 24))) in
  let d := upd _dst_val 0 (set_f32 (vec4.x dst)) in
  let d := upd d 1 (set_f32 (vec4.y dst)) in
  let d := upd d 2 (set_f32 (vec4.z dst)) in
  let d := upd d 3 (set_f32 (vec4.w dst)) in
  Done d.

(** [dst.x = (uint32_t) pack_unorm_1x16(src0.x);
     dst.x |= ((uint32_t) pack_unorm_1x16(src0.y)) << 16;
     _dst_val[0].u32 = dst.x;] and the same with [pack_snorm_1x16]. *)
Definition pack_2x16 (pack : spec_float -> Z) (_dst_val : vec)
    (_src : list vec) : vec :=
  let src0 := vec4.mk (f32 (src_lane _src 0 0)) (f32 (src_lane _src 0 1))
                      f32_zero f32_zero in
  let dst_x := cast uint32_t (pack (vec4.x src0)) in
  let dst_x :=
    Z.lor dst_x (shl_u32 (cast uint32_t (pack (vec4.y src0))) 16) in
  upd _dst_val 0 (set_field uint32_t dst_x).

Definition evaluate_pack_unorm_2x16 (_dst_val : vec) (num_components : nat)
    (bit_size : Z) (_src : list vec) : outcome vec :=
  Done (pack_2x16 pack_unorm_1x16 _dst_val _src).

Definition evaluate_pack_snorm_2x16 (_dst_val : vec) (num_components : nat)
    (bit_size : Z) (_src : list vec) : outcome vec :=
  Done (pack_2x16 pack_snorm_1x16 _dst_val _src).

(** [dst.x = unpack_unorm_1x16((uint16_t)(src0.x & 0xffff));
     dst.y = unpack_unorm_1x16((uint16_t)(src0.x << 16));
     _dst_val[0].f32 = dst.x; _dst_val[1].f32 = dst.y;]
    and the same with [unpack_snorm_1x16].  The second component is taken
    from [src0.x << 16], a left shift. *)
Definition unpack_2x16 (unpack : Z -> spec_float) (_dst_val : vec)
    (_src : list vec) : vec :=
  let src0 := vec4.mk (u32 (src_lane _src 0 0)) 0 0 0 in
  let dst_x := unpack (cast uint16_t (Z.land (vec4.x src0) 65535)) in
  let dst_y := unpack (cast uint16_t (shl_u32 (vec4.x src0) 16)) in
  let d := upd _dst_val 0 (set_f32 dst_x) in
  let d := upd d 1 (set_f32 dst_y) in
  d.

Definition evaluate_unpack_unorm_2x16 (_dst_val : vec) (num_components : nat)
    (bit_size : Z) (_src : list vec) : outcome vec :=
  Done (unpack_2x16 unpack_unorm_1x16 _dst_val _src).

Definition evaluate_unpack_snorm_2x16 (_dst_val : vec) (num_components : nat)
    (bit_size : Z) (_src : list vec) : outcome vec :=
  Done (unpack_2x16 unpack_snorm_1x16 _dst_val _src).

(** The float a stored [f32] lane reads back as. *)
Definition f32_stored (f : spec_float) : spec_float :=
  decode_ieee 23 8 (zext 32 (encode_ieee 23 8 f)).

(** Tables: the byte that comes back from unpacking a byte and packing
    the result again, for each of the 256 bytes. *)
Definition unorm_1x8_round_trip_ok : bool :=
  forallb (fun n => let k := Z.of_nat n in
             pack_unorm_1x8 (f32_stored (unpack_unorm_1x8 k)) =? k)
          (seq 0 256).

Definition snorm_1x8_round_trip_ok : bool :=
  forallb (fun n => let k := Z.of_nat n in
             pack_snorm_1x8 (f32_stored (unpack_snorm_1x8 k))
             =? (if k =? 128 then 129 else k))
          (seq 0 256).

(** * Evaluation under the rules of C

    The evaluators above are embedded in the wrap-around reading of the
    host model.  Four operations of the evaluators have no behaviour in C
    on part of their operands: a signed addition or subtraction whose
    result is not a value of its type, a division by zero, the division
    of the most negative value by -1 (the division instruction of the
    usual targets raises a fault on it), and a shift by a negative count
    or by the width of the shifted type or more.  What a compiled
    evaluator does there is not fixed by the source: an overflow test
    such as [src0 - src1 < src0] may be folded away, a shift count may be
    taken modulo the width, a division may bring the process down.

    The evaluators whose result depends on such an operation are embedded
    a second time in this section, expression by expression as above, over
    checked operations: an evaluation that performs an operation outside
    its domain yields [Undefined] with the operation, and nothing is
    stated about its result. *)

Inductive undefined_operation : Type :=
| signed_overflow
| division_by_zero
| division_overflow
| shift_out_of_range.

Inductive checked (A : Type) : Type :=
| Value (a : A)
| Undefined (u : undefined_operation).
Arguments Value {A} a.
Arguments Undefined {A} u.

Module Strict.

Definition bind {A B : Type} (c : checked A) (k : A -> checked B)
  : checked B :=
  match c with
  | Value a => k a
  | Undefined u => Undefined u
  end.

Notation "x <- c ;; k" := (bind c (fun x => k))
  (at level 61, c at next level, right associativity).

(** [v] is a value of type [t]. *)
Definition fits (t : ctype) (v : Z) : bool := cast t v =? v.

(** The result [v] of an addition or subtraction computed in type [t]:
    reduced modulo 2^w in an unsigned type, undefined outside the range
    of a signed type. *)
Definition arith (t : ctype) (v : Z) : checked Z :=
  if is_signed t then
    (if fits t v then Value v else Undefined signed_overflow)
  else Value (cast t v).

Definition c_add (t : ctype) (a b : Z) : checked Z := arith (promote t) (a + b).
Definition c_sub (t : ctype) (a b : Z) : checked Z := arith (promote t) (a - b).

(** [a / b] and [a % b]: undefined for [b == 0], and both undefined when
    the quotient is not a value of the type. *)
Definition c_div (t : ctype) (a b : Z) : checked Z :=
  if b =? 0 then Undefined division_by_zero
  else if is_signed (promote t) && negb (fits (promote t) (Z.quot a b))
  then Undefined division_overflow
  else Value (cast (promote t) (Z.quot a b)).

Definition c_rem (t : ctype) (a b : Z) : checked Z :=
  if b =? 0 then Undefined division_by_zero
  else if is_signed (promote t) && negb (fits (promote t) (Z.quot a b))
  then Undefined division_overflow
  else Value (cast (promote t) (Z.rem a b)).

(** A shift of a [w]-bit operand by [n], with result [v]. *)
Definition shift (w n v : Z) : checked Z :=
  if (0 <=? n) && (n <? w) then Value v else Undefined shift_out_of_range.

(** [unsigned << int], [unsigned >> int] at 32 bits, and [1ull << n]. *)
Definition shl_u32 (a n : Z) : checked Z :=
  shift 32 n (cast uint32_t (Z.shiftl a n)).
Definition shr_u32 (a n : Z) : checked Z :=
  shift 32 n (cast uint32_t (Z.shiftr a n)).
Definition shl_1ull (n : Z) : checked Z :=
  shift 64 n (cast uint64_t (Z.shiftl 1 n)).

(** [a || b], where [b] is evaluated only when [a] is false. *)
Definition or_else (a : bool) (b : checked bool) : checked bool :=
  if a then Value true else b.

(** The loop over the lanes: the stores are made in order, up to the
    first lane whose computation is undefined. *)
Definition per_lane (num_components : nat)
    (body : nat -> checked (nir_const_value -> nir_const_value))
    (_dst_val : vec) : checked vec :=
  for_loop num_components
    (fun _i acc => d <- acc ;; store <- body _i ;; Value (upd d _i store))
    (Value _dst_val).

Definition lanewise2 (t : lane_type) (expr : Z -> Z -> checked Z)
    (_dst_val : vec) (num_components : nat) (_src : list vec) : checked vec :=
  per_lane num_components (fun _i =>
    let src0 := rd t (src_lane _src 0 _i) in
    let src1 := rd t (src_lane _src 1 _i) in
    dst <- expr src0 src1 ;;
    Value (wr t (cast (ctype_of t) dst))) _dst_val.

Definition int_switch (ty : Z -> lane_type) (body : lane_type -> checked vec)
    (bit_size : Z) : checked (outcome vec) :=
  match bit_size with
  | 1 => d <- body (ty 1) ;; Value (Done d)
  | 8 => d <- body (ty 8) ;; Value (Done d)
  | 16 => d <- body (ty 16) ;; Value (Done d)
  | 32 => d <- body (ty 32) ;; Value (Done d)
  | 64 => d <- body (ty 64) ;; Value (Done d)
  | _ => Value (Unreachable "unknown bit width")
  end.

(** ** Integer division and modulo *)

(** [dst = src1 == 0 ? 0 : (src0 / src1)] *)
Definition idiv_expr (t : lane_type) (src0 src1 : Z) : checked Z :=
  if src1 =? 0 then Value 0 else c_div (ctype_of t) src0 src1.

Definition evaluate_idiv (_dst_val : vec) (num_components : nat)
    (bit_size : Z) (_src : list vec) : checked (outcome vec) :=
  int_switch sint_lane (fun t =>
    lanewise2 t (idiv_expr t) _dst_val num_components _src) bit_size.

Definition evaluate_udiv (_dst_val : vec) (num_components : nat)
    (bit_size : Z) (_src : list vec) : checked (outcome vec) :=
  int_switch uint_lane (fun t =>
    lanewise2 t (idiv_expr t) _dst_val num_components _src) bit_size.

(** [dst = src1 == 0 ? 0 :
       ((src0 % src1 == 0 || (src0 >= 0) == (src1 >= 0)) ?
          src0 % src1 : src0 % src1 + src1)] *)
Definition imod_expr (t : lane_type) (src0 src1 : Z) : checked Z :=
  if src1 =? 0 then Value 0
  else
    r <- c_rem (ctype_of t) src0 src1 ;;
    if (r =? 0) || Bool.eqb (src0 >=? 0) (src1 >=? 0)
    then c_rem (ctype_of t) src0 src1
    else r' <- c_rem (ctype_of t) src0 src1 ;; c_add (ctype_of t) r' src1.

Definition evaluate_imod (_dst_val : vec) (num_components : nat)
    (bit_size : Z) (_src : list vec) : checked (outcome vec) :=
  int_switch sint_lane (fun t =>
    lanewise2 t (imod_expr t) _dst_val num_components _src) bit_size.

(** [dst = src1 == 0 ? 0 : src0 % src1] *)
Definition irem_expr (t : lane_type) (src0 src1 : Z) : checked Z :=
  if src1 =? 0 then Value 0 else c_rem (ctype_of t) src0 src1.

Definition evaluate_irem (_dst_val : vec) (num_components : nat)
    (bit_size : Z) (_src : list vec) : checked (outcome vec) :=
  int_switch sint_lane (fun t =>
    lanewise2 t (irem_expr t) _dst_val num_components _src) bit_size.

Definition evaluate_umod (_dst_val : vec) (num_components : nat)
    (bit_size : Z) (_src : list vec) : checked (outcome vec) :=
  int_switch uint_lane (fun t =>
    lanewise2 t (irem_expr t) _dst_val num_components _src) bit_size.

Definition evaluate_division (op : nir_op)
  : vec -> nat -> Z -> list vec -> checked (outcome vec) :=
  match op with
  | nir_op_idiv => evaluate_idiv
  | nir_op_udiv => evaluate_udiv
  | nir_op_imod => evaluate_imod
  | nir_op_irem => evaluate_irem
  | _ => evaluate_umod
  end.

(** ** Saturating signed addition and subtraction *)

(** [dst = src1 > 0 ?
        (src0 + src1 < src0 ? (1ull << (bit_size - 1)) - 1 : src0 + src1) :
        (src0 < src0 + src1 ? (1ull << (bit_size - 1))     : src0 + src1)] *)
Definition iadd_sat_expr (t : lane_type) (bit_size : Z) (src0 src1 : Z)
  : checked Z :=
  if src1 >? 0 then
    sum <- c_add (ctype_of t) src0 src1 ;;
    if sum <? src0 then
      bound <- shl_1ull (bit_size - 1) ;; Value (sub_ull bound 1)
    else sum' <- c_add (ctype_of t) src0 src1 ;; Value (cast uint64_t sum')
  else
    sum <- c_add (ctype_of t) src0 src1 ;;
    if src0 <? sum then shl_1ull (bit_size - 1)
    else sum' <- c_add (ctype_of t) src0 src1 ;; Value (cast uint64_t sum').

Definition evaluate_iadd_sat (_dst_val : vec) (num_components : nat)
    (bit_size : Z) (_src : list vec) : checked (outcome vec) :=
  int_switch sint_lane (fun t =>
    lanewise2 t (iadd_sat_expr t bit_size) _dst_val num_components _src)
    bit_size.

(** [dst = src1 < 0 ?
        (src0 - src1 < src0 ? (1ull << (bit_size - 1)) - 1 : src0 - src1) :
        (src0 < src0 - src1 ? (1ull << (bit_size - 1))     : src0 - src1)] *)
Definition isub_sat_expr (t : lane_type) (bit_size : Z) (src0 src1 : Z)
  : checked Z :=
  if src1 <? 0 then
    diff <- c_sub (ctype_of t) src0 src1 ;;
    if diff <? src0 then
      bound <- shl_1ull (bit_size - 1) ;; Value (sub_ull bound 1)
    else diff' <- c_sub (ctype_of t) src0 src1 ;; Value (cast uint64_t diff')
  else
    diff <- c_sub (ctype_of t) src0 src1 ;;
    if src0 <? diff then shl_1ull (bit_size - 1)
    else diff' <- c_sub (ctype_of t) src0 src1 ;; Value (cast uint64_t diff').

Definition evaluate_isub_sat (_dst_val : vec) (num_components : nat)
    (bit_size : Z) (_src : list vec) : checked (outcome vec) :=
  int_switch sint_lane (fun t =>
    lanewise2 t (isub_sat_expr t bit_size) _dst_val num_components _src)
    bit_size.

(** ** Bitfield extraction *)

Definition bitfield_lanes (body : Z -> Z -> Z -> checked Z)
    (_dst_val : vec) (num_components : nat) (_src : list vec) : checked vec :=
  per_lane num_components (fun _i =>
    let src0 := u32 (src_lane _src 0 _i) in
    let src1 := i32 (src_lane _src 1 _i) in
    let src2 := i32 (src_lane _src 2 _i) in
    dst <- body src0 src1 src2 ;;
    Value (set_field uint32_t (cast uint32_t dst))) _dst_val.

(** [unsigned base = src0; int offset = src1, bits = src2;
     if (bits == 0) dst = 0;
     else if (bits < 0 || offset < 0) dst = 0;
     else if (offset + bits < 32)
        dst = (base << (32 - bits - offset)) >> (32 - bits);
     else dst = base >> offset;] *)
Definition ubfe_body (src0 src1 src2 : Z) : checked Z :=
  let base := cast uint32_t src0 in
  let offset := cast int32_t src1 in
  let bits := cast int32_t src2 in
  if bits =? 0 then Value 0
  else if (bits <? 0) || (offset <? 0) then Value 0
  else
    sum <- c_add int32_t offset bits ;;
    if sum <? 32 then
      n <- c_sub int32_t 32 bits ;;
      n <- c_sub int32_t n offset ;;
      hi <- shl_u32 base n ;;
      m <- c_sub int32_t 32 bits ;;
      shr_u32 hi m
    else shr_u32 base offset.

Definition evaluate_ubfe (_dst_val : vec) (num_components : nat)
    (bit_size : Z) (_src : list vec) : checked (outcome vec) :=
  d <- bitfield_lanes ubfe_body _dst_val num_components _src ;;
  Value (Done d).

(** [unsigned base = src0; int offset = src1, bits = src2;
     if (bits == 0) dst = 0;
     else if (bits < 0 || offset < 0 || offset + bits > 32) dst = 0;
     else dst = (base >> offset) & ((1ull << bits) - 1);] *)
Definition ubitfield_extract_body (src0 src1 src2 : Z) : checked Z :=
  let base := cast uint32_t src0 in
  let offset := cast int32_t src1 in
  let bits := cast int32_t src2 in
  if bits =? 0 then Value 0
  else
    out <- or_else ((bits <? 0) || (offset <? 0))
             (sum <- c_add int32_t offset bits ;; Value (sum >? 32)) ;;
    if out then Value 0
    else
      field <- shr_u32 base offset ;;
      mask <- shl_1ull bits ;;
      Value (Z.land (cast uint64_t field) (sub_ull mask 1)).

Definition evaluate_ubitfield_extract (_dst_val : vec)
    (num_components : nat) (bit_size : Z) (_src : list vec)
  : checked (outcome vec) :=
  d <- bitfield_lanes ubitfield_extract_body _dst_val num_components _src ;;
  Value (Done d).

End Strict.

(** ** Vocabulary of the statements about checked evaluation *)

(** Lane [j] of every source is read for each [j < num_components];
    [all_lanes n ok] says that [ok] holds of each of them. *)
Definition all_lanes (num_components : nat) (ok : nat -> bool) : bool :=
  forallb ok (seq 0 num_components).

(** The division of the most negative value by -1 in a type in which the
    quotient is not a value: the signed opcodes at bit sizes 32 and 64,
    where C computes in the lane type itself. *)
Definition division_overflows (op : nir_op) (W a c : Z) : bool :=
  division_signed op && ((W =? 32) || (W =? 64))
  && (a =? smin W) && (c =? -1).

Definition division_lane_defined (op : nir_op) (W : Z) (src : list vec)
    (j : nat) : bool :=
  let t := division_lane op W in
  negb (division_overflows op W (rd t (src_lane src 0 j))
          (rd t (src_lane src 1 j))).

(** The expressions of the five evaluators, checked and plain. *)
Definition strict_division_expr (op : nir_op) (t : lane_type)
  : Z -> Z -> checked Z :=
  match op with
  | nir_op_idiv | nir_op_udiv => Strict.idiv_expr t
  | nir_op_imod => Strict.imod_expr t
  | _ => Strict.irem_expr t
  end.

Definition division_expr (op : nir_op) (t : lane_type) : Z -> Z -> Z :=
  match op with
  | nir_op_idiv | nir_op_udiv => idiv_expr t
  | nir_op_imod => imod_expr t
  | _ => irem_expr t
  end.

(** The sentence of the specification about non-zero divisors, word for
    word: evaluation yields a result, and the lane is the exact integer
    quotient or remainder. *)
Definition division_exact_as_stated : Prop :=
  forall op W dst nc src i,
    In op division_ops -> In W widths_int ->
    (i < nc)%nat -> (i < length dst)%nat ->
    let t := division_lane op W in
    rd t (src_lane src 1 i) <> 0 ->
    exists dst',
      Strict.evaluate_division op dst nc W src = Value (Done dst') /\
      rd t (lane dst' i) =
      exact_division op (rd t (src_lane src 0 i)) (rd t (src_lane src 1 i)).

(** The sum or difference of a lane of [iadd_sat] or [isub_sat] is formed
    in the lane type at bit sizes 32 and 64 and in [int] below. *)
Definition sum_fits (W s : Z) : bool :=
  negb ((W =? 32) || (W =? 64)) || ((smin W <=? s) && (s <=? smax W)).

Definition isub_sat_lane_defined (W : Z) (src : list vec) (j : nat) : bool :=
  let t := sint_lane W in
  sum_fits W (rd t (src_lane src 0 j) - rd t (src_lane src 1 j)).

Definition iadd_sat_lane_defined (W : Z) (src : list vec) (j : nat) : bool :=
  let t := sint_lane W in
  sum_fits W (rd t (src_lane src 0 j) + rd t (src_lane src 1 j)).

(** The operands of a lane of [ubitfield_extract] for which every
    operation of the evaluator is defined: all but those that reach the
    sum [offset + bits] with a sum above [INT_MAX]. *)
Definition extract_operands_defined (offset bits : Z) : bool :=
  (bits <=? 0) || (offset <? 0) || (offset + bits <? 2 ^ 31).

Definition ubitfield_extract_lane_defined (src : list vec) (j : nat) : bool :=
  extract_operands_defined (i32 (src_lane src 1 j)) (i32 (src_lane src 2 j)).

(** The same for [ubfe], whose last branch also shifts by [offset]. *)
Definition ubfe_operands_defined (offset bits : Z) : bool :=
  (bits <=? 0) || (offset <? 0)
  || ((offset + bits <? 2 ^ 31) && ((offset + bits <? 32) || (offset <? 32))).

Definition ubfe_lane_defined (src : list vec) (j : nat) : bool :=
  ubfe_operands_defined (i32 (src_lane src 1 j)) (i32 (src_lane src 2 j)).

(* ================================================================== *)
(** * Properties *)

(** ** Arrays and the per-lane loop *)

Lemma upd_length v i f : length (upd v i f) = length v.
Proof. revert i; induction v as [|x r IH]; intros [|j]; simpl; auto. Qed.

Lemma lane_upd_same v i f :
  (i < length v)%nat -> lane (upd v i f) i = f (lane v i).
Proof.
  unfold lane. revert i.
  induction v as [|x r IH]; intros [|j] H; simpl in *; try lia; auto.
  apply IH; lia.
Qed.

Lemma lane_upd_other v i j f : i <> j -> lane (upd v i f) j = lane v j.
Proof.
  unfold lane. revert i j.
  induction v as [|x r IH]; intros [|i] [|j] H; simpl in *;
    auto; congruence.
Qed.

Lemma for_loop_S {S} n (body : nat -> S -> S) s :
  for_loop (Datatypes.S n) body s = body n (for_loop n body s).
Proof. unfold for_loop. rewrite seq_S, fold_left_app. reflexivity. Qed.

Lemma for_loop_upd_length n g v :
  length (for_loop n (fun i d => upd d i (g i)) v) = length v.
Proof.
  induction n; [reflexivity|]. rewrite for_loop_S, upd_length. exact IHn.
Qed.

Lemma lane_for_loop_upd n g v i :
  lane (for_loop n (fun i d => upd d i (g i)) v) i =
  if (i <? n)%nat && (i <? length v)%nat then g i (lane v i) else lane v i.
Proof.
  induction n.
  - reflexivity.
  - rewrite for_loop_S. destruct (Nat.eq_dec n i) as [->|Hne].
    + destruct (Nat.ltb_spec i (length v)).
      * rewrite lane_upd_same by (rewrite for_loop_upd_length; lia).
        rewrite IHn. rewrite Nat.ltb_irrefl. simpl.
        replace (i <? S i)%nat with true
          by (symmetry; apply Nat.ltb_lt; lia).
        reflexivity.
      * rewrite andb_false_r. unfold lane. rewrite !nth_overflow; auto.
        rewrite upd_length, for_loop_upd_length. lia.
    + rewrite lane_upd_other by assumption. rewrite IHn.
      destruct (Nat.ltb_spec i n), (Nat.ltb_spec i (S n));
        try lia; reflexivity.
Qed.

Lemma per_lane_length nc body dst :
  length (per_lane nc body dst) = length dst.
Proof. apply for_loop_upd_length. Qed.

Lemma per_lane_lane nc body dst i :
  (i < nc)%nat -> (i < length dst)%nat ->
  lane (per_lane nc body dst) i = body i (lane dst i).
Proof.
  intros Hn Hl. unfold per_lane. rewrite lane_for_loop_upd.
  apply Nat.ltb_lt in Hn, Hl. rewrite Hn, Hl. reflexivity.
Qed.

Lemma per_lane_lane_out nc body dst i :
  (nc <= i)%nat -> lane (per_lane nc body dst) i = lane dst i.
Proof.
  intros Hn. unfold per_lane. rewrite lane_for_loop_upd.
  apply Nat.ltb_ge in Hn. rewrite Hn. reflexivity.
Qed.

Lemma lanewise2_length t expr dst nc src :
  length (lanewise2 t expr dst nc src) = length dst.
Proof. apply per_lane_length. Qed.

Lemma lanewise2_lane t expr dst nc src i :
  (i < nc)%nat -> (i < length dst)%nat ->
  lane (lanewise2 t expr dst nc src) i =
  wr t (cast (ctype_of t)
          (expr (rd t (src_lane src 0 i)) (rd t (src_lane src 1 i))))
       (lane dst i).
Proof. intros Hn Hl. unfold lanewise2. now rewrite per_lane_lane. Qed.

Lemma lanewise2_lane_out t expr dst nc src i :
  (nc <= i)%nat ->
  lane (lanewise2 t expr dst nc src) i = lane dst i.
Proof. intros Hn. unfold lanewise2. now rewrite per_lane_lane_out. Qed.

(** ** Fixed-width arithmetic *)

Ltac zmod := Z.div_mod_to_equations; lia.

Lemma land_1 x : Z.land x 1 = x mod 2.
Proof. change 1 with (Z.ones 1). rewrite Z.land_ones by lia. reflexivity. Qed.

(** Closed powers and shifts are replaced by their values. *)
Ltac znorm :=
  repeat match goal with
  | |- context [Z.pow ?a ?c] =>
      let v := eval vm_compute in (Z.pow a c) in
      progress change (Z.pow a c) with v
  | |- context [Z.shiftl ?a ?c] =>
      let v := eval vm_compute in (Z.shiftl a c) in
      progress change (Z.shiftl a c) with v
  | |- context [Z.shiftr ?a ?c] =>
      let v := eval vm_compute in (Z.shiftr a c) in
      progress change (Z.shiftr a c) with v
  end.

Ltac unfold_int :=
  unfold in_range, rd, wr, wrap, set_b, b, u8, get_field, set_field,
    i2b, b2i, umax, smin, smax, MAX_UINT_FOR_SIZE, UINT64_MAX,
    shl_1ull, sub_ull, c_add, c_sub, c_div, c_rem, cast, sext, zext;
  cbn [ctype_of sizeof is_signed lane_signed width promote];
  rewrite ?land_1; znorm.

Ltac no_if x :=
  lazymatch x with
  | context [if _ then _ else _] => fail
  | _ => idtac
  end.

(** Case analysis on the comparisons of the goal, innermost first. *)
Ltac cases :=
  repeat (cbn [negb andb orb Bool.eqb];
          match goal with
          | |- context [Z.gtb ?x ?y] => rewrite (Z.gtb_ltb x y)
          | |- context [Z.geb ?x ?y] => rewrite (Z.geb_leb x y)
          | |- context [Z.ltb ?x ?y] =>
              no_if x; no_if y; destruct (Z.ltb_spec x y)
          | |- context [Z.leb ?x ?y] =>
              no_if x; no_if y; destruct (Z.leb_spec x y)
          | |- context [Z.eqb ?x ?y] =>
              no_if x; no_if y; destruct (Z.eqb_spec x y)
          end);
  cbn [negb andb orb Bool.eqb].

Lemma sext_range w x : 0 < w -> smin w <= sext w x <= smax w.
Proof.
  intros Hw. unfold smin, smax, sext.
  assert (2 ^ w = 2 * 2 ^ (w - 1)).
  { replace w with (1 + (w - 1)) at 1 by lia.
    rewrite Z.pow_add_r by lia. reflexivity. }
  assert (0 < 2 ^ (w - 1)) by (apply Z.pow_pos_nonneg; lia).
  pose proof (Z.mod_pos_bound (x + 2 ^ (w - 1)) (2 ^ w)). lia.
Qed.

Lemma sext_mod w x : 0 < w -> sext w x mod 2 ^ w = x mod 2 ^ w.
Proof. intros Hw. unfold sext. rewrite Zminus_mod_idemp_l. f_equal. lia. Qed.

(** Reading a lane back after a store of [x] gives [x] wrapped to the
    lane type. *)
Lemma rd_wr t x v : rd t (wr t x v) = wrap t x.
Proof. destruct t; unfold_int; cases; zmod. Qed.

Lemma rd_in_range t v : in_range t (rd t v).
Proof. destruct t; unfold_int; cases; zmod. Qed.

(** Membership in an explicit list. *)
Ltac in_list := simpl; repeat (first [left; reflexivity | right]).

Lemma In_widths_int W :
  In W widths_int -> W = 1 \/ W = 8 \/ W = 16 \/ W = 32 \/ W = 64.
Proof. simpl. intuition. Qed.

(** ** Integer addition *)

Lemma wrap_iadd t a c :
  lane_signed t = true ->
  wrap t (cast (ctype_of t) (iadd_expr t a c)) = sext (width t) (a + c).
Proof.
  intros H; destruct t; try discriminate H;
    unfold iadd_expr; unfold_int; zmod.
Qed.

Lemma evaluate_iadd_lanes W dst nc src :
  In W widths_int ->
  evaluate_iadd dst nc W src =
  Done (lanewise2 (sint_lane W) (iadd_expr (sint_lane W)) dst nc src).
Proof.
  intros H. apply In_widths_int in H.
  destruct H as [-> | [-> | [-> | [-> | ->]]]]; reflexivity.
Qed.

(** C8.  [iadd] at bit width 8 on 127 and 1 yields -128; at every width W
    the stored lane is the exact sum of the two source lanes reduced
    modulo 2^W into the signed range of W. *)
Theorem iadd_wraparound W dst nc src (HW : In W widths_int) :
  (exists r, evaluate_iadd [0] 1 8 [[127]; [1]] = Done [r] /\ i8 r = -128) /\
  exists dst',
    evaluate_iadd dst nc W src = Done dst' /\
    length dst' = length dst /\
    forall i, (i < nc)%nat -> (i < length dst)%nat ->
      let a := rd (sint_lane W) (src_lane src 0 i) in
      let c := rd (sint_lane W) (src_lane src 1 i) in
      let r := rd (sint_lane W) (lane dst' i) in
      smin W <= r <= smax W /\ r mod 2 ^ W = (a + c) mod 2 ^ W.
Proof.
  split.
  - exists 128. split; reflexivity.
  - eexists. split; [apply evaluate_iadd_lanes, HW|].
    split; [apply lanewise2_length|].
    intros i Hn Hl a c r. subst r.
    rewrite lanewise2_lane, rd_wr, wrap_iadd by
      (assumption ||
       (apply In_widths_int in HW;
        destruct HW as [-> | [-> | [-> | [-> | ->]]]]; reflexivity)).
    assert (Hw : width (sint_lane W) = W /\ 0 < W).
    { apply In_widths_int in HW.
      destruct HW as [-> | [-> | [-> | [-> | ->]]]]; split; reflexivity || lia. }
    destruct Hw as [-> Hpos].
    split; [apply sext_range | apply sext_mod]; assumption.
Qed.

Lemma iadd_wraparound_witness :
  In 8 widths_int /\
  exists dst',
    evaluate_iadd [0] 1 8 [[127]; [1]] = Done dst' /\
    length dst' = 1%nat /\
    forall i, (i < 1)%nat -> (i < 1)%nat ->
      let a := rd int8 (src_lane [[127]; [1]] 0 i) in
      let c := rd int8 (src_lane [[127]; [1]] 1 i) in
      let r := rd int8 (lane dst' i) in
      smin 8 <= r <= smax 8 /\ r mod 2 ^ 8 = (a + c) mod 2 ^ 8.
Proof.
  assert (H : In 8 widths_int) by (simpl; auto).
  split; [exact H|].
  exact (proj2 (iadd_wraparound 8 [0] 1%nat [[127]; [1]] H)).
Defined.

(** ** Integer division and modulo *)

Lemma wrap_cast_id t v :
  in_range t v -> wrap t (cast (ctype_of t) v) = v.
Proof. destruct t; unfold_int; intros H; zmod. Qed.

Lemma cast_promote_id t v :
  in_range t v -> cast (promote (ctype_of t)) v = v.
Proof. destruct t; unfold_int; intros H; zmod. Qed.

Lemma in_range_zero t : in_range t 0.
Proof. destruct t; unfold_int; lia. Qed.

Lemma quot_range lo hi a c :
  lo = - hi - 1 -> 0 <= hi -> lo <= a <= hi -> c <> 0 ->
  ~ (a = lo /\ c = -1) -> lo <= Z.quot a c <= hi.
Proof.
  intros -> Hhi Ha Hc Hov.
  pose proof (Z.quot_rem' a c) as E.
  pose proof (Z.rem_bound_abs a c Hc) as B.
  destruct (Z_lt_le_dec a 0) as [Hneg|Hpos].
  - pose proof (Z.rem_nonpos a c Hc ltac:(lia)). nia.
  - pose proof (Z.rem_nonneg a c Hc Hpos). nia.
Qed.

(** The conditional of [imod] computes the remainder of the floor
    division. *)
Lemma imod_floor a c :
  c <> 0 ->
  (if (Z.rem a c =? 0) || Bool.eqb (a >=? 0) (c >=? 0)
   then Z.rem a c else Z.rem a c + c) = a mod c.
Proof.
  intros Hc.
  pose proof (Z.quot_rem' a c) as E.
  pose proof (Z.rem_bound_abs a c Hc) as B.
  assert (Hs : (0 <= a -> 0 <= Z.rem a c) /\ (a <= 0 -> Z.rem a c <= 0)).
  { split; intros; [apply Z.rem_nonneg | apply Z.rem_nonpos]; lia. }
  destruct Hs as [Hs1 Hs2].
  destruct (Z.eqb_spec (Z.rem a c) 0) as [R0|R0]; cbn [orb].
  - apply Z.mod_unique with (q := Z.quot a c); lia.
  - rewrite !Z.geb_leb.
    destruct (Z.leb_spec 0 a), (Z.leb_spec 0 c); cbn [Bool.eqb].
    + apply Z.mod_unique with (q := Z.quot a c); lia.
    + apply Z.mod_unique with (q := Z.quot a c - 1); lia.
    + apply Z.mod_unique with (q := Z.quot a c - 1); lia.
    + apply Z.mod_unique with (q := Z.quot a c); lia.
Qed.

Lemma in_range_signed t x :
  lane_signed t = true ->
  in_range t x <-> smin (width t) <= x <= smax (width t).
Proof. unfold in_range. intros ->. reflexivity. Qed.

Lemma in_range_unsigned t x :
  lane_signed t = false ->
  in_range t x <-> 0 <= x <= umax (width t).
Proof. unfold in_range. intros ->. reflexivity. Qed.

Lemma smin_smax t : smin (width t) = - smax (width t) - 1 /\ 0 <= smax (width t).
Proof. destruct t; unfold smin, smax; cbn [width]; znorm; lia. Qed.

Lemma in_range_quot t a c :
  lane_signed t = true -> in_range t a -> in_range t c -> c <> 0 ->
  ~ (a = smin (width t) /\ c = -1) -> in_range t (Z.quot a c).
Proof.
  intros Hs Ha Hc Hnz Hov.
  rewrite in_range_signed in * by assumption.
  destruct (smin_smax t). now apply quot_range.
Qed.

Lemma in_range_rem t a c :
  lane_signed t = true -> in_range t a -> in_range t c -> c <> 0 ->
  in_range t (Z.rem a c).
Proof.
  intros Hs Ha Hc Hnz.
  rewrite in_range_signed in * by assumption.
  destruct (smin_smax t). pose proof (Z.rem_bound_abs a c Hnz). lia.
Qed.

Lemma in_range_mod t a c :
  lane_signed t = true -> in_range t c -> c <> 0 -> in_range t (a mod c).
Proof.
  intros Hs Hc Hnz.
  rewrite in_range_signed in * by assumption.
  destruct (smin_smax t).
  destruct (Z_lt_le_dec c 0).
  - pose proof (Z.mod_neg_bound a c). lia.
  - pose proof (Z.mod_pos_bound a c). lia.
Qed.

Lemma in_range_udiv t a c :
  lane_signed t = false -> in_range t a -> in_range t c -> c <> 0 ->
  Z.quot a c = a / c /\ Z.rem a c = a mod c /\
  in_range t (a / c) /\ in_range t (a mod c).
Proof.
  intros Hs Ha Hc Hnz.
  apply (in_range_unsigned t _ Hs) in Ha, Hc.
  rewrite Z.quot_div_nonneg, Z.rem_mod_nonneg by lia.
  assert (0 <= a mod c < c) by (apply Z.mod_pos_bound; lia).
  assert (0 <= a / c <= a).
  { split; [apply Z.div_pos; lia|].
    apply Z.div_le_upper_bound; [lia|]. nia. }
  repeat split; try apply (in_range_unsigned t _ Hs); lia.
Qed.

(** The value left in a lane by each of the five expressions. *)
Lemma idiv_lane_value t a c :
  in_range t a -> in_range t c ->
  (c = 0 -> wrap t (cast (ctype_of t) (idiv_expr t a c)) = 0) /\
  (c <> 0 -> ~ (lane_signed t = true /\ a = smin (width t) /\ c = -1) ->
   wrap t (cast (ctype_of t) (idiv_expr t a c)) =
   if lane_signed t then Z.quot a c else a / c).
Proof.
  intros Ha Hc. unfold idiv_expr, c_div. split.
  - intros ->. cbn [Z.eqb]. apply wrap_cast_id, in_range_zero.
  - intros Hnz Hov. destruct (Z.eqb_spec c 0) as [|_]; [contradiction|].
    destruct (lane_signed t) eqn:Hs.
    + assert (in_range t (Z.quot a c))
        by (apply in_range_quot; auto; intros []; apply Hov; auto).
      now rewrite cast_promote_id, wrap_cast_id.
    + destruct (in_range_udiv t a c Hs Ha Hc Hnz) as (-> & _ & H & _).
      now rewrite cast_promote_id, wrap_cast_id.
Qed.

Lemma irem_lane_value t a c :
  in_range t a -> in_range t c ->
  (c = 0 -> wrap t (cast (ctype_of t) (irem_expr t a c)) = 0) /\
  (c <> 0 ->
   wrap t (cast (ctype_of t) (irem_expr t a c)) =
   if lane_signed t then Z.rem a c else a mod c).
Proof.
  intros Ha Hc. unfold irem_expr, c_rem. split.
  - intros ->. cbn [Z.eqb]. apply wrap_cast_id, in_range_zero.
  - intros Hnz. destruct (Z.eqb_spec c 0) as [|_]; [contradiction|].
    destruct (lane_signed t) eqn:Hs.
    + assert (in_range t (Z.rem a c)) by (apply in_range_rem; auto).
      now rewrite cast_promote_id, wrap_cast_id.
    + destruct (in_range_udiv t a c Hs Ha Hc Hnz) as (_ & -> & _ & H).
      now rewrite cast_promote_id, wrap_cast_id.
Qed.

Lemma imod_lane_value t a c :
  lane_signed t = true -> in_range t a -> in_range t c ->
  (c = 0 -> wrap t (cast (ctype_of t) (imod_expr t a c)) = 0) /\
  (c <> 0 -> wrap t (cast (ctype_of t) (imod_expr t a c)) = a mod c).
Proof.
  intros Hs Ha Hc. unfold imod_expr, c_rem. split.
  - intros ->. cbn [Z.eqb]. apply wrap_cast_id, in_range_zero.
  - intros Hnz. destruct (Z.eqb_spec c 0) as [|_]; [contradiction|].
    assert (Hr : in_range t (Z.rem a c)) by (apply in_range_rem; auto).
    assert (Hm : in_range t (a mod c)) by (apply in_range_mod; auto).
    rewrite (cast_promote_id t (Z.rem a c)) by assumption.
    pose proof (imod_floor a c Hnz) as F.
    destruct ((Z.rem a c =? 0) || Bool.eqb (a >=? 0) (c >=? 0)).
    + rewrite F. now apply wrap_cast_id.
    + rewrite F. now rewrite cast_promote_id, wrap_cast_id.
Qed.

(** The quotient that [idiv] cannot represent wraps to the most negative
    value where the division itself is computed in [int]. *)
Lemma idiv_overflow_value t :
  t = int1 \/ t = int8 \/ t = int16 ->
  wrap t (cast (ctype_of t) (idiv_expr t (smin (width t)) (-1))) =
  smin (width t).
Proof. intros [-> | [-> | ->]]; reflexivity. Qed.

Lemma sint_lane_props W :
  In W widths_int ->
  lane_signed (sint_lane W) = true /\ width (sint_lane W) = W.
Proof.
  intros H. apply In_widths_int in H.
  destruct H as [-> | [-> | [-> | [-> | ->]]]]; split; reflexivity.
Qed.

Lemma uint_lane_props W :
  In W widths_int ->
  lane_signed (uint_lane W) = false /\ width (uint_lane W) = W.
Proof.
  intros H. apply In_widths_int in H.
  destruct H as [-> | [-> | [-> | [-> | ->]]]]; split; reflexivity.
Qed.

Lemma evaluate_division_lanes op W dst nc src :
  In op division_ops -> In W widths_int ->
  exists expr,
    evaluate_division op dst nc W src =
    Done (lanewise2 (division_lane op W) expr dst nc src) /\
    expr = match op with
           | nir_op_idiv | nir_op_udiv => idiv_expr (division_lane op W)
           | nir_op_imod => imod_expr (division_lane op W)
           | _ => irem_expr (division_lane op W)
           end.
Proof.
  intros Hop HW. apply In_widths_int in HW.
  simpl in Hop.
  destruct Hop as [<- | [<- | [<- | [<- | [<- | []]]]]];
    destruct HW as [-> | [-> | [-> | [-> | ->]]]];
    eexists; split; reflexivity.
Qed.

(** The lanes of the five evaluators in the wrap-around reading: a divisor
    of 0 yields 0; a non-zero divisor yields the exact quotient or
    remainder, the signed division of the most negative value by -1
    excepted; and [idiv] of the most negative value by -1 yields the most
    negative value at the widths 1, 8 and 16. *)
Lemma division_wrapped_lanes op W dst nc src i
    (Hop : In op division_ops) (HW : In W widths_int)
    (Hi : (i < nc)%nat) (Hl : (i < length dst)%nat) :
  let t := division_lane op W in
  let a := rd t (src_lane src 0 i) in
  let c := rd t (src_lane src 1 i) in
  exists dst',
    evaluate_division op dst nc W src = Done dst' /\
    (c = 0 -> rd t (lane dst' i) = 0) /\
    (c <> 0 -> ~ quotient_overflows op W a c ->
     rd t (lane dst' i) = exact_division op a c) /\
    (op = nir_op_idiv -> W = 1 \/ W = 8 \/ W = 16 ->
     a = smin W -> c = -1 -> rd t (lane dst' i) = smin W).
Proof.
  intros t a c.
  destruct (evaluate_division_lanes op W dst nc src Hop HW) as (expr & E & Hexpr).
  exists (lanewise2 t expr dst nc src). split; [exact E|].
  rewrite lanewise2_lane, rd_wr by assumption.
  fold a c.
  assert (Ha : in_range t a) by apply rd_in_range.
  assert (Hc : in_range t c) by apply rd_in_range.
  destruct (sint_lane_props W HW) as [Hss Hsw].
  destruct (uint_lane_props W HW) as [Hus Huw].
  assert (Hwt : width t = W).
  { unfold t, division_lane. destruct (division_signed op); assumption. }
  assert (Hst : lane_signed t = division_signed op).
  { unfold t, division_lane. destruct (division_signed op); assumption. }
  simpl in Hop.
  destruct Hop as [<- | [<- | [<- | [<- | [<- | []]]]]];
    cbv beta iota in Hexpr; subst expr; fold t;
    cbn [exact_division]; cbn [division_signed] in Hst.
  - (* idiv *)
    destruct (idiv_lane_value t a c Ha Hc) as [Z0 NZ].
    split; [exact Z0|]. split.
    + intros Hnz Hov. rewrite NZ, Hst; auto.
      intros (_ & Hm & Hc1). apply Hov. unfold quotient_overflows.
      rewrite <- Hwt. auto.
    + intros _ HWn Hm Hc1. rewrite Hm, Hc1, <- Hwt.
      apply idiv_overflow_value.
      unfold t, division_lane; cbn [division_signed].
      destruct HWn as [-> | [-> | ->]]; auto.
  - (* udiv *)
    destruct (idiv_lane_value t a c Ha Hc) as [Z0 NZ].
    split; [exact Z0|]. split; [|discriminate].
    intros Hnz Hov. rewrite NZ, Hst; auto.
    intros (Hf & _). congruence.
  - (* imod *)
    destruct (imod_lane_value t a c Hst Ha Hc) as [Z0 NZ].
    split; [exact Z0|]. split; [|discriminate]. auto.
  - (* irem *)
    destruct (irem_lane_value t a c Ha Hc) as [Z0 NZ].
    split; [exact Z0|]. split; [|discriminate].
    intros Hnz _. rewrite NZ, Hst; auto.
  - (* umod *)
    destruct (irem_lane_value t a c Ha Hc) as [Z0 NZ].
    split; [exact Z0|]. split; [|discriminate].
    intros Hnz _. rewrite NZ, Hst; auto.
Qed.

(** ** Saturating addition *)

Lemma uadd_sat_wide t a c :
  t = uint32 \/ t = uint64 -> in_range t a -> in_range t c ->
  wrap t (cast (ctype_of t) (uadd_sat_expr t a c)) = usat (width t) (a + c).
Proof.
  intros [-> | ->]; unfold usat, uadd_sat_expr; unfold_int;
    intros Ha Hc; cases; zmod.
Qed.

Lemma uadd_sat_narrow t a c :
  t = uint1 \/ t = uint8 \/ t = uint16 -> in_range t a -> in_range t c ->
  wrap t (cast (ctype_of t) (uadd_sat_expr t a c)) = zext (width t) (a + c).
Proof.
  intros [-> | [-> | ->]]; unfold uadd_sat_expr; unfold_int;
    intros Ha Hc; cases; zmod.
Qed.

Lemma iadd_sat_wide t a c :
  t = int32 \/ t = int64 -> in_range t a -> in_range t c ->
  wrap t (cast (ctype_of t) (iadd_sat_expr t (width t) a c)) =
  ssat (width t) (a + c).
Proof.
  intros [-> | ->]; unfold ssat, iadd_sat_expr; unfold_int;
    intros Ha Hc; cases; zmod.
Qed.

Lemma iadd_sat_narrow t a c :
  t = int1 \/ t = int8 \/ t = int16 -> in_range t a -> in_range t c ->
  wrap t (cast (ctype_of t) (iadd_sat_expr t (width t) a c)) =
  sext (width t) (a + c).
Proof.
  intros [-> | [-> | ->]]; unfold iadd_sat_expr; unfold_int;
    intros Ha Hc; cases; zmod.
Qed.

Lemma evaluate_uadd_sat_lanes W dst nc src :
  In W widths_int ->
  evaluate_uadd_sat dst nc W src =
  Done (lanewise2 (uint_lane W) (uadd_sat_expr (uint_lane W)) dst nc src).
Proof.
  intros H. apply In_widths_int in H.
  destruct H as [-> | [-> | [-> | [-> | ->]]]]; reflexivity.
Qed.

Lemma evaluate_iadd_sat_lanes W dst nc src :
  In W widths_int ->
  evaluate_iadd_sat dst nc W src =
  Done (lanewise2 (sint_lane W) (iadd_sat_expr (sint_lane W) W) dst nc src).
Proof.
  intros H. apply In_widths_int in H.
  destruct H as [-> | [-> | [-> | [-> | ->]]]]; reflexivity.
Qed.

(** What the two evaluators store in a lane in the wrap-around reading:
    at the widths 32 and 64 the saturated sum; at the widths 1, 8 and 16,
    where the sum is formed in [int] and cannot wrap, the sum reduced
    modulo 2^W. *)
Lemma uadd_sat_lane W dst nc src i :
  In W widths_int -> (i < nc)%nat -> (i < length dst)%nat ->
  exists dst',
    evaluate_uadd_sat dst nc W src = Done dst' /\
    let a := rd (uint_lane W) (src_lane src 0 i) in
    let c := rd (uint_lane W) (src_lane src 1 i) in
    rd (uint_lane W) (lane dst' i) =
    if (W =? 32) || (W =? 64) then usat W (a + c) else zext W (a + c).
Proof.
  intros HW Hi Hl. eexists. split; [apply evaluate_uadd_sat_lanes, HW|].
  intros a c. rewrite lanewise2_lane, rd_wr by assumption. fold a c.
  assert (in_range (uint_lane W) a) by apply rd_in_range.
  assert (in_range (uint_lane W) c) by apply rd_in_range.
  apply In_widths_int in HW.
  destruct HW as [-> | [-> | [-> | [-> | ->]]]]; cbn [Z.eqb Pos.eqb orb].
  - apply (uadd_sat_narrow uint1); auto.
  - apply (uadd_sat_narrow uint8); auto.
  - apply (uadd_sat_narrow uint16); auto.
  - apply (uadd_sat_wide uint32); auto.
  - apply (uadd_sat_wide uint64); auto.
Qed.

Lemma iadd_sat_lane W dst nc src i :
  In W widths_int -> (i < nc)%nat -> (i < length dst)%nat ->
  exists dst',
    evaluate_iadd_sat dst nc W src = Done dst' /\
    let a := rd (sint_lane W) (src_lane src 0 i) in
    let c := rd (sint_lane W) (src_lane src 1 i) in
    rd (sint_lane W) (lane dst' i) =
    if (W =? 32) || (W =? 64) then ssat W (a + c) else sext W (a + c).
Proof.
  intros HW Hi Hl. eexists. split; [apply evaluate_iadd_sat_lanes, HW|].
  intros a c. rewrite lanewise2_lane, rd_wr by assumption. fold a c.
  assert (in_range (sint_lane W) a) by apply rd_in_range.
  assert (in_range (sint_lane W) c) by apply rd_in_range.
  apply In_widths_int in HW.
  destruct HW as [-> | [-> | [-> | [-> | ->]]]]; cbn [Z.eqb Pos.eqb orb].
  - apply (iadd_sat_narrow int1); auto.
  - apply (iadd_sat_narrow int8); auto.
  - apply (iadd_sat_narrow int16); auto.
  - apply (iadd_sat_wide int32); auto.
  - apply (iadd_sat_wide int64); auto.
Qed.

(** The parts of C1 that hold at every width in the wrap-around reading:
    the stored lane is in the range of the width, and it is the exact sum
    whenever that is representable. *)
Lemma add_sat_in_range_and_exact W dst nc src i :
  In W widths_int -> (i < nc)%nat -> (i < length dst)%nat ->
  (exists dst',
     evaluate_uadd_sat dst nc W src = Done dst' /\
     let a := rd (uint_lane W) (src_lane src 0 i) in
     let c := rd (uint_lane W) (src_lane src 1 i) in
     let r := rd (uint_lane W) (lane dst' i) in
     0 <= r <= umax W /\ (a + c <= umax W -> r = a + c)) /\
  (exists dst',
     evaluate_iadd_sat dst nc W src = Done dst' /\
     let a := rd (sint_lane W) (src_lane src 0 i) in
     let c := rd (sint_lane W) (src_lane src 1 i) in
     let r := rd (sint_lane W) (lane dst' i) in
     smin W <= r <= smax W /\ (smin W <= a + c <= smax W -> r = a + c)).
Proof.
  intros HW Hi Hl. split.
  - destruct (uadd_sat_lane W dst nc src i HW Hi Hl) as (d & E & R).
    exists d. split; [exact E|]. intros a c r.
    destruct (uint_lane_props W HW) as [Hs Hw].
    pose proof (rd_in_range (uint_lane W) (lane d i)) as Hr.
    pose proof (rd_in_range (uint_lane W) (src_lane src 0 i)) as Ha.
    pose proof (rd_in_range (uint_lane W) (src_lane src 1 i)) as Hc.
    apply (in_range_unsigned _ _ Hs) in Hr, Ha, Hc. rewrite Hw in Hr, Ha, Hc.
    split; [exact Hr|]. intros Hfit. subst r. rewrite R. fold a c.
    destruct ((W =? 32) || (W =? 64)).
    + unfold usat. lia.
    + unfold zext. apply Z.mod_small. unfold umax in *. fold a c in Ha, Hc.
      clearbody a c. lia.
  - destruct (iadd_sat_lane W dst nc src i HW Hi Hl) as (d & E & R).
    exists d. split; [exact E|]. intros a c r.
    destruct (sint_lane_props W HW) as [Hs Hw].
    pose proof (rd_in_range (sint_lane W) (lane d i)) as Hr.
    apply (in_range_signed _ _ Hs) in Hr. rewrite Hw in Hr.
    split; [exact Hr|]. intros Hfit. subst r. rewrite R. fold a c.
    destruct ((W =? 32) || (W =? 64)).
    + unfold ssat. lia.
    + assert (0 < W) by
        (apply In_widths_int in HW; lia).
      pose proof (sext_range W (a + c) H) as B.
      pose proof (sext_mod W (a + c) H) as M.
      assert (P : 2 ^ W = 2 * 2 ^ (W - 1)).
      { replace W with (1 + (W - 1)) at 1 by lia.
        rewrite Z.pow_add_r by lia. reflexivity. }
      assert (0 < 2 ^ (W - 1)) by (apply Z.pow_pos_nonneg; lia).
      unfold smin, smax in *.
      assert (Hd : (sext W (a + c) - (a + c)) mod 2 ^ W = 0).
      { rewrite Zminus_mod, M, Z.sub_diag. reflexivity. }
      apply Z.mod_divide in Hd; [|lia]. destruct Hd as [k Hk].
      rewrite P in Hk. clearbody a c.
      remember (sext W (a + c)) as s eqn:Es.
      remember (2 ^ (W - 1)) as h eqn:Eh.
      assert (k = 0) by nia. subst k. lia.
Qed.

(** C1.  At the widths 1, 8 and 16 the two evaluators do not saturate:
    [uadd_sat] at width 8 on 250 and 10 stores 4 where the saturated sum
    is 255, and [iadd_sat] at width 8 on 127 and 1 stores -128 where the
    saturated sum is 127; likewise at width 1, in the evaluator's own
    reading of 1-bit lanes. *)
Theorem add_sat_narrow_widths_wrap :
  (evaluate_uadd_sat [0] 1 8 [[250]; [10]] = Done [4] /\
   usat 8 (250 + 10) = 255) /\
  (exists r, evaluate_iadd_sat [0] 1 8 [[127]; [1]] = Done [r] /\
             i8 r = -128 /\ ssat 8 (127 + 1) = 127) /\
  (exists r, evaluate_uadd_sat [0] 1 1 [[1]; [1]] = Done [r] /\
             rd uint1 1 = 1 /\ rd uint1 r = 0 /\ usat 1 (1 + 1) = 1) /\
  (exists r, evaluate_iadd_sat [0] 1 1 [[1]; [1]] = Done [r] /\
             rd int1 1 = -1 /\ rd int1 r = 0 /\ ssat 1 (-1 + -1) = -1).
Proof.
  split; [split; reflexivity|].
  split; [exists 128; repeat split|].
  split; [exists 0; repeat split | exists 0; repeat split].
Qed.

(** ** Stores into the 1-bit member [b] *)

Lemma u8_set_b x v : u8 (set_b x v) = b2i x.
Proof. destruct x; unfold_int; zmod. Qed.

Lemma b_set_b x v : b (set_b x v) = x.
Proof. unfold b. rewrite u8_set_b. destruct x; reflexivity. Qed.

Lemma rd_int1_set_b x v : rd int1 (set_b x v) = - b2i x.
Proof. unfold rd. rewrite b_set_b. destruct x; reflexivity. Qed.

Lemma store_bool1_b x v : b (store_bool1 x v) = x.
Proof. unfold store_bool1. rewrite b_set_b. destruct x; reflexivity. Qed.

Lemma store_bool1_u8 x v : u8 (store_bool1 x v) = b2i x.
Proof. unfold store_bool1. rewrite u8_set_b. destruct x; reflexivity. Qed.

Lemma store_bool32_i32 x v : i32 (store_bool32 x v) = - b2i x.
Proof. destruct x; unfold store_bool32, i32; unfold_int; zmod. Qed.

Lemma store_bool32_u32 x v :
  u32 (store_bool32 x v) = if x then 2 ^ 32 - 1 else 0.
Proof. destruct x; unfold store_bool32, u32; unfold_int; zmod. Qed.

(** The store [_dst_val[i].b = dst & 1] leaves bit 0 of [dst] in the
    member and nothing above it. *)
Lemma wr_int1_u8 x v : u8 (wr int1 x v) = Z.land x 1.
Proof.
  cbn [wr]. rewrite u8_set_b, land_1. unfold i2b, b2i.
  destruct (Z.eqb_spec (x mod 2) 0); cbn [negb]; zmod.
Qed.

Lemma land_1_cases x : Z.land x 1 = 0 \/ Z.land x 1 = 1.
Proof. rewrite land_1. zmod. Qed.

(** ** Boolean reduction *)

Lemma set_b_lane x v : set_b x v = v - u8 v + b2i x.
Proof. destruct x; unfold set_b, set_field, u8; unfold_int; zmod. Qed.

Lemma i32_low_byte v : u8 v = i32 v mod 256.
Proof. unfold u8, i32. unfold_int. zmod. Qed.

(** C3, as amended.  [ball_iequal4] at bit width 32 on (1,2,3,4) and
    (1,2,3,5) stores 0 in destination lane 0; on (1,2,3,4) and (1,2,3,4)
    it stores the boolean true in the 1-bit member [b] of lane 0: the
    byte becomes 1, which reads as -1 in the 0/-1 convention of 1-bit
    lanes, the bytes of the lane above it keep what they held, and the
    32-bit view of the lane is never -1.  In both cases the other lanes of
    the destination are left as they were.  The value -1 with all 32 bits
    set is what [b32all_iequal4] stores on the same sources. *)
Theorem ball_iequal4_scenario (d0 : nir_const_value) (rest : vec) (nc : nat) :
  (exists r,
     evaluate_ball_iequal4 (d0 :: rest) nc 32 [[1; 2; 3; 4]; [1; 2; 3; 5]]
     = Done (r :: rest) /\
     r = d0 - u8 d0 /\ b r = false /\ u8 r = 0 /\ rd int1 r = 0) /\
  (exists r,
     evaluate_ball_iequal4 (d0 :: rest) nc 32 [[1; 2; 3; 4]; [1; 2; 3; 4]]
     = Done (r :: rest) /\
     r = d0 - u8 d0 + 1 /\ b r = true /\ u8 r = 1 /\ rd int1 r = -1 /\
     i32 r <> -1) /\
  (exists r,
     evaluate_b32all_iequal4 (d0 :: rest) nc 32 [[1; 2; 3; 4]; [1; 2; 3; 4]]
     = Done (r :: rest) /\
     i32 r = -1 /\ u32 r = 2 ^ 32 - 1).
Proof.
  split; [|split].
  - exists (store_bool1 false d0). split; [reflexivity|].
    rewrite store_bool1_b, store_bool1_u8.
    unfold store_bool1. rewrite rd_int1_set_b, set_b_lane.
    cbn [b2i Z.opp i2b Z.eqb negb]. repeat split. lia.
  - exists (store_bool1 true d0). split; [reflexivity|].
    assert (U : u8 (store_bool1 true d0) = 1) by apply store_bool1_u8.
    rewrite store_bool1_b. rewrite U.
    unfold store_bool1 at 1 2. rewrite rd_int1_set_b, set_b_lane.
    cbn [b2i Z.opp i2b Z.eqb negb]. repeat split.
    intros E. rewrite i32_low_byte, E in U. discriminate U.
  - exists (store_bool32 true d0). split; [reflexivity|].
    rewrite store_bool32_i32, store_bool32_u32. split; reflexivity.
Qed.

(** C3 as stated fails: on a destination lane holding 0 the evaluator
    leaves 1 in the lane, not -1. *)
Lemma ball_iequal4_as_stated_fails : ~ ball_iequal4_as_stated.
Proof.
  intros H. destruct (H 0 [] 1%nat) as (r & E & R).
  vm_compute in E. injection E as <-. discriminate R.
Qed.

(** ** Bitfield extraction *)

Lemma bitfield_lanes_lane body dst nc src i :
  (i < nc)%nat -> (i < length dst)%nat ->
  u32 (lane (bitfield_lanes body dst nc src) i) =
  cast uint32_t (body (u32 (src_lane src 0 i)) (i32 (src_lane src 1 i))
                      (i32 (src_lane src 2 i))).
Proof.
  intros Hn Hl. unfold bitfield_lanes. rewrite per_lane_lane by assumption.
  unfold u32, i32. unfold_int. zmod.
Qed.

Lemma i32_range v : - 2 ^ 31 <= i32 v < 2 ^ 31.
Proof. unfold i32. unfold_int. zmod. Qed.

Lemma u32_range v : 0 <= u32 v < 2 ^ 32.
Proof. unfold u32. unfold_int. zmod. Qed.

Lemma cast_int32_id x : - 2 ^ 31 <= x < 2 ^ 31 -> cast int32_t x = x.
Proof. unfold_int. intros; zmod. Qed.

Lemma cast_uint32_id x : 0 <= x < 2 ^ 32 -> cast uint32_t x = x.
Proof. unfold_int. intros; zmod. Qed.

(** The [int] sum [offset + bits] is the exact sum unless that exceeds the
    range of [int]. *)
Lemma c_add_int32_exact x y :
  - 2 ^ 31 <= x + y < 2 ^ 31 -> c_add int32_t x y = x + y.
Proof. unfold c_add. cbn [promote]. apply cast_int32_id. Qed.

Lemma ubitfield_extract_body_zero base offset bits :
  - 2 ^ 31 <= offset < 2 ^ 31 -> - 2 ^ 31 <= bits < 2 ^ 31 ->
  bits = 0 \/ bits < 0 \/ offset < 0 \/ 32 < c_add int32_t offset bits ->
  ubitfield_extract_body base offset bits = 0.
Proof.
  intros Ho Hb H. unfold ubitfield_extract_body.
  rewrite (cast_int32_id offset), (cast_int32_id bits) by assumption.
  rewrite Z.gtb_ltb.
  destruct (Z.eqb_spec bits 0); [reflexivity|].
  destruct (Z.ltb_spec bits 0); [reflexivity|].
  destruct (Z.ltb_spec offset 0); [reflexivity|].
  destruct (Z.ltb_spec 32 (c_add int32_t offset bits)); [reflexivity|].
  lia.
Qed.

Lemma shr_u32_div base offset :
  0 <= base < 2 ^ 32 -> 0 <= offset ->
  shr_u32 base offset = base / 2 ^ offset.
Proof.
  intros Hb Ho. unfold shr_u32. rewrite Z.shiftr_div_pow2 by assumption.
  apply cast_uint32_id.
  assert (0 < 2 ^ offset) by (apply Z.pow_pos_nonneg; lia).
  split; [apply Z.div_pos; lia|].
  apply Z.div_lt_upper_bound; [lia|]. nia.
Qed.

(** ** The bit-size switch *)

Lemma switch_int {A} W (a1 a8 a16 a32 a64 d : A) :
  match W with
  | 1 => a1 | 8 => a8 | 16 => a16 | 32 => a32 | 64 => a64 | _ => d
  end =
  if W =? 1 then a1 else if W =? 8 then a8 else if W =? 16 then a16
  else if W =? 32 then a32 else if W =? 64 then a64 else d.
Proof.
  destruct W as [|p|p]; try reflexivity.
  do 7 (try (destruct p as [p|p|]; try reflexivity)).
Qed.

Lemma switch_float {A} W (a16 a32 a64 d : A) :
  match W with
  | 16 => a16 | 32 => a32 | 64 => a64 | _ => d
  end =
  if W =? 16 then a16 else if W =? 32 then a32 else if W =? 64 then a64
  else d.
Proof.
  destruct W as [|p|p]; try reflexivity.
  do 7 (try (destruct p as [p|p|]; try reflexivity)).
Qed.

Lemma has_case_In W l : has_case W l = true <-> In W l.
Proof.
  unfold has_case. rewrite existsb_exists. split.
  - intros (x & Hx & E). apply Z.eqb_eq in E. now subst.
  - intros H. exists W. split; [assumption | apply Z.eqb_refl].
Qed.

Lemma In_widths_float W :
  In W widths_float -> W = 16 \/ W = 32 \/ W = 64.
Proof. simpl. intuition. Qed.

(** ** Comparisons *)

Lemma cmp_lanes_length {A} (read : nir_const_value -> A) op store dst nc src :
  length (cmp_lanes read op store dst nc src) = length dst.
Proof. apply per_lane_length. Qed.

Lemma cmp_lanes_lane {A} (read : nir_const_value -> A) op store dst nc src i :
  (i < nc)%nat -> (i < length dst)%nat ->
  lane (cmp_lanes read op store dst nc src) i =
  store (op (read (src_lane src 0 i)) (read (src_lane src 1 i))) (lane dst i).
Proof. intros Hn Hl. unfold cmp_lanes. now rewrite per_lane_lane. Qed.

(** On a legal bit size a comparison evaluator returns, and each lane it
    writes holds the store of a truth value. *)
Lemma evaluate_fcmp_result op store dst nc W src :
  In W widths_float ->
  exists d, evaluate_fcmp op store dst nc W src = Done d /\
    length d = length dst /\
    forall i, (i < nc)%nat -> (i < length dst)%nat ->
      exists x : bool, lane d i = store x (lane dst i).
Proof.
  intros H. apply In_widths_float in H.
  destruct H as [-> | [-> | ->]]; (eexists; split; [reflexivity|]);
    (split; [apply cmp_lanes_length|]); intros i Hn Hl;
    eexists; apply cmp_lanes_lane; assumption.
Qed.

Lemma evaluate_icmp_result sgn op store dst nc W src :
  In W widths_int ->
  exists d, evaluate_icmp sgn op store dst nc W src = Done d /\
    length d = length dst /\
    forall i, (i < nc)%nat -> (i < length dst)%nat ->
      exists x : bool, lane d i = store x (lane dst i).
Proof.
  intros H. apply In_widths_int in H.
  destruct H as [-> | [-> | [-> | [-> | ->]]]];
    (eexists; split; [reflexivity|]);
    (split; [apply cmp_lanes_length|]); intros i Hn Hl;
    eexists; apply cmp_lanes_lane; assumption.
Qed.

Lemma evaluate_comparison_result op dst nc W src :
  In op comparison_ops -> legal_bit_size op W ->
  exists d, evaluate_comparison op dst nc W src = Done d /\
    length d = length dst /\
    forall i, (i < nc)%nat -> (i < length dst)%nat ->
      exists x : bool,
        lane d i = (if comparison_dest32 op then store_bool32 x
                    else store_bool1 x) (lane dst i).
Proof.
  intros Hop HW. simpl in Hop.
  repeat (destruct Hop as [<- | Hop];
          [first [ exact (evaluate_fcmp_result _ _ dst nc W src HW)
                 | exact (evaluate_icmp_result _ _ _ dst nc W src HW) ]|]).
  destruct Hop.
Qed.

(** C2.  Each comparison opcode, at each bit size its switch accepts (32
    and 64 among them), returns, and each lane it writes is a canonical
    boolean of the destination width: all-zero or all-one bits in the
    32-bit destination of the opcodes named [*32], and 0 or 1 in the 1-bit
    destination of the others (0 or -1 as a 1-bit lane is read). *)
Theorem comparison_canonical_boolean op W dst nc src
    (Hop : In op comparison_ops) (HW : legal_bit_size op W) :
  exists d,
    evaluate_comparison op dst nc W src = Done d /\
    length d = length dst /\
    forall i, (i < nc)%nat -> (i < length dst)%nat ->
      if comparison_dest32 op
      then (i32 (lane d i) = 0 \/ i32 (lane d i) = -1) /\
           (u32 (lane d i) = 0 \/ u32 (lane d i) = 2 ^ 32 - 1)
      else (u8 (lane d i) = 0 \/ u8 (lane d i) = 1) /\
           (rd int1 (lane d i) = 0 \/ rd int1 (lane d i) = -1).
Proof.
  destruct (evaluate_comparison_result op dst nc W src Hop HW)
    as (d & E & L & R).
  exists d. split; [exact E|]. split; [exact L|].
  intros i Hn Hl. destruct (R i Hn Hl) as (x & ->).
  destruct (comparison_dest32 op).
  - rewrite store_bool32_i32, store_bool32_u32. destruct x; cbn [b2i]; auto.
  - rewrite store_bool1_u8. unfold store_bool1. rewrite rd_int1_set_b.
    destruct x; cbn [b2i i2b Z.opp Z.eqb negb]; auto.
Qed.

Lemma comparison_canonical_boolean_witness :
  In nir_op_flt32 comparison_ops /\ legal_bit_size nir_op_flt32 32 /\
  exists d,
    evaluate_comparison nir_op_flt32 [5; 5] 2 32
      [[1065353216; 0]; [1073741824; 0]] = Done d /\
    length d = length [5; 5] /\
    forall i, (i < 2)%nat -> (i < length [5; 5])%nat ->
      (i32 (lane d i) = 0 \/ i32 (lane d i) = -1) /\
      (u32 (lane d i) = 0 \/ u32 (lane d i) = 2 ^ 32 - 1).
Proof.
  assert (H1 : In nir_op_flt32 comparison_ops) by in_list.
  assert (H2 : legal_bit_size nir_op_flt32 32)
    by (unfold legal_bit_size; in_list).
  repeat (split; [assumption|]).
  exact (comparison_canonical_boolean nir_op_flt32 32 [5; 5] 2%nat
           [[1065353216; 0]; [1073741824; 0]] H1 H2).
Defined.

(** ** The shape of the evaluators *)

Lemma upd_ext f g i d : (forall v, f v = g v) -> upd d i f = upd d i g.
Proof.
  intros E. revert i. induction d as [|x d IH]; intros [|i]; cbn;
    rewrite ?E, ?IH; reflexivity.
Qed.

Lemma per_lane_ext n f g d :
  (forall i v, f i v = g i v) -> per_lane n f d = per_lane n g d.
Proof.
  intros E. unfold per_lane, for_loop. generalize (seq 0 n) as l. intros l.
  revert d. induction l as [|i l IH]; intros d; cbn; [reflexivity|].
  rewrite IH. f_equal. apply upd_ext. intros v. apply E.
Qed.

Lemma i2b_b2i x : i2b (b2i x) = x.
Proof. now destruct x. Qed.

Lemma width_cases_int W :
  W = 1 \/ W = 8 \/ W = 16 \/ W = 32 \/ W = 64 \/
  has_case W widths_int = false /\
  forall A (a1 a8 a16 a32 a64 d : A),
    match W with
    | 1 => a1 | 8 => a8 | 16 => a16 | 32 => a32 | 64 => a64 | _ => d
    end = d.
Proof.
  destruct (has_case W widths_int) eqn:E.
  - apply has_case_In, In_widths_int in E. tauto.
  - do 5 right. split; [reflexivity|]. intros. rewrite switch_int.
    unfold has_case, widths_int in E. cbn [existsb] in E.
    repeat (apply orb_false_elim in E;
            let E1 := fresh in destruct E as [E1 E]; rewrite E1).
    reflexivity.
Qed.

Lemma width_cases_float W :
  W = 16 \/ W = 32 \/ W = 64 \/
  has_case W widths_float = false /\
  forall A (a16 a32 a64 d : A),
    match W with
    | 16 => a16 | 32 => a32 | 64 => a64 | _ => d
    end = d.
Proof.
  destruct (has_case W widths_float) eqn:E.
  - apply has_case_In, In_widths_float in E. tauto.
  - do 3 right. split; [reflexivity|]. intros. rewrite switch_float.
    unfold has_case, widths_float in E. cbn [existsb] in E.
    repeat (apply orb_false_elim in E;
            let E1 := fresh in destruct E as [E1 E]; rewrite E1).
    reflexivity.
Qed.

Lemma per_lane_1 f d : per_lane 1 f d = upd d 0 (f 0%nat).
Proof. reflexivity. Qed.

Lemma per_lane_4 f d :
  per_lane 4 f d =
  upd (upd (upd (upd d 0 (f 0%nat)) 1 (f 1%nat)) 2 (f 2%nat)) 3 (f 3%nat).
Proof. reflexivity. Qed.

Ltac skel_lanes :=
  cbn [sint_lane uint_lane exec_store store_sized_int store_sized_uint
       store_sized_float has_case existsb widths_int widths_float
       widths_1_32 Z.eqb Pos.eqb orb];
  unfold lanewise2, cmp_lanes, f2i1_lanes, bitfield_lanes, ball_iequal4_at,
    read_vec4;
  cbn [vec4.x vec4.y vec4.z vec4.w];
  first [ reflexivity
        | f_equal; apply per_lane_ext; intros; rewrite ?i2b_b2i; reflexivity
        | f_equal; rewrite per_lane_1; apply upd_ext; intros;
          rewrite ?i2b_b2i; reflexivity ].

Ltac skel_open W :=
  intros ? ? W ?; unfold evaluate_skeleton, lane_count;
  cbn [bit_size_cases lanes_written dest_store].

Ltac skel_int :=
  let W := fresh "W" in let Hc := fresh in let Hm := fresh in
  skel_open W; unfold evaluate_icmp;
  destruct (width_cases_int W) as [-> | [-> | [-> | [-> | [-> | [Hc Hm]]]]]];
  [ skel_lanes .. | rewrite Hc, Hm; reflexivity ].

Ltac skel_float :=
  let W := fresh "W" in let Hc := fresh in let Hm := fresh in
  skel_open W; unfold evaluate_fcmp;
  destruct (width_cases_float W) as [-> | [-> | [-> | [Hc Hm]]]];
  [ skel_lanes .. | rewrite Hc, Hm; reflexivity ].

Ltac lanewise2_value ty expr :=
  exists (fun W (_ : nat) src i =>
            cast (ctype_of (ty W))
              (expr W (rd (ty W) (src_lane src 0 i))
                      (rd (ty W) (src_lane src 1 i)))).

Ltac icmp_value ty op :=
  exists (fun W (_ : nat) src i =>
            b2i (op (rd (ty W) (src_lane src 0 i))
                    (rd (ty W) (src_lane src 1 i)))).

Ltac fcmp_value op :=
  exists (fun W (_ : nat) src i =>
            b2i (op (float_lane W (src_lane src 0 i))
                    (float_lane W (src_lane src 1 i)))).

Ltac skel_plain :=
  let W := fresh "W" in skel_open W;
  unfold evaluate_ubfe, evaluate_ubitfield_extract, bitfield_lanes,
    evaluate_pack_snorm_4x8, evaluate_unpack_snorm_4x8, set_f32;
  cbn [vec4.x vec4.y vec4.z vec4.w exec_store];
  rewrite ?per_lane_1, ?per_lane_4; reflexivity.

(** Every evaluator the dispatcher calls has the shape of
    [evaluate_skeleton], with the switch cases, the store statement and
    the write set tabulated for its opcode: there is a lane-wise result
    for which the two agree on every invocation. *)
Lemma evaluators_have_skeleton other op :
  exists value, forall dst nc W src,
    nir_eval_const_opcode other (op_case op) dst nc W src
    = evaluate_skeleton op value dst nc W src.
Proof.
  destruct op; cbn [nir_eval_const_opcode];
  first
    [ progress unfold evaluate_other; eexists; reflexivity
    | progress unfold evaluate_iadd;
      lanewise2_value sint_lane (fun W => iadd_expr (sint_lane W)); skel_int
    | progress unfold evaluate_iadd_sat;
      lanewise2_value sint_lane (fun W => iadd_sat_expr (sint_lane W) W);
      skel_int
    | progress unfold evaluate_uadd_sat;
      lanewise2_value uint_lane (fun W => uadd_sat_expr (uint_lane W));
      skel_int
    | progress unfold evaluate_idiv;
      lanewise2_value sint_lane (fun W => idiv_expr (sint_lane W)); skel_int
    | progress unfold evaluate_udiv;
      lanewise2_value uint_lane (fun W => idiv_expr (uint_lane W)); skel_int
    | progress unfold evaluate_imod;
      lanewise2_value sint_lane (fun W => imod_expr (sint_lane W)); skel_int
    | progress unfold evaluate_irem;
      lanewise2_value sint_lane (fun W => irem_expr (sint_lane W)); skel_int
    | progress unfold evaluate_umod;
      lanewise2_value uint_lane (fun W => irem_expr (uint_lane W)); skel_int
    | progress unfold evaluate_feq, evaluate_feq32; fcmp_value feq; skel_float
    | progress unfold evaluate_fge, evaluate_fge32; fcmp_value fge; skel_float
    | progress unfold evaluate_flt, evaluate_flt32; fcmp_value flt; skel_float
    | progress unfold evaluate_fne, evaluate_fne32; fcmp_value fne; skel_float
    | progress unfold evaluate_ieq, evaluate_ieq32;
      icmp_value sint_lane Z.eqb; skel_int
    | progress unfold evaluate_ige, evaluate_ige32;
      icmp_value sint_lane Z.geb; skel_int
    | progress unfold evaluate_ilt, evaluate_ilt32;
      icmp_value sint_lane Z.ltb; skel_int
    | progress unfold evaluate_ine, evaluate_ine32;
      icmp_value sint_lane ine_op; skel_int
    | progress unfold evaluate_uge, evaluate_uge32;
      icmp_value uint_lane Z.geb; skel_int
    | progress unfold evaluate_ult, evaluate_ult32;
      icmp_value uint_lane Z.ltb; skel_int
    | progress unfold evaluate_ball_iequal4;
      exists (fun W (_ : nat) src (_ : nat) =>
                let src0 := read_vec4 (sint_lane W) src 0 in
                let src1 := read_vec4 (sint_lane W) src 1 in
                b2i ((vec4.x src0 =? vec4.x src1)
                     && (vec4.y src0 =? vec4.y src1)
                     && (vec4.z src0 =? vec4.z src1)
                     && (vec4.w src0 =? vec4.w src1)));
      skel_int
    | progress unfold evaluate_f2i1;
      exists (fun W (_ : nat) src i =>
                float_to_int int8_t (float_lane W (src_lane src 0 i)));
      skel_float
    | exists (fun (_ : Z) (_ : nat) src i =>
                cast uint32_t
                  (ubfe_body (u32 (src_lane src 0 i)) (i32 (src_lane src 1 i))
                             (i32 (src_lane src 2 i))));
      skel_plain
    | exists (fun (_ : Z) (_ : nat) src i =>
                cast uint32_t
                  (ubitfield_extract_body (u32 (src_lane src 0 i))
                     (i32 (src_lane src 1 i)) (i32 (src_lane src 2 i))));
      skel_plain
    | exists (fun (_ : Z) (_ : nat) src (_ : nat) =>
                let byte k := cast uint32_t
                                (pack_snorm_1x8 (f32 (src_lane src 0 k))) in
                Z.lor (Z.lor (Z.lor (byte 0%nat) (shl_u32 (byte 1%nat) 8))
                             (shl_u32 (byte 2%nat) 16))
                      (shl_u32 (byte 3%nat) 24));
      skel_plain
    | exists (fun (_ : Z) (_ : nat) src i =>
                let x := u32 (src_lane src 0 0) in
                encode_ieee 23 8
                  (unpack_snorm_1x8
                     (match i with
                      | 0%nat => cast uint8_t (Z.land x 255)
                      | 1%nat => cast uint8_t (Z.land (shr_u32 x 8) 255)
                      | 2%nat => cast uint8_t (Z.land (shr_u32 x 16) 255)
                      | _ => cast uint8_t (shr_u32 x 24)
                      end)));
      skel_plain ].
Qed.

(** ** 1-bit destinations *)

(** A lane-wise loop whose stores all establish [P] establishes [P] in the
    lanes below [num_components] and leaves the others as they were. *)
Lemma per_lane_written (P : nir_const_value -> Prop) nc body dst :
  (forall i v, P (body i v)) ->
  forall i, (i < length dst)%nat ->
    if (i <? nc)%nat then P (lane (per_lane nc body dst) i)
    else lane (per_lane nc body dst) i = lane dst i.
Proof.
  intros HP i Hl. destruct (Nat.ltb_spec i nc).
  - rewrite per_lane_lane by assumption. apply HP.
  - now apply per_lane_lane_out.
Qed.

Lemma store_bool1_cases x v :
  u8 (store_bool1 x v) = 0 \/ u8 (store_bool1 x v) = 1.
Proof. rewrite store_bool1_u8. destruct x; auto. Qed.

Lemma store_b_mask_u8 x v : u8 (exec_store store_b_mask x v) = Z.land x 1.
Proof. exact (wr_int1_u8 x v). Qed.

Lemma store_b_neg_u8 x v :
  u8 (exec_store store_b_neg x v) = Z.land (- b2i (i2b x)) 1.
Proof.
  cbn [exec_store]. rewrite store_bool1_u8. now destruct (i2b x).
Qed.

(** C7.  The store of a 1-bit integer result, [_dst_val[i].b = dst & 1],
    leaves [dst & 1] in the member whatever the host integer [dst], and
    the store of a boolean result, [_dst_val[i].b = -(int)dst], leaves
    [(-(int)dst) & 1]; both are 0 or 1.  For every opcode of the
    dispatcher and every case of its switch in which the destination is
    the 1-bit member, the evaluator returns, each lane it writes holds 0
    or 1, no bit above bit 0 is set in it, and the other lanes are
    untouched. *)
Theorem one_bit_destination_masked other op W dst nc src
    (H : dest_1bit op W = true) :
  (forall x v, u8 (exec_store store_b_mask x v) = Z.land x 1 /\
               u8 (exec_store store_b_neg x v) = Z.land (- b2i (i2b x)) 1 /\
               (Z.land x 1 = 0 \/ Z.land x 1 = 1)) /\
  exists d,
    nir_eval_const_opcode other (op_case op) dst nc W src = Done d /\
    length d = length dst /\
    forall i, (i < length dst)%nat ->
      if writes_lane op nc i
      then (u8 (lane d i) = 0 \/ u8 (lane d i) = 1) /\
           forall k, 0 < k -> Z.testbit (u8 (lane d i)) k = false
      else lane d i = lane dst i.
Proof.
  split.
  { intros x v. split; [apply store_b_mask_u8|].
    split; [apply store_b_neg_u8 | apply land_1_cases]. }
  destruct (evaluators_have_skeleton other op) as [value E]. rewrite E.
  unfold dest_1bit in H. apply andb_true_iff in H. destruct H as [Hc Hs].
  unfold evaluate_skeleton, writes_lane.
  match goal with
  | |- exists d, match _ with None => Done ?b | Some _ => _ end = _ /\ _ =>
      exists b
  end.
  split; [destruct (bit_size_cases op); [rewrite Hc|]; reflexivity|].
  split; [apply per_lane_length|].
  apply (per_lane_written
           (fun v => (u8 v = 0 \/ u8 v = 1) /\
                     forall k, 0 < k -> Z.testbit (u8 v) k = false)).
  intros i v.
  assert (B : forall z, z = 0 \/ z = 1 ->
                (z = 0 \/ z = 1) /\
                forall k, 0 < k -> Z.testbit z k = false).
  { intros z Hz. split; [exact Hz|]. intros k Hk.
    destruct Hz as [-> | ->]; [apply Z.testbit_0_l|].
    destruct k; try lia; reflexivity. }
  apply B.
  destruct (dest_store op W); try discriminate Hs.
  - rewrite store_b_mask_u8. apply land_1_cases.
  - apply store_bool1_cases.
Qed.

Lemma one_bit_destination_masked_witness :
  dest_1bit nir_op_iadd 1 = true /\
  exists d,
    nir_eval_const_opcode (fun _ _ _ _ _ => 0) (op_case nir_op_iadd)
      [254; 254] 1 1 [[1; 0]; [1; 0]] = Done d /\
    length d = length [254; 254] /\
    forall i, (i < length [254; 254])%nat ->
      if writes_lane nir_op_iadd 1 i
      then (u8 (lane d i) = 0 \/ u8 (lane d i) = 1) /\
           forall k, 0 < k -> Z.testbit (u8 (lane d i)) k = false
      else lane d i = lane [254; 254] i.
Proof.
  assert (H : dest_1bit nir_op_iadd 1 = true) by reflexivity.
  split; [exact H|].
  exact (proj2 (one_bit_destination_masked (fun _ _ _ _ _ => 0) nir_op_iadd 1
                  [254; 254] 1%nat [[1; 0]; [1; 0]] H)).
Defined.

(** ** The dispatcher and the unreachable defaults *)

(** C9.  For every opcode of the dispatcher and every bit size its
    evaluator accepts, evaluation returns, with a destination of the
    length it was given; a bit size outside the cases of an evaluator's
    switch reaches [unreachable("unknown bit width")], and an opcode value
    that is none of the dispatcher's cases reaches
    [unreachable("shouldn't get here")]. *)
Theorem legal_pairs_never_abort other op W dst nc src :
  (legal_bit_size op W ->
   exists d, nir_eval_const_opcode other (op_case op) dst nc W src = Done d /\
             length d = length dst) /\
  (~ legal_bit_size op W ->
   nir_eval_const_opcode other (op_case op) dst nc W src
   = Unreachable "unknown bit width") /\
  (forall code,
     nir_eval_const_opcode other (op_other code) dst nc W src
     = Unreachable "shouldn't get here").
Proof.
  destruct (evaluators_have_skeleton other op) as [value E]. rewrite E.
  unfold legal_bit_size, evaluate_skeleton.
  destruct (bit_size_cases op) as [cases|].
  - destruct (has_case W cases) eqn:C.
    + split; [intros _; eexists; split; [reflexivity | apply per_lane_length]|].
      split; [|reflexivity].
      intros N. exfalso. apply N. now apply has_case_In.
    + split; [|split; [reflexivity | reflexivity]].
      intros I. apply has_case_In in I. congruence.
  - split; [intros _; eexists; split; [reflexivity | apply per_lane_length]|].
    split; [|reflexivity]. intros N. now exfalso.
Qed.

Lemma legal_pairs_never_abort_witness :
  legal_bit_size nir_op_iadd 8 /\ ~ legal_bit_size nir_op_flt 8 /\
  (exists d, nir_eval_const_opcode (fun _ _ _ _ _ => 0) (op_case nir_op_iadd)
               [0] 1 8 [[127]; [1]] = Done d /\ length d = length [0]) /\
  nir_eval_const_opcode (fun _ _ _ _ _ => 0) (op_case nir_op_flt)
    [0] 1 8 [[127]; [1]] = Unreachable "unknown bit width".
Proof.
  assert (H1 : legal_bit_size nir_op_iadd 8)
    by (unfold legal_bit_size; in_list).
  assert (H2 : ~ legal_bit_size nir_op_flt 8).
  { unfold legal_bit_size. simpl. intros [E | [E | [E | []]]]; discriminate E. }
  split; [exact H1|]. split; [exact H2|]. split.
  - exact (proj1 (legal_pairs_never_abort (fun _ _ _ _ _ => 0) nir_op_iadd 8
                    [0] 1%nat [[127]; [1]]) H1).
  - exact (proj1 (proj2 (legal_pairs_never_abort (fun _ _ _ _ _ => 0)
                           nir_op_flt 8 [0] 1%nat [[127]; [1]])) H2).
Defined.

(** ** Pack and unpack of signed normalized bytes

    The rounding of a binary32 product, from the definitions of
    [SpecFloat]. *)

(** [iter_pos] is the iteration of [f], [p] times. *)
Lemma iter_pos_nat {A} (f : A -> A) p x :
  SpecFloat.iter_pos f p x = @Nat.iter (Pos.to_nat p) _ f x.
Proof.
  revert x. induction p as [p IH | p IH |]; intros x; cbn [SpecFloat.iter_pos].
  - rewrite !IH. rewrite Pos2Nat.inj_xI.
    replace (S (2 * Pos.to_nat p)) with (Pos.to_nat p + (Pos.to_nat p + 1))%nat by lia.
    rewrite !Nat.iter_add. reflexivity.
  - rewrite !IH. rewrite Pos2Nat.inj_xO.
    replace (2 * Pos.to_nat p)%nat with (Pos.to_nat p + Pos.to_nat p)%nat by lia.
    rewrite Nat.iter_add. reflexivity.
  - reflexivity.
Qed.

Lemma shr_1_inv M j r :
  0 <= j -> shr_inv M j r -> shr_inv M (j + 1) (shr_1 r).
Proof.
  intros Hj (Hm & rem & E & Hrem & Hr & Hs).
  assert (P : 2 ^ (j + 1) = 2 * 2 ^ j) by (rewrite Z.pow_add_r by lia; lia).
  assert (0 < 2 ^ j) by (apply Z.pow_pos_nonneg; lia).
  destruct r as [m rb sb]. cbn [shr_m shr_r shr_s] in *.
  assert (Hor : orb rb sb = true <-> rem <> 0).
  { rewrite orb_true_iff, Hr, Hs. lia. }
  unfold shr_inv. rewrite P.
  destruct m as [|[p|p|]|p]; cbn [shr_1 shr_m shr_r shr_s];
    try (exfalso; lia); (split; [lia|]);
    [ exists rem | exists (2 ^ j + rem) | exists rem | exists (2 ^ j + rem) ];
    rewrite Hor;
    repeat split; intros;
    first [lia | discriminate | reflexivity | exfalso; lia | idtac].
Qed.

Lemma shr_iter_inv M n :
  0 <= M ->
  shr_inv M (Z.of_nat n) (@Nat.iter n _ shr_1 (Build_shr_record M false false)).
Proof.
  intros HM. induction n.
  - split; [assumption|]. exists 0. cbn [Nat.iter nat_rect shr_m shr_r shr_s Z.of_nat].
    change (2 ^ 0) with 1.
    repeat split; intros; first [lia | discriminate | exfalso; lia].
  - rewrite Nat2Z.inj_succ. cbn [Nat.iter nat_rect]. 
    replace (Z.succ (Z.of_nat n)) with (Z.of_nat n + 1) by lia.
    apply shr_1_inv; [lia|]. exact IHn.
Qed.

Lemma round_nearest_even_inv M j r :
  shr_inv M j r ->
  let m2 := round_nearest_even (shr_m r) (loc_of_shr_record r) in
  shr_m r <= m2 <= shr_m r + 1 /\
  - 2 ^ j <= 2 * (m2 * 2 ^ j - M) <= 2 ^ j.
Proof.
  intros (Hm & rem & E & Hrem & Hr & Hs). destruct r as [m rb sb].
  cbn [shr_m shr_r shr_s] in *.
  destruct rb, sb; cbn [loc_of_shr_record round_nearest_even].
  - assert (2 ^ j <= 2 * rem) by (apply Hr; reflexivity). nia.
  - assert (2 ^ j <= 2 * rem) by (apply Hr; reflexivity).
    assert (~ (rem <> 0 /\ 2 * rem <> 2 ^ j)) by (rewrite <- Hs; discriminate).
    destruct (Z.even m); nia.
  - assert (~ 2 ^ j <= 2 * rem) by (rewrite <- Hr; discriminate). nia.
  - assert (~ 2 ^ j <= 2 * rem) by (rewrite <- Hr; discriminate).
    assert (~ (rem <> 0 /\ 2 * rem <> 2 ^ j)) by (rewrite <- Hs; discriminate).
    nia.
Qed.

Lemma digits2_pos_bounds p :
  2 ^ (Zpos (digits2_pos p) - 1) <= Zpos p < 2 ^ Zpos (digits2_pos p).
Proof.
  induction p as [p IH | p IH |]; cbn [digits2_pos].
  - rewrite Pos2Z.inj_succ.
    replace (Z.succ (Zpos (digits2_pos p)) - 1) with (1 + (Zpos (digits2_pos p) - 1)) by lia.
    rewrite Z.pow_succ_r by lia. rewrite Z.pow_add_r by lia. change (2 ^ 1) with 2. lia.
  - rewrite Pos2Z.inj_succ.
    replace (Z.succ (Zpos (digits2_pos p)) - 1) with (1 + (Zpos (digits2_pos p) - 1)) by lia.
    rewrite Z.pow_succ_r by lia. rewrite Z.pow_add_r by lia. change (2 ^ 1) with 2. lia.
  - cbn. lia.
Qed.

Lemma shr_exact_spec M e n :
  0 <= M ->
  e + Z.max n 0 = snd (shr (Build_shr_record M false false) e n) /\
  shr_inv M (Z.max n 0) (fst (shr (Build_shr_record M false false) e n)).
Proof.
  intros HM. destruct n as [|p|p]; cbn [shr fst snd].
  - split; [lia|]. exact (shr_iter_inv M 0 HM).
  - split; [lia|]. rewrite iter_pos_nat.
    replace (Z.max (Z.pos p) 0) with (Z.of_nat (Pos.to_nat p)) by lia.
    now apply shr_iter_inv.
  - split; [lia|]. exact (shr_iter_inv M 0 HM).
Qed.

Lemma fexp_f32 z : fexp 24 128 z = Z.max (z - 24) (-149).
Proof. reflexivity. Qed.

Lemma digits_le q k : 0 <= k -> Zpos q < 2 ^ k -> Zpos (digits2_pos q) <= k.
Proof.
  intros Hk H. pose proof (digits2_pos_bounds q) as [L _].
  assert (2 ^ (Zpos (digits2_pos q) - 1) < 2 ^ k) by lia.
  apply Z.pow_lt_mono_r_iff in H0; lia.
Qed.

(** Rounding a product of magnitude below 2^7 to binary32: the result is
    a zero or a finite number with an exponent of at most -16, within one
    unit of that exponent of the exact value [M * 2^E]. *)
Lemma binary_round_aux_coarse s M E :
  E <= -17 -> Zpos (digits2_pos M) + E <= 7 ->
  exists m3 e2,
    E <= e2 <= -16 /\ 0 <= m3 /\
    binary_round_aux 24 128 s (Zpos M) E loc_Exact =
      match m3 with
      | Zpos p => S754_finite s p e2
      | _ => S754_zero s
      end /\
    - 2 ^ (e2 - E) <= m3 * 2 ^ (e2 - E) - Zpos M <= 2 ^ (e2 - E).
Proof.
  intros HE Hd.
  unfold binary_round_aux, shr_fexp. cbn [shr_record_of_loc].
  set (d := Zpos (digits2_pos M)) in *.
  change (Zdigits2 (Zpos M)) with d.
  set (n1 := fexp 24 128 (d + E) - E).
  destruct (shr_exact_spec (Zpos M) E n1 ltac:(lia)) as [He1 I1].
  destruct (shr (Build_shr_record (Zpos M) false false) E n1) as [r1 e1].
  cbn [fst snd] in He1, I1.
  set (j1 := Z.max n1 0) in *.
  destruct (round_nearest_even_inv _ _ _ I1) as [Hm2 Herr].
  set (m2 := round_nearest_even (shr_m r1) (loc_of_shr_record r1)) in *.
  assert (Hm1 : 0 <= shr_m r1) by apply I1.
  set (n2 := fexp 24 128 (Zdigits2 m2 + e1) - e1).
  destruct (shr_exact_spec m2 e1 n2 ltac:(lia)) as [He2 I2].
  destruct (shr (Build_shr_record m2 false false) e1 n2) as [r2 e2].
  cbn [fst snd] in He2, I2.
  set (j2 := Z.max n2 0) in *.
  destruct I2 as (Hm3 & rem & E2 & Hrem & _ & _).
  (* exponents *)
  assert (Hj1 : 0 <= j1) by (unfold j1; lia).
  assert (Hj2 : 0 <= j2) by (unfold j2; lia).
  assert (He1' : e1 <= -17 /\ -149 <= e1 \/ e1 <= -17 /\ j1 = 0).
  { unfold j1, n1 in *. rewrite fexp_f32 in *. lia. }
  assert (He1le : e1 <= -17) by lia.
  (* the mantissa after rounding is below 2^(8 - e1) *)
  assert (HM : Zpos M < 2 ^ (7 - E)).
  { pose proof (digits2_pos_bounds M) as [_ U]. fold d in U.
    assert (2 ^ d <= 2 ^ (7 - E)) by (apply Z.pow_le_mono_r; lia). lia. }
  assert (Hsplit : 2 ^ (7 - E) = 2 ^ (7 - e1) * 2 ^ j1).
  { rewrite <- Z.pow_add_r by lia. f_equal. lia. }
  assert (Hp1 : 0 < 2 ^ j1) by (apply Z.pow_pos_nonneg; lia).
  assert (Hp2 : 0 < 2 ^ j2) by (apply Z.pow_pos_nonneg; lia).
  assert (Hp3 : 0 < 2 ^ (7 - e1)) by (apply Z.pow_pos_nonneg; lia).
  destruct I1 as (_ & rem1 & E1 & Hrem1 & _ & _).
  assert (Hm1lt : shr_m r1 < 2 ^ (7 - e1)) by nia.
  assert (Hm2lt : m2 < 2 ^ (8 - e1)).
  { replace (8 - e1) with (1 + (7 - e1)) by lia.
    rewrite Z.pow_add_r by lia. change (2 ^ 1) with 2. lia. }
  assert (Hd2 : Zdigits2 m2 + e1 <= 8).
  { destruct m2 as [|q|q] eqn:Eq; cbn [Zdigits2]; try lia.
    pose proof (digits_le q (8 - e1) ltac:(lia) Hm2lt). lia. }
  assert (He2le : e2 <= -16).
  { unfold j2, n2 in *. rewrite fexp_f32 in *. lia. }
  assert (Hj12 : e2 - E = j1 + j2) by lia.
  exists (shr_m r2), e2. split; [lia|]. split; [assumption|]. split.
  - destruct (shr_m r2) as [|q|q]; try lia; try reflexivity.
    replace (e2 <=? 128 - 24) with true; [reflexivity|].
    symmetry. apply Z.leb_le. lia.
  - rewrite Hj12, Z.pow_add_r by lia.
    nia.
Qed.

(** Rounding to the nearest integer, as [_mesa_roundevenf] does on a
    finite value with a negative exponent. *)
Lemma round_to_int_error m p :
  let q := Zpos m / 2 ^ Zpos p in
  let r := Zpos m mod 2 ^ Zpos p in
  let n := match 2 * r ?= 2 ^ Zpos p with
           | Lt => q
           | Gt => q + 1
           | Eq => if Z.even q then q else q + 1
           end in
  0 <= n /\ - 2 ^ Zpos p <= 2 * (n * 2 ^ Zpos p - Zpos m) <= 2 ^ Zpos p.
Proof.
  intros q r n.
  assert (0 < 2 ^ Zpos p) by (apply Z.pow_pos_nonneg; lia).
  pose proof (Z.div_mod (Zpos m) (2 ^ Zpos p) ltac:(lia)) as E.
  pose proof (Z.mod_pos_bound (Zpos m) (2 ^ Zpos p) ltac:(lia)) as B.
  assert (0 <= q) by (apply Z.div_pos; lia).
  fold q r in E, B. clearbody q r.
  subst n. destruct (Z.compare_spec (2 * r) (2 ^ Zpos p)).
  - destruct (Z.even q); nia.
  - nia.
  - nia.
Qed.

(** [x * 127.0f], rounded to an integer and converted to [int], for a
    binary32 [x] of magnitude at most 1: the integer [n] is at most 127
    and within a half plus 2^-16 of the exact product. *)
Lemma pack_snorm_1x8_rounds s m e :
  -149 <= e -> Zpos m < 2 ^ 24 ->
  e < -23 \/ (e = -23 /\ Zpos m <= 2 ^ 23) ->
  exists n,
    0 <= n <= 127 /\
    _mesa_roundevenf (mul_f32 (S754_finite s m e) f32_127) =
      binary_normalize 24 128 (if s then - n else n) 0 s /\
    - (2 ^ 15 + 1) * 2 ^ (- e) <= 2 ^ 16 * (n * 2 ^ (- e) - 127 * Zpos m)
      <= (2 ^ 15 + 1) * 2 ^ (- e).
Proof.
  intros He Hm Hle1.
  set (t := 2 ^ (- e)).
  assert (Ht : 0 < t) by (apply Z.pow_pos_nonneg; lia).
  assert (Hmt : Zpos m <= t).
  { unfold t. destruct Hle1 as [H | [-> H]]; [|exact H].
    assert (2 ^ 24 <= 2 ^ (- e)) by (apply Z.pow_le_mono_r; lia). lia. }
  unfold mul_f32, f32_127. cbn [SFmul xorb].
  replace (xorb s false) with s by (destruct s; reflexivity).
  set (M := (m * 16646144)%positive).
  set (E := e + -17).
  assert (HM : Zpos M = 127 * 2 ^ 17 * Zpos m) by (unfold M; lia).
  assert (HtE : 2 ^ (- E) = 2 ^ 17 * t).
  { unfold E, t. rewrite <- Z.pow_add_r by lia. f_equal. lia. }
  assert (HdM : Zpos (digits2_pos M) + E <= 7).
  { assert (Zpos (digits2_pos M) <= 7 - E); [|lia].
    apply digits_le; [unfold E; lia|].
    replace (7 - E) with (7 + - E) by lia.
    rewrite Z.pow_add_r, HtE by (unfold E; lia). change (2 ^ 7) with 128. nia. }
  destruct (binary_round_aux_coarse s M E ltac:(unfold E; lia) HdM)
    as (m3 & e2 & He2 & Hm3 & -> & Herr).
  set (a := 2 ^ (e2 - E)) in *.
  assert (Ha : 0 < a) by (apply Z.pow_pos_nonneg; lia).
  destruct m3 as [|q|q]; [| |lia].
  - (* the product rounds to zero *)
    exists 0. split; [lia|]. split.
    { destruct s; reflexivity. }
    assert (a * 2 ^ (- e2) = 2 ^ 17 * t).
    { unfold a. rewrite <- Z.pow_add_r, <- HtE by lia. f_equal. lia. }
    assert (2 ^ 16 <= 2 ^ (- e2)) by (apply Z.pow_le_mono_r; lia).
    change (2 ^ 16) with 65536 in *. change (2 ^ 15) with 32768.
    change (2 ^ 17) with 131072 in *. nia.
  - destruct e2 as [|p|p]; try lia.
    cbn [_mesa_roundevenf].
    pose proof (round_to_int_error q p) as R. cbv zeta in R.
    set (n := match 2 * (Zpos q mod 2 ^ Zpos p) ?= 2 ^ Zpos p with
              | Eq => if Z.even (Zpos q / 2 ^ Zpos p)
                      then Zpos q / 2 ^ Zpos p else Zpos q / 2 ^ Zpos p + 1
              | Lt => Zpos q / 2 ^ Zpos p
              | Gt => Zpos q / 2 ^ Zpos p + 1
              end) in *.
    destruct R as [Hn0 Hn].
    set (P := 2 ^ Zpos p) in *.
    assert (HaP : a * P = 2 ^ 17 * t).
    { unfold a, P. rewrite <- Z.pow_add_r, <- HtE by lia. f_equal. lia. }
    assert (HP : 2 ^ 16 <= P) by (apply Z.pow_le_mono_r; lia).
    change (2 ^ 16) with 65536 in *. change (2 ^ 15) with 32768.
    change (2 ^ 17) with 131072 in *.
    assert (Hbound : - (32768 + 1) * t <= 65536 * (n * t - 127 * Zpos m)
                     <= (32768 + 1) * t).
    { clearbody n P a t M. nia. }
    exists n. split; [|split; [reflexivity | exact Hbound]].
    split; [exact Hn0|]. clearbody n P a t M. nia.
Qed.



Lemma snorm_bytes_ok_true : snorm_bytes_ok = true.
Proof. vm_compute. reflexivity. Qed.

Lemma sf_eqb_eq f g : sf_eqb f g = true -> f = g.
Proof.
  destruct f as [s|s| |s m e], g as [s'|s'| |s' m' e']; cbn [sf_eqb];
    try discriminate; try reflexivity.
  - intros H. apply Bool.eqb_prop in H. now subst.
  - intros H. apply Bool.eqb_prop in H. now subst.
  - intros H. apply andb_true_iff in H. destruct H as [H He].
    apply andb_true_iff in H. destruct H as [Hs Hm].
    apply Bool.eqb_prop in Hs. apply Pos.eqb_eq in Hm. apply Z.eqb_eq in He.
    now subst.
Qed.

Lemma snorm_byte_ok_true s n :
  0 <= n <= 127 -> snorm_byte_ok s n = true.
Proof.
  intros H. pose proof snorm_bytes_ok_true as T. unfold snorm_bytes_ok in T.
  rewrite forallb_forall in T.
  specialize (T (Z.to_nat n)). rewrite Z2Nat.id in T by lia.
  assert (I : In (Z.to_nat n) (seq 0 128)) by (apply in_seq; lia).
  apply T in I. apply andb_true_iff in I. destruct s; tauto.
Qed.

(** The finite values of the [f32] member are binary32 numbers. *)
Lemma f32_finite v s m e :
  f32 v = S754_finite s m e -> -149 <= e <= 104 /\ Zpos m < 2 ^ 24.
Proof.
  unfold f32, decode_ieee.
  set (x := u32 v).
  change (2 ^ (8 - 1) - 1) with 127. change (2 ^ 8 - 1) with 255.
  change (2 ^ 23) with 8388608. change (2 ^ 8) with 256.
  change (2 ^ 24) with 16777216.
  pose proof (Z.mod_pos_bound x 8388608 ltac:(lia)) as Bm.
  pose proof (Z.mod_pos_bound (x / 8388608) 256 ltac:(lia)) as Be.
  destruct (Z.eqb_spec ((x / 8388608) mod 256) 0) as [E0|E0].
  - destruct (x mod 8388608) as [|p|p] eqn:Em; try discriminate.
    intros H. injection H as _ <- <-. lia.
  - destruct (Z.eqb_spec ((x / 8388608) mod 256) 255) as [E1|E1].
    + destruct (x mod 8388608 =? 0); discriminate.
    + destruct (x mod 8388608 + 8388608) as [|p|p] eqn:Em; try discriminate.
      intros H. injection H as _ <- <-. lia.
Qed.

Lemma compare_cont_Z p q : Pos.compare_cont Eq p q = (Zpos p ?= Zpos q).
Proof. reflexivity. Qed.

Lemma in_unit_range_finite s m e :
  in_unit_range (S754_finite s m e) = true ->
  e < -23 \/ (e = -23 /\ Zpos m <= 2 ^ 23).
Proof.
  unfold in_unit_range, SFleb, SFcompare, f32_one, f32_minus_one.
  change (2 ^ 23) with 8388608.
  rewrite !compare_cont_Z.
  intros H. apply andb_true_iff in H. destruct H as [H1 H2].
  destruct s.
  - destruct (Z.compare_spec (-23) e) as [E|E|E]; try discriminate; [|lia].
    subst e. right. split; [reflexivity|].
    destruct (Z.compare_spec 8388608 (Zpos m)) as [C|C|C];
      first [discriminate H1 | lia].
  - destruct (Z.compare_spec e (-23)) as [E|E|E]; try discriminate; [|lia].
    subst e. right. split; [reflexivity|].
    destruct (Z.compare_spec (Zpos m) 8388608) as [C|C|C];
      first [discriminate H2 | lia].
Qed.

Lemma in_unit_range_cases x :
  in_unit_range x = true ->
  (exists s, x = S754_zero s) \/ (exists s m e, x = S754_finite s m e).
Proof.
  destruct x as [s|s| |s m e]; intros H.
  - left. now exists s.
  - destruct s; discriminate H.
  - discriminate H.
  - right. now exists s, m, e.
Qed.

(** Clamping to [-1, 1] leaves a value of that range as it is. *)
Lemma CLAMP_unit_finite s m e :
  e < -23 \/ (e = -23 /\ Zpos m <= 2 ^ 23) ->
  CLAMP (S754_finite s m e) f32_minus_one f32_one = S754_finite s m e.
Proof.
  change (2 ^ 23) with 8388608.
  intros H. unfold CLAMP, fgt, SFltb, SFcompare, f32_one, f32_minus_one.
  rewrite !compare_cont_Z.
  destruct s.
  - destruct (Z.compare_spec (-23) e) as [E|E|E]; try lia; [|reflexivity].
    subst e. destruct (Z.compare_spec 8388608 (Zpos m)) as [C|C|C];
      cbn [CompOpp]; try lia; try reflexivity.
    injection C as <-. reflexivity.
  - destruct (Z.compare_spec (-23) e) as [E|E|E]; try lia; [|reflexivity].
    subst e. destruct (Z.compare_spec 8388608 (Zpos m)) as [C|C|C];
      try lia; reflexivity.
Qed.

Lemma u32_set_field_uint32 x v : u32 (set_field uint32_t x v) = zext 32 x.
Proof.
  unfold u32, get_field, set_field, cast, zext. cbn [is_signed sizeof].
  change (2 ^ (4 * 8)) with 4294967296. zmod.
Qed.

Lemma f32_set_f32 u v :
  f32 (set_f32 u v) = decode_ieee 23 8 (zext 32 (encode_ieee 23 8 u)).
Proof. unfold f32, set_f32. now rewrite u32_set_field_uint32. Qed.

(** One component of the round trip. *)
Lemma snorm_component_round_trip v old :
  in_unit_range (f32 v) = true ->
  let byte := pack_snorm_1x8 (f32 v) in
  let u := unpack_snorm_1x8 byte in
  0 <= byte < 256 /\
  f32 (set_f32 u old) = u /\
  (Qabs (SF2Q u - SF2Q (f32 v)) <= 1 # 127)%Q.
Proof.
  intros Hin. cbv zeta. rewrite f32_set_f32.
  destruct (in_unit_range_cases _ Hin) as [(s & Ex) | (s & m & e & Ex)].
  - (* zero *)
    rewrite Ex. (destruct s; vm_compute; repeat split; discriminate).
  - rewrite Ex in *.
    destruct (f32_finite v s m e Ex) as [He Hm].
    pose proof (in_unit_range_finite s m e Hin) as Hle.
    unfold pack_snorm_1x8. rewrite CLAMP_unit_finite by assumption.
    destruct (pack_snorm_1x8_rounds s m e ltac:(lia) Hm Hle)
      as (n & Hn & -> & Herr).
    pose proof (snorm_byte_ok_true s n Hn) as T.
    unfold snorm_byte_ok in T. cbv zeta in T.
    set (k := if s then - n else n) in *.
    set (byte := cast uint8_t
                   (float_to_int int32_t (binary_normalize 24 128 k 0 s))) in *.
    apply andb_true_iff in T. destruct T as [T Tq].
    apply andb_true_iff in T. destruct T as [Tb Te].
    apply Z.eqb_eq in Tb. apply sf_eqb_eq in Te. apply Qle_bool_iff in Tq.
    split; [rewrite Tb; unfold zext; change (2 ^ 8) with 256; zmod|].
    split; [exact Te|].
    set (U := SF2Q (unpack_snorm_1x8 byte)) in *. clearbody U.
    (* the value of x against k *)
    destruct e as [|pe|pe]; try lia.
    cbn [SF2Q].
    set (X := ((if s then Z.neg m else Z.pos m) # 2 ^ pe)%Q).
    assert (HX : (- (32769 # 65536) <= inject_Z k - 127 * X <= 32769 # 65536)%Q).
    { change (- Z.neg pe) with (Zpos pe) in Herr.
      change (2 ^ 15) with 32768 in Herr. change (2 ^ 16) with 65536 in Herr.
      assert (Ht : Zpos (2 ^ pe) = 2 ^ Zpos pe) by apply Pos2Z.inj_pow.
      unfold X, k, Qle, Qminus, Qplus, Qmult, Qopp, inject_Z.
      cbn [Qnum Qden].
      rewrite !Pos2Z.inj_mul, Ht.
      set (t := 2 ^ Zpos pe) in *. clearbody t.
      (destruct s; cbn [Z.opp]; split; lia). }
    clearbody X k.
    apply Qabs_Qle_condition in Tq. apply Qabs_Qle_condition.
    assert (E127 : (k # 127 == inject_Z k * (1 # 127))%Q).
    { unfold Qeq, Qmult, inject_Z. cbn [Qnum Qden]. lia. }
    rewrite E127 in Tq.
    (split; lra).
Qed.

Lemma lor_shiftl_add a c k :
  0 <= k -> 0 <= a < 2 ^ k -> Z.lor a (Z.shiftl c k) = a + c * 2 ^ k.
Proof.
  intros Hk Ha.
  rewrite <- (Z.shiftl_mul_pow2 c k Hk).
  rewrite <- Z.add_lor_land.
  replace (Z.land a (Z.shiftl c k)) with 0; [lia|].
  symmetry. apply Z.bits_inj'. intros n Hn.
  rewrite Z.land_spec, Z.bits_0.
  destruct (Z.lt_ge_cases n k).
  - rewrite Z.shiftl_spec_low by assumption. apply andb_false_r.
  - rewrite <- (Z.mod_small a (2 ^ k)) by assumption.
    rewrite Z.mod_pow2_bits_high by lia. reflexivity.
Qed.

(** The four bytes of the packed word. *)
Lemma pack_word_bytes b0 b1 b2 b3 :
  0 <= b0 < 256 -> 0 <= b1 < 256 -> 0 <= b2 < 256 -> 0 <= b3 < 256 ->
  let word :=
    Z.lor (Z.lor (Z.lor (cast uint32_t b0) (shl_u32 (cast uint32_t b1) 8))
                 (shl_u32 (cast uint32_t b2) 16))
          (shl_u32 (cast uint32_t b3) 24) in
  word = b0 + b1 * 2 ^ 8 + b2 * 2 ^ 16 + b3 * 2 ^ 24 /\
  cast uint8_t (Z.land (zext 32 word) 255) = b0 /\
  cast uint8_t (Z.land (shr_u32 (zext 32 word) 8) 255) = b1 /\
  cast uint8_t (Z.land (shr_u32 (zext 32 word) 16) 255) = b2 /\
  cast uint8_t (shr_u32 (zext 32 word) 24) = b3.
Proof.
  intros H0 H1 H2 H3 word.
  assert (C : forall x, 0 <= x < 256 -> cast uint32_t x = x).
  { intros x Hx. unfold cast, zext. cbn [is_signed sizeof].
    change (2 ^ (4 * 8)) with 4294967296. zmod. }
  assert (S8 : shl_u32 b1 8 = Z.shiftl b1 8).
  { unfold shl_u32, cast, zext. cbn [is_signed sizeof].
    rewrite Z.shiftl_mul_pow2 by lia.
    change (2 ^ (4 * 8)) with 4294967296. change (2 ^ 8) with 256. zmod. }
  assert (S16 : shl_u32 b2 16 = Z.shiftl b2 16).
  { unfold shl_u32, cast, zext. cbn [is_signed sizeof].
    rewrite Z.shiftl_mul_pow2 by lia.
    change (2 ^ (4 * 8)) with 4294967296. change (2 ^ 16) with 65536. zmod. }
  assert (S24 : shl_u32 b3 24 = Z.shiftl b3 24).
  { unfold shl_u32, cast, zext. cbn [is_signed sizeof].
    rewrite Z.shiftl_mul_pow2 by lia.
    change (2 ^ (4 * 8)) with 4294967296. change (2 ^ 24) with 16777216. zmod. }
  assert (W : word = b0 + b1 * 2 ^ 8 + b2 * 2 ^ 16 + b3 * 2 ^ 24).
  { unfold word. rewrite !C, S8, S16, S24 by assumption.
    rewrite (lor_shiftl_add b0 b1 8) by (change (2 ^ 8) with 256; lia).
    rewrite (lor_shiftl_add _ b2 16)
      by (change (2 ^ 8) with 256; change (2 ^ 16) with 65536; lia).
    rewrite (lor_shiftl_add _ b3 24)
      by (change (2 ^ 8) with 256; change (2 ^ 16) with 65536;
          change (2 ^ 24) with 16777216; lia).
    reflexivity. }
  split; [exact W|]. clearbody word. subst word.
  change 255 with (Z.ones 8). rewrite !Z.land_ones by lia.
  unfold shr_u32. rewrite !Z.shiftr_div_pow2 by lia.
  unfold cast, zext. cbn [is_signed sizeof].
  change (2 ^ (4 * 8)) with 4294967296. change (2 ^ (1 * 8)) with 256.
  change (2 ^ 8) with 256. change (2 ^ 16) with 65536.
  change (2 ^ 24) with 16777216. change (2 ^ 32) with 4294967296.
  repeat split; zmod.
Qed.



Lemma evaluate_pack_snorm_4x8_word d0 nc bs x0 x1 x2 x3 :
  evaluate_pack_snorm_4x8 [d0] nc bs [[x0; x1; x2; x3]] =
  Done [set_field uint32_t
          (Z.lor (Z.lor (Z.lor (cast uint32_t (pack_snorm_1x8 (f32 x0)))
                               (shl_u32 (cast uint32_t (pack_snorm_1x8 (f32 x1))) 8))
                        (shl_u32 (cast uint32_t (pack_snorm_1x8 (f32 x2))) 16))
                 (shl_u32 (cast uint32_t (pack_snorm_1x8 (f32 x3))) 24)) d0].
Proof. reflexivity. Qed.

Lemma evaluate_unpack_snorm_4x8_lanes e0 e1 e2 e3 nc bs p :
  evaluate_unpack_snorm_4x8 [e0; e1; e2; e3] nc bs [[p]] =
  Done [set_f32 (unpack_snorm_1x8 (cast uint8_t (Z.land (u32 p) 255))) e0;
        set_f32 (unpack_snorm_1x8
                   (cast uint8_t (Z.land (shr_u32 (u32 p) 8) 255))) e1;
        set_f32 (unpack_snorm_1x8
                   (cast uint8_t (Z.land (shr_u32 (u32 p) 16) 255))) e2;
        set_f32 (unpack_snorm_1x8 (cast uint8_t (shr_u32 (u32 p) 24))) e3].
Proof. reflexivity. Qed.

(** C6, as amended.  For every input vector whose four components lie in
    [-1, 1], [unpack_snorm_4x8] applied to the word that [pack_snorm_4x8]
    produces recovers each component within 1/127.  On the input
    (1.0, -1.0, 0.0, 0.5) the packed bytes are (127, 0x81, 0, 64): -1.0 is
    quantized to -127, and the tie 63.5 goes to the even 64; the unpacked
    values are 1.0, -1.0, 0.0 and the binary32 value nearest to 64/127,
    each within 1/127 of the original. *)
Theorem pack_unpack_snorm_4x8_round_trip
    x0 x1 x2 x3 d0 e0 e1 e2 e3 nc nc' bs bs'
    (H0 : in_unit_range (f32 x0) = true) (H1 : in_unit_range (f32 x1) = true)
    (H2 : in_unit_range (f32 x2) = true) (H3 : in_unit_range (f32 x3) = true) :
  (exists p r0 r1 r2 r3,
     evaluate_pack_snorm_4x8 [d0] nc bs [[x0; x1; x2; x3]] = Done [p] /\
     evaluate_unpack_snorm_4x8 [e0; e1; e2; e3] nc' bs' [[p]]
     = Done [r0; r1; r2; r3] /\
     within (1 # 127) (f32 r0) (f32 x0) /\
     within (1 # 127) (f32 r1) (f32 x1) /\
     within (1 # 127) (f32 r2) (f32 x2) /\
     within (1 # 127) (f32 r3) (f32 x3)) /\
  (exists p,
     evaluate_pack_snorm_4x8 [0] 1 32 [snorm_scenario_input] = Done [p] /\
     byte_of (u32 p) 0 = 127 /\ byte_of (u32 p) 1 = 129 /\
     byte_of (u32 p) 2 = 0 /\ byte_of (u32 p) 3 = 64 /\
     evaluate_unpack_snorm_4x8 [0; 0; 0; 0] 4 32 [[p]]
     = Done [1065353216; 3212836864; 0; 1057030660] /\
     (SF2Q (f32 1065353216%Z) == 1)%Q /\
     (SF2Q (f32 3212836864%Z) == - (1))%Q /\
     (SF2Q (f32 0%Z) == 0)%Q /\
     (Qabs (SF2Q (f32 1057030660%Z) - (64 # 127)) <= 1 # 33554432)%Q /\
     within (1 # 127) (f32 1057030660) (f32 1056964608)).
Proof.
  split.
  - destruct (snorm_component_round_trip x0 e0 H0) as (B0 & F0 & Q0).
    destruct (snorm_component_round_trip x1 e1 H1) as (B1 & F1 & Q1).
    destruct (snorm_component_round_trip x2 e2 H2) as (B2 & F2 & Q2).
    destruct (snorm_component_round_trip x3 e3 H3) as (B3 & F3 & Q3).
    destruct (pack_word_bytes _ _ _ _ B0 B1 B2 B3) as (_ & E0 & E1 & E2 & E3).
    do 5 eexists.
    split; [apply evaluate_pack_snorm_4x8_word|].
    split; [apply evaluate_unpack_snorm_4x8_lanes|].
    rewrite u32_set_field_uint32, E0, E1, E2, E3.
    unfold within. rewrite F0, F1, F2, F3. auto.
  - exists 1073774975. unfold within.
    repeat split; vm_compute; reflexivity || discriminate.
Qed.

Lemma pack_unpack_snorm_4x8_round_trip_witness :
  in_unit_range (f32 1065353216) = true /\
  in_unit_range (f32 3212836864) = true /\
  in_unit_range (f32 0) = true /\
  in_unit_range (f32 1056964608) = true /\
  exists p r0 r1 r2 r3,
    evaluate_pack_snorm_4x8 [0] 1 32
      [[1065353216; 3212836864; 0; 1056964608]] = Done [p] /\
    evaluate_unpack_snorm_4x8 [0; 0; 0; 0] 4 32 [[p]]
    = Done [r0; r1; r2; r3] /\
    within (1 # 127) (f32 r0) (f32 1065353216) /\
    within (1 # 127) (f32 r1) (f32 3212836864) /\
    within (1 # 127) (f32 r2) (f32 0) /\
    within (1 # 127) (f32 r3) (f32 1056964608).
Proof.
  assert (H0 : in_unit_range (f32 1065353216) = true) by reflexivity.
  assert (H1 : in_unit_range (f32 3212836864) = true) by reflexivity.
  assert (H2 : in_unit_range (f32 0) = true) by reflexivity.
  assert (H3 : in_unit_range (f32 1056964608) = true) by reflexivity.
  repeat (split; [assumption|]).
  exact (proj1 (pack_unpack_snorm_4x8_round_trip
                  1065353216 3212836864 0 1056964608 0 0 0 0 0
                  1%nat 4%nat 32 32 H0 H1 H2 H3)).
Defined.

(** C6 as stated fails: the second byte of the packed word is 0x81, the
    encoding of -127, and not 0x80. *)
Lemma snorm_scenario_as_stated_fails : ~ snorm_scenario_as_stated.
Proof.
  intros (p & E & _ & B1 & _).
  assert (Ep : evaluate_pack_snorm_4x8 [0] 1 32 [snorm_scenario_input]
               = Done [1073774975]) by (vm_compute; reflexivity).
  rewrite Ep in E. injection E as <-.
  vm_compute in B1. discriminate B1.
Qed.

(** * Further properties *)

(** ** The switch and the loops of the further evaluators *)

Lemma int_switch_done ty body W :
  In W widths_int -> int_switch ty body W = Done (body (ty W)).
Proof.
  intros H. apply In_widths_int in H.
  destruct H as [-> | [-> | [-> | [-> | ->]]]]; reflexivity.
Qed.

Lemma int_switch_default ty body W :
  ~ In W widths_int -> int_switch ty body W = Unreachable "unknown bit width".
Proof.
  intros H. unfold int_switch. rewrite switch_int.
  repeat match goal with
         | |- context [Z.eqb W ?k] =>
             destruct (Z.eqb_spec W k); [subst; exfalso; apply H; in_list|]
         end.
  reflexivity.
Qed.

Lemma lanewise1_length t expr dst nc src :
  length (lanewise1 t expr dst nc src) = length dst.
Proof. apply per_lane_length. Qed.

Lemma lanewise1_lane t expr dst nc src i :
  (i < nc)%nat -> (i < length dst)%nat ->
  lane (lanewise1 t expr dst nc src) i =
  wr t (cast (ctype_of t) (expr (rd t (src_lane src 0 i)))) (lane dst i).
Proof. intros Hn Hl. unfold lanewise1. now rewrite per_lane_lane. Qed.

Lemma shift_lanes_length t expr dst nc src :
  length (shift_lanes t expr dst nc src) = length dst.
Proof. apply per_lane_length. Qed.

Lemma shift_lanes_lane t expr dst nc src i :
  (i < nc)%nat -> (i < length dst)%nat ->
  lane (shift_lanes t expr dst nc src) i =
  wr t (cast (ctype_of t)
          (expr (rd t (src_lane src 0 i)) (u32 (src_lane src 1 i))))
       (lane dst i).
Proof. intros Hn Hl. unfold shift_lanes. now rewrite per_lane_lane. Qed.

Lemma csel_lanes_length cond t dst nc src :
  length (csel_lanes cond t dst nc src) = length dst.
Proof. apply per_lane_length. Qed.

Lemma csel_lanes_lane cond t dst nc src i :
  (i < nc)%nat -> (i < length dst)%nat ->
  lane (csel_lanes cond t dst nc src) i =
  wr t (cast (ctype_of t)
          (if cond (src_lane src 0 i) then rd t (src_lane src 1 i)
           else rd t (src_lane src 2 i)))
       (lane dst i).
Proof. intros Hn Hl. unfold csel_lanes. now rewrite per_lane_lane. Qed.

Ltac unfold_ops :=
  unfold isub_expr, ineg_expr, iabs_expr, imul_expr, isign_expr, inot_expr,
    min_expr, max_expr, usub_sat_expr, uadd_carry_expr,
    usub_borrow_expr, c_neg, c_mul, c_not;
  rewrite ?Z.lnot_eq_pred_opp.

Lemma sint_width W : In W widths_int -> 0 < W.
Proof.
  intros H. apply In_widths_int in H.
  destruct H as [-> | [-> | [-> | [-> | ->]]]]; lia.
Qed.

Lemma isub_lane_value t a c :
  lane_signed t = true ->
  wrap t (cast (ctype_of t) (isub_expr t a c)) = sext (width t) (a - c).
Proof.
  intros H; destruct t; try discriminate H; unfold_ops; unfold_int; zmod.
Qed.

Lemma ineg_lane_value t a :
  lane_signed t = true ->
  wrap t (cast (ctype_of t) (ineg_expr t a)) = sext (width t) (- a).
Proof.
  intros H; destruct t; try discriminate H; unfold_ops; unfold_int; zmod.
Qed.

Lemma iabs_lane_value t a :
  lane_signed t = true -> in_range t a ->
  wrap t (cast (ctype_of t) (iabs_expr t a)) = sext (width t) (Z.abs a).
Proof.
  intros H; destruct t; try discriminate H; unfold_ops; unfold_int;
    intros Ha; cases; zmod.
Qed.

Lemma imul_lane_value t a c :
  lane_signed t = true ->
  wrap t (cast (ctype_of t) (imul_expr t a c)) = sext (width t) (a * c).
Proof.
  intros H; destruct t; try discriminate H; unfold_ops; unfold_int;
    generalize (a * c); intros p; zmod.
Qed.

Lemma isign_lane_value t a :
  lane_signed t = true -> in_range t a ->
  wrap t (cast (ctype_of t) (isign_expr a)) = Z.sgn a.
Proof.
  intros H; destruct t; try discriminate H; unfold_ops; unfold_int;
    intros Ha; cases; zmod.
Qed.

Lemma inot_lane_value t a :
  lane_signed t = true -> in_range t a ->
  wrap t (cast (ctype_of t) (inot_expr t a)) = - a - 1.
Proof.
  intros H; destruct t; try discriminate H; unfold_ops; unfold_int;
    intros Ha; zmod.
Qed.

Lemma min_lane_value t a c :
  in_range t a -> in_range t c ->
  wrap t (cast (ctype_of t) (min_expr a c)) = Z.min a c.
Proof.
  destruct t; unfold_ops; unfold_int; intros Ha Hc; cases; zmod.
Qed.

Lemma max_lane_value t a c :
  in_range t a -> in_range t c ->
  wrap t (cast (ctype_of t) (max_expr a c)) = Z.max a c.
Proof.
  destruct t; unfold_ops; unfold_int; intros Ha Hc; cases; zmod.
Qed.

Lemma sext_id w x : 0 < w -> smin w <= x <= smax w -> sext w x = x.
Proof.
  intros Hw. unfold smin, smax, sext.
  assert (2 ^ w = 2 * 2 ^ (w - 1)).
  { replace w with (1 + (w - 1)) at 1 by lia.
    rewrite Z.pow_add_r by lia. reflexivity. }
  assert (0 < 2 ^ (w - 1)) by (apply Z.pow_pos_nonneg; lia).
  intros Hx. rewrite Z.mod_small by lia. lia.
Qed.

Lemma sext_smin_neg w : 0 < w -> sext w (- smin w) = smin w.
Proof.
  intros Hw. unfold smin, sext.
  assert (E : 2 ^ w = 2 * 2 ^ (w - 1)).
  { replace w with (1 + (w - 1)) at 1 by lia.
    rewrite Z.pow_add_r by lia. reflexivity. }
  assert (0 < 2 ^ (w - 1)) by (apply Z.pow_pos_nonneg; lia).
  replace (- - 2 ^ (w - 1) + 2 ^ (w - 1)) with (2 ^ w) by lia.
  rewrite Z.mod_same by lia. lia.
Qed.

Lemma sext_sext_sub w a c :
  0 < w -> smin w <= a <= smax w -> sext w (sext w (a + c) - c) = a.
Proof.
  intros Hw Ha. unfold sext, smin, smax in *.
  assert (E : 2 ^ w = 2 * 2 ^ (w - 1)).
  { replace w with (1 + (w - 1)) at 1 by lia.
    rewrite Z.pow_add_r by lia. reflexivity. }
  assert (P : 0 < 2 ^ (w - 1)) by (apply Z.pow_pos_nonneg; lia).
  replace ((a + c + 2 ^ (w - 1)) mod 2 ^ w - 2 ^ (w - 1) - c + 2 ^ (w - 1))
    with ((a + c + 2 ^ (w - 1)) mod 2 ^ w - c) by lia.
  rewrite Zminus_mod_idemp_l.
  replace (a + c + 2 ^ (w - 1) - c) with (a + 2 ^ (w - 1)) by lia.
  rewrite Z.mod_small by lia. lia.
Qed.

(** The lanes of a two-source and of a one-source evaluator over the
    signed or unsigned types, read back at the lane type. *)
Lemma int_switch_lanewise2 ty expr W dst nc src :
  In W widths_int ->
  exists d,
    int_switch ty (fun t => lanewise2 t (expr t) dst nc src) W = Done d /\
    length d = length dst /\
    forall i, (i < nc)%nat -> (i < length dst)%nat ->
      rd (ty W) (lane d i) =
      wrap (ty W)
        (cast (ctype_of (ty W))
           (expr (ty W) (rd (ty W) (src_lane src 0 i))
                        (rd (ty W) (src_lane src 1 i)))).
Proof.
  intros HW. eexists. split; [apply int_switch_done, HW|].
  split; [apply lanewise2_length|].
  intros i Hn Hl. now rewrite lanewise2_lane, rd_wr.
Qed.

Lemma int_switch_lanewise1 ty expr W dst nc src :
  In W widths_int ->
  exists d,
    int_switch ty (fun t => lanewise1 t (expr t) dst nc src) W = Done d /\
    length d = length dst /\
    forall i, (i < nc)%nat -> (i < length dst)%nat ->
      rd (ty W) (lane d i) =
      wrap (ty W)
        (cast (ctype_of (ty W)) (expr (ty W) (rd (ty W) (src_lane src 0 i)))).
Proof.
  intros HW. eexists. split; [apply int_switch_done, HW|].
  split; [apply lanewise1_length|].
  intros i Hn Hl. now rewrite lanewise1_lane, rd_wr.
Qed.

Lemma iadd_lanes_value W dst nc src :
  In W widths_int ->
  exists s,
    evaluate_iadd dst nc W src = Done s /\ length s = length dst /\
    forall i, (i < nc)%nat -> (i < length dst)%nat ->
      rd (sint_lane W) (lane s i) =
      sext W (rd (sint_lane W) (src_lane src 0 i)
              + rd (sint_lane W) (src_lane src 1 i)).
Proof.
  intros HW. destruct (sint_lane_props W HW) as [Hs Hw].
  eexists. split; [apply evaluate_iadd_lanes, HW|].
  split; [apply lanewise2_length|].
  intros i Hn Hl. rewrite lanewise2_lane, rd_wr, wrap_iadd by assumption.
  now rewrite Hw.
Qed.

(** X1.  [isub] stores the difference of the two source lanes reduced
    modulo 2^W into the signed range of W, and it undoes [iadd]:
    subtracting the second source from the result of [iadd] gives the
    first source back, whether or not the sum wrapped. *)
Theorem isub_wraps_and_inverts_iadd W dst dst2 nc src
    (HW : In W widths_int) :
  (exists d,
     evaluate_isub dst nc W src = Done d /\ length d = length dst /\
     forall i, (i < nc)%nat -> (i < length dst)%nat ->
       let a := rd (sint_lane W) (src_lane src 0 i) in
       let c := rd (sint_lane W) (src_lane src 1 i) in
       let r := rd (sint_lane W) (lane d i) in
       smin W <= r <= smax W /\ r mod 2 ^ W = (a - c) mod 2 ^ W) /\
  (exists s d,
     evaluate_iadd dst nc W src = Done s /\
     evaluate_isub dst2 nc W [s; nth 1 src []] = Done d /\
     forall i, (i < nc)%nat -> (i < length dst)%nat ->
       (i < length dst2)%nat ->
       rd (sint_lane W) (lane d i) = rd (sint_lane W) (src_lane src 0 i)).
Proof.
  destruct (sint_lane_props W HW) as [Hs Hw].
  pose proof (sint_width W HW) as Hpos.
  split.
  - destruct (int_switch_lanewise2 sint_lane isub_expr W dst nc src HW)
      as (d & E & L & V).
    exists d. split; [exact E|]. split; [exact L|].
    intros i Hn Hl a c r. subst r. rewrite V by assumption.
    rewrite isub_lane_value, Hw by assumption.
    split; [apply sext_range | apply sext_mod]; assumption.
  - destruct (iadd_lanes_value W dst nc src HW) as (s & Es & Ls & Vs).
    destruct (int_switch_lanewise2 sint_lane isub_expr W dst2 nc
                [s; nth 1 src []] HW) as (d & E & L & V).
    exists s, d. split; [exact Es|]. split; [exact E|].
    intros i Hn Hl Hl2. rewrite V by assumption.
    rewrite isub_lane_value, Hw by assumption.
    change (src_lane [s; nth 1 src []] 0 i) with (lane s i).
    change (src_lane [s; nth 1 src []] 1 i) with (src_lane src 1 i).
    rewrite Vs by assumption.
    apply sext_sext_sub; [assumption|].
    pose proof (rd_in_range (sint_lane W) (src_lane src 0 i)) as R.
    apply (in_range_signed _ _ Hs) in R. now rewrite Hw in R.
Qed.

Lemma isub_wraps_and_inverts_iadd_witness :
  In 8 widths_int /\
  exists s d,
     evaluate_iadd [0] 1 8 [[127]; [1]] = Done s /\
     evaluate_isub [0] 1 8 [s; nth 1 [[127]; [1]] []] = Done d /\
     forall i, (i < 1)%nat -> (i < length [0])%nat ->
       (i < length [0])%nat ->
       rd (sint_lane 8) (lane d i)
       = rd (sint_lane 8) (src_lane [[127]; [1]] 0 i).
Proof.
  assert (H : In 8 widths_int) by in_list.
  split; [exact H|].
  exact (proj2 (isub_wraps_and_inverts_iadd 8 [0] [0] 1%nat
                  [[127]; [1]] H)).
Defined.

Lemma src_in_range W src k i :
  In W widths_int ->
  smin W <= rd (sint_lane W) (src_lane src k i) <= smax W.
Proof.
  intros HW. destruct (sint_lane_props W HW) as [Hs Hw].
  pose proof (rd_in_range (sint_lane W) (src_lane src k i)) as R.
  apply (in_range_signed _ _ Hs) in R. now rewrite Hw in R.
Qed.

Lemma usrc_in_range W src k i :
  In W widths_int ->
  0 <= rd (uint_lane W) (src_lane src k i) <= umax W.
Proof.
  intros HW. destruct (uint_lane_props W HW) as [Hs Hw].
  pose proof (rd_in_range (uint_lane W) (src_lane src k i)) as R.
  apply (in_range_unsigned _ _ Hs) in R. now rewrite Hw in R.
Qed.

Lemma smin_lt_smax w : 0 < w -> smin w = - smax w - 1 /\ 0 <= smax w.
Proof.
  intros Hw. unfold smin, smax.
  assert (0 < 2 ^ (w - 1)) by (apply Z.pow_pos_nonneg; lia). lia.
Qed.

(** X2.  [ineg] stores the negation of the source lane; the most negative
    value, which has no negation at its width, is stored unchanged; and
    negating twice gives the source back in every case. *)
Theorem ineg_negates_and_is_involutive W dst dst2 nc src
    (HW : In W widths_int) :
  (exists d,
     evaluate_ineg dst nc W src = Done d /\ length d = length dst /\
     forall i, (i < nc)%nat -> (i < length dst)%nat ->
       let a := rd (sint_lane W) (src_lane src 0 i) in
       let r := rd (sint_lane W) (lane d i) in
       r = if a =? smin W then smin W else - a) /\
  (exists s d,
     evaluate_ineg dst nc W src = Done s /\
     evaluate_ineg dst2 nc W [s] = Done d /\
     forall i, (i < nc)%nat -> (i < length dst)%nat ->
       (i < length dst2)%nat ->
       rd (sint_lane W) (lane d i) = rd (sint_lane W) (src_lane src 0 i)).
Proof.
  destruct (sint_lane_props W HW) as [Hs Hw].
  pose proof (sint_width W HW) as Hpos.
  destruct (smin_lt_smax W Hpos) as [Hm Hx].
  assert (V1 : forall a, smin W <= a <= smax W ->
                 sext W (- a) = if a =? smin W then smin W else - a).
  { intros a Ha. destruct (Z.eqb_spec a (smin W)) as [-> | N].
    - now apply sext_smin_neg.
    - apply sext_id; [assumption | lia]. }
  destruct (int_switch_lanewise1 sint_lane ineg_expr W dst nc src HW)
    as (s & Es & Ls & Vs).
  split.
  - exists s. split; [exact Es|]. split; [exact Ls|].
    intros i Hn Hl a r. subst r. rewrite Vs by assumption.
    rewrite ineg_lane_value, Hw by assumption.
    apply V1, src_in_range, HW.
  - destruct (int_switch_lanewise1 sint_lane ineg_expr W dst2 nc [s] HW)
      as (d & E & L & V).
    exists s, d. split; [exact Es|]. split; [exact E|].
    intros i Hn Hl Hl2. rewrite V by assumption.
    rewrite ineg_lane_value, Hw by assumption.
    change (src_lane [s] 0 i) with (lane s i).
    rewrite Vs, ineg_lane_value, Hw by assumption.
    pose proof (src_in_range W src 0 i HW) as R.
    set (a := rd (sint_lane W) (src_lane src 0 i)) in *.
    rewrite (V1 a R). destruct (Z.eqb_spec a (smin W)) as [-> | N].
    + now apply sext_smin_neg.
    + rewrite Z.opp_involutive. now apply sext_id.
Qed.

Lemma ineg_negates_and_is_involutive_witness :
  In 8 widths_int /\
  exists d,
     evaluate_ineg [0; 0] 2 8 [[128; 5]] = Done d /\
     length d = length [0; 0] /\
     forall i, (i < 2)%nat -> (i < length [0; 0])%nat ->
       let a := rd (sint_lane 8) (src_lane [[128; 5]] 0 i) in
       let r := rd (sint_lane 8) (lane d i) in
       r = if a =? smin 8 then smin 8 else - a.
Proof.
  assert (H : In 8 widths_int) by in_list.
  split; [exact H|].
  exact (proj1 (ineg_negates_and_is_involutive 8 [0; 0] [0; 0] 2%nat
                  [[128; 5]] H)).
Defined.

(** X3.  [iabs] stores the absolute value of the source lane, which is
    never negative, except for the most negative value of the width: that
    one is stored unchanged, so the result of [iabs] can be negative. *)
Theorem iabs_absolute_value_except_minimum W dst nc src
    (HW : In W widths_int) :
  exists d,
    evaluate_iabs dst nc W src = Done d /\ length d = length dst /\
    forall i, (i < nc)%nat -> (i < length dst)%nat ->
      let a := rd (sint_lane W) (src_lane src 0 i) in
      let r := rd (sint_lane W) (lane d i) in
      (a <> smin W -> r = Z.abs a /\ 0 <= r) /\
      (a = smin W -> r = smin W /\ r < 0).
Proof.
  destruct (sint_lane_props W HW) as [Hs Hw].
  pose proof (sint_width W HW) as Hpos.
  destruct (smin_lt_smax W Hpos) as [Hm Hx].
  destruct (int_switch_lanewise1 sint_lane iabs_expr W dst nc src HW)
    as (d & E & L & V).
  exists d. split; [exact E|]. split; [exact L|].
  intros i Hn Hl a r. subst r. rewrite V by assumption. fold a.
  pose proof (src_in_range W src 0 i HW) as R. fold a in R.
  rewrite iabs_lane_value, Hw
    by (assumption || apply in_range_signed; rewrite ?Hw; assumption).
  split.
  - intros N. rewrite sext_id by (assumption || lia). lia.
  - intros ->. replace (Z.abs (smin W)) with (- smin W) by lia.
    rewrite sext_smin_neg by assumption. lia.
Qed.

Lemma iabs_absolute_value_except_minimum_witness :
  In 16 widths_int /\
  exists d,
    evaluate_iabs [0; 0] 2 16 [[32768; 65535]] = Done d /\
    length d = length [0; 0] /\
    forall i, (i < 2)%nat -> (i < length [0; 0])%nat ->
      let a := rd (sint_lane 16) (src_lane [[32768; 65535]] 0 i) in
      let r := rd (sint_lane 16) (lane d i) in
      (a <> smin 16 -> r = Z.abs a /\ 0 <= r) /\
      (a = smin 16 -> r = smin 16 /\ r < 0).
Proof.
  assert (H : In 16 widths_int) by in_list.
  split; [exact H|].
  exact (iabs_absolute_value_except_minimum 16 [0; 0] 2%nat
           [[32768; 65535]] H).
Defined.

(** X4.  [isign] stores the sign of the source lane: -1, 0 or 1; at bit
    size 1, where a lane is 0 or -1, the sign of a lane is the lane. *)
Theorem isign_is_the_sign W dst nc src (HW : In W widths_int) :
  exists d,
    evaluate_isign dst nc W src = Done d /\ length d = length dst /\
    forall i, (i < nc)%nat -> (i < length dst)%nat ->
      let a := rd (sint_lane W) (src_lane src 0 i) in
      let r := rd (sint_lane W) (lane d i) in
      r = Z.sgn a /\ (W = 1 -> r = a).
Proof.
  destruct (sint_lane_props W HW) as [Hs Hw].
  destruct (int_switch_lanewise1 sint_lane (fun _ => isign_expr) W dst nc
              src HW) as (d & E & L & V).
  exists d. split; [exact E|]. split; [exact L|].
  intros i Hn Hl a r. subst r. rewrite V by assumption. fold a.
  pose proof (src_in_range W src 0 i HW) as R. fold a in R.
  rewrite isign_lane_value
    by (assumption || apply in_range_signed; rewrite ?Hw; assumption).
  split; [reflexivity|]. intros ->. unfold smin, smax in R.
  change (2 ^ (1 - 1)) with 1 in R. lia.
Qed.

Lemma isign_is_the_sign_witness :
  In 32 widths_int /\
  exists d,
    evaluate_isign [0; 0; 0] 3 32 [[4294967289; 0; 12]] = Done d /\
    length d = length [0; 0; 0] /\
    forall i, (i < 3)%nat -> (i < length [0; 0; 0])%nat ->
      let a := rd (sint_lane 32) (src_lane [[4294967289; 0; 12]] 0 i) in
      let r := rd (sint_lane 32) (lane d i) in
      r = Z.sgn a /\ (32 = 1 -> r = a).
Proof.
  assert (H : In 32 widths_int) by in_list.
  split; [exact H|].
  exact (isign_is_the_sign 32 [0; 0; 0] 3%nat [[4294967289; 0; 12]] H).
Defined.

(** X5.  [imin] and [umin] store the smaller and [imax] and [umax] the
    larger of the two source lanes, compared as signed and as unsigned
    values of the width; the result is always one of the two sources. *)
Theorem min_max_select_a_source W dst nc src (HW : In W widths_int) :
  (exists d,
     evaluate_imin dst nc W src = Done d /\ length d = length dst /\
     forall i, (i < nc)%nat -> (i < length dst)%nat ->
       rd (sint_lane W) (lane d i) =
       Z.min (rd (sint_lane W) (src_lane src 0 i))
             (rd (sint_lane W) (src_lane src 1 i))) /\
  (exists d,
     evaluate_imax dst nc W src = Done d /\ length d = length dst /\
     forall i, (i < nc)%nat -> (i < length dst)%nat ->
       rd (sint_lane W) (lane d i) =
       Z.max (rd (sint_lane W) (src_lane src 0 i))
             (rd (sint_lane W) (src_lane src 1 i))) /\
  (exists d,
     evaluate_umin dst nc W src = Done d /\ length d = length dst /\
     forall i, (i < nc)%nat -> (i < length dst)%nat ->
       rd (uint_lane W) (lane d i) =
       Z.min (rd (uint_lane W) (src_lane src 0 i))
             (rd (uint_lane W) (src_lane src 1 i))) /\
  (exists d,
     evaluate_umax dst nc W src = Done d /\ length d = length dst /\
     forall i, (i < nc)%nat -> (i < length dst)%nat ->
       rd (uint_lane W) (lane d i) =
       Z.max (rd (uint_lane W) (src_lane src 0 i))
             (rd (uint_lane W) (src_lane src 1 i))).
Proof.
  repeat split.
  - destruct (int_switch_lanewise2 sint_lane (fun _ => min_expr) W dst nc
                src HW) as (d & E & L & V).
    exists d. split; [exact E|]. split; [exact L|]. intros i Hn Hl.
    rewrite V by assumption. apply min_lane_value; apply rd_in_range.
  - destruct (int_switch_lanewise2 sint_lane (fun _ => max_expr) W dst nc
                src HW) as (d & E & L & V).
    exists d. split; [exact E|]. split; [exact L|]. intros i Hn Hl.
    rewrite V by assumption. apply max_lane_value; apply rd_in_range.
  - destruct (int_switch_lanewise2 uint_lane (fun _ => min_expr) W dst nc
                src HW) as (d & E & L & V).
    exists d. split; [exact E|]. split; [exact L|]. intros i Hn Hl.
    rewrite V by assumption. apply min_lane_value; apply rd_in_range.
  - destruct (int_switch_lanewise2 uint_lane (fun _ => max_expr) W dst nc
                src HW) as (d & E & L & V).
    exists d. split; [exact E|]. split; [exact L|]. intros i Hn Hl.
    rewrite V by assumption. apply max_lane_value; apply rd_in_range.
Qed.

Lemma min_max_select_a_source_witness :
  In 8 widths_int /\
  exists d,
     evaluate_imin [0; 0] 2 8 [[200; 3]; [7; 250]] = Done d /\
     length d = length [0; 0] /\
     forall i, (i < 2)%nat -> (i < length [0; 0])%nat ->
       rd (sint_lane 8) (lane d i) =
       Z.min (rd (sint_lane 8) (src_lane [[200; 3]; [7; 250]] 0 i))
             (rd (sint_lane 8) (src_lane [[200; 3]; [7; 250]] 1 i)).
Proof.
  assert (H : In 8 widths_int) by in_list.
  split; [exact H|].
  exact (proj1 (min_max_select_a_source 8 [0; 0] 2%nat
                  [[200; 3]; [7; 250]] H)).
Defined.

(** ** Selection *)

Lemma int_switch_csel cond W dst nc src :
  In W widths_int ->
  exists d,
    int_switch uint_lane (fun t => csel_lanes cond t dst nc src) W = Done d /\
    length d = length dst /\
    forall i, (i < nc)%nat -> (i < length dst)%nat ->
      lane d i =
      wr (uint_lane W)
        (cast (ctype_of (uint_lane W))
           (if cond (src_lane src 0 i)
            then rd (uint_lane W) (src_lane src 1 i)
            else rd (uint_lane W) (src_lane src 2 i))) (lane dst i).
Proof.
  intros HW. eexists. split; [apply int_switch_done, HW|].
  split; [apply csel_lanes_length|].
  intros i Hn Hl. now rewrite csel_lanes_lane.
Qed.

(** X6.  [bcsel] and [b32csel] store, lane by lane, the second source
    where the condition lane is true and the third where it is false;
    [bcsel] reads the condition from the 1-bit member, [b32csel] takes
    every non-zero 32-bit condition as true. *)
Theorem csel_selects_by_condition W dst nc src (HW : In W widths_int) :
  (exists d,
     evaluate_bcsel dst nc W src = Done d /\ length d = length dst /\
     forall i, (i < nc)%nat -> (i < length dst)%nat ->
       rd (uint_lane W) (lane d i) =
       if b (src_lane src 0 i) then rd (uint_lane W) (src_lane src 1 i)
       else rd (uint_lane W) (src_lane src 2 i)) /\
  (exists d,
     evaluate_b32csel dst nc W src = Done d /\ length d = length dst /\
     forall i, (i < nc)%nat -> (i < length dst)%nat ->
       rd (uint_lane W) (lane d i) =
       if i32 (src_lane src 0 i) =? 0
       then rd (uint_lane W) (src_lane src 2 i)
       else rd (uint_lane W) (src_lane src 1 i)).
Proof.
  split.
  - destruct (int_switch_csel b W dst nc src HW) as (d & E & L & V).
    exists d. split; [exact E|]. split; [exact L|]. intros i Hn Hl.
    rewrite V, rd_wr by assumption.
    apply wrap_cast_id. destruct (b _); apply rd_in_range.
  - destruct (int_switch_csel (fun v => i2b (i32 v)) W dst nc src HW)
      as (d & E & L & V).
    exists d. split; [exact E|]. split; [exact L|]. intros i Hn Hl.
    rewrite V, rd_wr by assumption. unfold i2b.
    destruct (i32 (src_lane src 0 i) =? 0); cbn [negb];
      apply wrap_cast_id; apply rd_in_range.
Qed.

Lemma csel_selects_by_condition_witness :
  In 16 widths_int /\
  exists d,
     evaluate_bcsel [0; 0] 2 16 [[1; 0]; [11; 12]; [21; 22]] = Done d /\
     length d = length [0; 0] /\
     forall i, (i < 2)%nat -> (i < length [0; 0])%nat ->
       rd (uint_lane 16) (lane d i) =
       if b (src_lane [[1; 0]; [11; 12]; [21; 22]] 0 i)
       then rd (uint_lane 16) (src_lane [[1; 0]; [11; 12]; [21; 22]] 1 i)
       else rd (uint_lane 16) (src_lane [[1; 0]; [11; 12]; [21; 22]] 2 i).
Proof.
  assert (H : In 16 widths_int) by in_list.
  split; [exact H|].
  exact (proj1 (csel_selects_by_condition 16 [0; 0] 2%nat
                  [[1; 0]; [11; 12]; [21; 22]] H)).
Defined.

Lemma evaluate_icmp_lanes sgn op store dst nc W src :
  In W widths_int ->
  exists d, evaluate_icmp sgn op store dst nc W src = Done d /\
    length d = length dst /\
    forall i, (i < nc)%nat -> (i < length dst)%nat ->
      lane d i =
      store (op (rd (if sgn then sint_lane W else uint_lane W)
                    (src_lane src 0 i))
                (rd (if sgn then sint_lane W else uint_lane W)
                    (src_lane src 1 i)))
            (lane dst i).
Proof.
  intros H. apply In_widths_int in H.
  destruct H as [-> | [-> | [-> | [-> | ->]]]];
    (eexists; split; [reflexivity|]);
    (split; [apply cmp_lanes_length|]); intros i Hn Hl;
    destruct sgn; apply cmp_lanes_lane; assumption.
Qed.

(** A lane stored back through the unsigned type is the lane stored back
    through the signed type. *)
Lemma wr_rd_signedness W v d :
  In W widths_int ->
  wr (uint_lane W) (cast (ctype_of (uint_lane W)) (rd (uint_lane W) v)) d =
  wr (sint_lane W) (cast (ctype_of (sint_lane W)) (rd (sint_lane W) v)) d.
Proof.
  intros H. apply In_widths_int in H.
  destruct H as [-> | [-> | [-> | [-> | ->]]]];
    cbn [uint_lane sint_lane]; unfold_int; cases; try zmod.
Qed.

(** X7.  Selecting between two vectors by the result of their comparison
    computes their minimum: [bcsel] applied to the result of [ilt] and
    [b32csel] applied to the result of [ilt32] write the lanes [imin]
    writes. *)
Theorem csel_of_ilt_is_imin W dc dst nc a c (HW : In W widths_int) :
  exists m m32 s s32 d,
    evaluate_ilt dc nc W [a; c] = Done m /\
    evaluate_ilt32 dc nc W [a; c] = Done m32 /\
    evaluate_bcsel dst nc W [m; a; c] = Done s /\
    evaluate_b32csel dst nc W [m32; a; c] = Done s32 /\
    evaluate_imin dst nc W [a; c] = Done d /\
    forall i, (i < nc)%nat -> (i < length dst)%nat -> (i < length dc)%nat ->
      lane s i = lane d i /\ lane s32 i = lane d i.
Proof.
  destruct (evaluate_icmp_lanes true Z.ltb store_bool1 dc nc W [a; c] HW)
    as (m & Em & Lm & Vm).
  destruct (evaluate_icmp_lanes true Z.ltb store_bool32 dc nc W [a; c] HW)
    as (m32 & Em32 & Lm32 & Vm32).
  destruct (int_switch_csel b W dst nc [m; a; c] HW) as (s & Es & Ls & Vs).
  destruct (int_switch_csel (fun v => i2b (i32 v)) W dst nc [m32; a; c] HW)
    as (s32 & Es32 & Ls32 & Vs32).
  exists m, m32, s, s32. eexists.
  split; [exact Em|]. split; [exact Em32|]. split; [exact Es|].
  split; [exact Es32|].
  split; [exact (int_switch_done sint_lane
                   (fun t => lanewise2 t min_expr dst nc [a; c]) W HW)|].
  intros i Hn Hl Hc.
  rewrite Vs, Vs32, lanewise2_lane by assumption.
  change (src_lane [m; a; c] 0 i) with (lane m i).
  change (src_lane [m32; a; c] 0 i) with (lane m32 i).
  change (src_lane [m; a; c] 1 i) with (lane a i).
  change (src_lane [m; a; c] 2 i) with (lane c i).
  change (src_lane [m32; a; c] 1 i) with (lane a i).
  change (src_lane [m32; a; c] 2 i) with (lane c i).
  change (src_lane [a; c] 0 i) with (lane a i).
  change (src_lane [a; c] 1 i) with (lane c i).
  rewrite Vm, Vm32 by assumption.
  change (src_lane [a; c] 0 i) with (lane a i).
  change (src_lane [a; c] 1 i) with (lane c i).
  rewrite store_bool1_b, store_bool32_i32. unfold min_expr.
  rewrite Z.gtb_ltb.
  destruct (rd (sint_lane W) (lane a i) <? rd (sint_lane W) (lane c i));
    cbn [b2i i2b Z.opp Z.eqb negb];
    split; apply wr_rd_signedness, HW.
Qed.

Lemma csel_of_ilt_is_imin_witness :
  In 8 widths_int /\
  exists m m32 s s32 d,
    evaluate_ilt [0; 0] 2 8 [[200; 3]; [7; 250]] = Done m /\
    evaluate_ilt32 [0; 0] 2 8 [[200; 3]; [7; 250]] = Done m32 /\
    evaluate_bcsel [9; 9] 2 8 [m; [200; 3]; [7; 250]] = Done s /\
    evaluate_b32csel [9; 9] 2 8 [m32; [200; 3]; [7; 250]] = Done s32 /\
    evaluate_imin [9; 9] 2 8 [[200; 3]; [7; 250]] = Done d /\
    forall i, (i < 2)%nat -> (i < length [9; 9])%nat ->
      (i < length [0; 0])%nat ->
      lane s i = lane d i /\ lane s32 i = lane d i.
Proof.
  assert (H : In 8 widths_int) by in_list.
  split; [exact H|].
  exact (csel_of_ilt_is_imin 8 [0; 0] [9; 9] 2%nat [200; 3] [7; 250] H).
Defined.

(** ** Shifts *)

Lemma int_switch_shift ty expr W dst nc src :
  In W widths_int ->
  exists d,
    int_switch ty (fun t => shift_lanes t (expr t) dst nc src) W = Done d /\
    length d = length dst /\
    forall i, (i < nc)%nat -> (i < length dst)%nat ->
      rd (ty W) (lane d i) =
      wrap (ty W)
        (cast (ctype_of (ty W))
           (expr (ty W) (rd (ty W) (src_lane src 0 i))
                        (u32 (src_lane src 1 i)))).
Proof.
  intros HW. eexists. split; [apply int_switch_done, HW|].
  split; [apply shift_lanes_length|].
  intros i Hn Hl. now rewrite shift_lanes_lane, rd_wr.
Qed.

(** The storage width of the lanes of bit size [W]: the 1-bit types are
    one byte wide. *)
Lemma shift_count_mod t s :
  shift_count t s = s mod Z.max (width t) 8 /\
  0 <= shift_count t s < Z.max (width t) 8.
Proof.
  unfold shift_count.
  assert (E : exists k, 0 <= k /\ sizeof (ctype_of t) * 8 - 1 = Z.ones k /\
                        Z.max (width t) 8 = 2 ^ k).
  { destruct t; cbn [ctype_of sizeof width];
      first [ exists 3; split; [lia|]; split; reflexivity
            | exists 4; split; [lia|]; split; reflexivity
            | exists 5; split; [lia|]; split; reflexivity
            | exists 6; split; [lia|]; split; reflexivity ]. }
  destruct E as (k & Hk & -> & ->). rewrite Z.land_ones by assumption.
  split; [reflexivity|]. apply Z.mod_pos_bound. now apply Z.pow_pos_nonneg.
Qed.

Lemma shl_lane_value t a s :
  lane_signed t = true ->
  wrap t (cast (ctype_of t) (shl_expr t a s)) =
  sext (width t) (a * 2 ^ (s mod Z.max (width t) 8)).
Proof.
  intros H. unfold shl_expr, c_shl.
  destruct (shift_count_mod t s) as [-> Hn].
  rewrite Z.shiftl_mul_pow2 by lia.
  generalize (a * 2 ^ (s mod Z.max (width t) 8)). intros p.
  destruct t; try discriminate H; unfold_int; zmod.
Qed.

Lemma div_pow2_range lo hi a n :
  lo <= 0 -> 0 <= hi -> lo <= a <= hi -> 0 <= n -> lo <= a / 2 ^ n <= hi.
Proof.
  intros Hlo Hhi Ha Hn.
  assert (P : 0 < 2 ^ n) by (apply Z.pow_pos_nonneg; lia).
  pose proof (Z.div_mod a (2 ^ n)) as E.
  pose proof (Z.mod_pos_bound a (2 ^ n) P) as B.
  specialize (E ltac:(lia)). nia.
Qed.

Lemma in_range_div_pow2 t a n :
  in_range t a -> 0 <= n -> in_range t (a / 2 ^ n).
Proof.
  intros Ha Hn. destruct (lane_signed t) eqn:S.
  - apply (in_range_signed _ _ S). apply (in_range_signed _ _ S) in Ha.
    destruct (smin_smax t). apply div_pow2_range; lia.
  - apply (in_range_unsigned _ _ S). apply (in_range_unsigned _ _ S) in Ha.
    apply div_pow2_range; lia.
Qed.

Lemma shr_lane_value t a s :
  in_range t a ->
  wrap t (cast (ctype_of t) (shr_expr t a s)) =
  a / 2 ^ (s mod Z.max (width t) 8).
Proof.
  intros Ha. unfold shr_expr, c_shr.
  destruct (shift_count_mod t s) as [-> Hn].
  rewrite Z.shiftr_div_pow2 by lia.
  assert (R : in_range t (a / 2 ^ (s mod Z.max (width t) 8)))
    by (apply in_range_div_pow2; [assumption | lia]).
  rewrite cast_promote_id by assumption. now apply wrap_cast_id.
Qed.

(** X8.  The shift evaluators take the count from a 32-bit lane and
    reduce it modulo the storage width of the shifted type, which is W for
    W >= 8 and 8 for the 1-bit lanes (so a shift by W is a shift by 0):
    [ishl] stores the source times 2^count reduced modulo 2^W, [ishr] and
    [ushr] store the source divided by 2^count, rounded down. *)
Theorem shifts_reduce_the_count W dst nc src (HW : In W widths_int) :
  (exists d,
     evaluate_ishl dst nc W src = Done d /\ length d = length dst /\
     forall i, (i < nc)%nat -> (i < length dst)%nat ->
       let a := rd (sint_lane W) (src_lane src 0 i) in
       let n := u32 (src_lane src 1 i) mod Z.max W 8 in
       rd (sint_lane W) (lane d i) = sext W (a * 2 ^ n)) /\
  (exists d,
     evaluate_ishr dst nc W src = Done d /\ length d = length dst /\
     forall i, (i < nc)%nat -> (i < length dst)%nat ->
       let a := rd (sint_lane W) (src_lane src 0 i) in
       let n := u32 (src_lane src 1 i) mod Z.max W 8 in
       rd (sint_lane W) (lane d i) = a / 2 ^ n) /\
  (exists d,
     evaluate_ushr dst nc W src = Done d /\ length d = length dst /\
     forall i, (i < nc)%nat -> (i < length dst)%nat ->
       let a := rd (uint_lane W) (src_lane src 0 i) in
       let n := u32 (src_lane src 1 i) mod Z.max W 8 in
       rd (uint_lane W) (lane d i) = a / 2 ^ n).
Proof.
  destruct (sint_lane_props W HW) as [Hs Hw].
  destruct (uint_lane_props W HW) as [Hu Hwu].
  repeat split.
  - destruct (int_switch_shift sint_lane shl_expr W dst nc src HW)
      as (d & E & L & V).
    exists d. split; [exact E|]. split; [exact L|]. intros i Hn Hl a n.
    rewrite V by assumption. rewrite shl_lane_value by assumption.
    now rewrite Hw.
  - destruct (int_switch_shift sint_lane shr_expr W dst nc src HW)
      as (d & E & L & V).
    exists d. split; [exact E|]. split; [exact L|]. intros i Hn Hl a n.
    rewrite V by assumption. rewrite shr_lane_value by apply rd_in_range.
    now rewrite Hw.
  - destruct (int_switch_shift uint_lane shr_expr W dst nc src HW)
      as (d & E & L & V).
    exists d. split; [exact E|]. split; [exact L|]. intros i Hn Hl a n.
    rewrite V by assumption. rewrite shr_lane_value by apply rd_in_range.
    now rewrite Hwu.
Qed.

Lemma shifts_reduce_the_count_witness :
  In 8 widths_int /\
  exists d,
     evaluate_ishl [0; 0] 2 8 [[3; 3]; [8; 9]] = Done d /\
     length d = length [0; 0] /\
     forall i, (i < 2)%nat -> (i < length [0; 0])%nat ->
       let a := rd (sint_lane 8) (src_lane [[3; 3]; [8; 9]] 0 i) in
       let n := u32 (src_lane [[3; 3]; [8; 9]] 1 i) mod Z.max 8 8 in
       rd (sint_lane 8) (lane d i) = sext 8 (a * 2 ^ n).
Proof.
  assert (H : In 8 widths_int) by in_list.
  split; [exact H|].
  exact (proj1 (shifts_reduce_the_count 8 [0; 0] 2%nat [[3; 3]; [8; 9]] H)).
Defined.

(** ** Averages *)

(** A value fits in [w] bits and a sign exactly when everything above bit
    [w] is the sign. *)
Lemma range_shiftr w x :
  0 <= w -> (- 2 ^ w <= x < 2 ^ w <-> Z.shiftr x w = 0 \/ Z.shiftr x w = -1).
Proof.
  intros Hw. rewrite Z.shiftr_div_pow2 by assumption.
  assert (P : 0 < 2 ^ w) by (apply Z.pow_pos_nonneg; lia).
  pose proof (Z.div_mod x (2 ^ w) ltac:(lia)).
  pose proof (Z.mod_pos_bound x (2 ^ w) P). split; intros; nia.
Qed.

Lemma urange_shiftr w x :
  0 <= w -> (0 <= x < 2 ^ w <-> Z.shiftr x w = 0).
Proof.
  intros Hw. rewrite Z.shiftr_div_pow2 by assumption.
  assert (P : 0 < 2 ^ w) by (apply Z.pow_pos_nonneg; lia).
  pose proof (Z.div_mod x (2 ^ w) ltac:(lia)).
  pose proof (Z.mod_pos_bound x (2 ^ w) P). split; intros; nia.
Qed.

Lemma bitop_range (f : Z -> Z -> Z) w a c :
  (forall x y n, Z.shiftr (f x y) n = f (Z.shiftr x n) (Z.shiftr y n)) ->
  f 0 0 = 0 -> (f 0 (-1) = 0 \/ f 0 (-1) = -1) ->
  (f (-1) 0 = 0 \/ f (-1) 0 = -1) -> (f (-1) (-1) = 0 \/ f (-1) (-1) = -1) ->
  0 <= w ->
  (- 2 ^ w <= a < 2 ^ w -> - 2 ^ w <= c < 2 ^ w ->
   - 2 ^ w <= f a c < 2 ^ w) /\
  (0 <= a < 2 ^ w -> 0 <= c < 2 ^ w -> 0 <= f a c < 2 ^ w).
Proof.
  intros S F00 F01 F10 F11 Hw. split; intros Ha Hc.
  - apply range_shiftr in Ha, Hc; try assumption.
    apply range_shiftr; [assumption|]. rewrite S.
    destruct Ha as [-> | ->], Hc as [-> | ->]; auto.
  - apply urange_shiftr in Ha, Hc; try assumption.
    apply urange_shiftr; [assumption|]. rewrite S, Ha, Hc. exact F00.
Qed.

Lemma land_range w a c :
  0 <= w ->
  (- 2 ^ w <= a < 2 ^ w -> - 2 ^ w <= c < 2 ^ w ->
   - 2 ^ w <= Z.land a c < 2 ^ w) /\
  (0 <= a < 2 ^ w -> 0 <= c < 2 ^ w -> 0 <= Z.land a c < 2 ^ w).
Proof.
  apply (bitop_range Z.land); auto. intros. apply Z.shiftr_land.
Qed.

Lemma lor_range w a c :
  0 <= w ->
  (- 2 ^ w <= a < 2 ^ w -> - 2 ^ w <= c < 2 ^ w ->
   - 2 ^ w <= Z.lor a c < 2 ^ w) /\
  (0 <= a < 2 ^ w -> 0 <= c < 2 ^ w -> 0 <= Z.lor a c < 2 ^ w).
Proof.
  apply (bitop_range Z.lor); auto. intros. apply Z.shiftr_lor.
Qed.

Lemma lxor_range w a c :
  0 <= w ->
  (- 2 ^ w <= a < 2 ^ w -> - 2 ^ w <= c < 2 ^ w ->
   - 2 ^ w <= Z.lxor a c < 2 ^ w) /\
  (0 <= a < 2 ^ w -> 0 <= c < 2 ^ w -> 0 <= Z.lxor a c < 2 ^ w).
Proof.
  apply (bitop_range Z.lxor); auto. intros. apply Z.shiftr_lxor.
Qed.

(** The lane types as ranges: [in_range t x] says that [x] fits in
    [width t] bits, with a sign for the signed types. *)
Lemma in_range_bits t x :
  in_range t x <->
  if lane_signed t then - 2 ^ (width t - 1) <= x < 2 ^ (width t - 1)
  else 0 <= x < 2 ^ width t.
Proof.
  unfold in_range, smin, smax, umax. destruct (lane_signed t); lia.
Qed.

Lemma width_pos t : 0 <= width t - 1.
Proof. destruct t; cbn [width]; lia. Qed.

Lemma in_range_bitop (f : Z -> Z -> Z) t a c :
  (forall w a c, 0 <= w ->
     (- 2 ^ w <= a < 2 ^ w -> - 2 ^ w <= c < 2 ^ w ->
      - 2 ^ w <= f a c < 2 ^ w) /\
     (0 <= a < 2 ^ w -> 0 <= c < 2 ^ w -> 0 <= f a c < 2 ^ w)) ->
  in_range t a -> in_range t c -> in_range t (f a c).
Proof.
  intros F Ha Hc. apply in_range_bits in Ha, Hc. apply in_range_bits.
  pose proof (width_pos t).
  destruct (lane_signed t).
  - apply (F (width t - 1)); assumption || lia.
  - apply (F (width t)); assumption || lia.
Qed.

Lemma in_range_half_sum t a c :
  in_range t a -> in_range t c -> in_range t ((a + c) / 2).
Proof.
  intros Ha Hc. apply in_range_bits in Ha, Hc. apply in_range_bits.
  destruct (lane_signed t); zmod.
Qed.

Lemma hadd_lane_value t a c :
  in_range t a -> in_range t c ->
  wrap t (cast (ctype_of t) (hadd_expr t a c)) = (a + c) / 2.
Proof.
  intros Ha Hc. unfold hadd_expr, c_and, c_xor, c_shr, c_add. cbv zeta.
  pose proof (in_range_bitop Z.land t a c land_range Ha Hc) as Rx.
  pose proof (in_range_bitop Z.lxor t a c lxor_range Ha Hc) as Ry.
  pose proof (Z.add_lxor_2land a c) as E.
  set (x := Z.land a c) in *. set (y := Z.lxor a c) in *.
  rewrite (cast_promote_id t x), (cast_promote_id t y) by assumption.
  rewrite Z.shiftr_div_pow2 by lia. change (2 ^ 1) with 2.
  assert (Ry2 : in_range t (y / 2)).
  { change 2 with (2 ^ 1) at 1. apply in_range_div_pow2; [assumption | lia]. }
  rewrite (cast_promote_id t (y / 2)) by assumption.
  assert (S : x + y / 2 = (a + c) / 2) by zmod.
  rewrite S.
  pose proof (in_range_half_sum t a c Ha Hc) as R.
  rewrite cast_promote_id by assumption. now apply wrap_cast_id.
Qed.

Lemma wrap_cast_promote t p :
  wrap t (cast (ctype_of t) (cast (promote (ctype_of t)) p)) = wrap t p.
Proof. destruct t; unfold_int; zmod. Qed.

Lemma rhadd_lane_value t a c :
  in_range t a -> in_range t c ->
  wrap t (cast (ctype_of t) (rhadd_expr t a c)) =
  wrap t ((a + c) / 2 + Z.lxor a c).
Proof.
  intros Ha Hc. unfold rhadd_expr, c_or, c_xor, c_shr, c_add. cbv zeta.
  pose proof (in_range_bitop Z.lor t a c lor_range Ha Hc) as Rx.
  pose proof (in_range_bitop Z.lxor t a c lxor_range Ha Hc) as Ry.
  pose proof (Z.add_lxor_2land a c) as E.
  pose proof (Z.sub_lor_land a c) as E2.
  set (o := Z.lor a c) in *. set (y := Z.lxor a c) in *.
  rewrite (cast_promote_id t o), (cast_promote_id t y) by assumption.
  rewrite Z.shiftr_div_pow2 by lia. change (2 ^ 1) with 2.
  assert (Ry2 : in_range t (y / 2)).
  { change 2 with (2 ^ 1) at 1. apply in_range_div_pow2; [assumption | lia]. }
  rewrite (cast_promote_id t (y / 2)) by assumption.
  assert (S : o + y / 2 = (a + c) / 2 + y) by zmod.
  rewrite S. apply wrap_cast_promote.
Qed.

(** X9.  [ihadd] and [uhadd] store the average of the two source lanes
    rounded down, computed without overflow even where the sum does not
    fit the width.  [irhadd] and [urhadd] add the exclusive-or of the
    sources to that average, modulo 2^W; for unsigned lanes this is the
    average rounded up exactly when the sources differ in bit 0 at most. *)
Theorem hadd_is_the_average W dst nc src (HW : In W widths_int) :
  (exists d,
     evaluate_ihadd dst nc W src = Done d /\ length d = length dst /\
     forall i, (i < nc)%nat -> (i < length dst)%nat ->
       let a := rd (sint_lane W) (src_lane src 0 i) in
       let c := rd (sint_lane W) (src_lane src 1 i) in
       rd (sint_lane W) (lane d i) = (a + c) / 2) /\
  (exists d,
     evaluate_uhadd dst nc W src = Done d /\ length d = length dst /\
     forall i, (i < nc)%nat -> (i < length dst)%nat ->
       let a := rd (uint_lane W) (src_lane src 0 i) in
       let c := rd (uint_lane W) (src_lane src 1 i) in
       rd (uint_lane W) (lane d i) = (a + c) / 2) /\
  (exists d,
     evaluate_irhadd dst nc W src = Done d /\ length d = length dst /\
     forall i, (i < nc)%nat -> (i < length dst)%nat ->
       let a := rd (sint_lane W) (src_lane src 0 i) in
       let c := rd (sint_lane W) (src_lane src 1 i) in
       rd (sint_lane W) (lane d i) = sext W ((a + c) / 2 + Z.lxor a c)) /\
  (exists d,
     evaluate_urhadd dst nc W src = Done d /\ length d = length dst /\
     forall i, (i < nc)%nat -> (i < length dst)%nat ->
       let a := rd (uint_lane W) (src_lane src 0 i) in
       let c := rd (uint_lane W) (src_lane src 1 i) in
       let r := rd (uint_lane W) (lane d i) in
       r = ((a + c) / 2 + Z.lxor a c) mod 2 ^ W /\
       (r = (a + c + 1) / 2 <-> Z.lxor a c <= 1)).
Proof.
  destruct (sint_lane_props W HW) as [Hs Hw].
  destruct (uint_lane_props W HW) as [Hu Hwu].
  split; [|split; [|split]].
  - destruct (int_switch_lanewise2 sint_lane hadd_expr W dst nc src HW)
      as (d & E & L & V).
    exists d. split; [exact E|]. split; [exact L|]. intros i Hn Hl a c.
    rewrite V by assumption. apply hadd_lane_value; apply rd_in_range.
  - destruct (int_switch_lanewise2 uint_lane hadd_expr W dst nc src HW)
      as (d & E & L & V).
    exists d. split; [exact E|]. split; [exact L|]. intros i Hn Hl a c.
    rewrite V by assumption. apply hadd_lane_value; apply rd_in_range.
  - destruct (int_switch_lanewise2 sint_lane rhadd_expr W dst nc src HW)
      as (d & E & L & V).
    exists d. split; [exact E|]. split; [exact L|]. intros i Hn Hl a c.
    rewrite V by assumption. rewrite rhadd_lane_value by apply rd_in_range.
    unfold wrap. now rewrite Hs, Hw.
  - destruct (int_switch_lanewise2 uint_lane rhadd_expr W dst nc src HW)
      as (d & E & L & V).
    exists d. split; [exact E|]. split; [exact L|]. intros i Hn Hl a c r.
    subst r. rewrite V by assumption. fold a c.
    rewrite rhadd_lane_value by apply rd_in_range.
    unfold wrap. rewrite Hu, Hwu. unfold zext. split; [reflexivity|].
    pose proof (usrc_in_range W src 0 i HW) as Ra.
    pose proof (usrc_in_range W src 1 i HW) as Rc. fold a in Ra. fold c in Rc.
    assert (Ry : 0 <= Z.lxor a c < 2 ^ W).
    { apply lxor_range; unfold umax in *; try lia.
      apply Z.lt_le_incl, sint_width, HW. }
    pose proof (Z.add_lxor_2land a c) as E2.
    set (y := Z.lxor a c) in *. set (x := Z.land a c) in *.
    clearbody a c x y. unfold umax in *.
    apply In_widths_int in HW.
    destruct HW as [-> | [-> | [-> | [-> | ->]]]]; znorm; zmod.
Qed.

Lemma hadd_is_the_average_witness :
  In 8 widths_int /\
  exists d,
     evaluate_uhadd [0; 0] 2 8 [[255; 3]; [255; 0]] = Done d /\
     length d = length [0; 0] /\
     forall i, (i < 2)%nat -> (i < length [0; 0])%nat ->
       let a := rd (uint_lane 8) (src_lane [[255; 3]; [255; 0]] 0 i) in
       let c := rd (uint_lane 8) (src_lane [[255; 3]; [255; 0]] 1 i) in
       rd (uint_lane 8) (lane d i) = (a + c) / 2.
Proof.
  assert (H : In 8 widths_int) by in_list.
  split; [exact H|].
  exact (proj1 (proj2 (hadd_is_the_average 8 [0; 0] 2%nat
                         [[255; 3]; [255; 0]] H))).
Defined.

(** ** Saturation, carry and borrow *)

Lemma usub_sat_lane_value t a c :
  lane_signed t = false -> in_range t a -> in_range t c ->
  wrap t (cast (ctype_of t) (usub_sat_expr t a c)) = Z.max 0 (a - c).
Proof.
  intros H; destruct t; try discriminate H; unfold_ops; unfold_int;
    intros Ha Hc; cases; zmod.
Qed.

Lemma usub_borrow_lane_value t a c :
  lane_signed t = false ->
  wrap t (cast (ctype_of t) (usub_borrow_expr a c)) = b2i (a <? c).
Proof.
  intros H; destruct t; try discriminate H; unfold_ops; unfold_int;
    cases; zmod.
Qed.

Lemma uadd_carry_wide t a c :
  t = uint32 \/ t = uint64 -> in_range t a -> in_range t c ->
  wrap t (cast (ctype_of t) (uadd_carry_expr t a c)) =
  b2i (umax (width t) <? a + c).
Proof.
  intros [-> | ->]; unfold_ops; unfold_int; intros Ha Hc; cases; zmod.
Qed.

Lemma uadd_carry_narrow t a c :
  t = uint1 \/ t = uint8 \/ t = uint16 -> in_range t a -> in_range t c ->
  wrap t (cast (ctype_of t) (uadd_carry_expr t a c)) = 0.
Proof.
  intros [-> | [-> | ->]]; unfold_ops; unfold_int; intros Ha Hc; cases; zmod.
Qed.

Lemma widths_wide_or_narrow W :
  In W widths_int ->
  (W = 32 \/ W = 64) /\ ((W =? 32) || (W =? 64) = true) \/
  (W = 1 \/ W = 8 \/ W = 16) /\ ((W =? 32) || (W =? 64) = false).
Proof.
  intros H. apply In_widths_int in H.
  destruct H as [-> | [-> | [-> | [-> | ->]]]]; auto 6.
Qed.

(** X10.  [usub_sat] stores the difference of the unsigned source lanes,
    0 when the second is larger, at every bit size; [usub_borrow] stores 1
    in exactly that case and 0 otherwise. *)
Theorem usub_sat_and_borrow W dst nc src (HW : In W widths_int) :
  (exists d,
     evaluate_usub_sat dst nc W src = Done d /\ length d = length dst /\
     forall i, (i < nc)%nat -> (i < length dst)%nat ->
       let a := rd (uint_lane W) (src_lane src 0 i) in
       let c := rd (uint_lane W) (src_lane src 1 i) in
       rd (uint_lane W) (lane d i) = Z.max 0 (a - c)) /\
  (exists d,
     evaluate_usub_borrow dst nc W src = Done d /\ length d = length dst /\
     forall i, (i < nc)%nat -> (i < length dst)%nat ->
       let a := rd (uint_lane W) (src_lane src 0 i) in
       let c := rd (uint_lane W) (src_lane src 1 i) in
       rd (uint_lane W) (lane d i) = if a <? c then 1 else 0).
Proof.
  destruct (uint_lane_props W HW) as [Hu Hwu].
  split.
  - destruct (int_switch_lanewise2 uint_lane usub_sat_expr W dst nc src HW)
      as (d & E & L & V).
    exists d. split; [exact E|]. split; [exact L|]. intros i Hn Hl a c.
    rewrite V by assumption.
    apply usub_sat_lane_value; assumption || apply rd_in_range.
  - destruct (int_switch_lanewise2 uint_lane (fun _ => usub_borrow_expr) W
                dst nc src HW) as (d & E & L & V).
    exists d. split; [exact E|]. split; [exact L|]. intros i Hn Hl a c.
    rewrite V by assumption. now apply usub_borrow_lane_value.
Qed.

Lemma usub_sat_and_borrow_witness :
  In 8 widths_int /\
  exists d,
     evaluate_usub_sat [0; 0] 2 8 [[10; 250]; [250; 10]] = Done d /\
     length d = length [0; 0] /\
     forall i, (i < 2)%nat -> (i < length [0; 0])%nat ->
       let a := rd (uint_lane 8) (src_lane [[10; 250]; [250; 10]] 0 i) in
       let c := rd (uint_lane 8) (src_lane [[10; 250]; [250; 10]] 1 i) in
       rd (uint_lane 8) (lane d i) = Z.max 0 (a - c).
Proof.
  assert (H : In 8 widths_int) by in_list.
  split; [exact H|].
  exact (proj1 (usub_sat_and_borrow 8 [0; 0] 2%nat
                  [[10; 250]; [250; 10]] H)).
Defined.

(** X11.  [uadd_carry] stores the carry of the unsigned addition, 1 when
    the sum exceeds the largest W-bit value, at bit sizes 32 and 64 only:
    at bit sizes 1, 8 and 16 the operands are promoted to [int], the test
    [src0 + src1 < src0] never holds, and the stored carry is always 0. *)
Theorem uadd_carry_only_at_wide_widths W dst nc src (HW : In W widths_int) :
  exists d,
    evaluate_uadd_carry dst nc W src = Done d /\ length d = length dst /\
    forall i, (i < nc)%nat -> (i < length dst)%nat ->
      let a := rd (uint_lane W) (src_lane src 0 i) in
      let c := rd (uint_lane W) (src_lane src 1 i) in
      rd (uint_lane W) (lane d i) =
      if (W =? 32) || (W =? 64) then (if umax W <? a + c then 1 else 0)
      else 0.
Proof.
  destruct (uint_lane_props W HW) as [Hu Hwu].
  destruct (int_switch_lanewise2 uint_lane uadd_carry_expr W dst nc src HW)
    as (d & E & L & V).
  exists d. split; [exact E|]. split; [exact L|]. intros i Hn Hl a c.
  rewrite V by assumption. fold a c.
  assert (Ra : in_range (uint_lane W) a) by apply rd_in_range.
  assert (Rc : in_range (uint_lane W) c) by apply rd_in_range.
  destruct (widths_wide_or_narrow W HW) as [[Hc ->] | [Hc ->]].
  - rewrite uadd_carry_wide, Hwu; try assumption; [reflexivity|].
    destruct Hc as [-> | ->]; auto.
  - apply uadd_carry_narrow; try assumption.
    destruct Hc as [-> | [-> | ->]]; auto.
Qed.

Lemma uadd_carry_only_at_wide_widths_witness :
  In 8 widths_int /\
  exists d,
    evaluate_uadd_carry [7] 1 8 [[250]; [10]] = Done d /\
    length d = length [7] /\
    forall i, (i < 1)%nat -> (i < length [7])%nat ->
      let a := rd (uint_lane 8) (src_lane [[250]; [10]] 0 i) in
      let c := rd (uint_lane 8) (src_lane [[250]; [10]] 1 i) in
      rd (uint_lane 8) (lane d i) =
      if (8 =? 32) || (8 =? 64) then (if umax 8 <? a + c then 1 else 0)
      else 0.
Proof.
  assert (H : In 8 widths_int) by in_list.
  split; [exact H|].
  exact (uadd_carry_only_at_wide_widths 8 [7] 1%nat [[250]; [10]] H).
Defined.

(** ** Conversions *)

Lemma lanes1_length t0 td expr dst nc src :
  length (lanes1 t0 td expr dst nc src) = length dst.
Proof. apply per_lane_length. Qed.

Lemma lanes1_lane t0 td expr dst nc src i :
  (i < nc)%nat -> (i < length dst)%nat ->
  lane (lanes1 t0 td expr dst nc src) i =
  wr td (cast (ctype_of td) (expr (rd t0 (src_lane src 0 i)))) (lane dst i).
Proof. intros Hn Hl. unfold lanes1. now rewrite per_lane_lane. Qed.

Lemma lanes2_length t0 t1 td expr dst nc src :
  length (lanes2 t0 t1 td expr dst nc src) = length dst.
Proof. apply per_lane_length. Qed.

Lemma lanes2_lane t0 t1 td expr dst nc src i :
  (i < nc)%nat -> (i < length dst)%nat ->
  lane (lanes2 t0 t1 td expr dst nc src) i =
  wr td (cast (ctype_of td)
           (expr (rd t0 (src_lane src 0 i)) (rd t1 (src_lane src 1 i))))
     (lane dst i).
Proof. intros Hn Hl. unfold lanes2. now rewrite per_lane_lane. Qed.

Lemma wrap_cast t x : wrap t (cast (ctype_of t) x) = wrap t x.
Proof. destruct t; unfold_int; zmod. Qed.

Lemma wrap_signed W x :
  In W widths_int -> wrap (sint_lane W) x = sext W x.
Proof.
  intros HW. destruct (sint_lane_props W HW) as [Hs Hw].
  unfold wrap. now rewrite Hs, Hw.
Qed.

Lemma wrap_unsigned W x :
  In W widths_int -> wrap (uint_lane W) x = x mod 2 ^ W.
Proof.
  intros HW. destruct (uint_lane_props W HW) as [Hs Hw].
  unfold wrap, zext. now rewrite Hs, Hw.
Qed.

Lemma evaluate_i2i_lanes Wd Ws dst nc src :
  In Ws widths_int -> In Wd widths_int ->
  exists d,
    evaluate_i2i (sint_lane Wd) dst nc Ws src = Done d /\
    length d = length dst /\
    forall i, (i < nc)%nat -> (i < length dst)%nat ->
      rd (sint_lane Wd) (lane d i) =
      sext Wd (rd (sint_lane Ws) (src_lane src 0 i)).
Proof.
  intros Hs Hd. eexists. split; [apply int_switch_done, Hs|].
  split; [apply lanes1_length|]. intros i Hn Hl.
  rewrite lanes1_lane, rd_wr, wrap_cast by assumption.
  now apply wrap_signed.
Qed.

Lemma evaluate_u2u_lanes Wd Ws dst nc src :
  In Ws widths_int -> In Wd widths_int ->
  exists d,
    evaluate_u2u (uint_lane Wd) dst nc Ws src = Done d /\
    length d = length dst /\
    forall i, (i < nc)%nat -> (i < length dst)%nat ->
      rd (uint_lane Wd) (lane d i) =
      rd (uint_lane Ws) (src_lane src 0 i) mod 2 ^ Wd.
Proof.
  intros Hs Hd. eexists. split; [apply int_switch_done, Hs|].
  split; [apply lanes1_length|]. intros i Hn Hl.
  rewrite lanes1_lane, rd_wr, wrap_cast by assumption.
  now apply wrap_unsigned.
Qed.

Lemma pow2_le_mono a c : 0 <= a <= c -> 2 ^ a <= 2 ^ c.
Proof. intros H. apply Z.pow_le_mono_r; lia. Qed.

Lemma smin_smax_mono a c :
  0 < a <= c -> smin c <= smin a /\ smax a <= smax c.
Proof.
  intros H. unfold smin, smax.
  pose proof (pow2_le_mono (a - 1) (c - 1)). lia.
Qed.

(** X13.  The integer conversions [i2i1] .. [i2i64] store the signed
    source reduced modulo 2^D into the signed range of the destination
    width D, and [u2u1] .. [u2u64] store the unsigned source modulo 2^D.
    So a conversion to a width that is not smaller keeps the value (a true
    1-bit lane becomes -1 under [i2i] and 1 under [u2u]), and converting
    back to the source width gives the source lane again. *)
Theorem conversions_extend_and_truncate Ws Wd dst dst2 nc src
    (HWs : In Ws widths_int) (HWd : In Wd widths_int) :
  exists ds du,
    evaluate_i2i (sint_lane Wd) dst nc Ws src = Done ds /\
    evaluate_u2u (uint_lane Wd) dst nc Ws src = Done du /\
    length ds = length dst /\ length du = length dst /\
    (forall i, (i < nc)%nat -> (i < length dst)%nat ->
       let a := rd (sint_lane Ws) (src_lane src 0 i) in
       let u := rd (uint_lane Ws) (src_lane src 0 i) in
       rd (sint_lane Wd) (lane ds i) = sext Wd a /\
       rd (uint_lane Wd) (lane du i) = u mod 2 ^ Wd /\
       (Ws <= Wd -> rd (sint_lane Wd) (lane ds i) = a /\
                    rd (uint_lane Wd) (lane du i) = u)) /\
    (Ws <= Wd ->
     exists bs bu,
       evaluate_i2i (sint_lane Ws) dst2 nc Wd [ds] = Done bs /\
       evaluate_u2u (uint_lane Ws) dst2 nc Wd [du] = Done bu /\
       forall i, (i < nc)%nat -> (i < length dst)%nat ->
         (i < length dst2)%nat ->
         rd (sint_lane Ws) (lane bs i) = rd (sint_lane Ws) (src_lane src 0 i)
         /\
         rd (uint_lane Ws) (lane bu i) = rd (uint_lane Ws) (src_lane src 0 i)).
Proof.
  destruct (evaluate_i2i_lanes Wd Ws dst nc src HWs HWd) as (ds & Es & Ls & Vs).
  destruct (evaluate_u2u_lanes Wd Ws dst nc src HWs HWd) as (du & Eu & Lu & Vu).
  pose proof (sint_width Ws HWs) as Ps. pose proof (sint_width Wd HWd) as Pd.
  assert (K : forall i, Ws <= Wd ->
    sext Wd (rd (sint_lane Ws) (src_lane src 0 i))
      = rd (sint_lane Ws) (src_lane src 0 i) /\
    rd (uint_lane Ws) (src_lane src 0 i) mod 2 ^ Wd
      = rd (uint_lane Ws) (src_lane src 0 i)).
  { intros i Hle.
    pose proof (src_in_range Ws src 0 i HWs) as Ra.
    pose proof (usrc_in_range Ws src 0 i HWs) as Ru.
    destruct (smin_smax_mono Ws Wd ltac:(lia)).
    pose proof (pow2_le_mono Ws Wd ltac:(lia)). unfold umax in Ru.
    split; [apply sext_id; lia | apply Z.mod_small; lia]. }
  exists ds, du. split; [exact Es|]. split; [exact Eu|].
  split; [exact Ls|]. split; [exact Lu|]. split.
  - intros i Hn Hl a u. rewrite Vs, Vu by assumption. fold a u.
    split; [reflexivity|]. split; [reflexivity|]. intros Hle.
    exact (K i Hle).
  - intros Hle.
    destruct (evaluate_i2i_lanes Ws Wd dst2 nc [ds] HWd HWs)
      as (bs & Ebs & Lbs & Vbs).
    destruct (evaluate_u2u_lanes Ws Wd dst2 nc [du] HWd HWs)
      as (bu & Ebu & Lbu & Vbu).
    exists bs, bu. split; [exact Ebs|]. split; [exact Ebu|].
    intros i Hn Hl Hl2. rewrite Vbs, Vbu by assumption.
    change (src_lane [ds] 0 i) with (lane ds i).
    change (src_lane [du] 0 i) with (lane du i).
    rewrite Vs, Vu by assumption.
    destruct (K i Hle) as [-> ->].
    pose proof (src_in_range Ws src 0 i HWs) as Ra.
    pose proof (usrc_in_range Ws src 0 i HWs) as Ru. unfold umax in Ru.
    split; [apply sext_id; lia | apply Z.mod_small; lia].
Qed.

Lemma conversions_extend_and_truncate_witness :
  In 8 widths_int /\ In 32 widths_int /\
  exists ds du,
    evaluate_i2i (sint_lane 32) [0; 0] 2 8 [[200; 5]] = Done ds /\
    evaluate_u2u (uint_lane 32) [0; 0] 2 8 [[200; 5]] = Done du /\
    length ds = length [0; 0] /\ length du = length [0; 0] /\
    (forall i, (i < 2)%nat -> (i < length [0; 0])%nat ->
       let a := rd (sint_lane 8) (src_lane [[200; 5]] 0 i) in
       let u := rd (uint_lane 8) (src_lane [[200; 5]] 0 i) in
       rd (sint_lane 32) (lane ds i) = sext 32 a /\
       rd (uint_lane 32) (lane du i) = u mod 2 ^ 32 /\
       (8 <= 32 -> rd (sint_lane 32) (lane ds i) = a /\
                   rd (uint_lane 32) (lane du i) = u)) /\
    (8 <= 32 ->
     exists bs bu,
       evaluate_i2i (sint_lane 8) [1; 1] 2 32 [ds] = Done bs /\
       evaluate_u2u (uint_lane 8) [1; 1] 2 32 [du] = Done bu /\
       forall i, (i < 2)%nat -> (i < length [0; 0])%nat ->
         (i < length [1; 1])%nat ->
         rd (sint_lane 8) (lane bs i) = rd (sint_lane 8) (src_lane [[200; 5]] 0 i)
         /\
         rd (uint_lane 8) (lane bu i) = rd (uint_lane 8) (src_lane [[200; 5]] 0 i)).
Proof.
  assert (H1 : In 8 widths_int) by in_list.
  assert (H2 : In 32 widths_int) by in_list.
  split; [exact H1|]. split; [exact H2|].
  exact (conversions_extend_and_truncate 8 32 [0; 0] [1; 1] 2%nat
           [[200; 5]] H1 H2).
Defined.

(** ** Booleans and integers *)

Lemma b2i_lanes_lane read td dst nc src i :
  (i < nc)%nat -> (i < length dst)%nat ->
  lane (b2i_lanes read td dst nc src) i =
  wr td (cast (ctype_of td) (b2i (read (src_lane src 0 i)))) (lane dst i).
Proof. intros Hn Hl. unfold b2i_lanes. now rewrite per_lane_lane. Qed.

Lemma i2b_lanes_lane t store dst nc src i :
  (i < nc)%nat -> (i < length dst)%nat ->
  lane (i2b_lanes t store dst nc src) i =
  store (negb (rd t (src_lane src 0 i) =? 0)) (lane dst i).
Proof. intros Hn Hl. unfold i2b_lanes. now rewrite per_lane_lane. Qed.

Lemma wrap_b2i t x :
  t <> int1 -> t <> uint1 -> wrap t (b2i x) = b2i x.
Proof.
  intros N1 N2. destruct t, x; try congruence; unfold_int; zmod.
Qed.

(** X14.  [b2i8] .. [b2i64] store 1 for a true source and 0 for a false
    one, whether the boolean comes from a 1-bit lane (bit size 1) or from
    a 32-bit lane in which every non-zero value is true (bit size 32);
    any other bit size reaches [unreachable].  [i2b1] stores true exactly
    for the non-zero sources, so [i2b1] applied to the result of [b2i]
    gives the boolean back. *)
Theorem b2i_and_i2b_round_trip Wd dst dst2 nc src
    (HWd : In Wd [8; 16; 32; 64]) :
  exists d1 d32 back,
    evaluate_b2i (sint_lane Wd) dst nc 1 src = Done d1 /\
    evaluate_b2i (sint_lane Wd) dst nc 32 src = Done d32 /\
    evaluate_i2b1 dst2 nc Wd [d1] = Done back /\
    (forall W, W <> 1 -> W <> 32 ->
       evaluate_b2i (sint_lane Wd) dst nc W src
       = Unreachable "unknown bit width") /\
    forall i, (i < nc)%nat -> (i < length dst)%nat ->
      rd (sint_lane Wd) (lane d1 i) = b2i (b (src_lane src 0 i)) /\
      rd (sint_lane Wd) (lane d32 i)
        = (if i32 (src_lane src 0 i) =? 0 then 0 else 1) /\
      ((i < length dst2)%nat -> b (lane back i) = b (src_lane src 0 i)).
Proof.
  assert (HW : In Wd widths_int) by (simpl in *; tauto).
  assert (N : sint_lane Wd <> int1 /\ sint_lane Wd <> uint1).
  { simpl in HWd. destruct HWd as [<- | [<- | [<- | [<- | []]]]];
      split; discriminate. }
  destruct N as [N1 N2].
  do 3 eexists. split; [reflexivity|]. split; [reflexivity|].
  split; [apply int_switch_done, HW|]. split.
  - intros W H1 H32. unfold evaluate_b2i.
    destruct W as [|p|p]; try reflexivity.
    do 6 (try (destruct p as [p|p|]; try reflexivity)); congruence.
  - intros i Hn Hl.
    rewrite !b2i_lanes_lane, !rd_wr, !wrap_cast, !wrap_b2i by assumption.
    split; [reflexivity|]. split.
    + unfold i2b. now destruct (i32 (src_lane src 0 i) =? 0).
    + intros Hl2. rewrite i2b_lanes_lane, store_bool1_b by assumption.
      change (src_lane [b2i_lanes b (sint_lane Wd) dst nc src] 0 i)
        with (lane (b2i_lanes b (sint_lane Wd) dst nc src) i).
      rewrite b2i_lanes_lane, rd_wr, wrap_cast, wrap_b2i by assumption.
      now destruct (b (src_lane src 0 i)).
Qed.

Lemma b2i_and_i2b_round_trip_witness :
  In 32 [8; 16; 32; 64] /\
  exists d1 d32 back,
    evaluate_b2i (sint_lane 32) [0; 0] 2 1 [[1; 0]] = Done d1 /\
    evaluate_b2i (sint_lane 32) [0; 0] 2 32 [[1; 0]] = Done d32 /\
    evaluate_i2b1 [0; 0] 2 32 [d1] = Done back /\
    (forall W, W <> 1 -> W <> 32 ->
       evaluate_b2i (sint_lane 32) [0; 0] 2 W [[1; 0]]
       = Unreachable "unknown bit width") /\
    forall i, (i < 2)%nat -> (i < length [0; 0])%nat ->
      rd (sint_lane 32) (lane d1 i) = b2i (b (src_lane [[1; 0]] 0 i)) /\
      rd (sint_lane 32) (lane d32 i)
        = (if i32 (src_lane [[1; 0]] 0 i) =? 0 then 0 else 1) /\
      ((i < length [0; 0])%nat ->
       b (lane back i) = b (src_lane [[1; 0]] 0 i)).
Proof.
  assert (H : In 32 [8; 16; 32; 64]) by in_list.
  split; [exact H|].
  exact (b2i_and_i2b_round_trip 32 [0; 0] [0; 0] 2%nat [[1; 0]] H).
Defined.

(** ** Multiplication *)

Lemma mul_range_s a c :
  - 2 ^ 31 <= a < 2 ^ 31 -> - 2 ^ 31 <= c < 2 ^ 31 ->
  - 2 ^ 63 <= a * c < 2 ^ 63.
Proof. intros Ha Hc. znorm. nia. Qed.

Lemma mul_range_u a c :
  0 <= a < 2 ^ 32 -> 0 <= c < 2 ^ 32 -> 0 <= a * c < 2 ^ 64.
Proof. intros Ha Hc. znorm. nia. Qed.

(** X15.  [imul] stores the product of the source lanes reduced modulo
    2^W into the signed range of W.  [imul_2x32_64] and [umul_2x32_64]
    store the exact 64-bit product of their 32-bit sources, which never
    overflows, and the low half of that product, taken by
    [unpack_64_2x32_split_x], is the result of [imul] at bit size 32. *)
Theorem imul_wraps_and_wide_products_are_exact W dst dst2 nc src
    (HW : In W widths_int) :
  (exists d,
     evaluate_imul dst nc W src = Done d /\ length d = length dst /\
     forall i, (i < nc)%nat -> (i < length dst)%nat ->
       let a := rd (sint_lane W) (src_lane src 0 i) in
       let c := rd (sint_lane W) (src_lane src 1 i) in
       rd (sint_lane W) (lane d i) = sext W (a * c)) /\
  (exists ds du lo m,
     evaluate_imul_2x32_64 dst nc W src = Done ds /\
     evaluate_umul_2x32_64 dst nc W src = Done du /\
     evaluate_unpack_64_2x32_split_x dst2 nc W [ds] = Done lo /\
     evaluate_imul dst2 nc 32 src = Done m /\
     forall i, (i < nc)%nat -> (i < length dst)%nat ->
       i64 (lane ds i) = i32 (src_lane src 0 i) * i32 (src_lane src 1 i) /\
       u64 (lane du i) = u32 (src_lane src 0 i) * u32 (src_lane src 1 i) /\
       ((i < length dst2)%nat -> lane lo i = lane m i)).
Proof.
  split.
  - destruct (int_switch_lanewise2 sint_lane imul_expr W dst nc src HW)
      as (d & E & L & V).
    exists d. split; [exact E|]. split; [exact L|]. intros i Hn Hl a c.
    rewrite V by assumption.
    destruct (sint_lane_props W HW) as [Hs Hw].
    now rewrite imul_lane_value, Hw.
  - do 4 eexists. split; [reflexivity|]. split; [reflexivity|].
    split; [reflexivity|]. split; [reflexivity|].
    intros i Hn Hl.
    pose proof (i32_range (src_lane src 0 i)) as A0.
    pose proof (i32_range (src_lane src 1 i)) as A1.
    pose proof (u32_range (src_lane src 0 i)) as B0.
    pose proof (u32_range (src_lane src 1 i)) as B1.
    pose proof (mul_range_s _ _ A0 A1) as Ms.
    pose proof (mul_range_u _ _ B0 B1) as Mu.
    split; [|split].
    + rewrite lanes2_lane by assumption. change (rd int32 (src_lane src 0 i)) with (i32 (src_lane src 0 i));
      change (rd int32 (src_lane src 1 i)) with (i32 (src_lane src 1 i)).
      change i64 with (rd int64). rewrite rd_wr, wrap_cast.
      unfold c_mul.
      set (a := i32 (src_lane src 0 i)) in *.
      set (c := i32 (src_lane src 1 i)) in *.
      assert (Ca : cast int64_t a = a) by (revert A0; unfold_int; intros; zmod).
      assert (Cc : cast int64_t c = c) by (revert A1; unfold_int; intros; zmod).
      rewrite Ca, Cc. revert Ms. generalize (a * c). intros p Hp.
      revert Hp. unfold_int. intros; zmod.
    + rewrite lanes2_lane by assumption. change (rd uint32 (src_lane src 0 i)) with (u32 (src_lane src 0 i));
      change (rd uint32 (src_lane src 1 i)) with (u32 (src_lane src 1 i)).
      change u64 with (rd uint64). rewrite rd_wr, wrap_cast.
      unfold c_mul.
      set (a := u32 (src_lane src 0 i)) in *.
      set (c := u32 (src_lane src 1 i)) in *.
      assert (Ca : cast uint64_t a = a) by (revert B0; unfold_int; intros; zmod).
      assert (Cc : cast uint64_t c = c) by (revert B1; unfold_int; intros; zmod).
      rewrite Ca, Cc. revert Mu. generalize (a * c). intros p Hp.
      revert Hp. unfold_int. intros; zmod.
    + intros Hl2. rewrite lanes1_lane, lanewise2_lane by assumption.
      change (src_lane [lanes2 int32 int32 int64
                (fun src0 src1 =>
                   c_mul int64_t (cast int64_t src0) (cast int64_t src1))
                dst nc src] 0 i)
        with (lane (lanes2 int32 int32 int64
                (fun src0 src1 =>
                   c_mul int64_t (cast int64_t src0) (cast int64_t src1))
                dst nc src) i).
      rewrite lanes2_lane by assumption.
      cbn [sint_lane]. change (rd int32 (src_lane src 0 i)) with (i32 (src_lane src 0 i));
      change (rd int32 (src_lane src 1 i)) with (i32 (src_lane src 1 i)).
      set (a := i32 (src_lane src 0 i)) in *.
      set (c := i32 (src_lane src 1 i)) in *.
      assert (Ca : cast int64_t a = a) by (revert A0; unfold_int; intros; zmod).
      assert (Cc : cast int64_t c = c) by (revert A1; unfold_int; intros; zmod).
      unfold imul_expr, c_mul. rewrite Ca, Cc.
      generalize (a * c). intros p. generalize (lane dst i) (lane dst2 i).
      intros v0 v2. unfold_int. zmod.
Qed.

Lemma imul_wraps_and_wide_products_are_exact_witness :
  In 8 widths_int /\
  exists d,
     evaluate_imul [0] 1 8 [[100]; [3]] = Done d /\
     length d = length [0] /\
     forall i, (i < 1)%nat -> (i < length [0])%nat ->
       let a := rd (sint_lane 8) (src_lane [[100]; [3]] 0 i) in
       let c := rd (sint_lane 8) (src_lane [[100]; [3]] 1 i) in
       rd (sint_lane 8) (lane d i) = sext 8 (a * c).
Proof.
  assert (H : In 8 widths_int) by in_list.
  split; [exact H|].
  exact (proj1 (imul_wraps_and_wide_products_are_exact 8 [0] [0] 1%nat
                  [[100]; [3]] H)).
Defined.

(** ** Packing and unpacking of integers *)

Lemma get_set_field t x v :
  get_field t (set_field t x v) = cast t x.
Proof. destruct t; unfold_int; zmod. Qed.

Lemma lor_mul_pow2 a c k :
  0 <= k -> 0 <= a < 2 ^ k -> Z.lor a (c * 2 ^ k) = a + c * 2 ^ k.
Proof.
  intros Hk Ha. transitivity (Z.lor a (Z.shiftl c k)).
  - now rewrite Z.shiftl_mul_pow2.
  - now apply lor_shiftl_add.
Qed.

Lemma u16_range v : 0 <= u16 v < 2 ^ 16.
Proof. unfold u16. unfold_int. zmod. Qed.

Lemma u64_range v : 0 <= u64 v < 2 ^ 64.
Proof. unfold u64. unfold_int. zmod. Qed.

Lemma set_field_cast t x v : set_field t (cast t x) v = set_field t x v.
Proof. destruct t; unfold_int; zmod. Qed.

Lemma get_field_unsigned_id t x :
  is_signed t = false -> 0 <= x < 2 ^ (sizeof t * 8) -> cast t x = x.
Proof.
  intros Hs Hx. unfold cast, zext. rewrite Hs. now apply Z.mod_small.
Qed.

(** The word a pack evaluator builds from two halves of [k] bits. *)
Lemma pack_halves t k lo hi :
  t = uint32_t /\ k = 16 \/ t = uint64_t /\ k = 32 ->
  0 <= lo < 2 ^ k -> 0 <= hi < 2 ^ k ->
  cast t (c_or t lo (c_shl t (cast t hi) k)) = lo + hi * 2 ^ k.
Proof.
  intros [[-> ->] | [-> ->]] Hl Hh; unfold c_or, c_shl;
    rewrite Z.shiftl_mul_pow2 by lia; cbn [promote].
  - assert (C : cast uint32_t hi = hi) by (revert Hh; unfold_int; intros; zmod).
    assert (S : cast uint32_t (hi * 2 ^ 16) = hi * 2 ^ 16)
      by (revert Hh; unfold_int; intros; zmod).
    rewrite C, S, lor_mul_pow2 by lia.
    revert Hl Hh. unfold_int. intros; zmod.
  - assert (C : cast uint64_t hi = hi) by (revert Hh; unfold_int; intros; zmod).
    assert (S : cast uint64_t (hi * 2 ^ 32) = hi * 2 ^ 32)
      by (revert Hh; unfold_int; intros; zmod).
    rewrite C, S, lor_mul_pow2 by lia.
    revert Hl Hh. unfold_int. intros; zmod.
Qed.

Lemma unpack_halves t th k w :
  t = uint32_t /\ th = uint16_t /\ k = 16 \/
  t = uint64_t /\ th = uint32_t /\ k = 32 ->
  0 <= w < 2 ^ (2 * k) ->
  cast th w = w mod 2 ^ k /\ cast th (c_shr t w k) = w / 2 ^ k.
Proof.
  intros [(-> & -> & ->) | (-> & -> & ->)] Hw; unfold c_shr;
    rewrite Z.shiftr_div_pow2 by lia; revert Hw; unfold_int; intros;
    split; zmod.
Qed.

Lemma halves_range k w :
  0 <= k -> 0 <= w < 2 ^ (2 * k) ->
  0 <= w mod 2 ^ k < 2 ^ k /\ 0 <= w / 2 ^ k < 2 ^ k /\
  w mod 2 ^ k + w / 2 ^ k * 2 ^ k = w.
Proof.
  intros Hk Hw. replace (2 * k) with (k + k) in Hw by lia.
  rewrite Z.pow_add_r in Hw by lia.
  assert (P : 0 < 2 ^ k) by (apply Z.pow_pos_nonneg; lia).
  pose proof (Z.div_mod w (2 ^ k) ltac:(lia)).
  pose proof (Z.mod_pos_bound w (2 ^ k) P). repeat split; try lia; nia.
Qed.

Lemma join_range k lo hi :
  0 <= k -> 0 <= lo < 2 ^ k -> 0 <= hi < 2 ^ k ->
  0 <= lo + hi * 2 ^ k < 2 ^ (2 * k) /\
  (lo + hi * 2 ^ k) mod 2 ^ k = lo /\ (lo + hi * 2 ^ k) / 2 ^ k = hi.
Proof.
  intros Hk Hl Hh. replace (2 * k) with (k + k) by lia.
  rewrite Z.pow_add_r by lia.
  assert (P : 0 < 2 ^ k) by (apply Z.pow_pos_nonneg; lia).
  split; [nia|]. split.
  - rewrite Z.mod_add by lia. now apply Z.mod_small.
  - rewrite Z.div_add by lia. rewrite Z.div_small by lia. lia.
Qed.

Lemma evaluate_unpack_64_2x32_lanes e0 e1 nc bs w :
  evaluate_unpack_64_2x32 [e0; e1] nc bs [[w]] =
  Done [set_field uint32_t (u64 w mod 2 ^ 32) e0;
        set_field uint32_t (u64 w / 2 ^ 32) e1].
Proof.
  unfold evaluate_unpack_64_2x32.
  cbn [vec4.x vec4.y src_lane lane nth upd].
  rewrite !set_field_cast.
  destruct (unpack_halves uint64_t uint32_t 32 (u64 w)
              ltac:(right; auto) (u64_range w)) as [E1 E2].
  rewrite <- E1, <- E2, !set_field_cast. reflexivity.
Qed.

Lemma evaluate_pack_64_2x32_word d0 nc bs x0 x1 :
  evaluate_pack_64_2x32 [d0] nc bs [[x0; x1]] =
  Done [set_field uint64_t (u32 x0 + u32 x1 * 2 ^ 32) d0].
Proof.
  unfold evaluate_pack_64_2x32.
  cbn [vec4.x vec4.y src_lane lane nth upd].
  rewrite pack_halves by (auto || apply u32_range). reflexivity.
Qed.

Lemma u32_set_field x v :
  0 <= x < 2 ^ 32 -> u32 (set_field uint32_t x v) = x.
Proof.
  intros Hx. unfold u32. rewrite get_set_field.
  now apply get_field_unsigned_id.
Qed.

Lemma u64_set_field x v :
  0 <= x < 2 ^ 64 -> u64 (set_field uint64_t x v) = x.
Proof.
  intros Hx. unfold u64. rewrite get_set_field.
  now apply get_field_unsigned_id.
Qed.

Lemma u16_set_field x v :
  0 <= x < 2 ^ 16 -> u16 (set_field uint16_t x v) = x.
Proof.
  intros Hx. unfold u16. rewrite get_set_field.
  now apply get_field_unsigned_id.
Qed.

(** X16.  [unpack_64_2x32] splits a 64-bit lane into its low and high
    32-bit halves and [pack_64_2x32] joins them; each undoes the other. *)
Theorem pack_64_2x32_round_trip d0 e0 e1 nc bs w x0 x1 :
  (exists u0 u1 p,
     evaluate_unpack_64_2x32 [e0; e1] nc bs [[w]] = Done [u0; u1] /\
     evaluate_pack_64_2x32 [d0] nc bs [[u0; u1]] = Done [p] /\
     u32 u0 = u64 w mod 2 ^ 32 /\ u32 u1 = u64 w / 2 ^ 32 /\
     u64 p = u64 w) /\
  (exists p u0 u1,
     evaluate_pack_64_2x32 [d0] nc bs [[x0; x1]] = Done [p] /\
     evaluate_unpack_64_2x32 [e0; e1] nc bs [[p]] = Done [u0; u1] /\
     u64 p = u32 x0 + u32 x1 * 2 ^ 32 /\
     u32 u0 = u32 x0 /\ u32 u1 = u32 x1).
Proof.
  destruct (halves_range 32 (u64 w) ltac:(lia) (u64_range w))
    as (Rlo & Rhi & J).
  destruct (join_range 32 (u32 x0) (u32 x1) ltac:(lia)
              (u32_range x0) (u32_range x1)) as (Rj & Jlo & Jhi).
  split.
  - do 3 eexists. split; [apply evaluate_unpack_64_2x32_lanes|].
    split; [apply evaluate_pack_64_2x32_word|].
    rewrite !u32_set_field by assumption.
    split; [reflexivity|]. split; [reflexivity|].
    rewrite J. apply u64_set_field, u64_range.
  - do 3 eexists. split; [apply evaluate_pack_64_2x32_word|].
    split; [apply evaluate_unpack_64_2x32_lanes|].
    rewrite u64_set_field by exact Rj.
    split; [reflexivity|].
    rewrite Jlo, Jhi, !u32_set_field by apply u32_range. split; reflexivity.
Qed.

Lemma evaluate_unpack_32_2x16_lanes e0 e1 nc bs w :
  evaluate_unpack_32_2x16 [e0; e1] nc bs [[w]] =
  Done [set_field uint16_t (u32 w mod 2 ^ 16) e0;
        set_field uint16_t (u32 w / 2 ^ 16) e1].
Proof.
  unfold evaluate_unpack_32_2x16.
  cbn [vec4.x vec4.y src_lane lane nth upd].
  rewrite !set_field_cast.
  destruct (unpack_halves uint32_t uint16_t 16 (u32 w)
              ltac:(left; auto) (u32_range w)) as [E1 E2].
  rewrite <- E1, <- E2, !set_field_cast. reflexivity.
Qed.

Lemma evaluate_pack_32_2x16_word d0 nc bs x0 x1 :
  evaluate_pack_32_2x16 [d0] nc bs [[x0; x1]] =
  Done [set_field uint32_t (u16 x0 + u16 x1 * 2 ^ 16) d0].
Proof.
  unfold evaluate_pack_32_2x16.
  cbn [vec4.x vec4.y src_lane lane nth upd].
  rewrite pack_halves by (auto || apply u16_range). reflexivity.
Qed.

(** X17.  [unpack_32_2x16] splits a 32-bit lane into its low and high
    16-bit halves and [pack_32_2x16] joins them; each undoes the other. *)
Theorem pack_32_2x16_round_trip d0 e0 e1 nc bs w x0 x1 :
  (exists u0 u1 p,
     evaluate_unpack_32_2x16 [e0; e1] nc bs [[w]] = Done [u0; u1] /\
     evaluate_pack_32_2x16 [d0] nc bs [[u0; u1]] = Done [p] /\
     u16 u0 = u32 w mod 2 ^ 16 /\ u16 u1 = u32 w / 2 ^ 16 /\
     u32 p = u32 w) /\
  (exists p u0 u1,
     evaluate_pack_32_2x16 [d0] nc bs [[x0; x1]] = Done [p] /\
     evaluate_unpack_32_2x16 [e0; e1] nc bs [[p]] = Done [u0; u1] /\
     u32 p = u16 x0 + u16 x1 * 2 ^ 16 /\
     u16 u0 = u16 x0 /\ u16 u1 = u16 x1).
Proof.
  destruct (halves_range 16 (u32 w) ltac:(lia) (u32_range w))
    as (Rlo & Rhi & J).
  destruct (join_range 16 (u16 x0) (u16 x1) ltac:(lia)
              (u16_range x0) (u16_range x1)) as (Rj & Jlo & Jhi).
  split.
  - do 3 eexists. split; [apply evaluate_unpack_32_2x16_lanes|].
    split; [apply evaluate_pack_32_2x16_word|].
    rewrite !u16_set_field by assumption.
    split; [reflexivity|]. split; [reflexivity|].
    rewrite J. apply u32_set_field, u32_range.
  - do 3 eexists. split; [apply evaluate_pack_32_2x16_word|].
    split; [apply evaluate_unpack_32_2x16_lanes|].
    rewrite u32_set_field by exact Rj.
    split; [reflexivity|].
    rewrite Jlo, Jhi, !u16_set_field by apply u16_range. split; reflexivity.
Qed.

(** X18.  The lane-wise forms agree with that: on every lane,
    [pack_64_2x32_split] applied to the results of
    [unpack_64_2x32_split_x] and [unpack_64_2x32_split_y] gives the 64-bit
    source back, and [pack_32_2x16_split] does the same for the halves
    [unpack_32_2x16_split_x] and [unpack_32_2x16_split_y] take of a 32-bit
    source. *)
Theorem split_forms_round_trip dx dy dp nc bs src :
  (exists lo hi p,
     evaluate_unpack_64_2x32_split_x dx nc bs src = Done lo /\
     evaluate_unpack_64_2x32_split_y dy nc bs src = Done hi /\
     evaluate_pack_64_2x32_split dp nc bs [lo; hi] = Done p /\
     forall i, (i < nc)%nat -> (i < length dx)%nat -> (i < length dy)%nat ->
       (i < length dp)%nat ->
       u32 (lane lo i) = u64 (src_lane src 0 i) mod 2 ^ 32 /\
       u32 (lane hi i) = u64 (src_lane src 0 i) / 2 ^ 32 /\
       u64 (lane p i) = u64 (src_lane src 0 i)) /\
  (exists lo hi p,
     evaluate_unpack_32_2x16_split_x dx nc bs src = Done lo /\
     evaluate_unpack_32_2x16_split_y dy nc bs src = Done hi /\
     evaluate_pack_32_2x16_split dp nc bs [lo; hi] = Done p /\
     forall i, (i < nc)%nat -> (i < length dx)%nat -> (i < length dy)%nat ->
       (i < length dp)%nat ->
       u16 (lane lo i) = u32 (src_lane src 0 i) mod 2 ^ 16 /\
       u16 (lane hi i) = u32 (src_lane src 0 i) / 2 ^ 16 /\
       u32 (lane p i) = u32 (src_lane src 0 i)).
Proof.
  split.
  - do 3 eexists. split; [reflexivity|]. split; [reflexivity|].
    split; [reflexivity|]. intros i Hn Hx Hy Hp.
    set (w := u64 (src_lane src 0 i)).
    destruct (halves_range 32 w ltac:(lia) (u64_range _)) as (Rlo & Rhi & J).
    destruct (unpack_halves uint64_t uint32_t 32 w
                ltac:(right; auto) (u64_range _)) as [E1 E2].
    assert (L : u32 (lane (lanes1 uint64 uint32 (fun src0 => src0) dx nc src) i)
                = w mod 2 ^ 32).
    { rewrite lanes1_lane by assumption.
      change (rd uint64 (src_lane src 0 i)) with w. cbn [ctype_of].
      change (wr uint32) with (set_field uint32_t).
      rewrite E1. now apply u32_set_field. }
    assert (H : u32 (lane (lanes1 uint64 uint32
                             (fun src0 => c_shr uint64_t src0 32) dy nc src) i)
                = w / 2 ^ 32).
    { rewrite lanes1_lane by assumption.
      change (rd uint64 (src_lane src 0 i)) with w. cbn [ctype_of].
      change (wr uint32) with (set_field uint32_t).
      rewrite E2. now apply u32_set_field. }
    split; [exact L|]. split; [exact H|].
    rewrite lanes2_lane by assumption.
    match goal with
    | |- context [src_lane [?a; ?c] 0 i] =>
        change (src_lane [a; c] 0 i) with (lane a i);
        change (src_lane [a; c] 1 i) with (lane c i)
    end.
    change (rd uint32 ?x) with (u32 x). rewrite L, H.
    cbn [ctype_of]. change (wr uint64) with (set_field uint64_t).
    rewrite pack_halves by (auto || assumption).
    rewrite J. apply u64_set_field, u64_range.
  - do 3 eexists. split; [reflexivity|]. split; [reflexivity|].
    split; [reflexivity|]. intros i Hn Hx Hy Hp.
    set (w := u32 (src_lane src 0 i)).
    destruct (halves_range 16 w ltac:(lia) (u32_range _)) as (Rlo & Rhi & J).
    destruct (unpack_halves uint32_t uint16_t 16 w
                ltac:(left; auto) (u32_range _)) as [E1 E2].
    assert (L : u16 (lane (lanes1 uint32 uint16 (fun src0 => src0) dx nc src) i)
                = w mod 2 ^ 16).
    { rewrite lanes1_lane by assumption.
      change (rd uint32 (src_lane src 0 i)) with w. cbn [ctype_of].
      change (wr uint16) with (set_field uint16_t).
      rewrite E1. now apply u16_set_field. }
    assert (H : u16 (lane (lanes1 uint32 uint16
                             (fun src0 => c_shr uint32_t src0 16) dy nc src) i)
                = w / 2 ^ 16).
    { rewrite lanes1_lane by assumption.
      change (rd uint32 (src_lane src 0 i)) with w. cbn [ctype_of].
      change (wr uint16) with (set_field uint16_t).
      rewrite E2. now apply u16_set_field. }
    split; [exact L|]. split; [exact H|].
    rewrite lanes2_lane by assumption.
    match goal with
    | |- context [src_lane [?a; ?c] 0 i] =>
        change (src_lane [a; c] 0 i) with (lane a i);
        change (src_lane [a; c] 1 i) with (lane c i)
    end.
    change (rd uint16 ?x) with (u16 x). rewrite L, H.
    cbn [ctype_of]. change (wr uint32) with (set_field uint32_t).
    rewrite pack_halves by (auto || assumption).
    rewrite J. apply u32_set_field, u32_range.
Qed.

Lemma c_shl_uint64 x k :
  0 <= k -> 0 <= x -> x * 2 ^ k < 2 ^ 64 ->
  c_shl uint64_t (cast uint64_t x) k = x * 2 ^ k.
Proof.
  intros Hk Hx Hb. unfold c_shl. cbn [promote].
  assert (P : 0 < 2 ^ k) by (apply Z.pow_pos_nonneg; lia).
  assert (C : cast uint64_t x = x).
  { apply get_field_unsigned_id; [reflexivity|]. cbn [sizeof].
    change (2 ^ (8 * 8)) with (2 ^ 64). nia. }
  rewrite C, Z.shiftl_mul_pow2 by assumption.
  apply get_field_unsigned_id; [reflexivity|]. cbn [sizeof].
  change (2 ^ (8 * 8)) with (2 ^ 64). nia.
Qed.

Lemma c_or_uint64 a c k :
  0 <= k -> 0 <= a < 2 ^ k -> 0 <= c -> a + c * 2 ^ k < 2 ^ 64 ->
  c_or uint64_t a (c * 2 ^ k) = a + c * 2 ^ k.
Proof.
  intros Hk Ha Hc Hb. unfold c_or. cbn [promote].
  rewrite lor_mul_pow2 by assumption.
  assert (P : 0 < 2 ^ k) by (apply Z.pow_pos_nonneg; lia).
  apply get_field_unsigned_id; [reflexivity|]. cbn [sizeof].
  change (2 ^ (8 * 8)) with (2 ^ 64). nia.
Qed.

Lemma evaluate_pack_64_4x16_word d0 nc bs x0 x1 x2 x3 :
  evaluate_pack_64_4x16 [d0] nc bs [[x0; x1; x2; x3]] =
  Done [set_field uint64_t
          (u16 x0 + u16 x1 * 2 ^ 16 + u16 x2 * 2 ^ 32 + u16 x3 * 2 ^ 48) d0].
Proof.
  unfold evaluate_pack_64_4x16.
  cbn [vec4.x vec4.y vec4.z vec4.w src_lane lane nth upd].
  pose proof (u16_range x0) as H0. pose proof (u16_range x1) as H1.
  pose proof (u16_range x2) as H2. pose proof (u16_range x3) as H3.
  rewrite set_field_cast.
  do 3 (rewrite c_shl_uint64 by (revert H0 H1 H2 H3; znorm; intros; lia)).
  rewrite (c_or_uint64 (u16 x0) (u16 x1) 16)
    by (revert H0 H1 H2 H3; znorm; intros; lia).
  rewrite (c_or_uint64 (u16 x0 + u16 x1 * 2 ^ 16) (u16 x2) 32)
    by (revert H0 H1 H2 H3; znorm; intros; lia).
  rewrite (c_or_uint64 (u16 x0 + u16 x1 * 2 ^ 16 + u16 x2 * 2 ^ 32)
             (u16 x3) 48)
    by (revert H0 H1 H2 H3; znorm; intros; lia).
  reflexivity.
Qed.

Lemma evaluate_unpack_64_4x16_lanes e0 e1 e2 e3 nc bs w :
  evaluate_unpack_64_4x16 [e0; e1; e2; e3] nc bs [[w]] =
  Done [set_field uint16_t (u64 w mod 2 ^ 16) e0;
        set_field uint16_t (u64 w / 2 ^ 16 mod 2 ^ 16) e1;
        set_field uint16_t (u64 w / 2 ^ 32 mod 2 ^ 16) e2;
        set_field uint16_t 0 e3].
Proof.
  unfold evaluate_unpack_64_4x16.
  cbn [vec4.x vec4.y vec4.z vec4.w src_lane lane nth upd].
  pose proof (u64_range w) as Hw.
  assert (E0 : cast uint16_t (u64 w) = u64 w mod 2 ^ 16)
    by (unfold_int; zmod).
  assert (E1 : cast uint16_t (c_shr uint64_t (u64 w) 16)
               = u64 w / 2 ^ 16 mod 2 ^ 16).
  { unfold c_shr. rewrite Z.shiftr_div_pow2 by lia.
    revert Hw. unfold_int. intros; zmod. }
  assert (E2 : cast uint16_t (c_shr uint64_t (u64 w) 32)
               = u64 w / 2 ^ 32 mod 2 ^ 16).
  { unfold c_shr. rewrite Z.shiftr_div_pow2 by lia.
    revert Hw. unfold_int. intros; zmod. }
  rewrite E0, E1, E2. reflexivity.
Qed.

(** X19.  [unpack_64_4x16] takes its fourth component from a field that
    is always 0, so it stores the three low 16-bit quarters of the source
    and 0 in the fourth lane, whatever the top 16 bits of the source are;
    [pack_64_4x16] joins four 16-bit lanes exactly.  Packing what
    [unpack_64_4x16] produced therefore gives the source modulo 2^48, and
    unpacking a packed word loses the fourth component. *)
Theorem unpack_64_4x16_drops_the_top_quarter
    d0 e0 e1 e2 e3 nc bs w x0 x1 x2 x3 :
  (exists u0 u1 u2 u3 p,
     evaluate_unpack_64_4x16 [e0; e1; e2; e3] nc bs [[w]]
       = Done [u0; u1; u2; u3] /\
     evaluate_pack_64_4x16 [d0] nc bs [[u0; u1; u2; u3]] = Done [p] /\
     u16 u0 = u64 w mod 2 ^ 16 /\
     u16 u1 = u64 w / 2 ^ 16 mod 2 ^ 16 /\
     u16 u2 = u64 w / 2 ^ 32 mod 2 ^ 16 /\
     u16 u3 = 0 /\
     u64 p = u64 w mod 2 ^ 48) /\
  (exists p u0 u1 u2 u3,
     evaluate_pack_64_4x16 [d0] nc bs [[x0; x1; x2; x3]] = Done [p] /\
     evaluate_unpack_64_4x16 [e0; e1; e2; e3] nc bs [[p]]
       = Done [u0; u1; u2; u3] /\
     u64 p = u16 x0 + u16 x1 * 2 ^ 16 + u16 x2 * 2 ^ 32 + u16 x3 * 2 ^ 48 /\
     u16 u0 = u16 x0 /\ u16 u1 = u16 x1 /\ u16 u2 = u16 x2 /\ u16 u3 = 0).
Proof.
  pose proof (u64_range w) as Hw.
  pose proof (u16_range x0) as H0. pose proof (u16_range x1) as H1.
  pose proof (u16_range x2) as H2. pose proof (u16_range x3) as H3.
  split.
  - do 5 eexists. split; [apply evaluate_unpack_64_4x16_lanes|].
    split; [apply evaluate_pack_64_4x16_word|].
    rewrite !u16_set_field by (try apply Z.mod_pos_bound; lia).
    repeat (split; [reflexivity|]).
    rewrite u64_set_field by (revert Hw; znorm; intros; zmod).
    revert Hw; znorm; intros; zmod.
  - do 5 eexists. split; [apply evaluate_pack_64_4x16_word|].
    split; [apply evaluate_unpack_64_4x16_lanes|].
    rewrite u64_set_field by (revert H0 H1 H2 H3; znorm; intros; lia).
    split; [reflexivity|].
    rewrite !u16_set_field by (try apply Z.mod_pos_bound; lia).
    revert H0 H1 H2 H3; znorm; intros. repeat split; zmod.
Qed.

(** ** Bits of fixed-width values *)

Lemma testbit_cast_u32 x n :
  Z.testbit (cast uint32_t x) n = (n <? 32) && Z.testbit x n.
Proof.
  unfold cast, zext. cbn [is_signed sizeof]. change (4 * 8) with 32.
  destruct (Z.ltb_spec n 32).
  - destruct (Z.neg_nonneg_cases n) as [Hn | Hn].
    + now rewrite !Z.testbit_neg_r.
    + now rewrite Z.mod_pow2_bits_low.
  - now rewrite Z.mod_pow2_bits_high by lia.
Qed.

Lemma testbit_ones_range k m :
  0 <= k -> Z.testbit (Z.ones k) m = (0 <=? m) && (m <? k).
Proof.
  intros Hk. destruct (Z.leb_spec 0 m) as [Hm | Hm].
  - destruct (Z.ltb_spec m k).
    + now rewrite Z.ones_spec_low.
    + now rewrite Z.ones_spec_high.
  - now rewrite Z.testbit_neg_r.
Qed.

Lemma testbit_shiftl_any a k m :
  0 <= k -> Z.testbit (Z.shiftl a k) m = (0 <=? m) && Z.testbit a (m - k).
Proof.
  intros Hk. destruct (Z.leb_spec 0 m) as [Hm | Hm].
  - now rewrite Z.shiftl_spec.
  - now rewrite Z.testbit_neg_r.
Qed.

Lemma u32_bits_inj x y :
  0 <= x < 2 ^ 32 -> 0 <= y < 2 ^ 32 ->
  (forall n, 0 <= n < 32 -> Z.testbit x n = Z.testbit y n) -> x = y.
Proof.
  intros Hx Hy H. apply Z.bits_inj'. intros n Hn.
  destruct (Z.lt_ge_cases n 32); [apply H; lia|].
  rewrite <- (Z.mod_small x (2 ^ 32)), <- (Z.mod_small y (2 ^ 32)) by assumption.
  now rewrite !Z.mod_pow2_bits_high by lia.
Qed.

Lemma cast_u32_range x : 0 <= cast uint32_t x < 2 ^ 32.
Proof. unfold_int. zmod. Qed.

(** ** Bit-field reversal *)

Lemma testbit_1 m : Z.testbit 1 m = (m =? 0).
Proof.
  change 1 with (Z.ones 1) at 1. rewrite testbit_ones_range by lia.
  destruct (Z.eqb_spec m 0); lia.
Qed.

Lemma bitfield_reverse_step_bits src0 k dst n :
  (k < 32)%nat -> 0 <= src0 ->
  Z.testbit (bitfield_reverse_step src0 k dst) n =
  (n <? 32) && (Z.testbit dst n
                || ((n =? 31 - Z.of_nat k) && Z.testbit src0 (Z.of_nat k))).
Proof.
  intros Hk Hs. unfold bitfield_reverse_step, c_or, c_and, c_sub, shl_u32,
    shr_u32. cbn [promote].
  assert (E : cast uint32_t (31 - Z.of_nat k) = 31 - Z.of_nat k).
  { apply cast_uint32_id. lia. }
  rewrite E, testbit_cast_u32, Z.lor_spec, testbit_cast_u32.
  rewrite testbit_shiftl_any by lia.
  rewrite testbit_cast_u32, Z.land_spec, testbit_cast_u32, testbit_1.
  destruct (Z.ltb_spec n 32); cbn [andb]; [|reflexivity].
  f_equal.
  destruct (Z.eqb_spec n (31 - Z.of_nat k)) as [-> | N].
  - replace (31 - Z.of_nat k - (31 - Z.of_nat k)) with 0 by lia.
    rewrite Z.shiftr_spec by lia. cbn [Z.add Z.eqb andb].
    destruct (Z.leb_spec 0 (31 - Z.of_nat k)); [|lia].
    change (0 <? 32) with true. cbn [andb]. now rewrite andb_true_r.
  - destruct (Z.eqb_spec (n - (31 - Z.of_nat k)) 0); [lia|].
    now rewrite !andb_false_r.
Qed.

Lemma bitfield_reverse_loop_bits src0 k n :
  (k <= 32)%nat -> 0 <= src0 ->
  Z.testbit (for_loop k (bitfield_reverse_step src0) 0) n =
  (n <? 32) && (32 - Z.of_nat k <=? n) && Z.testbit src0 (31 - n).
Proof.
  intros Hk Hs. induction k as [|k IH].
  - cbn [for_loop seq fold_left]. rewrite Z.bits_0.
    destruct (Z.ltb_spec n 32), (Z.leb_spec (32 - Z.of_nat 0) n);
      try reflexivity; lia.
  - rewrite for_loop_S, bitfield_reverse_step_bits by lia.
    rewrite IH by lia.
    destruct (Z.ltb_spec n 32); cbn [andb]; [|reflexivity].
    destruct (Z.eqb_spec n (31 - Z.of_nat k)) as [-> | N].
    + replace (31 - (31 - Z.of_nat k)) with (Z.of_nat k) by lia.
      destruct (Z.leb_spec (32 - Z.of_nat k) (31 - Z.of_nat k)); [lia|].
      destruct (Z.leb_spec (32 - Z.of_nat (S k)) (31 - Z.of_nat k)); [|lia].
      reflexivity.
    + rewrite andb_false_l, orb_false_r.
      destruct (Z.leb_spec (32 - Z.of_nat k) n),
               (Z.leb_spec (32 - Z.of_nat (S k)) n); try reflexivity; lia.
Qed.

Lemma bitfield_reverse_body_bits src0 n :
  0 <= src0 ->
  Z.testbit (cast uint32_t (bitfield_reverse_body src0)) n =
  (0 <=? n) && (n <? 32) && Z.testbit src0 (31 - n).
Proof.
  intros Hs. rewrite testbit_cast_u32.
  change (bitfield_reverse_body src0)
    with (for_loop 32 (bitfield_reverse_step src0) 0).
  rewrite bitfield_reverse_loop_bits by lia.
  change (32 - Z.of_nat 32) with 0.
  destruct (Z.ltb_spec n 32), (Z.leb_spec 0 n); reflexivity.
Qed.

Lemma evaluate_bitfield_reverse_lane dst nc bs src i :
  (i < nc)%nat -> (i < length dst)%nat ->
  exists d,
    evaluate_bitfield_reverse dst nc bs src = Done d /\
    length d = length dst /\
    u32 (lane d i) =
    cast uint32_t (bitfield_reverse_body (u32 (src_lane src 0 i))).
Proof.
  intros Hn Hl. eexists. split; [reflexivity|].
  split; [apply per_lane_length|].
  rewrite per_lane_lane by assumption.
  unfold u32 at 1. rewrite get_set_field. unfold_int. zmod.
Qed.

(** X20.  [bitfield_reverse] stores the 32-bit source with its bits in
    the opposite order: bit n of the result is bit 31 - n of the source;
    reversing twice gives the source back. *)
Theorem bitfield_reverse_is_an_involution dst dst2 nc bs src i
    (Hi : (i < nc)%nat) (Hl : (i < length dst)%nat)
    (Hl2 : (i < length dst2)%nat) :
  exists d back,
    evaluate_bitfield_reverse dst nc bs src = Done d /\
    evaluate_bitfield_reverse dst2 nc bs [d] = Done back /\
    (forall n, 0 <= n < 32 ->
       Z.testbit (u32 (lane d i)) n
       = Z.testbit (u32 (src_lane src 0 i)) (31 - n)) /\
    u32 (lane back i) = u32 (src_lane src 0 i).
Proof.
  destruct (evaluate_bitfield_reverse_lane dst nc bs src i Hi Hl)
    as (d & E & L & V).
  destruct (evaluate_bitfield_reverse_lane dst2 nc bs [d] i Hi Hl2)
    as (back & E2 & L2 & V2).
  exists d, back. split; [exact E|]. split; [exact E2|].
  pose proof (u32_range (src_lane src 0 i)) as R.
  assert (B : forall n,
    Z.testbit (u32 (lane d i)) n =
    (0 <=? n) && (n <? 32) && Z.testbit (u32 (src_lane src 0 i)) (31 - n)).
  { intros n. rewrite V. apply bitfield_reverse_body_bits. lia. }
  split.
  - intros n Hn. rewrite B.
    destruct (Z.leb_spec 0 n), (Z.ltb_spec n 32); try lia. reflexivity.
  - rewrite V2. change (src_lane [d] 0 i) with (lane d i).
    apply u32_bits_inj; [apply cast_u32_range | exact R |].
    intros n Hn. rewrite bitfield_reverse_body_bits by apply u32_range.
    rewrite B. replace (31 - (31 - n)) with n by lia.
    destruct (Z.leb_spec 0 n), (Z.ltb_spec n 32),
             (Z.leb_spec 0 (31 - n)), (Z.ltb_spec (31 - n) 32);
      try lia. reflexivity.
Qed.

Lemma bitfield_reverse_is_an_involution_witness :
  (0 < 1)%nat /\ (0 < length [0])%nat /\ (0 < length [5])%nat /\
  exists d back,
    evaluate_bitfield_reverse [0] 1 32 [[1]] = Done d /\
    evaluate_bitfield_reverse [5] 1 32 [d] = Done back /\
    (forall n, 0 <= n < 32 ->
       Z.testbit (u32 (lane d 0)) n
       = Z.testbit (u32 (src_lane [[1]] 0 0)) (31 - n)) /\
    u32 (lane back 0) = u32 (src_lane [[1]] 0 0).
Proof.
  assert (H1 : (0 < 1)%nat) by lia.
  assert (H2 : (0 < length [0])%nat) by (simpl; lia).
  assert (H3 : (0 < length [5])%nat) by (simpl; lia).
  split; [exact H1|]. split; [exact H2|]. split; [exact H3|].
  exact (bitfield_reverse_is_an_involution [0] [5] 1%nat 32 [[1]] 0%nat
           H1 H2 H3).
Defined.

(** ** Finding and counting bits *)

Lemma In_upto n j : In j (upto n) <-> 0 <= j < n.
Proof.
  unfold upto. rewrite in_map_iff. split.
  - intros (k & <- & H). apply in_seq in H. lia.
  - intros H. exists (Z.to_nat j). split; [lia|]. apply in_seq. lia.
Qed.

(** The result of a loop that stops at the first hit: -1 when there is
    none, and otherwise an index of the list that satisfies the test and
    is preceded by indices that do not. *)
Lemma first_bit_asc test n :
  0 <= n ->
  let r := first_bit test (upto n) in
  (r = -1 /\ forall j, 0 <= j < n -> test j = false) \/
  (0 <= r < n /\ test r = true /\ forall j, 0 <= j < r -> test j = false).
Proof.
  intros Hn. unfold upto.
  assert (G : forall m k,
    let r := first_bit test (map Z.of_nat (seq k m)) in
    (r = -1 /\ forall j, Z.of_nat k <= j < Z.of_nat (k + m) -> test j = false)
    \/ (Z.of_nat k <= r < Z.of_nat (k + m) /\ test r = true /\
        forall j, Z.of_nat k <= j < r -> test j = false)).
  { induction m as [|m IH]; intros k; cbn [seq map first_bit].
    - left. split; [reflexivity|]. intros j Hj. lia.
    - destruct (test (Z.of_nat k)) eqn:T.
      + right. split; [lia|]. split; [exact T|]. intros j Hj. lia.
      + destruct (IH (S k)) as [[E A] | (R & Tr & A)].
        * left. split; [exact E|]. intros j Hj.
          destruct (Z.eq_dec j (Z.of_nat k)) as [-> | N]; [exact T|].
          apply A. lia.
        * right. split; [lia|]. split; [exact Tr|]. intros j Hj.
          destruct (Z.eq_dec j (Z.of_nat k)) as [-> | N]; [exact T|].
          apply A. lia. }
  specialize (G (Z.to_nat n) 0%nat). cbv zeta in G.
  replace (Z.of_nat (0 + Z.to_nat n)) with n in G by lia.
  exact G.
Qed.

Lemma first_bit_desc test n :
  0 <= n ->
  let r := first_bit test (rev (upto n)) in
  (r = -1 /\ forall j, 0 <= j < n -> test j = false) \/
  (0 <= r < n /\ test r = true /\ forall j, r < j < n -> test j = false).
Proof.
  intros Hn. unfold upto.
  assert (G : forall m,
    let r := first_bit test (rev (map Z.of_nat (seq 0 m))) in
    (r = -1 /\ forall j, 0 <= j < Z.of_nat m -> test j = false)
    \/ (0 <= r < Z.of_nat m /\ test r = true /\
        forall j, r < j < Z.of_nat m -> test j = false)).
  { induction m as [|m IH]; cbv zeta.
    - left. split; [reflexivity|]. intros j Hj. lia.
    - rewrite seq_S, map_app, rev_app_distr. cbn [map rev app first_bit plus].
      destruct (test (Z.of_nat m)) eqn:T.
      + right. split; [lia|]. split; [exact T|]. intros j Hj. lia.
      + destruct IH as [[E A] | (R & Tr & A)].
        * left. split; [exact E|]. intros j Hj.
          destruct (Z.eq_dec j (Z.of_nat m)) as [-> | N]; [exact T|].
          apply A. lia.
        * right. split; [lia|]. split; [exact Tr|]. intros j Hj.
          destruct (Z.eq_dec j (Z.of_nat m)) as [-> | N]; [exact T|].
          apply A. lia. }
  specialize (G (Z.to_nat n)). cbv zeta in G.
  replace (Z.of_nat (Z.to_nat n)) with n in G by lia.
  exact G.
Qed.

(** The test [(src0 >> bit) & 1] of the loops reads bit [bit] of the
    source. *)
Lemma bit_test t a j :
  in_range t a -> 0 <= j ->
  negb (c_and (ctype_of t) (c_shr (ctype_of t) a j) 1 =? 0) = Z.testbit a j.
Proof.
  intros Ha Hj. unfold c_and, c_shr.
  rewrite Z.shiftr_div_pow2 by assumption.
  assert (R : in_range t (a / 2 ^ j)) by (now apply in_range_div_pow2).
  rewrite (cast_promote_id t (a / 2 ^ j)) by assumption.
  rewrite land_1.
  assert (R1 : in_range t (a / 2 ^ j mod 2) \/ t = int1).
  { destruct t; auto; left; unfold_int; zmod. }
  assert (E : (cast (promote (ctype_of t)) (a / 2 ^ j mod 2) =? 0)
              = (a / 2 ^ j mod 2 =? 0)).
  { destruct R1 as [R1 | ->].
    - now rewrite cast_promote_id.
    - unfold_int. f_equal. zmod. }
  rewrite E. pose proof (Z.testbit_spec' a j Hj) as S.
  destruct (Z.testbit a j); cbn [Z.b2z] in S; rewrite <- S; reflexivity.
Qed.

Lemma low_bits_zero w a :
  0 <= w -> (forall j, 0 <= j < w -> Z.testbit a j = false) ->
  a mod 2 ^ w = 0.
Proof.
  intros Hw H. apply Z.bits_inj'. intros n Hn. rewrite Z.bits_0.
  destruct (Z.lt_ge_cases n w).
  - rewrite Z.mod_pow2_bits_low by lia. apply H. lia.
  - now rewrite Z.mod_pow2_bits_high by lia.
Qed.

Lemma in_range_low_bits_zero t a :
  in_range t a ->
  (forall j, 0 <= j < width t -> Z.testbit a j = false) -> a = 0.
Proof.
  intros Ha H.
  assert (Hw : 0 <= width t) by (destruct t; cbn [width]; lia).
  pose proof (low_bits_zero (width t) a Hw H) as M.
  apply in_range_bits in Ha. revert Ha M.
  destruct t; cbn [lane_signed width]; znorm; intros; zmod.
Qed.

Lemma lanes1_int32_value t body dst nc src i :
  (i < nc)%nat -> (i < length dst)%nat ->
  - 2 ^ 31 <= body (rd t (src_lane src 0 i)) < 2 ^ 31 ->
  i32 (lane (lanes1 t int32 body dst nc src) i)
  = body (rd t (src_lane src 0 i)).
Proof.
  intros Hn Hl Hb. rewrite lanes1_lane by assumption.
  change i32 with (rd int32). rewrite rd_wr, wrap_cast.
  revert Hb. generalize (body (rd t (src_lane src 0 i))). intros p.
  unfold_int. intros; zmod.
Qed.

Lemma width_le_64 W : In W widths_int -> 0 < W <= 64.
Proof.
  intros H. apply In_widths_int in H.
  destruct H as [-> | [-> | [-> | [-> | ->]]]]; lia.
Qed.

(** X21.  [find_lsb] stores -1 for a zero source and otherwise the index
    of the lowest set bit of the source; [ufind_msb] stores -1 for a zero
    source and otherwise the index of the highest set bit, the integer
    logarithm of the source. *)
Theorem find_lsb_and_ufind_msb W dst nc src (HW : In W widths_int) :
  (exists d,
     evaluate_find_lsb dst nc W src = Done d /\ length d = length dst /\
     forall i, (i < nc)%nat -> (i < length dst)%nat ->
       let a := rd (sint_lane W) (src_lane src 0 i) in
       let r := i32 (lane d i) in
       (a = 0 -> r = -1) /\
       (a <> 0 -> 0 <= r < W /\ Z.testbit a r = true /\
                  forall j, 0 <= j < r -> Z.testbit a j = false)) /\
  (exists d,
     evaluate_ufind_msb dst nc W src = Done d /\ length d = length dst /\
     forall i, (i < nc)%nat -> (i < length dst)%nat ->
       let a := rd (uint_lane W) (src_lane src 0 i) in
       let r := i32 (lane d i) in
       (a = 0 -> r = -1) /\ (a <> 0 -> r = Z.log2 a /\ 0 <= r < W)).
Proof.
  pose proof (width_le_64 W HW) as HW64.
  destruct (sint_lane_props W HW) as [Hs Hw].
  destruct (uint_lane_props W HW) as [Hu Hwu].
  split.
  - eexists. split; [apply int_switch_done, HW|].
    split; [apply lanes1_length|]. intros i Hn Hl a r.
    assert (Ra : in_range (sint_lane W) a) by apply rd_in_range.
    pose proof (first_bit_asc
      (fun bit => negb (c_and (ctype_of (sint_lane W))
                          (c_shr (ctype_of (sint_lane W)) a bit) 1 =? 0))
      W ltac:(lia)) as F. cbv zeta in F.
    fold (find_lsb_body (sint_lane W) W a) in F.
    assert (E : r = find_lsb_body (sint_lane W) W a).
    { subst r. apply lanes1_int32_value; try assumption. fold a.
      destruct F as [[-> _] | [R _]]; lia. }
    rewrite E. clear E.
    destruct F as [[E A] | (R & T & A)].
    + assert (Z0 : a = 0).
      { apply (in_range_low_bits_zero (sint_lane W)); [assumption|].
        rewrite Hw. intros j Hj. rewrite <- (bit_test (sint_lane W)) by
          (assumption || lia). now apply A. }
      split; [intros _; exact E | intros N; contradiction].
    + rewrite bit_test in T by (assumption || lia).
      split.
      * intros ->. rewrite Z.bits_0 in T. discriminate T.
      * intros _. split; [exact R|]. split; [exact T|].
        intros j Hj. rewrite <- (bit_test (sint_lane W)) by
          (assumption || lia). apply A, Hj.
  - eexists. split; [apply int_switch_done, HW|].
    split; [apply lanes1_length|]. intros i Hn Hl a r.
    assert (Ra : in_range (uint_lane W) a) by apply rd_in_range.
    pose proof (usrc_in_range W src 0 i HW) as Ru. fold a in Ru.
    pose proof (first_bit_desc
      (fun bit => negb (c_and (ctype_of (uint_lane W))
                          (c_shr (ctype_of (uint_lane W)) a bit) 1 =? 0))
      W ltac:(lia)) as F. cbv zeta in F.
    fold (ufind_msb_body (uint_lane W) W a) in F.
    assert (E : r = ufind_msb_body (uint_lane W) W a).
    { subst r. apply lanes1_int32_value; try assumption. fold a.
      destruct F as [[-> _] | [R _]]; lia. }
    rewrite E. clear E.
    destruct F as [[E A] | (R & T & A)].
    + assert (Z0 : a = 0).
      { apply (in_range_low_bits_zero (uint_lane W)); [assumption|].
        rewrite Hwu. intros j Hj. rewrite <- (bit_test (uint_lane W)) by
          (assumption || lia). now apply A. }
      split; [intros _; exact E | intros N; contradiction].
    + rewrite bit_test in T by (assumption || lia).
      split.
      * intros ->. rewrite Z.bits_0 in T. discriminate T.
      * intros N. split; [|exact R].
        set (r0 := ufind_msb_body (uint_lane W) W a) in *.
        assert (Pa : 0 < a) by lia.
        pose proof (Z.bit_log2 a Pa) as BL.
        pose proof (Z.log2_nonneg a) as L0.
        assert (LW : Z.log2 a < W).
        { apply Z.log2_lt_pow2; [assumption|]. unfold umax in Ru. lia. }
        destruct (Z.lt_trichotomy r0 (Z.log2 a)) as [C | [C | C]].
        { specialize (A (Z.log2 a) ltac:(lia)).
          rewrite bit_test in A by (assumption || lia). congruence. }
        { exact C. }
        { rewrite Z.bits_above_log2 in T by lia. discriminate T. }
Qed.

Lemma find_lsb_and_ufind_msb_witness :
  In 16 widths_int /\
  exists d,
     evaluate_ufind_msb [0; 0] 2 16 [[0; 300]] = Done d /\
     length d = length [0; 0] /\
     forall i, (i < 2)%nat -> (i < length [0; 0])%nat ->
       let a := rd (uint_lane 16) (src_lane [[0; 300]] 0 i) in
       let r := i32 (lane d i) in
       (a = 0 -> r = -1) /\ (a <> 0 -> r = Z.log2 a /\ 0 <= r < 16).
Proof.
  assert (H : In 16 widths_int) by in_list.
  split; [exact H|].
  exact (proj2 (find_lsb_and_ufind_msb 16 [0; 0] 2%nat [[0; 300]] H)).
Defined.

Lemma int32_in_range v : in_range int32 (i32 v).
Proof. exact (rd_in_range int32 v). Qed.

(** X22.  [ifind_msb] looks, from bit 31 down, for the highest bit that
    differs from the sign: for a source a >= 0 it stores the index of the
    highest set bit of a, for a < 0 the index of the highest set bit of
    the complement -a - 1, and -1 when there is none (a = 0 or a = -1). *)
Theorem ifind_msb_skips_the_sign_bits dst nc bs src i
    (Hi : (i < nc)%nat) (Hl : (i < length dst)%nat) :
  exists d,
    evaluate_ifind_msb dst nc bs src = Done d /\ length d = length dst /\
    let a := i32 (src_lane src 0 i) in
    let m := if a <? 0 then - a - 1 else a in
    let r := i32 (lane d i) in
    (m = 0 -> r = -1) /\ (m <> 0 -> r = Z.log2 m /\ 0 <= r < 31).
Proof.
  eexists. split; [reflexivity|]. split; [apply lanes1_length|].
  intros a m r.
  pose proof (i32_range (src_lane src 0 i)) as Ra. fold a in Ra.
  assert (Ia : in_range int32 a) by apply int32_in_range.
  assert (Hm : 0 <= m < 2 ^ 31).
  { subst m. destruct (Z.ltb_spec a 0); lia. }
  assert (Tm : forall j, 0 <= j ->
    (let set := negb (c_and int32_t (c_shr int32_t a j) 1 =? 0) in
     (set && (a >=? 0)) || (negb set && (a <? 0))) = Z.testbit m j).
  { intros j Hj. cbv zeta.
    pose proof (bit_test int32 a j Ia Hj) as B. cbn [ctype_of] in B.
    rewrite B. subst m.
    rewrite Z.geb_leb.
    destruct (Z.ltb_spec a 0), (Z.leb_spec 0 a); try lia.
    - rewrite <- Z.lnot_eq_pred_opp, Z.lnot_spec by assumption.
      now rewrite andb_false_r, andb_true_r.
    - now rewrite andb_true_r, andb_false_r, orb_false_r. }
  pose proof (first_bit_desc
    (fun bit =>
       let set := negb (c_and int32_t (c_shr int32_t a bit) 1 =? 0) in
       (set && (a >=? 0)) || (negb set && (a <? 0)))
    32 ltac:(lia)) as F. cbv zeta in F.
  fold (ifind_msb_body a) in F.
  assert (E : r = ifind_msb_body a).
  { subst r. change (rd int32 (src_lane src 0 i)) with a.
    apply (lanes1_int32_value int32 ifind_msb_body); try assumption.
    change (rd int32 (src_lane src 0 i)) with a.
    destruct F as [[-> _] | [R _]]; lia. }
  rewrite E. clear E.
  destruct F as [[E A] | (R & T & A)].
  - assert (Z0 : m = 0).
    { apply Z.bits_inj'. intros n Hn. rewrite Z.bits_0.
      destruct (Z.lt_ge_cases n 32).
      + rewrite <- (Tm n Hn). apply A. lia.
      + destruct (Z.eq_dec m 0) as [-> | N]; [apply Z.bits_0|].
        apply Z.bits_above_log2; [lia|].
        assert (Z.log2 m < 31) by (apply Z.log2_lt_pow2; lia). lia. }
    split; [intros _; exact E | intros N; contradiction].
  - rewrite Tm in T by lia. split.
    + intros Z0. rewrite Z0, Z.bits_0 in T. discriminate T.
    + intros N.
      set (r0 := ifind_msb_body a) in *.
      assert (Pm : 0 < m) by lia.
      pose proof (Z.bit_log2 m Pm) as BL.
      pose proof (Z.log2_nonneg m) as L0.
      assert (LW : Z.log2 m < 31) by (apply Z.log2_lt_pow2; lia).
      assert (C : r0 = Z.log2 m).
      { destruct (Z.lt_trichotomy r0 (Z.log2 m)) as [C | [C | C]].
        - specialize (A (Z.log2 m) ltac:(lia)).
          rewrite Tm in A by lia. congruence.
        - exact C.
        - rewrite Z.bits_above_log2 in T by lia. discriminate T. }
      split; [exact C | lia].
Qed.

Lemma ifind_msb_skips_the_sign_bits_witness :
  (0 < 1)%nat /\ (0 < length [0])%nat /\
  exists d,
    evaluate_ifind_msb [0] 1 32 [[4294967040]] = Done d /\
    length d = length [0] /\
    let a := i32 (src_lane [[4294967040]] 0 0) in
    let m := if a <? 0 then - a - 1 else a in
    let r := i32 (lane d 0) in
    (m = 0 -> r = -1) /\ (m <> 0 -> r = Z.log2 m /\ 0 <= r < 31).
Proof.
  assert (H1 : (0 < 1)%nat) by lia.
  assert (H2 : (0 < length [0])%nat) by (simpl; lia).
  split; [exact H1|]. split; [exact H2|].
  exact (ifind_msb_skips_the_sign_bits [0] 1%nat 32 [[4294967040]] 0%nat
           H1 H2).
Defined.

(** The number of set bits among the bits [0 .. k-1]. *)
Lemma bit_count_loop t a k :
  in_range t a -> (k <= 64)%nat ->
  for_loop k (fun bit dst =>
    if c_and (ctype_of t) (c_shr (ctype_of t) a (Z.of_nat bit)) 1 =? 0
    then dst else c_add uint32_t dst 1) 0
  = Z.of_nat (length (filter (Z.testbit a) (map Z.of_nat (seq 0 k)))).
Proof.
  intros Ha Hk. induction k as [|k IH]; [reflexivity|].
  rewrite for_loop_S, IH by lia.
  rewrite seq_S, map_app, filter_app, length_app. cbn [plus map filter].
  pose proof (bit_test t a (Z.of_nat k) Ha ltac:(lia)) as B.
  pose proof (filter_length_le (Z.testbit a) (map Z.of_nat (seq 0 k))) as Le.
  rewrite length_map, length_seq in Le.
  set (n := length (filter (Z.testbit a) (map Z.of_nat (seq 0 k)))) in *.
  destruct (Z.testbit a (Z.of_nat k)).
  - apply negb_true_iff in B. rewrite B. cbn [length].
    unfold c_add. cbn [promote]. rewrite cast_uint32_id; lia.
  - apply negb_false_iff in B. rewrite B. cbn [length]. lia.
Qed.

Lemma filter_nil_iff {A} (f : A -> bool) l :
  length (filter f l) = 0%nat <-> forall x, In x l -> f x = false.
Proof.
  induction l as [|x r IH]; cbn [filter].
  - split; [intros _ y [] | reflexivity].
  - destruct (f x) eqn:F; cbn [length].
    + split; [discriminate|]. intros H.
      specialize (H x (or_introl eq_refl)). congruence.
    + rewrite IH. split.
      * intros H y [<- | Hy]; auto.
      * intros H y Hy. apply H. now right.
Qed.

(** X23.  [bit_count] stores the number of set bits of the source among
    its W bits: a number between 0 and W that is 0 for the zero source
    only. *)
Theorem bit_count_counts_the_set_bits W dst nc src (HW : In W widths_int) :
  exists d,
    evaluate_bit_count dst nc W src = Done d /\ length d = length dst /\
    forall i, (i < nc)%nat -> (i < length dst)%nat ->
      let a := rd (uint_lane W) (src_lane src 0 i) in
      let r := u32 (lane d i) in
      r = Z.of_nat (length (filter (Z.testbit a) (upto W))) /\
      0 <= r <= W /\ (r = 0 <-> a = 0).
Proof.
  pose proof (width_le_64 W HW) as HW64.
  destruct (uint_lane_props W HW) as [Hu Hwu].
  eexists. split; [apply int_switch_done, HW|].
  split; [apply lanes1_length|]. intros i Hn Hl a r.
  assert (Ra : in_range (uint_lane W) a) by apply rd_in_range.
  pose proof (filter_length_le (Z.testbit a) (upto W)) as Le.
  unfold upto in Le. rewrite length_map, length_seq in Le.
  assert (E : r = Z.of_nat (length (filter (Z.testbit a) (upto W)))).
  { subst r. rewrite lanes1_lane by assumption. fold a.
    change u32 with (rd uint32). rewrite rd_wr, wrap_cast.
    unfold bit_count_body. rewrite bit_count_loop by (assumption || lia).
    fold (upto W). unfold upto.
    generalize dependent (length (filter (Z.testbit a)
                                    (map Z.of_nat (seq 0 (Z.to_nat W))))).
    intros n Hn'. unfold_int. zmod. }
  split; [exact E|]. split; [unfold upto in E; lia|].
  rewrite E. split.
  - intros Z0. apply (in_range_low_bits_zero (uint_lane W)); [assumption|].
    rewrite Hwu. intros j Hj.
    assert (L0 : length (filter (Z.testbit a) (upto W)) = 0%nat) by lia.
    apply (proj1 (filter_nil_iff _ _) L0). apply In_upto. exact Hj.
  - intros Z0.
    assert (L0 : length (filter (Z.testbit a) (upto W)) = 0%nat).
    { apply filter_nil_iff. intros j _. rewrite Z0. apply Z.bits_0. }
    lia.
Qed.

Lemma bit_count_counts_the_set_bits_witness :
  In 8 widths_int /\
  exists d,
    evaluate_bit_count [0; 0] 2 8 [[0; 255]] = Done d /\
    length d = length [0; 0] /\
    forall i, (i < 2)%nat -> (i < length [0; 0])%nat ->
      let a := rd (uint_lane 8) (src_lane [[0; 255]] 0 i) in
      let r := u32 (lane d i) in
      r = Z.of_nat (length (filter (Z.testbit a) (upto 8))) /\
      0 <= r <= 8 /\ (r = 0 <-> a = 0).
Proof.
  assert (H : In 8 widths_int) by in_list.
  split; [exact H|].
  exact (bit_count_counts_the_set_bits 8 [0; 0] 2%nat [[0; 255]] H).
Defined.

(** ** Insertion into a bit field *)

Lemma testbit_cast_u64 x n :
  Z.testbit (cast uint64_t x) n = (n <? 64) && Z.testbit x n.
Proof.
  unfold cast, zext. cbn [is_signed sizeof]. change (8 * 8) with 64.
  destruct (Z.ltb_spec n 64).
  - destruct (Z.neg_nonneg_cases n) as [Hn | Hn].
    + now rewrite !Z.testbit_neg_r.
    + now rewrite Z.mod_pow2_bits_low.
  - now rewrite Z.mod_pow2_bits_high by lia.
Qed.

Lemma cast_uint64_id x : 0 <= x < 2 ^ 64 -> cast uint64_t x = x.
Proof. unfold_int. intros; zmod. Qed.

Lemma ones_ull bits :
  0 <= bits < 64 -> sub_ull (shl_1ull bits) 1 = Z.ones bits.
Proof.
  intros H. unfold sub_ull, shl_1ull.
  rewrite Z.shiftl_1_l, Z.ones_equiv.
  assert (P : 0 < 2 ^ bits < 2 ^ 64).
  { split; [apply Z.pow_pos_nonneg; lia|]. apply Z.pow_lt_mono_r; lia. }
  rewrite (cast_uint64_id (2 ^ bits)) by lia.
  apply cast_uint64_id. lia.
Qed.

Lemma insert_mask_bits offset bits n :
  0 <= offset -> 0 < bits -> offset + bits <= 32 ->
  Z.testbit
    (cast uint32_t
       (cast uint64_t (Z.shiftl (sub_ull (shl_1ull bits) 1) offset))) n
  = (offset <=? n) && (n <? offset + bits).
Proof.
  intros Ho Hb Hs. rewrite ones_ull by lia.
  rewrite testbit_cast_u32, testbit_cast_u64, testbit_shiftl_any by lia.
  rewrite testbit_ones_range by lia.
  destruct (Z.ltb_spec n 32), (Z.ltb_spec n 64), (Z.leb_spec 0 n),
    (Z.leb_spec 0 (n - offset)), (Z.ltb_spec (n - offset) bits),
    (Z.leb_spec offset n), (Z.ltb_spec n (offset + bits));
    try reflexivity; lia.
Qed.

Lemma bitfield_insert_body_bits base insert offset bits n :
  0 <= base < 2 ^ 32 -> 0 <= insert < 2 ^ 32 ->
  0 <= offset -> 0 < bits -> offset + bits <= 32 ->
  Z.testbit (cast uint32_t (bitfield_insert_body base insert offset bits)) n
  = (0 <=? n) && (n <? 32)
    && (if (offset <=? n) && (n <? offset + bits)
        then Z.testbit insert (n - offset) else Z.testbit base n).
Proof.
  intros Hb Hi Ho Hbits Hs. unfold bitfield_insert_body.
  rewrite (cast_uint32_id base), (cast_uint32_id insert) by assumption.
  rewrite (cast_int32_id offset), (cast_int32_id bits) by lia.
  rewrite c_add_int32_exact by lia. cbv zeta.
  destruct (Z.eqb_spec bits 0); [lia|].
  destruct (Z.ltb_spec offset 0); [lia|].
  destruct (Z.ltb_spec bits 0); [lia|].
  rewrite Z.gtb_ltb. destruct (Z.ltb_spec 32 (bits + offset)); [lia|].
  cbn [orb]. unfold c_or, c_and, c_not, shl_u32. cbn [promote].
  pose proof (insert_mask_bits offset bits n Ho Hbits Hs) as M.
  set (mask := cast uint32_t
                 (cast uint64_t
                    (Z.shiftl (sub_ull (shl_1ull bits) 1) offset))) in *.
  rewrite !testbit_cast_u32, Z.lor_spec, !testbit_cast_u32, !Z.land_spec.
  rewrite !testbit_cast_u32.
  destruct (Z.neg_nonneg_cases n) as [Hn | Hn].
  { rewrite !(Z.testbit_neg_r _ n) by assumption.
    destruct (Z.leb_spec 0 n); [lia|]. now rewrite !andb_false_r. }
  rewrite Z.lnot_spec by assumption.
  rewrite !M.
  rewrite testbit_shiftl_any by assumption.
  destruct (Z.leb_spec 0 n); [|lia].
  destruct (Z.ltb_spec n 32); cbn [andb]; [|reflexivity].
  destruct ((offset <=? n) && (n <? offset + bits)); cbn [negb andb orb].
  - now rewrite andb_false_r, andb_true_r.
  - now rewrite andb_true_r, andb_false_r, orb_false_r.
Qed.

Lemma evaluate_bitfield_insert_lane dst nc bs src i :
  (i < nc)%nat -> (i < length dst)%nat ->
  exists d,
    evaluate_bitfield_insert dst nc bs src = Done d /\
    length d = length dst /\
    u32 (lane d i) =
    cast uint32_t
      (bitfield_insert_body (u32 (src_lane src 0 i)) (u32 (src_lane src 1 i))
         (i32 (src_lane src 2 i)) (i32 (src_lane src 3 i))).
Proof.
  intros Hn Hl. eexists. split; [reflexivity|].
  split; [apply per_lane_length|].
  rewrite per_lane_lane by assumption.
  unfold u32 at 1. rewrite get_set_field. unfold_int. zmod.
Qed.

Lemma ubitfield_extract_body_bits base offset bits m :
  0 <= base < 2 ^ 32 -> 0 <= offset -> 0 < bits -> offset + bits <= 32 ->
  Z.testbit (cast uint32_t (ubitfield_extract_body base offset bits)) m
  = (0 <=? m) && (m <? bits) && Z.testbit base (m + offset).
Proof.
  intros Hb Ho Hbits Hs. unfold ubitfield_extract_body.
  rewrite (cast_uint32_id base) by assumption.
  rewrite (cast_int32_id offset), (cast_int32_id bits) by lia.
  rewrite c_add_int32_exact by lia. cbv zeta.
  destruct (Z.eqb_spec bits 0); [lia|].
  destruct (Z.ltb_spec offset 0); [lia|].
  destruct (Z.ltb_spec bits 0); [lia|].
  rewrite Z.gtb_ltb. destruct (Z.ltb_spec 32 (offset + bits)); [lia|].
  cbn [orb]. rewrite ones_ull by lia.
  unfold shr_u32.
  rewrite testbit_cast_u32, Z.land_spec, testbit_cast_u64, testbit_cast_u32.
  rewrite testbit_ones_range by lia.
  destruct (Z.neg_nonneg_cases m) as [Hm | Hm].
  { destruct (Z.leb_spec 0 m); [lia|]. now rewrite !andb_false_r. }
  rewrite Z.shiftr_spec by assumption.
  destruct (Z.leb_spec 0 m); [|lia].
  destruct (Z.ltb_spec m bits), (Z.ltb_spec m 32), (Z.ltb_spec m 64);
    cbn [andb]; try reflexivity; try lia;
    now rewrite ?andb_true_r, ?andb_false_r.
Qed.

(** X24.  [bitfield_insert] replaces the field of [bits] bits at [offset]
    of the base by the low bits of the insert and leaves every other bit
    of the base as it is; [ubitfield_extract] at the same offset and size
    reads the inserted bits back.  With [bits == 0] the base is stored
    unchanged, and a negative size or offset gives 0. *)
Theorem bitfield_insert_then_extract dst dst2 nc bs src i
    (Hi : (i < nc)%nat) (Hl : (i < length dst)%nat)
    (Hl2 : (i < length dst2)%nat) :
  let base := u32 (src_lane src 0 i) in
  let insert := u32 (src_lane src 1 i) in
  let offset := i32 (src_lane src 2 i) in
  let bits := i32 (src_lane src 3 i) in
  exists d e,
    evaluate_bitfield_insert dst nc bs src = Done d /\
    evaluate_ubitfield_extract dst2 nc bs [d; nth 2 src []; nth 3 src []]
      = Done e /\
    (bits = 0 -> u32 (lane d i) = base) /\
    (bits < 0 \/ 0 < bits /\ offset < 0 -> u32 (lane d i) = 0) /\
    (0 <= offset -> 0 < bits -> offset + bits <= 32 ->
     (forall n, 0 <= n < 32 ->
        Z.testbit (u32 (lane d i)) n =
        if (offset <=? n) && (n <? offset + bits)
        then Z.testbit insert (n - offset) else Z.testbit base n) /\
     u32 (lane e i) = insert mod 2 ^ bits).
Proof.
  intros base insert offset bits.
  destruct (evaluate_bitfield_insert_lane dst nc bs src i Hi Hl)
    as (d & E & L & V).
  fold base insert offset bits in V.
  exists d. eexists. split; [exact E|]. split; [reflexivity|].
  pose proof (u32_range (src_lane src 0 i)) as Rb.
  pose proof (u32_range (src_lane src 1 i)) as Ri.
  pose proof (i32_range (src_lane src 2 i)) as Ro.
  pose proof (i32_range (src_lane src 3 i)) as Rbits.
  fold base in Rb. fold insert in Ri. fold offset in Ro. fold bits in Rbits.
  split; [|split].
  - intros Z0. rewrite V. unfold bitfield_insert_body.
    rewrite (cast_int32_id bits), Z0 by lia. cbn [Z.eqb].
    rewrite (cast_uint32_id base) by assumption.
    now apply cast_uint32_id.
  - intros H. rewrite V. unfold bitfield_insert_body.
    rewrite (cast_int32_id bits), (cast_int32_id offset) by lia. cbv zeta.
    destruct (Z.eqb_spec bits 0); [lia|].
    destruct (Z.ltb_spec offset 0), (Z.ltb_spec bits 0); cbn [orb];
      try reflexivity; lia.
  - intros Ho Hb Hs.
    assert (B : forall n,
      Z.testbit (u32 (lane d i)) n
      = (0 <=? n) && (n <? 32)
        && (if (offset <=? n) && (n <? offset + bits)
            then Z.testbit insert (n - offset) else Z.testbit base n)).
    { intros n. rewrite V. now apply bitfield_insert_body_bits. }
    split.
    + intros n Hn. rewrite B.
      destruct (Z.leb_spec 0 n), (Z.ltb_spec n 32); try lia. reflexivity.
    + rewrite bitfield_lanes_lane by assumption.
      change (src_lane [d; nth 2 src []; nth 3 src []] 0 i) with (lane d i).
      change (src_lane [d; nth 2 src []; nth 3 src []] 1 i)
        with (src_lane src 2 i).
      change (src_lane [d; nth 2 src []; nth 3 src []] 2 i)
        with (src_lane src 3 i).
      fold offset bits.
      apply Z.bits_inj'. intros m Hm.
      rewrite ubitfield_extract_body_bits by (assumption || apply u32_range).
      rewrite B.
      destruct (Z.leb_spec 0 m); [|lia]. cbn [andb].
      destruct (Z.ltb_spec m bits).
      * rewrite Z.mod_pow2_bits_low by lia. cbn [andb].
        destruct (Z.leb_spec 0 (m + offset)), (Z.ltb_spec (m + offset) 32),
          (Z.leb_spec offset (m + offset)),
          (Z.ltb_spec (m + offset) (offset + bits)); try lia.
        cbn [andb]. f_equal. lia.
      * rewrite Z.mod_pow2_bits_high by lia. reflexivity.
Qed.

Lemma bitfield_insert_then_extract_witness :
  (0 < 1)%nat /\ (0 < length [0])%nat /\ (0 < length [9])%nat /\
  let base := u32 (src_lane [[255]; [5]; [4]; [3]] 0 0) in
  let insert := u32 (src_lane [[255]; [5]; [4]; [3]] 1 0) in
  let offset := i32 (src_lane [[255]; [5]; [4]; [3]] 2 0) in
  let bits := i32 (src_lane [[255]; [5]; [4]; [3]] 3 0) in
  exists d e,
    evaluate_bitfield_insert [0] 1 32 [[255]; [5]; [4]; [3]] = Done d /\
    evaluate_ubitfield_extract [9] 1 32
      [d; nth 2 [[255]; [5]; [4]; [3]] []; nth 3 [[255]; [5]; [4]; [3]] []]
      = Done e /\
    (bits = 0 -> u32 (lane d 0) = base) /\
    (bits < 0 \/ 0 < bits /\ offset < 0 -> u32 (lane d 0) = 0) /\
    (0 <= offset -> 0 < bits -> offset + bits <= 32 ->
     (forall n, 0 <= n < 32 ->
        Z.testbit (u32 (lane d 0)) n =
        if (offset <=? n) && (n <? offset + bits)
        then Z.testbit insert (n - offset) else Z.testbit base n) /\
     u32 (lane e 0) = insert mod 2 ^ bits).
Proof.
  assert (H1 : (0 < 1)%nat) by lia.
  assert (H2 : (0 < length [0])%nat) by (simpl; lia).
  assert (H3 : (0 < length [9])%nat) by (simpl; lia).
  split; [exact H1|]. split; [exact H2|]. split; [exact H3|].
  exact (bitfield_insert_then_extract [0] [9] 1%nat 32
           [[255]; [5]; [4]; [3]] 0%nat H1 H2 H3).
Defined.

(** ** Unpacking and packing again *)

Lemma forallb_seq_Z (P : Z -> bool) n k :
  forallb (fun m => P (Z.of_nat m)) (seq 0 n) = true ->
  0 <= k < Z.of_nat n -> P k = true.
Proof.
  intros H Hk. rewrite forallb_forall in H.
  specialize (H (Z.to_nat k)). rewrite Z2Nat.id in H by lia.
  apply H. apply in_seq. lia.
Qed.

Lemma unorm_1x8_round_trip k :
  0 <= k < 256 -> pack_unorm_1x8 (f32_stored (unpack_unorm_1x8 k)) = k.
Proof.
  intros Hk. apply Z.eqb_eq.
  apply (forallb_seq_Z
           (fun k => pack_unorm_1x8 (f32_stored (unpack_unorm_1x8 k)) =? k)
           256%nat); [|lia].
  change (unorm_1x8_round_trip_ok = true). vm_compute. reflexivity.
Qed.

Lemma snorm_1x8_round_trip k :
  0 <= k < 256 ->
  pack_snorm_1x8 (f32_stored (unpack_snorm_1x8 k))
  = if k =? 128 then 129 else k.
Proof.
  intros Hk. apply Z.eqb_eq.
  apply (forallb_seq_Z
           (fun k => pack_snorm_1x8 (f32_stored (unpack_snorm_1x8 k))
                     =? (if k =? 128 then 129 else k))
           256%nat); [|lia].
  change (snorm_1x8_round_trip_ok = true). vm_compute. reflexivity.
Qed.

Lemma f32_set_f32_stored u v : f32 (set_f32 u v) = f32_stored u.
Proof. apply f32_set_f32. Qed.

(** The bytes of a 32-bit word, as the unpack evaluators take them. *)
Lemma word_bytes w :
  0 <= w < 2 ^ 32 ->
  let b0 := cast uint8_t (Z.land w 255) in
  let b1 := cast uint8_t (Z.land (shr_u32 w 8) 255) in
  let b2 := cast uint8_t (Z.land (shr_u32 w 16) 255) in
  let b3 := cast uint8_t (shr_u32 w 24) in
  b0 = w mod 2 ^ 8 /\ b1 = w / 2 ^ 8 mod 2 ^ 8 /\
  b2 = w / 2 ^ 16 mod 2 ^ 8 /\ b3 = w / 2 ^ 24 /\
  0 <= b0 < 256 /\ 0 <= b1 < 256 /\ 0 <= b2 < 256 /\ 0 <= b3 < 256 /\
  b0 + b1 * 2 ^ 8 + b2 * 2 ^ 16 + b3 * 2 ^ 24 = w.
Proof.
  intros Hw. cbv zeta.
  change 255 with (Z.ones 8). rewrite !Z.land_ones by lia.
  rewrite !shr_u32_div by lia.
  revert Hw. unfold_int. intros Hw.
  repeat split; zmod.
Qed.

Lemma evaluate_unpack_unorm_4x8_lanes e0 e1 e2 e3 nc bs p :
  evaluate_unpack_unorm_4x8 [e0; e1; e2; e3] nc bs [[p]] =
  Done [set_f32 (unpack_unorm_1x8 (cast uint8_t (Z.land (u32 p) 255))) e0;
        set_f32 (unpack_unorm_1x8
                   (cast uint8_t (Z.land (shr_u32 (u32 p) 8) 255))) e1;
        set_f32 (unpack_unorm_1x8
                   (cast uint8_t (Z.land (shr_u32 (u32 p) 16) 255))) e2;
        set_f32 (unpack_unorm_1x8 (cast uint8_t (shr_u32 (u32 p) 24))) e3].
Proof. reflexivity. Qed.

Lemma evaluate_pack_unorm_4x8_word d0 nc bs x0 x1 x2 x3 :
  evaluate_pack_unorm_4x8 [d0] nc bs [[x0; x1; x2; x3]] =
  Done [set_field uint32_t
          (Z.lor (Z.lor (Z.lor (cast uint32_t (pack_unorm_1x8 (f32 x0)))
                               (shl_u32 (cast uint32_t (pack_unorm_1x8 (f32 x1))) 8))
                        (shl_u32 (cast uint32_t (pack_unorm_1x8 (f32 x2))) 16))
                 (shl_u32 (cast uint32_t (pack_unorm_1x8 (f32 x3))) 24)) d0].
Proof. reflexivity. Qed.

(** X25.  Packing what [unpack_unorm_4x8] produced gives the source word
    back: every byte k unpacks to k / 255 and that float packs to k
    again. *)
Theorem pack_of_unpack_unorm_4x8_is_identity d0 e0 e1 e2 e3 nc bs w :
  exists u0 u1 u2 u3 p,
    evaluate_unpack_unorm_4x8 [e0; e1; e2; e3] nc bs [[w]]
      = Done [u0; u1; u2; u3] /\
    evaluate_pack_unorm_4x8 [d0] nc bs [[u0; u1; u2; u3]] = Done [p] /\
    u32 p = u32 w.
Proof.
  do 5 eexists. split; [apply evaluate_unpack_unorm_4x8_lanes|].
  split; [apply evaluate_pack_unorm_4x8_word|].
  rewrite !f32_set_f32_stored.
  destruct (word_bytes (u32 w) (u32_range w))
    as (_ & _ & _ & _ & B0 & B1 & B2 & B3 & J).
  rewrite !unorm_1x8_round_trip by assumption.
  destruct (pack_word_bytes _ _ _ _ B0 B1 B2 B3) as (E & _).
  rewrite E, J, u32_set_field_uint32. unfold zext.
  apply Z.mod_small, u32_range.
Qed.

Lemma byte_of_sum b0 b1 b2 b3 :
  0 <= b0 < 256 -> 0 <= b1 < 256 -> 0 <= b2 < 256 -> 0 <= b3 < 256 ->
  let word := b0 + b1 * 2 ^ 8 + b2 * 2 ^ 16 + b3 * 2 ^ 24 in
  byte_of word 0 = b0 /\ byte_of word 1 = b1 /\
  byte_of word 2 = b2 /\ byte_of word 3 = b3.
Proof.
  intros H0 H1 H2 H3 word. unfold byte_of.
  change 255 with (Z.ones 8). rewrite !Z.land_ones by lia.
  rewrite !Z.shiftr_div_pow2 by lia. subst word.
  cbn [Z.mul Pos.mul]. znorm. repeat split; zmod.
Qed.

(** X26.  Packing what [unpack_snorm_4x8] produced gives every byte of
    the source word back except the byte 0x80: it unpacks to -1.0, as
    0x81 does, and -1.0 packs to 0x81.  A word without a byte 0x80 comes
    back unchanged. *)
Theorem pack_of_unpack_snorm_4x8_loses_0x80 d0 e0 e1 e2 e3 nc bs w :
  exists u0 u1 u2 u3 p,
    evaluate_unpack_snorm_4x8 [e0; e1; e2; e3] nc bs [[w]]
      = Done [u0; u1; u2; u3] /\
    evaluate_pack_snorm_4x8 [d0] nc bs [[u0; u1; u2; u3]] = Done [p] /\
    (forall k, 0 <= k < 4 ->
       byte_of (u32 p) k =
       if byte_of (u32 w) k =? 128 then 129 else byte_of (u32 w) k) /\
    ((forall k, 0 <= k < 4 -> byte_of (u32 w) k <> 128) -> u32 p = u32 w).
Proof.
  do 5 eexists. split; [apply evaluate_unpack_snorm_4x8_lanes|].
  split; [apply evaluate_pack_snorm_4x8_word|].
  rewrite !f32_set_f32_stored.
  destruct (word_bytes (u32 w) (u32_range w))
    as (_ & _ & _ & _ & B0 & B1 & B2 & B3 & J).
  rewrite !snorm_1x8_round_trip by assumption.
  set (b0 := cast uint8_t (Z.land (u32 w) 255)) in *.
  set (b1 := cast uint8_t (Z.land (shr_u32 (u32 w) 8) 255)) in *.
  set (b2 := cast uint8_t (Z.land (shr_u32 (u32 w) 16) 255)) in *.
  set (b3 := cast uint8_t (shr_u32 (u32 w) 24)) in *.
  set (c0 := if b0 =? 128 then 129 else b0).
  set (c1 := if b1 =? 128 then 129 else b1).
  set (c2 := if b2 =? 128 then 129 else b2).
  set (c3 := if b3 =? 128 then 129 else b3).
  assert (C0 : 0 <= c0 < 256) by (subst c0; destruct (b0 =? 128); lia).
  assert (C1 : 0 <= c1 < 256) by (subst c1; destruct (b1 =? 128); lia).
  assert (C2 : 0 <= c2 < 256) by (subst c2; destruct (b2 =? 128); lia).
  assert (C3 : 0 <= c3 < 256) by (subst c3; destruct (b3 =? 128); lia).
  destruct (pack_word_bytes _ _ _ _ C0 C1 C2 C3) as (E & _).
  rewrite E, u32_set_field_uint32. unfold zext.
  rewrite Z.mod_small by (revert C0 C1 C2 C3; znorm; intros; lia).
  destruct (byte_of_sum c0 c1 c2 c3 C0 C1 C2 C3) as (P0 & P1 & P2 & P3).
  destruct (byte_of_sum b0 b1 b2 b3 B0 B1 B2 B3) as (W0 & W1 & W2 & W3).
  rewrite J in W0, W1, W2, W3.
  assert (K : forall k, 0 <= k < 4 -> k = 0 \/ k = 1 \/ k = 2 \/ k = 3)
    by (intros; lia).
  split.
  - intros k Hk.
    destruct (K k Hk) as [-> | [-> | [-> | ->]]];
      rewrite ?P0, ?P1, ?P2, ?P3, ?W0, ?W1, ?W2, ?W3; reflexivity.
  - intros N.
    pose proof (N 0 ltac:(lia)) as N0. pose proof (N 1 ltac:(lia)) as N1.
    pose proof (N 2 ltac:(lia)) as N2. pose proof (N 3 ltac:(lia)) as N3.
    rewrite W0 in N0. rewrite W1 in N1. rewrite W2 in N2. rewrite W3 in N3.
    subst c0 c1 c2 c3.
    apply Z.eqb_neq in N0, N1, N2, N3. rewrite N0, N1, N2, N3. exact J.
Qed.

(** ** The two-component forms *)

Lemma shl_16_low_half x : cast uint16_t (shl_u32 x 16) = 0.
Proof.
  unfold shl_u32. rewrite Z.shiftl_mul_pow2 by lia. unfold_int. zmod.
Qed.

Lemma cast_uint16_range x : 0 <= cast uint16_t x < 2 ^ 16.
Proof. unfold_int. zmod. Qed.

(** X27.  [unpack_unorm_2x16] and [unpack_snorm_2x16] take their second
    component from [src0.x << 16], whose low 16 bits are 0: the second
    destination lane is +0.0 whatever the source is, and only the low
    half of the source reaches the first lane.  Packing the result again
    with [pack_unorm_2x16] or [pack_snorm_2x16] therefore gives a word
    whose high half is 0. *)
Theorem unpack_2x16_second_lane_is_zero d0 e0 e1 nc bs w :
  exists u0 u1 v0 v1 p q,
    evaluate_unpack_unorm_2x16 [e0; e1] nc bs [[w]] = Done [u0; u1] /\
    evaluate_unpack_snorm_2x16 [e0; e1] nc bs [[w]] = Done [v0; v1] /\
    evaluate_pack_unorm_2x16 [d0] nc bs [[u0; u1]] = Done [p] /\
    evaluate_pack_snorm_2x16 [d0] nc bs [[v0; v1]] = Done [q] /\
    f32 u0 = f32_stored (unpack_unorm_1x16 (u32 w mod 2 ^ 16)) /\
    f32 v0 = f32_stored (unpack_snorm_1x16 (u32 w mod 2 ^ 16)) /\
    f32 u1 = S754_zero false /\ f32 v1 = S754_zero false /\
    u32 p = pack_unorm_1x16 (f32 u0) /\ u32 q = pack_snorm_1x16 (f32 v0) /\
    0 <= u32 p < 2 ^ 16 /\ 0 <= u32 q < 2 ^ 16.
Proof.
  do 6 eexists. split; [reflexivity|]. split; [reflexivity|].
  split; [reflexivity|]. split; [reflexivity|].
  cbn [vec4.x vec4.y src_lane lane nth].
  rewrite !shl_16_low_half, !f32_set_f32_stored.
  assert (L : cast uint16_t (Z.land (u32 w) 65535) = u32 w mod 2 ^ 16).
  { change 65535 with (Z.ones 16). rewrite Z.land_ones by lia.
    unfold_int. zmod. }
  rewrite L.
  assert (Zu : f32_stored (unpack_unorm_1x16 0) = S754_zero false)
    by (vm_compute; reflexivity).
  assert (Zs : f32_stored (unpack_snorm_1x16 0) = S754_zero false)
    by (vm_compute; reflexivity).
  rewrite Zu, Zs.
  assert (Pu : pack_unorm_1x16 (S754_zero false) = 0)
    by (vm_compute; reflexivity).
  assert (Ps : pack_snorm_1x16 (S754_zero false) = 0)
    by (vm_compute; reflexivity).
  rewrite Pu, Ps.
  change (shl_u32 (cast uint32_t 0) 16) with 0. rewrite !Z.lor_0_r.
  split; [reflexivity|]. split; [reflexivity|].
  split; [reflexivity|]. split; [reflexivity|].
  rewrite !u32_set_field_uint32.
  assert (C : forall x, zext 32 (cast uint32_t (cast uint16_t x))
                        = cast uint16_t x).
  { intros x. unfold_int. zmod. }
  assert (Eu : forall f, pack_unorm_1x16 f = cast uint16_t (pack_unorm_1x16 f)).
  { intros f. unfold pack_unorm_1x16.
    generalize (float_to_int int32_t
      (_mesa_roundevenf (mul_f32 (CLAMP f f32_zero f32_one) f32_65535))).
    intros x. unfold_int. zmod. }
  assert (Es : forall f, pack_snorm_1x16 f = cast uint16_t (pack_snorm_1x16 f)).
  { intros f. unfold pack_snorm_1x16.
    generalize (float_to_int int32_t
      (_mesa_roundevenf (mul_f32 (CLAMP f f32_minus_one f32_one) f32_32767))).
    intros x. unfold_int. zmod. }
  rewrite (Eu (f32_stored _)), (Es (f32_stored _)), !C.
  split; [reflexivity|]. split; [reflexivity|].
  split; apply cast_uint16_range.
Qed.

(** ** Complement *)

(** X28.  [inot] stores the bitwise complement of the source lane, which
    is -a - 1 for the signed value a of the lane and so never the source
    itself; complementing twice gives the source back. *)
Theorem inot_complements_and_is_involutive W dst dst2 nc src
    (HW : In W widths_int) :
  exists s d,
    evaluate_inot dst nc W src = Done s /\
    evaluate_inot dst2 nc W [s] = Done d /\
    length s = length dst /\
    forall i, (i < nc)%nat -> (i < length dst)%nat ->
      let a := rd (sint_lane W) (src_lane src 0 i) in
      rd (sint_lane W) (lane s i) = - a - 1 /\
      ((i < length dst2)%nat -> rd (sint_lane W) (lane d i) = a).
Proof.
  destruct (sint_lane_props W HW) as [Hs Hw].
  destruct (int_switch_lanewise1 sint_lane inot_expr W dst nc src HW)
    as (s & Es & Ls & Vs).
  destruct (int_switch_lanewise1 sint_lane inot_expr W dst2 nc [s] HW)
    as (d & E & L & V).
  exists s, d. split; [exact Es|]. split; [exact E|]. split; [exact Ls|].
  intros i Hn Hl a.
  assert (V1 : rd (sint_lane W) (lane s i) = - a - 1).
  { rewrite Vs by assumption.
    apply inot_lane_value; [assumption | apply rd_in_range]. }
  split; [exact V1|]. intros Hl2. rewrite V by assumption.
  change (src_lane [s] 0 i) with (lane s i).
  rewrite inot_lane_value by (assumption || apply rd_in_range).
  rewrite V1. lia.
Qed.

Lemma inot_complements_and_is_involutive_witness :
  In 8 widths_int /\
  exists s d,
    evaluate_inot [0] 1 8 [[5]] = Done s /\
    evaluate_inot [0] 1 8 [s] = Done d /\
    length s = length [0] /\
    forall i, (i < 1)%nat -> (i < length [0])%nat ->
      let a := rd (sint_lane 8) (src_lane [[5]] 0 i) in
      rd (sint_lane 8) (lane s i) = - a - 1 /\
      ((i < length [0])%nat -> rd (sint_lane 8) (lane d i) = a).
Proof.
  assert (H : In 8 widths_int) by in_list.
  split; [exact H|].
  exact (inot_complements_and_is_involutive 8 [0] [0] 1%nat [[5]] H).
Defined.

(** ** The lanes an evaluator leaves alone *)

(** X29.  Whatever the opcode, when [nir_eval_const_opcode] returns, the
    destination has the length it had, and every lane outside the write
    set of the opcode holds what it held before: the lanes from
    [num_components] on for the lane-wise opcodes, the lanes from k on
    for the opcodes that write a fixed number k of lanes. *)
Theorem dispatcher_leaves_other_lanes other op W dst nc src d
    (H : nir_eval_const_opcode other (op_case op) dst nc W src = Done d) :
  length d = length dst /\
  forall i, (lane_count op nc <= i)%nat -> lane d i = lane dst i.
Proof.
  destruct (evaluators_have_skeleton other op) as [value E].
  rewrite E in H. unfold evaluate_skeleton in H.
  assert (D : d = per_lane (lane_count op nc)
                    (fun i => exec_store (dest_store op W) (value W nc src i))
                    dst).
  { destruct (bit_size_cases op) as [cases|].
    - destruct (has_case W cases); [|discriminate H]. now inversion H.
    - now inversion H. }
  subst d. split; [apply per_lane_length|].
  intros i Hi. now apply per_lane_lane_out.
Qed.

Lemma dispatcher_leaves_other_lanes_witness :
  nir_eval_const_opcode (fun _ _ _ _ _ => 0) (op_case nir_op_ball_iequal4)
    [7; 8; 9] 3 32 [[1; 2; 3; 4]; [1; 2; 3; 4]] = Done [1; 8; 9] /\
  length [1; 8; 9] = length [7; 8; 9] /\
  forall i, (lane_count nir_op_ball_iequal4 3 <= i)%nat ->
    lane [1; 8; 9] i = lane [7; 8; 9] i.
Proof.
  assert (H : nir_eval_const_opcode (fun _ _ _ _ _ => 0)
                (op_case nir_op_ball_iequal4)
                [7; 8; 9] 3 32 [[1; 2; 3; 4]; [1; 2; 3; 4]] = Done [1; 8; 9])
    by reflexivity.
  split; [exact H|].
  exact (dispatcher_leaves_other_lanes (fun _ _ _ _ _ => 0)
           nir_op_ball_iequal4 32 [7; 8; 9] 3%nat
           [[1; 2; 3; 4]; [1; 2; 3; 4]] [1; 8; 9] H).
Defined.

(** * Properties of checked evaluation *)

(** ** The loop over the lanes *)

Lemma all_lanes_true n ok :
  all_lanes n ok = true <-> forall j, (j < n)%nat -> ok j = true.
Proof.
  unfold all_lanes. rewrite forallb_forall. split.
  - intros H j Hj. apply H, in_seq. lia.
  - intros H j Hj. apply in_seq in Hj. apply H. lia.
Qed.

Lemma all_lanes_false n ok :
  all_lanes n ok = false -> exists j, (j < n)%nat /\ ok j = false.
Proof.
  unfold all_lanes. induction n as [|n IH]; [discriminate|].
  rewrite seq_S, forallb_app. cbn [forallb Nat.add].
  destruct (forallb ok (seq 0 n)) eqn:E.
  - rewrite andb_true_r. cbn [andb]. intros H. exists n. split; [lia | exact H].
  - intros _. destruct (IH eq_refl) as (j & Hj & F). exists j. split; [lia | exact F].
Qed.

(** When the computation of every lane is defined, the checked loop makes
    the stores of the plain loop. *)
Lemma strict_per_lane_value nc sbody body dst :
  (forall j, (j < nc)%nat -> sbody j = Value (body j)) ->
  Strict.per_lane nc sbody dst = Value (per_lane nc body dst).
Proof.
  unfold Strict.per_lane, per_lane. induction nc as [|n IH]; intros H.
  - reflexivity.
  - rewrite !for_loop_S. rewrite IH by (intros j Hj; apply H; lia).
    cbn [Strict.bind]. rewrite (H n) by lia. reflexivity.
Qed.

(** An undefined lane makes the whole evaluation undefined; the operation
    reported is that of the first undefined lane. *)
Lemma strict_per_lane_stays nc sbody dst n u :
  (n <= nc)%nat ->
  for_loop n
    (fun _i acc =>
       Strict.bind acc (fun d =>
         Strict.bind (sbody _i) (fun store => Value (upd d _i store))))
    (Value dst) = Undefined u ->
  Strict.per_lane nc sbody dst = Undefined u.
Proof.
  unfold Strict.per_lane. intros Hn H.
  replace nc with (n + (nc - n))%nat by lia.
  generalize (nc - n)%nat as k. intros k. induction k as [|k IH].
  - rewrite Nat.add_0_r. exact H.
  - rewrite Nat.add_succ_r, for_loop_S, IH. reflexivity.
Qed.

Lemma strict_per_lane_undefined nc sbody dst u :
  (forall j, (j < nc)%nat ->
     sbody j = Undefined u \/ exists f, sbody j = Value f) ->
  (exists j, (j < nc)%nat /\ sbody j = Undefined u) ->
  Strict.per_lane nc sbody dst = Undefined u.
Proof.
  intros Hall (j & Hj & Hu).
  assert (P : forall n, (n <= nc)%nat ->
            (exists d,
               for_loop n
                 (fun _i acc =>
                    Strict.bind acc (fun d =>
                      Strict.bind (sbody _i) (fun store =>
                        Value (upd d _i store))))
                 (Value dst) = Value d) \/
            Strict.per_lane nc sbody dst = Undefined u).
  { induction n as [|n IH]; intros Hn.
    - left. eexists. reflexivity.
    - destruct (IH ltac:(lia)) as [(d & E) | U]; [|right; exact U].
      destruct (Hall n ltac:(lia)) as [Un | (f & Vn)].
      + right. apply (strict_per_lane_stays nc sbody dst (S n)); [lia|].
        rewrite for_loop_S, E. cbn [Strict.bind]. rewrite Un. reflexivity.
      + left. eexists. rewrite for_loop_S, E. cbn [Strict.bind].
        rewrite Vn. reflexivity. }
  destruct (P j ltac:(lia)) as [(d & E) | U]; [|exact U].
  apply (strict_per_lane_stays nc sbody dst (S j)); [lia|].
  rewrite for_loop_S, E. cbn [Strict.bind]. rewrite Hu. reflexivity.
Qed.

(** A defined evaluation has computed every lane. *)
Lemma strict_per_lane_inv nc sbody dst d :
  Strict.per_lane nc sbody dst = Value d ->
  forall j, (j < nc)%nat -> exists f, sbody j = Value f.
Proof.
  unfold Strict.per_lane. revert d. induction nc as [|n IH]; intros d H j Hj.
  - lia.
  - rewrite for_loop_S in H.
    match type of H with
    | context [@for_loop ?T n ?f ?s] =>
        destruct (@for_loop T n f s) as [d0|u] eqn:E; [|discriminate H]
    end.
    cbn [Strict.bind] in H.
    destruct (sbody n) as [f|u] eqn:B; [|discriminate H].
    destruct (Nat.eq_dec j n) as [->|Hne]; [eauto|].
    apply (IH d0 eq_refl). lia.
Qed.

(** The two-source loop, for an expression that is either the plain one
    or undefined with [u], as [ok] decides on the operands. *)
Lemma strict_lanewise2 t (sexpr : Z -> Z -> checked Z) (expr : Z -> Z -> Z)
    (ok : Z -> Z -> bool) u dst nc src :
  (forall a c, in_range t a -> in_range t c ->
     sexpr a c = if ok a c then Value (expr a c) else Undefined u) ->
  Strict.lanewise2 t sexpr dst nc src =
  if all_lanes nc (fun j => ok (rd t (src_lane src 0 j))
                               (rd t (src_lane src 1 j)))
  then Value (lanewise2 t expr dst nc src)
  else Undefined u.
Proof.
  intros H. unfold Strict.lanewise2, lanewise2.
  destruct (all_lanes nc _) eqn:A.
  - apply strict_per_lane_value. intros j Hj.
    rewrite all_lanes_true in A. cbv zeta.
    rewrite H, (A j Hj) by apply rd_in_range. reflexivity.
  - apply strict_per_lane_undefined.
    + intros j Hj. cbv zeta. rewrite H by apply rd_in_range.
      destruct (ok _ _); [right; eexists; reflexivity | left; reflexivity].
    + destruct (all_lanes_false _ _ A) as (j & Hj & F). exists j.
      split; [exact Hj|]. cbv zeta. rewrite H, F by apply rd_in_range.
      reflexivity.
Qed.

Lemma strict_int_switch ty sbody W :
  In W widths_int ->
  Strict.int_switch ty sbody W =
  Strict.bind (sbody (ty W)) (fun d => Value (Done d)).
Proof.
  intros H. apply In_widths_int in H.
  destruct H as [-> | [-> | [-> | [-> | ->]]]]; reflexivity.
Qed.

Lemma strict_int_switch_default ty sbody W :
  ~ In W widths_int ->
  Strict.int_switch ty sbody W = Value (Unreachable "unknown bit width").
Proof.
  intros H. unfold Strict.int_switch. rewrite switch_int.
  repeat match goal with
         | |- context [Z.eqb W ?k] =>
             destruct (Z.eqb_spec W k); [subst; exfalso; apply H; in_list|]
         end.
  reflexivity.
Qed.

(** ** Integer division and modulo *)

Lemma fits_true t v : cast t v = v -> Strict.fits t v = true.
Proof. intros H. unfold Strict.fits. rewrite H. apply Z.eqb_refl. Qed.

(** The quotient of two lanes is a value of the promoted type, except for
    the most negative value divided by -1 at 32 and 64 bits. *)
Lemma cast_promote_quot t a c :
  in_range t a -> in_range t c -> c <> 0 ->
  ~ ((t = int32 \/ t = int64) /\ a = smin (width t) /\ c = -1) ->
  cast (promote (ctype_of t)) (Z.quot a c) = Z.quot a c.
Proof.
  intros Ha Hc Hnz Hov. destruct (lane_signed t) eqn:Hs.
  - destruct (Z.eq_dec a (smin (width t))) as [Ea|Na].
    + destruct (Z.eq_dec c (-1)) as [Ec|Nc].
      * subst a c. destruct t; try discriminate Hs; try reflexivity;
          exfalso; apply Hov; auto.
      * apply cast_promote_id, in_range_quot; auto. intros []. contradiction.
    + apply cast_promote_id, in_range_quot; auto. intros []. contradiction.
  - destruct (in_range_udiv t a c Hs Ha Hc Hnz) as (-> & _ & H & _).
    now apply cast_promote_id.
Qed.

Lemma strict_c_div_value t a c :
  in_range t a -> in_range t c -> c <> 0 ->
  ~ ((t = int32 \/ t = int64) /\ a = smin (width t) /\ c = -1) ->
  Strict.c_div (ctype_of t) a c = Value (c_div (ctype_of t) a c) /\
  Strict.c_rem (ctype_of t) a c = Value (c_rem (ctype_of t) a c).
Proof.
  intros Ha Hc Hnz Hov. unfold Strict.c_div, Strict.c_rem, c_div, c_rem.
  destruct (Z.eqb_spec c 0) as [|_]; [contradiction|].
  rewrite fits_true by now apply cast_promote_quot.
  cbn [negb]. rewrite andb_false_r. split; reflexivity.
Qed.

Lemma strict_c_div_overflow t :
  t = int32 \/ t = int64 ->
  Strict.c_div (ctype_of t) (smin (width t)) (-1) = Undefined division_overflow /\
  Strict.c_rem (ctype_of t) (smin (width t)) (-1) = Undefined division_overflow.
Proof. intros [-> | ->]; split; reflexivity. Qed.

Lemma division_overflows_spec op W a c :
  In op division_ops -> In W widths_int ->
  let t := division_lane op W in
  division_overflows op W a c = true <->
  ((t = int32 \/ t = int64) /\ a = smin (width t) /\ c = -1).
Proof.
  intros Hop HW. apply In_widths_int in HW. simpl in Hop.
  destruct Hop as [<- | [<- | [<- | [<- | [<- | []]]]]];
    destruct HW as [-> | [-> | [-> | [-> | ->]]]];
    cbv zeta; unfold division_overflows;
    rewrite !andb_true_iff, orb_true_iff, !Z.eqb_eq;
    cbn [division_signed division_lane sint_lane uint_lane width];
    intuition (try discriminate; try congruence).
Qed.

Lemma strict_division_expr_cases op W a c :
  In op division_ops -> In W widths_int ->
  let t := division_lane op W in
  in_range t a -> in_range t c ->
  strict_division_expr op t a c =
  if negb (division_overflows op W a c) then Value (division_expr op t a c)
  else Undefined division_overflow.
Proof.
  intros Hop HW t Ha Hc.
  pose proof (division_overflows_spec op W a c Hop HW) as S. fold t in S.
  assert (Hst : lane_signed t = division_signed op).
  { destruct (sint_lane_props W HW), (uint_lane_props W HW).
    unfold t, division_lane. destruct (division_signed op); assumption. }
  destruct (division_overflows op W a c); cbn [negb].
  - destruct S as [S _]. destruct (S eq_refl) as (Ht & -> & ->).
    destruct (strict_c_div_overflow t Ht) as [D R].
    simpl in Hop.
    destruct Hop as [<- | [<- | [<- | [<- | [<- | []]]]]];
      cbn [strict_division_expr];
      unfold Strict.idiv_expr, Strict.imod_expr, Strict.irem_expr;
      cbn [Z.eqb]; rewrite ?D, ?R; reflexivity.
  - assert (N : ~ ((t = int32 \/ t = int64) /\ a = smin (width t) /\ c = -1))
      by (intros H; apply S in H; discriminate H).
    destruct (Z.eq_dec c 0) as [-> | Hnz].
    + simpl in Hop.
      destruct Hop as [<- | [<- | [<- | [<- | [<- | []]]]]]; reflexivity.
    + destruct (strict_c_div_value t a c Ha Hc Hnz N) as [D R].
      simpl in Hop.
      destruct Hop as [<- | [<- | [<- | [<- | [<- | []]]]]];
        cbn [strict_division_expr division_expr];
        unfold Strict.idiv_expr, Strict.imod_expr, Strict.irem_expr,
          idiv_expr, imod_expr, irem_expr;
        (destruct (Z.eqb_spec c 0) as [|_]; [contradiction|]);
        rewrite ?D, ?R; cbn [Strict.bind]; try reflexivity.
      (* imod: the sum [src0 % src1 + src1] is a value of the type *)
      cbn [division_signed] in Hst.
      assert (Hr : in_range t (Z.rem a c)) by (apply in_range_rem; auto).
      assert (Hm : in_range t (a mod c)) by (apply in_range_mod; auto).
      unfold c_rem. rewrite (cast_promote_id t (Z.rem a c)) by assumption.
      pose proof (imod_floor a c Hnz) as F.
      destruct ((Z.rem a c =? 0) || Bool.eqb (a >=? 0) (c >=? 0));
        [reflexivity|].
      unfold Strict.c_add, Strict.arith. rewrite F.
      rewrite fits_true by now apply cast_promote_id.
      rewrite (cast_promote_id t (a mod c)) by assumption.
      now destruct (is_signed (promote (ctype_of t))).
Qed.

(** The checked evaluators return what the plain ones return when no lane
    divides the most negative value by -1 at 32 or 64 bits, and are
    undefined otherwise. *)
Lemma strict_evaluate_division op W dst nc src :
  In op division_ops -> In W widths_int ->
  Strict.evaluate_division op dst nc W src =
  if all_lanes nc (division_lane_defined op W src)
  then Value (evaluate_division op dst nc W src)
  else Undefined division_overflow.
Proof.
  intros Hop HW.
  destruct (evaluate_division_lanes op W dst nc src Hop HW) as (expr & E & Hexpr).
  rewrite E.
  assert (S : Strict.evaluate_division op dst nc W src =
              Strict.bind
                (Strict.lanewise2 (division_lane op W)
                   (strict_division_expr op (division_lane op W)) dst nc src)
                (fun d => Value (Done d))).
  { simpl in Hop.
    destruct Hop as [<- | [<- | [<- | [<- | [<- | []]]]]];
      cbn [Strict.evaluate_division];
      unfold Strict.evaluate_idiv, Strict.evaluate_udiv, Strict.evaluate_imod,
        Strict.evaluate_irem, Strict.evaluate_umod;
      rewrite strict_int_switch by assumption; reflexivity. }
  rewrite S.
  rewrite (strict_lanewise2 (division_lane op W) _
             (division_expr op (division_lane op W))
             (fun a c => negb (division_overflows op W a c))
             division_overflow)
    by (intros a c Ha Hc; now apply strict_division_expr_cases).
  change (fun j => negb (division_overflows op W
                           (rd (division_lane op W) (src_lane src 0 j))
                           (rd (division_lane op W) (src_lane src 1 j))))
    with (division_lane_defined op W src).
  destruct (all_lanes nc (division_lane_defined op W src)); [|reflexivity].
  cbn [Strict.bind]. subst expr. simpl in Hop.
  destruct Hop as [<- | [<- | [<- | [<- | [<- | []]]]]]; reflexivity.
Qed.

(** C4, as amended.  For each of [idiv], [udiv], [imod], [irem], [umod]
    and each of the five widths: the zero test of the evaluator comes
    before the division, which alone has no behaviour for a divisor of 0;
    and in every invocation in which no lane divides the most negative
    value by -1 at 32 or 64 bits, evaluation returns, a divisor of 0
    yields 0, a non-zero divisor yields the exact quotient or remainder
    whenever that is a value of the width, and [idiv] of the most negative
    value by -1, whose quotient is not, yields the most negative value. *)
Theorem division_by_zero_and_exact op W dst nc src
    (Hop : In op division_ops) (HW : In W widths_int)
    (Hdef : all_lanes nc (division_lane_defined op W src) = true) :
  let t := division_lane op W in
  (forall x,
     Strict.c_div (ctype_of t) x 0 = Undefined division_by_zero /\
     Strict.c_rem (ctype_of t) x 0 = Undefined division_by_zero /\
     strict_division_expr op t x 0 = Value 0) /\
  exists dst',
    Strict.evaluate_division op dst nc W src = Value (Done dst') /\
    length dst' = length dst /\
    forall i, (i < nc)%nat -> (i < length dst)%nat ->
      let a := rd t (src_lane src 0 i) in
      let c := rd t (src_lane src 1 i) in
      (c = 0 -> rd t (lane dst' i) = 0) /\
      (c <> 0 -> ~ (op = nir_op_idiv /\ a = smin W /\ c = -1) ->
       rd t (lane dst' i) = exact_division op a c) /\
      (op = nir_op_idiv -> a = smin W -> c = -1 ->
       rd t (lane dst' i) = smin W).
Proof.
  intros t. split.
  { intros x. split; [reflexivity|]. split; [reflexivity|].
    simpl in Hop.
    destruct Hop as [<- | [<- | [<- | [<- | [<- | []]]]]]; reflexivity. }
  rewrite strict_evaluate_division, Hdef by assumption.
  destruct (evaluate_division_lanes op W dst nc src Hop HW) as (expr & E & _).
  exists (lanewise2 t expr dst nc src). split; [now rewrite E|].
  split; [apply lanewise2_length|].
  intros i Hn Hl a c.
  destruct (division_wrapped_lanes op W dst nc src i Hop HW Hn Hl)
    as (d & E' & Z0 & NZ & OV).
  rewrite E in E'. injection E' as <-. fold t a c in Z0, NZ, OV.
  rewrite all_lanes_true in Hdef. specialize (Hdef i Hn).
  unfold division_lane_defined in Hdef. fold t a c in Hdef.
  apply negb_true_iff in Hdef.
  assert (Hw : width t = W).
  { destruct (sint_lane_props W HW), (uint_lane_props W HW).
    unfold t, division_lane. destruct (division_signed op); assumption. }
  assert (Hno : ~ ((t = int32 \/ t = int64) /\ a = smin (width t) /\ c = -1)).
  { intros H. apply (division_overflows_spec op W a c Hop HW) in H.
    congruence. }
  assert (Ht : (W = 32 \/ W = 64) -> division_signed op = true ->
               t = int32 \/ t = int64).
  { intros [-> | ->] Hs; unfold t, division_lane; rewrite Hs; auto. }
  split; [exact Z0|]. split.
  - intros Hnz Hex. apply NZ; [exact Hnz|].
    intros (Hs & Ea & Ec & [Ei | Hwide]).
    + apply Hex. auto.
    + apply Hno. rewrite Hw. auto.
  - intros Ei Ea Ec. apply OV; auto.
    apply In_widths_int in HW.
    destruct HW as [-> | [-> | [-> | [-> | ->]]]]; auto;
      exfalso; apply Hno; rewrite Hw; (split; [|auto]);
      apply Ht; subst op; auto.
Qed.

Lemma division_by_zero_and_exact_witness :
  In nir_op_idiv division_ops /\ In 8 widths_int /\
  all_lanes 3 (division_lane_defined nir_op_idiv 8
                 [[128; 249; 5]; [255; 2; 0]]) = true /\
  exists dst',
    Strict.evaluate_division nir_op_idiv [9; 9; 9] 3 8
      [[128; 249; 5]; [255; 2; 0]] = Value (Done dst') /\
    length dst' = length [9; 9; 9] /\
    forall i, (i < 3)%nat -> (i < length [9; 9; 9])%nat ->
      let a := rd int8 (src_lane [[128; 249; 5]; [255; 2; 0]] 0 i) in
      let c := rd int8 (src_lane [[128; 249; 5]; [255; 2; 0]] 1 i) in
      (c = 0 -> rd int8 (lane dst' i) = 0) /\
      (c <> 0 -> ~ (nir_op_idiv = nir_op_idiv /\ a = smin 8 /\ c = -1) ->
       rd int8 (lane dst' i) = exact_division nir_op_idiv a c) /\
      (nir_op_idiv = nir_op_idiv -> a = smin 8 -> c = -1 ->
       rd int8 (lane dst' i) = smin 8).
Proof.
  assert (H1 : In nir_op_idiv division_ops) by in_list.
  assert (H2 : In 8 widths_int) by in_list.
  assert (H3 : all_lanes 3 (division_lane_defined nir_op_idiv 8
                              [[128; 249; 5]; [255; 2; 0]]) = true)
    by reflexivity.
  repeat (split; [assumption|]).
  exact (proj2 (division_by_zero_and_exact nir_op_idiv 8 [9; 9; 9] 3%nat
                  [[128; 249; 5]; [255; 2; 0]] H1 H2 H3)).
Defined.

(** C4 as stated fails: [idiv] at width 8 on -128 and -1 stores -128, and
    the exact quotient is 128. *)
Lemma division_exact_as_stated_fails : ~ division_exact_as_stated.
Proof.
  intros H.
  assert (H1 : In nir_op_idiv division_ops) by in_list.
  assert (H2 : In 8 widths_int) by in_list.
  assert (H3 : (0 < 1)%nat) by apply Nat.lt_0_1.
  assert (H4 : (0 < length [0])%nat) by apply Nat.lt_0_1.
  assert (H5 : rd (division_lane nir_op_idiv 8)
                 (src_lane [[128]; [255]] 1 0) <> 0)
    by (vm_compute; discriminate).
  destruct (H nir_op_idiv 8 [0] 1%nat [[128]; [255]] 0%nat H1 H2 H3 H4 H5)
    as (d & E & R).
  vm_compute in E. injection E as <-. vm_compute in R. discriminate R.
Qed.

(** X30.  The five division evaluators never divide by zero, and the only
    undefined operation they can perform is the division of the most
    negative value by -1 at 32 or 64 bits, which the zero test does not
    cover: an invocation is undefined exactly when one of its lanes holds
    these operands for [idiv], [imod] or [irem], although the exact
    remainder, 0, is a value of the width. *)
Theorem division_undefined_exactly_on_overflow op W dst nc src
    (Hop : In op division_ops) (HW : In W widths_int) :
  let t := division_lane op W in
  (Strict.evaluate_division op dst nc W src = Undefined division_overflow <->
   exists j, (j < nc)%nat /\ division_signed op = true /\
             (W = 32 \/ W = 64) /\
             rd t (src_lane src 0 j) = smin W /\
             rd t (src_lane src 1 j) = -1) /\
  ((exists d, Strict.evaluate_division op dst nc W src = Value (Done d) /\
              length d = length dst) \/
   Strict.evaluate_division op dst nc W src = Undefined division_overflow) /\
  exact_division nir_op_imod (smin W) (-1) = 0 /\
  exact_division nir_op_irem (smin W) (-1) = 0.
Proof.
  intros t. rewrite strict_evaluate_division by assumption.
  destruct (evaluate_division_lanes op W dst nc src Hop HW) as (expr & E & _).
  assert (O : forall a c,
            division_overflows op W a c = true <->
            division_signed op = true /\ (W = 32 \/ W = 64) /\
            a = smin W /\ c = -1).
  { intros a c. unfold division_overflows.
    rewrite !andb_true_iff, orb_true_iff, !Z.eqb_eq. tauto. }
  split; [|split; [|split]].
  - destruct (all_lanes nc (division_lane_defined op W src)) eqn:A.
    + split; [discriminate|]. intros (j & Hj & H).
      rewrite all_lanes_true in A. specialize (A j Hj).
      unfold division_lane_defined in A. fold t in A.
      apply negb_true_iff in A. apply O in H. congruence.
    + split; [|reflexivity]. intros _.
      destruct (all_lanes_false _ _ A) as (j & Hj & F). exists j.
      split; [exact Hj|]. unfold division_lane_defined in F. fold t in F.
      apply negb_false_iff in F. now apply O.
  - destruct (all_lanes nc (division_lane_defined op W src)); [|now right].
    left. rewrite E. eexists. split; [reflexivity | apply lanewise2_length].
  - cbn [exact_division]. symmetry.
    apply Z.mod_unique with (q := - smin W); lia.
  - cbn [exact_division]. change (-1) with (- (1)).
    rewrite Z.rem_opp_r by lia. apply Z.rem_1_r.
Qed.

Lemma division_undefined_exactly_on_overflow_witness :
  In nir_op_imod division_ops /\ In 32 widths_int /\
  Strict.evaluate_division nir_op_imod [0; 0] 2 32
    [[7; 2147483648]; [2; 4294967295]] = Undefined division_overflow.
Proof.
  assert (H1 : In nir_op_imod division_ops) by in_list.
  assert (H2 : In 32 widths_int) by in_list.
  repeat (split; [assumption|]).
  apply (proj1 (division_undefined_exactly_on_overflow nir_op_imod 32 [0; 0]
                  2%nat [[7; 2147483648]; [2; 4294967295]] H1 H2)).
  exists 1%nat. repeat split; auto.
Defined.


(** ** Bitfield extraction *)

Lemma strict_bitfield_lanes_value sbody body dst nc src :
  (forall j, (j < nc)%nat ->
     sbody (u32 (src_lane src 0 j)) (i32 (src_lane src 1 j))
           (i32 (src_lane src 2 j)) =
     Value (body (u32 (src_lane src 0 j)) (i32 (src_lane src 1 j))
                 (i32 (src_lane src 2 j)))) ->
  Strict.bitfield_lanes sbody dst nc src =
  Value (bitfield_lanes body dst nc src).
Proof.
  intros H. unfold Strict.bitfield_lanes, bitfield_lanes.
  apply strict_per_lane_value. intros j Hj. cbv zeta.
  rewrite (H j Hj). reflexivity.
Qed.

Lemma strict_bitfield_lanes_undefined sbody dst nc src j u :
  (j < nc)%nat ->
  sbody (u32 (src_lane src 0 j)) (i32 (src_lane src 1 j))
        (i32 (src_lane src 2 j)) = Undefined u ->
  exists u', Strict.bitfield_lanes sbody dst nc src = Undefined u'.
Proof.
  intros Hj H.
  destruct (Strict.bitfield_lanes sbody dst nc src) as [d|u'] eqn:E;
    [|eauto].
  unfold Strict.bitfield_lanes in E.
  destruct (strict_per_lane_inv _ _ _ _ E j Hj) as (f & F).
  cbv zeta in F. rewrite H in F. discriminate F.
Qed.

Lemma strict_c_add_int32 x y :
  Strict.c_add int32_t x y =
  if (- 2 ^ 31 <=? x + y) && (x + y <? 2 ^ 31) then Value (x + y)
  else Undefined signed_overflow.
Proof.
  unfold Strict.c_add, Strict.arith, Strict.fits.
  cbn [promote is_signed]. unfold_int. cases; try reflexivity; zmod.
Qed.

Lemma strict_c_sub_int32 x y :
  - 2 ^ 31 <= x - y < 2 ^ 31 ->
  Strict.c_sub int32_t x y = Value (x - y) /\ c_sub int32_t x y = x - y.
Proof.
  intros H. unfold Strict.c_sub, Strict.arith, Strict.fits, c_sub.
  cbn [promote is_signed]. rewrite cast_int32_id by assumption.
  rewrite Z.eqb_refl. split; reflexivity.
Qed.

Lemma strict_shift_in w n v : 0 <= n < w -> Strict.shift w n v = Value v.
Proof.
  intros H. unfold Strict.shift.
  destruct (Z.leb_spec 0 n), (Z.ltb_spec n w); first [lia | reflexivity].
Qed.

Lemma strict_shift_out w n v :
  n < 0 \/ w <= n -> Strict.shift w n v = Undefined shift_out_of_range.
Proof.
  intros H. unfold Strict.shift.
  destruct (Z.leb_spec 0 n), (Z.ltb_spec n w); try lia; reflexivity.
Qed.

(** The checked body of [ubitfield_extract] is the plain one, except on
    the operands that overflow the sum [offset + bits]. *)
Lemma strict_ubitfield_extract_body base offset bits :
  0 <= base < 2 ^ 32 ->
  - 2 ^ 31 <= offset < 2 ^ 31 -> - 2 ^ 31 <= bits < 2 ^ 31 ->
  Strict.ubitfield_extract_body base offset bits =
  if extract_operands_defined offset bits
  then Value (ubitfield_extract_body base offset bits)
  else Undefined signed_overflow.
Proof.
  intros Hb Ho Hbits.
  unfold Strict.ubitfield_extract_body, ubitfield_extract_body,
    extract_operands_defined.
  rewrite (cast_int32_id offset), (cast_int32_id bits),
    (cast_uint32_id base) by assumption.
  rewrite strict_c_add_int32.
  destruct (Z.eqb_spec bits 0) as [-> | Nb]; [reflexivity|].
  destruct (Z.ltb_spec bits 0) as [Lb | Lb].
  { destruct (Z.leb_spec bits 0); [reflexivity | lia]. }
  destruct (Z.ltb_spec offset 0) as [Lo | Lo].
  { cbn [orb Strict.or_else Strict.bind]. rewrite orb_true_r. reflexivity. }
  destruct (Z.leb_spec bits 0); [lia|].
  cbn [orb Strict.or_else].
  destruct (Z.leb_spec (- 2 ^ 31) (offset + bits)); [|lia].
  destruct (Z.ltb_spec (offset + bits) (2 ^ 31)) as [Ls | Ls];
    cbn [andb Strict.bind]; [|reflexivity].
  rewrite c_add_int32_exact by lia.
  destruct (offset + bits >? 32) eqn:G; [reflexivity|].
  rewrite Z.gtb_ltb in G. apply Z.ltb_ge in G.
  unfold Strict.shr_u32, Strict.shl_1ull.
  rewrite !strict_shift_in by lia. reflexivity.
Qed.

(** The same for [ubfe], which is also undefined where it shifts by 32
    or more. *)
Lemma strict_ubfe_body base offset bits :
  0 <= base < 2 ^ 32 ->
  - 2 ^ 31 <= offset < 2 ^ 31 -> - 2 ^ 31 <= bits < 2 ^ 31 ->
  Strict.ubfe_body base offset bits =
  if ubfe_operands_defined offset bits
  then Value (ubfe_body base offset bits)
  else Undefined (if offset + bits <? 2 ^ 31 then shift_out_of_range
                  else signed_overflow).
Proof.
  intros Hb Ho Hbits.
  unfold Strict.ubfe_body, ubfe_body, ubfe_operands_defined.
  rewrite (cast_int32_id offset), (cast_int32_id bits),
    (cast_uint32_id base) by assumption.
  rewrite strict_c_add_int32.
  destruct (Z.eqb_spec bits 0) as [-> | Nb]; [reflexivity|].
  destruct (Z.ltb_spec bits 0) as [Lb | Lb].
  { destruct (Z.leb_spec bits 0); [reflexivity | lia]. }
  destruct (Z.ltb_spec offset 0) as [Lo | Lo].
  { cbn [orb]. rewrite orb_true_r. reflexivity. }
  destruct (Z.leb_spec bits 0); [lia|]. cbn [orb].
  destruct (Z.leb_spec (- 2 ^ 31) (offset + bits)); [|lia].
  destruct (Z.ltb_spec (offset + bits) (2 ^ 31)) as [Ls | Ls];
    cbn [andb Strict.bind]; [|reflexivity].
  rewrite c_add_int32_exact by lia.
  destruct (Z.ltb_spec (offset + bits) 32) as [L32 | L32]; cbn [orb].
  - destruct (strict_c_sub_int32 32 bits ltac:(lia)) as [S1 V1].
    destruct (strict_c_sub_int32 (32 - bits) offset ltac:(lia)) as [S2 V2].
    rewrite S1. cbn [Strict.bind]. rewrite S2. cbn [Strict.bind].
    rewrite V1, V2.
    unfold Strict.shl_u32, Strict.shr_u32.
    rewrite strict_shift_in by lia. cbn [Strict.bind].
    rewrite strict_shift_in by lia. reflexivity.
  - unfold Strict.shr_u32.
    destruct (Z.ltb_spec offset 32).
    + rewrite strict_shift_in by lia. reflexivity.
    + rewrite strict_shift_out by lia. reflexivity.
Qed.

Lemma strict_evaluate_ubitfield_extract dst nc bit_size src :
  Strict.evaluate_ubitfield_extract dst nc bit_size src =
  if all_lanes nc (ubitfield_extract_lane_defined src)
  then Value (evaluate_ubitfield_extract dst nc bit_size src)
  else Undefined signed_overflow.
Proof.
  unfold Strict.evaluate_ubitfield_extract, evaluate_ubitfield_extract.
  assert (B : forall j,
            Strict.ubitfield_extract_body (u32 (src_lane src 0 j))
              (i32 (src_lane src 1 j)) (i32 (src_lane src 2 j)) =
            if ubitfield_extract_lane_defined src j
            then Value (ubitfield_extract_body (u32 (src_lane src 0 j))
                          (i32 (src_lane src 1 j)) (i32 (src_lane src 2 j)))
            else Undefined signed_overflow).
  { intros j. apply strict_ubitfield_extract_body;
      [apply u32_range | apply i32_range | apply i32_range]. }
  destruct (all_lanes nc (ubitfield_extract_lane_defined src)) eqn:A.
  - rewrite (strict_bitfield_lanes_value _ ubitfield_extract_body);
      [reflexivity|].
    intros j Hj. rewrite all_lanes_true in A. now rewrite B, (A j Hj).
  - unfold Strict.bitfield_lanes.
    rewrite (strict_per_lane_undefined _ _ _ signed_overflow);
      [reflexivity | |].
    + intros j Hj. cbv zeta. rewrite B.
      destruct (ubitfield_extract_lane_defined src j);
        [right; eexists; reflexivity | left; reflexivity].
    + destruct (all_lanes_false _ _ A) as (j & Hj & F). exists j.
      split; [exact Hj|]. cbv zeta. now rewrite B, F.
Qed.

(** In the wrap-around reading the shift [1ull << n] by 64 or more leaves
    no bit in the 64 bits of the result. *)
Lemma shl_1ull_high n : 64 <= n -> shl_1ull n = 0.
Proof.
  intros H. unfold shl_1ull, cast, zext. cbn [is_signed sizeof].
  change (8 * 8) with 64.
  rewrite Z.shiftl_1_l. replace n with (64 + (n - 64)) by lia.
  rewrite Z.pow_add_r by lia. rewrite Z.mul_comm. apply Z.mod_mul.
  apply Z.pow_nonzero; lia.
Qed.

Lemma ubitfield_extract_body_wrapped :
  ubitfield_extract_body 4294967295 1 2147483647 = 2147483647.
Proof.
  unfold ubitfield_extract_body.
  change (cast int32_t 2147483647) with 2147483647.
  change (cast int32_t 1) with 1.
  change (cast uint32_t 4294967295) with 4294967295.
  change (c_add int32_t 1 2147483647) with (-2147483648).
  change (2147483647 =? 0) with false.
  change ((2147483647 <? 0) || (1 <? 0) || (-2147483648 >? 32)) with false.
  cbv iota.
  assert (G : 64 <= 2147483647) by lia.
  pose proof (shl_1ull_high 2147483647 G) as E.
  rewrite E. reflexivity.
Qed.

(** C5.  [ubitfield_extract] yields 0 for every base when [bits == 0] and
    when [bits < 0], [offset < 0] or [offset + bits > 32], in every
    invocation whose lanes keep the sum [offset + bits], where the
    evaluator forms it, within the range of [int]; in particular for
    [offset = 30] and [bits = 8].  A lane that reaches the sum with
    operands whose sum exceeds [INT_MAX] overflows the signed addition of
    the range test, and the invocation is undefined: with offset 1 and
    bits [INT_MAX], where the specification promises 0, nothing is
    guaranteed, and in the wrap-around reading the test fails and the
    lane is the base shifted right by 1. *)
Theorem ubitfield_extract_out_of_range dst nc bit_size src :
  (all_lanes nc (ubitfield_extract_lane_defined src) = true ->
   exists dst',
     Strict.evaluate_ubitfield_extract dst nc bit_size src
     = Value (Done dst') /\
     length dst' = length dst /\
     forall i, (i < nc)%nat -> (i < length dst)%nat ->
       let offset := i32 (src_lane src 1 i) in
       let bits := i32 (src_lane src 2 i) in
       (bits = 0 -> u32 (lane dst' i) = 0) /\
       (bits < 0 \/ offset < 0 \/ 32 < offset + bits ->
        u32 (lane dst' i) = 0) /\
       (offset = 30 -> bits = 8 -> u32 (lane dst' i) = 0)) /\
  (all_lanes nc (ubitfield_extract_lane_defined src) = false ->
   Strict.evaluate_ubitfield_extract dst nc bit_size src
   = Undefined signed_overflow) /\
  (forall j,
     ubitfield_extract_lane_defined src j = false <->
     0 < i32 (src_lane src 2 j) /\ 0 <= i32 (src_lane src 1 j) /\
     2 ^ 31 <= i32 (src_lane src 1 j) + i32 (src_lane src 2 j)) /\
  Strict.evaluate_ubitfield_extract [0] 1 32
    [[4294967295]; [1]; [2147483647]] = Undefined signed_overflow /\
  evaluate_ubitfield_extract [0] 1 32 [[4294967295]; [1]; [2147483647]]
  = Done [2147483647].
Proof.
  rewrite strict_evaluate_ubitfield_extract.
  split; [|split; [|split; [|split]]].
  - intros A. rewrite A. eexists. split; [reflexivity|].
    split; [apply per_lane_length|].
    intros i Hn Hl offset bits.
    rewrite bitfield_lanes_lane by assumption. fold offset bits.
    rewrite all_lanes_true in A. specialize (A i Hn).
    unfold ubitfield_extract_lane_defined, extract_operands_defined in A.
    fold offset bits in A.
    pose proof (i32_range (src_lane src 1 i)) as Ho.
    pose proof (i32_range (src_lane src 2 i)) as Hb.
    fold offset in Ho. fold bits in Hb.
    set (base := u32 (src_lane src 0 i)). clearbody base offset bits.
    assert (Z : bits = 0 \/ bits < 0 \/ offset < 0 \/ 32 < offset + bits ->
                cast uint32_t (ubitfield_extract_body base offset bits) = 0).
    { intros H. rewrite ubitfield_extract_body_zero; try assumption;
        [reflexivity|].
      destruct H as [H | [H | [H | H]]]; auto.
      destruct (Z.leb_spec bits 0); [lia|].
      destruct (Z.ltb_spec offset 0); [lia|].
      cbn [orb] in A. apply Z.ltb_lt in A.
      rewrite c_add_int32_exact by lia. auto. }
    split; [auto|]. split; [intuition|].
    intros -> ->. apply Z. lia.
  - intros A. rewrite A. reflexivity.
  - intros j.
    unfold ubitfield_extract_lane_defined, extract_operands_defined.
    rewrite !orb_false_iff, Z.leb_gt, !Z.ltb_ge. tauto.
  - reflexivity.
  - unfold evaluate_ubitfield_extract, bitfield_lanes.
    rewrite per_lane_1. cbn [upd].
    change (u32 (src_lane [[4294967295]; [1]; [2147483647]] 0 0))
      with 4294967295.
    change (i32 (src_lane [[4294967295]; [1]; [2147483647]] 1 0)) with 1.
    change (i32 (src_lane [[4294967295]; [1]; [2147483647]] 2 0))
      with 2147483647.
    pose proof ubitfield_extract_body_wrapped as E. rewrite E. reflexivity.
Qed.

Lemma ubitfield_extract_out_of_range_witness :
  all_lanes 3 (ubitfield_extract_lane_defined
                 [[4294967295; 4294967295; 4294967295];
                  [30; 4294967295; 4]; [8; 5; 0]]) = true /\
  exists dst',
    Strict.evaluate_ubitfield_extract [7; 7; 7] 3 32
      [[4294967295; 4294967295; 4294967295]; [30; 4294967295; 4]; [8; 5; 0]]
    = Value (Done dst') /\
    length dst' = length [7; 7; 7] /\
    forall i, (i < 3)%nat -> (i < length [7; 7; 7])%nat ->
      let offset :=
        i32 (src_lane [[4294967295; 4294967295; 4294967295];
                       [30; 4294967295; 4]; [8; 5; 0]] 1 i) in
      let bits :=
        i32 (src_lane [[4294967295; 4294967295; 4294967295];
                       [30; 4294967295; 4]; [8; 5; 0]] 2 i) in
      (bits = 0 -> u32 (lane dst' i) = 0) /\
      (bits < 0 \/ offset < 0 \/ 32 < offset + bits ->
       u32 (lane dst' i) = 0) /\
      (offset = 30 -> bits = 8 -> u32 (lane dst' i) = 0).
Proof.
  assert (H : all_lanes 3 (ubitfield_extract_lane_defined
                             [[4294967295; 4294967295; 4294967295];
                              [30; 4294967295; 4]; [8; 5; 0]]) = true)
    by reflexivity.
  split; [exact H|].
  exact (proj1 (ubitfield_extract_out_of_range [7; 7; 7] 3%nat 32
                  [[4294967295; 4294967295; 4294967295];
                   [30; 4294967295; 4]; [8; 5; 0]]) H).
Defined.

Lemma strict_evaluate_ubfe dst nc bit_size src :
  (all_lanes nc (ubfe_lane_defined src) = true ->
   Strict.evaluate_ubfe dst nc bit_size src =
   Value (evaluate_ubfe dst nc bit_size src)) /\
  (all_lanes nc (ubfe_lane_defined src) = false ->
   exists u, Strict.evaluate_ubfe dst nc bit_size src = Undefined u).
Proof.
  unfold Strict.evaluate_ubfe, evaluate_ubfe.
  assert (B : forall j,
            Strict.ubfe_body (u32 (src_lane src 0 j))
              (i32 (src_lane src 1 j)) (i32 (src_lane src 2 j)) =
            if ubfe_lane_defined src j
            then Value (ubfe_body (u32 (src_lane src 0 j))
                          (i32 (src_lane src 1 j)) (i32 (src_lane src 2 j)))
            else Undefined
                   (if i32 (src_lane src 1 j) + i32 (src_lane src 2 j)
                       <? 2 ^ 31
                    then shift_out_of_range else signed_overflow)).
  { intros j. apply strict_ubfe_body;
      [apply u32_range | apply i32_range | apply i32_range]. }
  split; intros A.
  - rewrite (strict_bitfield_lanes_value _ ubfe_body); [reflexivity|].
    intros j Hj. rewrite all_lanes_true in A. now rewrite B, (A j Hj).
  - destruct (all_lanes_false _ _ A) as (j & Hj & F).
    specialize (B j). rewrite F in B.
    destruct (strict_bitfield_lanes_undefined _ dst nc src j _ Hj B)
      as (u & ->).
    exists u. reflexivity.
Qed.

(** Where the field lies inside the 32 bits, the two shifts of [ubfe]
    extract it: the result is the base divided by [2^offset], reduced
    modulo [2^bits]. *)
Lemma ubfe_field base offset bits :
  0 <= base < 2 ^ 32 -> 0 < bits -> 0 <= offset -> offset + bits < 32 ->
  shr_u32 (shl_u32 base (32 - bits - offset)) (32 - bits) =
  (base / 2 ^ offset) mod 2 ^ bits.
Proof.
  intros Hb Hbits Ho Hs. apply u32_bits_inj.
  - apply cast_u32_range.
  - assert (0 < 2 ^ bits) by (apply Z.pow_pos_nonneg; lia).
    assert (2 ^ bits <= 2 ^ 32) by (apply Z.pow_le_mono_r; lia).
    pose proof (Z.mod_pos_bound (base / 2 ^ offset) (2 ^ bits)). lia.
  - intros n Hn. unfold shr_u32, shl_u32.
    rewrite testbit_cast_u32, Z.shiftr_spec, testbit_cast_u32,
      testbit_shiftl_any by lia.
    replace (n + (32 - bits) - (32 - bits - offset)) with (n + offset)
      by lia.
    destruct (Z.ltb_spec n bits).
    + rewrite Z.mod_pow2_bits_low by lia.
      rewrite <- Z.shiftr_div_pow2, Z.shiftr_spec by lia.
      destruct (Z.ltb_spec n 32), (Z.ltb_spec (n + (32 - bits)) 32),
        (Z.leb_spec 0 (n + (32 - bits))); first [lia | reflexivity].
    + rewrite Z.mod_pow2_bits_high by lia.
      destruct (Z.ltb_spec (n + (32 - bits)) 32); [lia|].
      cbn [andb]. apply andb_false_r.
Qed.

Lemma ubfe_body_value base offset bits :
  0 <= base < 2 ^ 32 ->
  - 2 ^ 31 <= offset < 2 ^ 31 -> - 2 ^ 31 <= bits < 2 ^ 31 ->
  (bits = 0 \/ bits < 0 \/ offset < 0 -> ubfe_body base offset bits = 0) /\
  (0 < bits -> 0 <= offset -> 32 <= offset + bits < 2 ^ 31 ->
   ubfe_body base offset bits = base / 2 ^ offset) /\
  (0 < bits -> 0 <= offset -> offset + bits < 32 ->
   ubfe_body base offset bits = (base / 2 ^ offset) mod 2 ^ bits).
Proof.
  intros Hb Ho Hbits. unfold ubfe_body.
  rewrite (cast_int32_id offset), (cast_int32_id bits),
    (cast_uint32_id base) by assumption.
  split; [|split].
  - intros H. destruct (Z.eqb_spec bits 0); [reflexivity|].
    destruct (Z.ltb_spec bits 0); [reflexivity|].
    destruct (Z.ltb_spec offset 0); [reflexivity|]. lia.
  - intros H1 H2 H3.
    destruct (Z.eqb_spec bits 0); [lia|].
    destruct (Z.ltb_spec bits 0); [lia|].
    destruct (Z.ltb_spec offset 0); [lia|]. cbn [orb].
    rewrite c_add_int32_exact by lia.
    destruct (Z.ltb_spec (offset + bits) 32); [lia|].
    now apply shr_u32_div.
  - intros H1 H2 H3.
    destruct (Z.eqb_spec bits 0); [lia|].
    destruct (Z.ltb_spec bits 0); [lia|].
    destruct (Z.ltb_spec offset 0); [lia|]. cbn [orb].
    rewrite c_add_int32_exact by lia.
    destruct (Z.ltb_spec (offset + bits) 32); [|lia].
    destruct (strict_c_sub_int32 32 bits ltac:(lia)) as [_ V1].
    destruct (strict_c_sub_int32 (32 - bits) offset ltac:(lia)) as [_ V2].
    rewrite V1, V2. now apply ubfe_field.
Qed.

Lemma cast_ubfe_body base offset bits :
  cast uint32_t (ubfe_body base offset bits) = ubfe_body base offset bits.
Proof.
  unfold ubfe_body.
  repeat match goal with
         | |- context [if ?c then _ else _] => destruct c
         end;
    try reflexivity; unfold shr_u32; apply cast_uint32_id, cast_u32_range.
Qed.

(** C10.  In every invocation of [ubfe] whose lanes perform defined
    operations only: [bits == 0], [bits < 0] or [offset < 0] yields the
    constant 0; [bits > 0], [offset >= 0] and [offset + bits >= 32] yields
    [base >> offset], the base divided by [2^offset], where
    [ubitfield_extract] yields 0; a field inside the 32 bits is extracted;
    and whenever [bits > 0] and [offset >= 0], bit 0 of the result is bit
    [offset] of the base, so only [bits == 0] or a negative operand yields
    0 whatever the base.  The shift [base >> offset] has no behaviour for
    [offset >= 32], nor has the sum [offset + bits] above [INT_MAX]: with
    [bits > 0] an invocation with such a lane is undefined, as on offset
    32 and bits 1, where the specification describes the base shifted
    right by 32. *)
Theorem ubfe_shifts_when_field_exceeds_width dst nc bit_size src :
  (all_lanes nc (ubfe_lane_defined src) = true ->
   exists dst',
     Strict.evaluate_ubfe dst nc bit_size src = Value (Done dst') /\
     length dst' = length dst /\
     forall i, (i < nc)%nat -> (i < length dst)%nat ->
       let base := u32 (src_lane src 0 i) in
       let offset := i32 (src_lane src 1 i) in
       let bits := i32 (src_lane src 2 i) in
       (bits = 0 \/ bits < 0 \/ offset < 0 -> u32 (lane dst' i) = 0) /\
       (0 < bits -> 0 <= offset -> 32 <= offset + bits ->
        offset < 32 /\ u32 (lane dst' i) = base / 2 ^ offset) /\
       (0 < bits -> 0 <= offset -> offset + bits < 32 ->
        u32 (lane dst' i) = (base / 2 ^ offset) mod 2 ^ bits) /\
       (0 < bits -> 0 <= offset ->
        Z.testbit (u32 (lane dst' i)) 0 = Z.testbit base offset /\
        (Z.testbit base offset = true -> u32 (lane dst' i) <> 0))) /\
  (all_lanes nc (ubfe_lane_defined src) = false ->
   exists u, Strict.evaluate_ubfe dst nc bit_size src = Undefined u) /\
  (forall j,
     ubfe_lane_defined src j = false <->
     0 < i32 (src_lane src 2 j) /\ 0 <= i32 (src_lane src 1 j) /\
     (2 ^ 31 <= i32 (src_lane src 1 j) + i32 (src_lane src 2 j) \/
      32 <= i32 (src_lane src 1 j))) /\
  Strict.evaluate_ubfe [0] 1 32 [[4294967295]; [32]; [1]]
  = Undefined shift_out_of_range /\
  Strict.evaluate_ubfe [0] 1 32 [[4294967295]; [31]; [2147483647]]
  = Undefined signed_overflow /\
  Strict.evaluate_ubfe [0] 1 32 [[4294967295]; [30]; [8]]
  = Value (Done [3]) /\
  Strict.evaluate_ubitfield_extract [0] 1 32 [[4294967295]; [30]; [8]]
  = Value (Done [0]).
Proof.
  destruct (strict_evaluate_ubfe dst nc bit_size src) as [V U].
  split; [|split; [exact U|split; [|repeat split]]].
  - intros A. rewrite (V A). eexists. split; [reflexivity|].
    split; [apply per_lane_length|].
    intros i Hn Hl base offset bits.
    rewrite bitfield_lanes_lane by assumption. fold base offset bits.
    rewrite cast_ubfe_body.
    rewrite all_lanes_true in A. specialize (A i Hn).
    unfold ubfe_lane_defined, ubfe_operands_defined in A.
    fold offset bits in A.
    pose proof (i32_range (src_lane src 1 i)) as Ho.
    pose proof (i32_range (src_lane src 2 i)) as Hb.
    pose proof (u32_range (src_lane src 0 i)) as Hu.
    fold offset in Ho. fold bits in Hb. fold base in Hu.
    clearbody base offset bits.
    destruct (ubfe_body_value base offset bits Hu Ho Hb) as (Z0 & Hi & Lo).
    assert (D : 0 < bits -> 0 <= offset ->
                offset + bits < 2 ^ 31 /\ (offset + bits < 32 \/ offset < 32)).
    { intros H1 H2.
      destruct (Z.leb_spec bits 0); [lia|].
      destruct (Z.ltb_spec offset 0); [lia|]. cbn [orb] in A.
      apply andb_true_iff in A. destruct A as [A1 A2].
      apply Z.ltb_lt in A1. apply orb_true_iff in A2.
      rewrite !Z.ltb_lt in A2. auto. }
    split; [exact Z0|]. split; [|split].
    + intros H1 H2 H3. destruct (D H1 H2) as [D1 D2].
      split; [lia | apply Hi; lia].
    + exact Lo.
    + intros H1 H2. destruct (D H1 H2) as [D1 D2].
      assert (B : Z.testbit (ubfe_body base offset bits) 0
                  = Z.testbit base offset).
      { destruct (Z_lt_le_dec (offset + bits) 32).
        - rewrite Lo by assumption.
          rewrite Z.mod_pow2_bits_low by lia.
          rewrite <- Z.shiftr_div_pow2, Z.shiftr_spec by lia. reflexivity.
        - rewrite Hi by lia.
          rewrite <- Z.shiftr_div_pow2, Z.shiftr_spec by lia. reflexivity. }
      split; [exact B|].
      intros T E. rewrite E, T in B. discriminate B.
  - intros j. unfold ubfe_lane_defined, ubfe_operands_defined.
    rewrite !orb_false_iff, andb_false_iff, orb_false_iff, Z.leb_gt,
      !Z.ltb_ge. lia.
Qed.

Lemma ubfe_shifts_when_field_exceeds_width_witness :
  all_lanes 3 (ubfe_lane_defined
                 [[4294967295; 4294967295; 2748]; [30; 31; 4]; [8; 1; 4]])
  = true /\
  exists dst',
    Strict.evaluate_ubfe [0; 0; 0] 3 32
      [[4294967295; 4294967295; 2748]; [30; 31; 4]; [8; 1; 4]]
    = Value (Done dst') /\
    length dst' = length [0; 0; 0] /\
    forall i, (i < 3)%nat -> (i < length [0; 0; 0])%nat ->
      let base :=
        u32 (src_lane [[4294967295; 4294967295; 2748];
                       [30; 31; 4]; [8; 1; 4]] 0 i) in
      let offset :=
        i32 (src_lane [[4294967295; 4294967295; 2748];
                       [30; 31; 4]; [8; 1; 4]] 1 i) in
      let bits :=
        i32 (src_lane [[4294967295; 4294967295; 2748];
                       [30; 31; 4]; [8; 1; 4]] 2 i) in
      (bits = 0 \/ bits < 0 \/ offset < 0 -> u32 (lane dst' i) = 0) /\
      (0 < bits -> 0 <= offset -> 32 <= offset + bits ->
       offset < 32 /\ u32 (lane dst' i) = base / 2 ^ offset) /\
      (0 < bits -> 0 <= offset -> offset + bits < 32 ->
       u32 (lane dst' i) = (base / 2 ^ offset) mod 2 ^ bits) /\
      (0 < bits -> 0 <= offset ->
       Z.testbit (u32 (lane dst' i)) 0 = Z.testbit base offset /\
       (Z.testbit base offset = true -> u32 (lane dst' i) <> 0)).
Proof.
  assert (H : all_lanes 3 (ubfe_lane_defined
                             [[4294967295; 4294967295; 2748];
                              [30; 31; 4]; [8; 1; 4]]) = true)
    by reflexivity.
  split; [exact H|].
  exact (proj1 (ubfe_shifts_when_field_exceeds_width [0; 0; 0] 3%nat 32
                  [[4294967295; 4294967295; 2748]; [30; 31; 4]; [8; 1; 4]])
           H).
Defined.

(** ** Saturating signed addition and subtraction *)

Lemma strict_arith_lane t s :
  lane_signed t = true ->
  (width t < 32 -> - 2 ^ 31 <= s < 2 ^ 31) ->
  Strict.arith (promote (ctype_of t)) s =
  if sum_fits (width t) s then Value s else Undefined signed_overflow.
Proof.
  intros Hs Hr. destruct t; try discriminate Hs;
    unfold Strict.arith, Strict.fits, sum_fits;
    cbn [ctype_of promote is_signed width Z.eqb Pos.eqb orb negb] in *;
    unfold_int; try specialize (Hr ltac:(lia));
    cases; try reflexivity; zmod.
Qed.

Lemma narrow_sum_range t a c :
  lane_signed t = true -> width t < 32 -> in_range t a -> in_range t c ->
  - 2 ^ 31 <= a + c < 2 ^ 31 /\ - 2 ^ 31 <= a - c < 2 ^ 31.
Proof.
  intros Hs Hw. destruct t; try discriminate Hs; cbn [width] in Hw;
    try lia; unfold_int; lia.
Qed.

(** Both evaluators compute the exact sum or difference where that is
    defined: neither test of the expression holds then. *)
Lemma strict_isub_sat_expr t a c :
  lane_signed t = true -> in_range t a -> in_range t c ->
  Strict.isub_sat_expr t (width t) a c =
  if sum_fits (width t) (a - c) then Value (cast uint64_t (a - c))
  else Undefined signed_overflow.
Proof.
  intros Hs Ha Hc. unfold Strict.isub_sat_expr, Strict.c_sub.
  rewrite strict_arith_lane
    by (auto; intros; now apply (narrow_sum_range t a c)).
  destruct (sum_fits (width t) (a - c)); cbn [Strict.bind].
  - destruct (Z.ltb_spec c 0).
    + destruct (Z.ltb_spec (a - c) a); [lia | reflexivity].
    + destruct (Z.ltb_spec a (a - c)); [lia | reflexivity].
  - destruct (c <? 0); reflexivity.
Qed.

Lemma strict_iadd_sat_expr t a c :
  lane_signed t = true -> in_range t a -> in_range t c ->
  Strict.iadd_sat_expr t (width t) a c =
  if sum_fits (width t) (a + c) then Value (cast uint64_t (a + c))
  else Undefined signed_overflow.
Proof.
  intros Hs Ha Hc. unfold Strict.iadd_sat_expr, Strict.c_add.
  rewrite strict_arith_lane
    by (auto; intros; now apply (narrow_sum_range t a c)).
  rewrite Z.gtb_ltb.
  destruct (sum_fits (width t) (a + c)); cbn [Strict.bind].
  - destruct (Z.ltb_spec 0 c).
    + destruct (Z.ltb_spec (a + c) a); [lia | reflexivity].
    + destruct (Z.ltb_spec a (a + c)); [lia | reflexivity].
  - destruct (0 <? c); reflexivity.
Qed.

Lemma wrap_cast_ull t s :
  lane_signed t = true ->
  wrap t (cast (ctype_of t) (cast uint64_t s)) = sext (width t) s.
Proof.
  intros Hs. destruct t; try discriminate Hs; unfold_int; zmod.
Qed.

Lemma sum_fits_exact W s :
  In W widths_int ->
  (W = 32 \/ W = 64 -> sum_fits W s = true ->
   smin W <= s <= smax W /\ sext W s = s) /\
  (W = 1 \/ W = 8 \/ W = 16 -> sum_fits W s = true).
Proof.
  intros HW. apply In_widths_int in HW. split.
  - intros Hwide F. assert (R : smin W <= s <= smax W).
    { unfold sum_fits in F.
      destruct Hwide as [-> | ->]; cbn [Z.eqb Pos.eqb orb negb] in F;
        apply andb_true_iff in F; rewrite !Z.leb_le in F; exact F. }
    split; [exact R|].
    destruct Hwide as [-> | ->]; unfold smin, smax, sext in *; zmod.
  - intros [-> | [-> | ->]]; reflexivity.
Qed.

Lemma sum_fits_false W s :
  In W widths_int ->
  sum_fits W s = false <->
  (W = 32 \/ W = 64) /\ (s < smin W \/ smax W < s).
Proof.
  intros HW. apply In_widths_int in HW. unfold sum_fits.
  destruct HW as [-> | [-> | [-> | [-> | ->]]]];
    cbn [Z.eqb Pos.eqb orb negb];
    rewrite ?andb_false_iff, ?Z.leb_gt;
    intuition (try discriminate; try lia).
Qed.

Lemma strict_evaluate_sat (sub : bool) W dst nc src :
  In W widths_int ->
  let t := sint_lane W in
  let op := if sub then Z.sub else Z.add in
  let eval := if sub then Strict.evaluate_isub_sat
              else Strict.evaluate_iadd_sat in
  let ok := if sub then isub_sat_lane_defined W src
            else iadd_sat_lane_defined W src in
  eval dst nc W src =
  if all_lanes nc ok
  then Value (Done (lanewise2 t (fun a c => cast uint64_t (op a c))
                      dst nc src))
  else Undefined signed_overflow.
Proof.
  intros HW t op eval ok.
  destruct (sint_lane_props W HW) as [Hs Hw]. fold t in Hs, Hw.
  assert (E : eval dst nc W src =
              Strict.bind
                (Strict.lanewise2 t
                   (if sub then Strict.isub_sat_expr t W
                    else Strict.iadd_sat_expr t W) dst nc src)
                (fun d => Value (Done d))).
  { unfold eval, Strict.evaluate_isub_sat, Strict.evaluate_iadd_sat.
    destruct sub; rewrite strict_int_switch by assumption; reflexivity. }
  rewrite E.
  rewrite (strict_lanewise2 t _ (fun a c => cast uint64_t (op a c))
             (fun a c => sum_fits W (op a c)) signed_overflow).
  - assert (K : (fun j => sum_fits W (op (rd t (src_lane src 0 j))
                                        (rd t (src_lane src 1 j)))) = ok)
      by (unfold ok, op; destruct sub; reflexivity).
    rewrite K. destruct (all_lanes nc ok); reflexivity.
  - intros a c Ha Hc. unfold op. destruct sub.
    + pose proof (strict_isub_sat_expr t a c Hs Ha Hc) as P.
      rewrite Hw in P. exact P.
    + pose proof (strict_iadd_sat_expr t a c Hs Ha Hc) as P.
      rewrite Hw in P. exact P.
Qed.

(** X12.  [isub_sat] and [iadd_sat] reach their saturation branch only
    through a signed subtraction or addition that has overflowed.  At bit
    sizes 32 and 64, where the operation is performed in the lane type,
    an invocation in which the exact difference (sum) of every lane is a
    value of the width returns it unchanged, and every other invocation
    is undefined; at bit sizes 1, 8 and 16, where it is performed in
    [int], every invocation is defined and the stored lane is the
    difference (sum) reduced modulo 2^W.  The saturated bound is never
    the result of a defined evaluation that needed it. *)
Theorem signed_saturation_only_through_overflow W dst nc src
    (HW : In W widths_int) :
  let t := sint_lane W in
  ((all_lanes nc (isub_sat_lane_defined W src) = true ->
    exists d,
      Strict.evaluate_isub_sat dst nc W src = Value (Done d) /\
      length d = length dst /\
      forall i, (i < nc)%nat -> (i < length dst)%nat ->
        rd t (lane d i) =
        sext W (rd t (src_lane src 0 i) - rd t (src_lane src 1 i))) /\
   (all_lanes nc (isub_sat_lane_defined W src) = false ->
    Strict.evaluate_isub_sat dst nc W src = Undefined signed_overflow)) /\
  ((all_lanes nc (iadd_sat_lane_defined W src) = true ->
    exists d,
      Strict.evaluate_iadd_sat dst nc W src = Value (Done d) /\
      length d = length dst /\
      forall i, (i < nc)%nat -> (i < length dst)%nat ->
        rd t (lane d i) =
        sext W (rd t (src_lane src 0 i) + rd t (src_lane src 1 i))) /\
   (all_lanes nc (iadd_sat_lane_defined W src) = false ->
    Strict.evaluate_iadd_sat dst nc W src = Undefined signed_overflow)) /\
  (forall s,
     (sum_fits W s = false <->
      (W = 32 \/ W = 64) /\ (s < smin W \/ smax W < s)) /\
     (W = 32 \/ W = 64 -> sum_fits W s = true -> sext W s = s)) /\
  Strict.evaluate_isub_sat [0] 1 32 [[2147483648]; [1]]
  = Undefined signed_overflow /\
  Strict.evaluate_iadd_sat [0] 1 32 [[2147483647]; [1]]
  = Undefined signed_overflow /\
  Strict.evaluate_iadd_sat [0] 1 8 [[127]; [1]] = Value (Done [128]) /\
  i8 128 = -128.
Proof.
  intros t.
  destruct (sint_lane_props W HW) as [Hs Hw]. fold t in Hs, Hw.
  pose proof (strict_evaluate_sat true W dst nc src HW) as Esub.
  pose proof (strict_evaluate_sat false W dst nc src HW) as Eadd.
  cbv zeta in Esub, Eadd. fold t in Esub, Eadd.
  assert (L : forall op i, (i < nc)%nat -> (i < length dst)%nat ->
            rd t (lane (lanewise2 t (fun a c => cast uint64_t (op a c))
                          dst nc src) i) =
            sext W (op (rd t (src_lane src 0 i)) (rd t (src_lane src 1 i)))).
  { intros op i Hn Hl. rewrite lanewise2_lane, rd_wr by assumption.
    rewrite wrap_cast_ull by assumption. now rewrite Hw. }
  split; [|split; [|split; [|repeat split]]].
  - rewrite Esub. split; intros A; rewrite A; [|reflexivity].
    eexists. split; [reflexivity|]. split; [apply lanewise2_length|].
    intros i Hn Hl. apply (L Z.sub i Hn Hl).
  - rewrite Eadd. split; intros A; rewrite A; [|reflexivity].
    eexists. split; [reflexivity|]. split; [apply lanewise2_length|].
    intros i Hn Hl. apply (L Z.add i Hn Hl).
  - intros s. split; [now apply sum_fits_false|].
    intros Hwide F. now apply (sum_fits_exact W s HW).
Qed.

Lemma signed_saturation_only_through_overflow_witness :
  In 8 widths_int /\
  all_lanes 2 (isub_sat_lane_defined 8 [[128; 5]; [1; 7]]) = true /\
  exists d,
    Strict.evaluate_isub_sat [0; 0] 2 8 [[128; 5]; [1; 7]]
    = Value (Done d) /\
    length d = length [0; 0] /\
    forall i, (i < 2)%nat -> (i < length [0; 0])%nat ->
      rd int8 (lane d i) =
      sext 8 (rd int8 (src_lane [[128; 5]; [1; 7]] 0 i)
              - rd int8 (src_lane [[128; 5]; [1; 7]] 1 i)).
Proof.
  assert (H : In 8 widths_int) by in_list.
  assert (A : all_lanes 2 (isub_sat_lane_defined 8 [[128; 5]; [1; 7]])
              = true) by reflexivity.
  split; [exact H|]. split; [exact A|].
  exact (proj1 (proj1 (signed_saturation_only_through_overflow 8 [0; 0]
                         2%nat [[128; 5]; [1; 7]] H)) A).
Defined.
